(** * SkGpuBlurUtils: the GPU Gaussian blur planner and orchestrator

    A shallow embedding of [SkGpuBlurUtils.cpp]: the sigma planner
    [adjust_sigma], the pixel-config choice [get_blur_config], the
    decimation, convolution and re-expansion stages and the public entry
    point [GaussianBlur].

    - C [float] is IEEE-754 binary32, given by the Standard Library's
      executable specification [SpecFloat] at precision 24 and maximal
      exponent 128.
    - C [int] is a 32-bit two's complement integer, carried in [Z] with
      the wrap-around of the arithmetic written out ([wrap32]).
    - The GPU layer (render-target allocation, draws, clears, texture
      proxies) is an external collaborator: every operation on it is
      recorded in an event log, and an oracle decides which allocations
      and proxy extractions succeed. *)

From Stdlib Require Import ZArith Lia List Bool.
From Stdlib Require Import Floats.SpecFloat.
Import ListNotations.

Local Open Scope Z_scope.

(** ** 32-bit integers *)

Module Int32.

Definition min_int : Z := - 2 ^ 31.
Definition max_int : Z := 2 ^ 31 - 1.

(** The value an [int] register holds after an arithmetic result [z]. *)
Definition wrap32 (z : Z) : Z := (z + 2 ^ 31) mod 2 ^ 32 - 2 ^ 31.

Definition in_range (z : Z) : Prop := min_int <= z <= max_int.

(** Arithmetic of [int]: the mathematical result, wrapped. *)
Definition iadd (a b : Z) : Z := wrap32 (a + b).
Definition isub (a b : Z) : Z := wrap32 (a - b).
Definition imul (a b : Z) : Z := wrap32 (a * b).
Definition ineg (a : Z) : Z := wrap32 (- a).

End Int32.

(** ** binary32 floating point *)

(** C [float]. *)
Definition float : Type := spec_float.

Module F32.

Definition prec : Z := 24.
Definition emax : Z := 128.

Definition valid (x : float) : bool := valid_binary prec emax x.

Definition mul : float -> float -> float := SFmul prec emax.
Definition div : float -> float -> float := SFdiv prec emax.
Definition add : float -> float -> float := SFadd prec emax.
Definition sub : float -> float -> float := SFsub prec emax.

(** [x <= y] and [x > y] of C: false as soon as one side is NaN. *)
Definition leb (x y : float) : bool := SFleb x y.
Definition gtb (x y : float) : bool := SFltb y x.

(** Conversion of an [int] to [float] (round to nearest even). *)
Definition of_int (z : Z) : float := binary_normalize prec emax z 0 false.

Definition zero : float := S754_zero false.
Definition one : float := S754_finite false 8388608 (-23).
Definition half : float := S754_finite false 8388608 (-24).
Definition three : float := S754_finite false 12582912 (-22).
Definition four : float := S754_finite false 8388608 (-21).

(** Integer ceiling and floor of the real value of a finite float. *)
Definition Zceil_val (s : bool) (m : positive) (e : Z) : Z :=
  if 0 <=? e then (if s then - (Zpos m * 2 ^ e) else Zpos m * 2 ^ e)
  else if s then - (Zpos m / 2 ^ (- e))
       else - ((- Zpos m) / 2 ^ (- e)).

Definition Zfloor_val (s : bool) (m : positive) (e : Z) : Z :=
  if 0 <=? e then (if s then - (Zpos m * 2 ^ e) else Zpos m * 2 ^ e)
  else if s then (- Zpos m) / 2 ^ (- e)
       else Zpos m / 2 ^ (- e).

(** What the conversion to [int] leaves when the value has no [int]
    (NaN, an infinity, or out of range): C++ leaves it undefined; this is
    the "integer indefinite" value the x86 conversion produces. *)
Definition int_indefinite : Z := Int32.min_int.

Definition to_int_checked (z : Z) : Z :=
  if (Int32.min_int <=? z) && (z <=? Int32.max_int) then z else int_indefinite.

(** [static_cast<int>(ceilf(x))]: [ceilf] gives an integral float, whose
    conversion to [int] is exact whenever it is in range. *)
Definition ceilf_to_int (x : float) : Z :=
  match x with
  | S754_zero _ => 0
  | S754_finite s m e => to_int_checked (Zceil_val s m e)
  | _ => int_indefinite
  end.

(** [static_cast<int>(floorf(x))]. *)
Definition floorf_to_int (x : float) : Z :=
  match x with
  | S754_zero _ => 0
  | S754_finite s m e => to_int_checked (Zfloor_val s m e)
  | _ => int_indefinite
  end.

End F32.

Import Int32.

(** ** Geometry *)

(** Modelled from the spec: [SkIPoint], [SkIRect] ("integer rectangle") and
    [SkRect] are declared in [SkPoint.h] and [SkRect.h], which are outside
    this part of the repository. Only the members this file calls are given, with
    exact integer arithmetic on the coordinates. *)
Record SkIPoint : Type := MkIPoint { fX : Z; fY : Z }.

Record SkIRect : Type :=
  MkIRect { fLeft : Z; fTop : Z; fRight : Z; fBottom : Z }.

(** Modelled from the spec: [SkRect], the rectangle with [float]
    coordinates a draw is given. *)
Record SkRect : Type :=
  MkRect { rLeft : float; rTop : float; rRight : float; rBottom : float }.

(** Modelled from the spec: the members of [SkIRect] called here. A
    rectangle is empty when it has no positive width or no positive
    height. *)
Module IRect.

Definition MakeLTRB (l t r b : Z) : SkIRect := MkIRect l t r b.
Definition MakeXYWH (x y w h : Z) : SkIRect := MkIRect x y (x + w) (y + h).
Definition MakeWH (w h : Z) : SkIRect := MkIRect 0 0 w h.

Definition width (r : SkIRect) : Z := fRight r - fLeft r.
Definition height (r : SkIRect) : Z := fBottom r - fTop r.

Definition isEmpty (r : SkIRect) : bool :=
  (fRight r <=? fLeft r) || (fBottom r <=? fTop r).

Definition offset (r : SkIRect) (dx dy : Z) : SkIRect :=
  MkIRect (fLeft r + dx) (fTop r + dy) (fRight r + dx) (fBottom r + dy).

Definition offsetTo (r : SkIRect) (x y : Z) : SkIRect :=
  MkIRect x y (fRight r + (x - fLeft r)) (fBottom r + (y - fTop r)).

Definition inset (r : SkIRect) (dx dy : Z) : SkIRect :=
  MkIRect (fLeft r + dx) (fTop r + dy) (fRight r - dx) (fBottom r - dy).

End IRect.

(** Modelled from the spec: the members of [SkRect] called here. *)
Module Rect.

(** [SkRect::Make(const SkIRect&)] *)
Definition Make (r : SkIRect) : SkRect :=
  MkRect (F32.of_int (fLeft r)) (F32.of_int (fTop r))
         (F32.of_int (fRight r)) (F32.of_int (fBottom r)).

Definition inset (r : SkRect) (dx dy : float) : SkRect :=
  MkRect (F32.add (rLeft r) dx) (F32.add (rTop r) dy)
         (F32.sub (rRight r) dx) (F32.sub (rBottom r) dy).

End Rect.

(** Modelled from the spec: [SkScalarFloorToInt] and [SkScalarCeilToInt]
    ([SkScalar.h], outside this part of the repository), the roundings of
    "rounded-out". *)
Definition SkScalarFloorToInt (x : float) : Z := F32.floorf_to_int x.
Definition SkScalarCeilToInt (x : float) : Z := F32.ceilf_to_int x.

(** [rect->fLeft * xScale]: the [int] is converted to [float] first. *)
Definition int_times_float (a : Z) (x : float) : float :=
  F32.mul (F32.of_int a) x.

Definition scale_irect_roundout (rect : SkIRect) (xScale yScale : float)
  : SkIRect :=
  MkIRect (SkScalarFloorToInt (int_times_float (fLeft rect) xScale))
          (SkScalarFloorToInt (int_times_float (fTop rect) yScale))
          (SkScalarCeilToInt (int_times_float (fRight rect) xScale))
          (SkScalarCeilToInt (int_times_float (fBottom rect) yScale)).

Definition scale_irect (rect : SkIRect) (xScale yScale : Z) : SkIRect :=
  MkIRect (imul (fLeft rect) xScale) (imul (fTop rect) yScale)
          (imul (fRight rect) xScale) (imul (fBottom rect) yScale).

(** Modelled from the spec: [SkIsPow2] ([SkMath.h], outside this part of the
    repository), "power of two", as the bit test [(value & (value - 1)) == 0]. *)
Definition SkIsPow2 (value : Z) : bool := Z.land value (isub value 1) =? 0.

(** [!(x & 1)] *)
Definition is_even (x : Z) : bool := Z.land x 1 =? 0.

(** ** GPU objects *)

(** The pixel configs this file names; [kOther_GrPixelConfig] stands for
    every enumerator of [GrPixelConfig] it does not name. *)
Inductive GrPixelConfig : Type :=
| kBGRA_8888_GrPixelConfig
| kRGBA_8888_GrPixelConfig
| kRGB_888_GrPixelConfig
| kRGBA_4444_GrPixelConfig
| kRGB_565_GrPixelConfig
| kSRGBA_8888_GrPixelConfig
| kSBGRA_8888_GrPixelConfig
| kRGBA_half_GrPixelConfig
| kAlpha_8_GrPixelConfig
| kRGBA_1010102_GrPixelConfig
| kOther_GrPixelConfig (tag : nat).

Definition GrPixelConfig_eqb (a b : GrPixelConfig) : bool :=
  match a, b with
  | kBGRA_8888_GrPixelConfig, kBGRA_8888_GrPixelConfig
  | kRGBA_8888_GrPixelConfig, kRGBA_8888_GrPixelConfig
  | kRGB_888_GrPixelConfig, kRGB_888_GrPixelConfig
  | kRGBA_4444_GrPixelConfig, kRGBA_4444_GrPixelConfig
  | kRGB_565_GrPixelConfig, kRGB_565_GrPixelConfig
  | kSRGBA_8888_GrPixelConfig, kSRGBA_8888_GrPixelConfig
  | kSBGRA_8888_GrPixelConfig, kSBGRA_8888_GrPixelConfig
  | kRGBA_half_GrPixelConfig, kRGBA_half_GrPixelConfig
  | kAlpha_8_GrPixelConfig, kAlpha_8_GrPixelConfig
  | kRGBA_1010102_GrPixelConfig, kRGBA_1010102_GrPixelConfig => true
  | kOther_GrPixelConfig m, kOther_GrPixelConfig n => Nat.eqb m n
  | _, _ => false
  end.

(** A colour space object, by identity; [sk_sp<SkColorSpace>] is
    [option SkColorSpace], a null pointer being [None]. *)
Definition SkColorSpace : Type := nat.
(** [SkColorType] and [SkAlphaType], by enumerator value. *)
Definition SkColorType : Type := nat.
Definition SkAlphaType : Type := nat.

Inductive SkBackingFit : Type := kApprox | kExact.

Module GrTextureDomain.
Inductive Mode : Type := kIgnore_Mode | kClamp_Mode | kRepeat_Mode | kDecal_Mode.
Definition eqb (a b : Mode) : bool :=
  match a, b with
  | kIgnore_Mode, kIgnore_Mode | kClamp_Mode, kClamp_Mode
  | kRepeat_Mode, kRepeat_Mode | kDecal_Mode, kDecal_Mode => true
  | _, _ => false
  end.
End GrTextureDomain.
Import GrTextureDomain.

(** [GrGaussianConvolutionFragmentProcessor::Direction] *)
Inductive Direction : Type := kX | kY.

Record SkImageInfo : Type := MkImageInfo {
  ii_width : Z;
  ii_height : Z;
  ii_colorType : SkColorType;
  ii_alphaType : SkAlphaType;
  ii_colorSpace : option SkColorSpace
}.

Definition ii_bounds (ii : SkImageInfo) : SkIRect :=
  IRect.MakeWH (ii_width ii) (ii_height ii).

(** A texture proxy: the surface it views and its pixel config. *)
Record GrTextureProxy : Type := MkProxy {
  proxy_id : nat;
  proxy_config : GrPixelConfig
}.

(** A render target context, as [makeDeferredRenderTargetContext] made it:
    [width()] and [height()] are the dimensions asked for, whatever the
    fit. *)
Record GrRenderTargetContext : Type := MkRTC {
  rtc_id : nat;
  rtc_fit : SkBackingFit;
  rtc_width : Z;
  rtc_height : Z;
  rtc_config : GrPixelConfig;
  rtc_colorSpace : option SkColorSpace
}.

(** Modelled from the spec: [colorSpaceInfo().isGammaCorrect()], declared
    outside this part of the repository: the target has a colour space. *)
Definition isGammaCorrect (rtc : GrRenderTargetContext) : bool :=
  match rtc_colorSpace rtc with Some _ => true | None => false end.

(** [GrContext]: the part read here is [caps()->maxTextureSize()]. *)
Record GrContext : Type := MkContext { caps_maxTextureSize : Z }.

(** The colour fragment processor a paint carries. *)
Inductive GrFragmentProcessor : Type :=
| GaussianConvolution (proxy : GrTextureProxy) (direction : Direction)
    (radius : Z) (sigma : float) (mode : Mode) (bounds : Z * Z)
| MatrixConvolutionGaussian (proxy : GrTextureProxy) (srcBounds : SkIRect)
    (size : Z * Z) (gain bias : float) (kernelOffset : SkIPoint)
    (mode : Mode) (convolveAlpha : bool) (sigmaX sigmaY : float)
| TextureDomainBilerp (proxy : GrTextureProxy) (domain : SkRect) (mode : Mode)
| TextureClampBilerp (proxy : GrTextureProxy).

(** A paint with one colour fragment processor and [SkBlendMode::kSrc]. *)
Record GrPaint : Type := MkPaint {
  paint_gammaCorrect : bool;
  paint_processor : GrFragmentProcessor
}.

(** The static functions of the file, for the call trace. *)
Inductive Stage : Type :=
| Stage_convolve_gaussian_2d
| Stage_decimate
| Stage_convolve_gaussian (direction : Direction)
| Stage_reexpand.

(** What the GPU layer is asked to do, in the order it is asked. *)
Inductive GpuEvent : Type :=
| Enter (stage : Stage)
| MakeDeferredRenderTargetContext (fit : SkBackingFit) (width height : Z)
    (config : GrPixelConfig) (colorSpace : option SkColorSpace)
    (result : option nat)
| AsTextureProxyRef (target : nat) (ok : bool)
| Clear (target : nat) (rect : SkIRect)
| AbsClear (target : nat) (rect : SkIRect)
| FillRectWithLocalMatrix (target : nat) (clip : SkIRect) (paint : GrPaint)
    (rect : SkRect) (translate : float * float)
| FillRectToRect (target : nat) (clip : SkIRect) (paint : GrPaint)
    (rectToDraw localRect : SkRect).

(** ** Outcomes and the command monad *)

(** Outcome of a call: a returned value, a failed [SkASSERT] (which aborts
    a build with [SK_DEBUG]), a null pointer dereferenced, or a loop still
    running when the fuel of the model ran out. *)
Inductive outcome (A : Type) : Type :=
| Returned (a : A)
| AssertFailed
| NullDeref
| OutOfFuel.
Arguments Returned {A} a.
Arguments AssertFailed {A}.
Arguments NullDeref {A}.
Arguments OutOfFuel {A}.

(** The GPU layer's own state: the next fresh surface, and how many
    fallible requests it has answered. *)
Record GpuState : Type := MkGpu { next_id : nat; requests : nat }.

Definition M (A : Type) : Type :=
  GpuState -> outcome A * GpuState * list GpuEvent.

Definition ret {A} (a : A) : M A := fun s => (Returned a, s, []).

Definition bind {A B} (m : M A) (k : A -> M B) : M B :=
  fun s =>
    match m s with
    | (Returned a, s1, l1) =>
        let '(o, s2, l2) := k a s1 in (o, s2, l1 ++ l2)
    | (AssertFailed, s1, l1) => (AssertFailed, s1, l1)
    | (NullDeref, s1, l1) => (NullDeref, s1, l1)
    | (OutOfFuel, s1, l1) => (OutOfFuel, s1, l1)
    end.

(** A computation that ends with outcome [o], asking the GPU nothing. *)
Definition lift {A} (o : outcome A) : M A := fun s => (o, s, []).

Definition emit (e : GpuEvent) : M unit := fun s => (Returned tt, s, [e]).

Declare Scope blur_scope.
Delimit Scope blur_scope with blur.
Notation "x <- m ;; k" := (bind m (fun x => k))
  (at level 61, m at next level, right associativity) : blur_scope.
Notation "' pat <- m ;; k" := (bind m (fun x => match x with pat => k end))
  (at level 61, pat pattern, m at next level, right associativity) : blur_scope.
Notation "m ;;; k" := (bind m (fun _ => k))
  (at level 61, right associativity) : blur_scope.
Local Open Scope blur_scope.

Definition outcome_of {A} (r : outcome A * GpuState * list GpuEvent)
  : outcome A := fst (fst r).
Definition events_of {A} (r : outcome A * GpuState * list GpuEvent)
  : list GpuEvent := snd r.

Definition initial_gpu : GpuState := MkGpu 0 0.

(** ** The sigma planner *)

(** [#define MAX_BLUR_SIGMA 4.0f] *)
Definition MAX_BLUR_SIGMA : float := F32.four.

(** The [while (sigma > MAX_BLUR_SIGMA)] loop of [adjust_sigma]; one unit
    of fuel per iteration. *)
Fixpoint adjust_sigma_loop (fuel : nat) (maxTextureSize : Z)
    (sigma : float) (scaleFactor : Z) : option (float * Z) :=
  if F32.gtb sigma MAX_BLUR_SIGMA then
    match fuel with
    | O => None
    | S fuel' =>
        let scaleFactor := imul scaleFactor 2 in
        let sigma := F32.mul sigma F32.half in
        if scaleFactor >? maxTextureSize then
          adjust_sigma_loop fuel' maxTextureSize MAX_BLUR_SIGMA maxTextureSize
        else
          adjust_sigma_loop fuel' maxTextureSize sigma scaleFactor
    end
  else Some (sigma, scaleFactor).

(** The radius statement: [static_cast<int>(ceilf(sigma * 3.0f))]. *)
Definition sigma_radius (sigma : float) : Z :=
  F32.ceilf_to_int (F32.mul sigma F32.three).

(** ** What the file takes from elsewhere

    - [SK_DEBUG]: whether [SkASSERT] is compiled in.
    - [GrGaussianConvolutionFragmentProcessor::kMaxKernelRadius] and
      [MAX_KERNEL_SIZE] ([GrMatrixConvolutionEffect.h]): constants declared
      in headers outside this part of the repository.
    - [GrPixelConfigIsSRGB] and [GrPixelConfigToColorType], declared in
      [GrTypesPriv.h] and [SkGr.h]; the latter gives [None] where the C++
      function returns false.
    - [gpu_ok n]: the GPU layer's answer to its [n]-th fallible request (an
      allocation of a render target or the extraction of a texture
      proxy). *)
Class Externals : Type := MkExternals {
  SK_DEBUG : bool;
  kMaxKernelRadius : Z;
  MAX_KERNEL_SIZE : Z;
  GrPixelConfigIsSRGB : GrPixelConfig -> bool;
  GrPixelConfigToColorType : GrPixelConfig -> option SkColorType;
  gpu_ok : nat -> bool
}.

Section Blur.

Context {ext : Externals}.

(** [SkASSERT(cond)]: aborts in a debug build when [cond] is false, and is
    compiled out otherwise. *)
Definition SkASSERT (cond : bool) : M unit :=
  if negb SK_DEBUG || cond then ret tt else lift AssertFailed.

(** *** The GPU layer *)

(** Modelled from the spec: the renderer is an external collaborator with
    "allocate-render-target(fit, width, height, pixel-format, color-space)
    -> handle|failure; issue-fill-rect; issue-clear;
    get-texture-reference(render-target) -> texture handle". An allocation
    and the extraction of a proxy succeed or fail as the GPU layer decides;
    a proxy reports the config its surface was allocated with; draws and
    clears are recorded. *)

Definition makeDeferredRenderTargetContext (fit : SkBackingFit)
    (width height : Z) (config : GrPixelConfig)
    (colorSpace : option SkColorSpace) : M (option GrRenderTargetContext) :=
  fun s =>
    if gpu_ok (requests s) then
      (Returned (Some (MkRTC (next_id s) fit width height config colorSpace)),
       MkGpu (S (next_id s)) (S (requests s)),
       [MakeDeferredRenderTargetContext fit width height config colorSpace
          (Some (next_id s))])
    else
      (Returned None, MkGpu (next_id s) (S (requests s)),
       [MakeDeferredRenderTargetContext fit width height config colorSpace
          None]).

Definition asTextureProxyRef (rtc : GrRenderTargetContext)
  : M (option GrTextureProxy) :=
  fun s =>
    if gpu_ok (requests s) then
      (Returned (Some (MkProxy (rtc_id rtc) (rtc_config rtc))),
       MkGpu (next_id s) (S (requests s)),
       [AsTextureProxyRef (rtc_id rtc) true])
    else
      (Returned None, MkGpu (next_id s) (S (requests s)),
       [AsTextureProxyRef (rtc_id rtc) false]).

Definition clear (rtc : GrRenderTargetContext) (rect : SkIRect) : M unit :=
  emit (Clear (rtc_id rtc) rect).

Definition absClear (rtc : GrRenderTargetContext) (rect : SkIRect) : M unit :=
  emit (AbsClear (rtc_id rtc) rect).

Definition fillRectWithLocalMatrix (rtc : GrRenderTargetContext)
    (clip : SkIRect) (paint : GrPaint) (rect : SkRect)
    (translate : float * float) : M unit :=
  emit (FillRectWithLocalMatrix (rtc_id rtc) clip paint rect translate).

Definition fillRectToRect (rtc : GrRenderTargetContext) (clip : SkIRect)
    (paint : GrPaint) (rectToDraw localRect : SkRect) : M unit :=
  emit (FillRectToRect (rtc_id rtc) clip paint rectToDraw localRect).

(** [SkMatrix::MakeTrans(-SkIntToScalar(srcOffset.x()),
    -SkIntToScalar(srcOffset.y()))] *)
Definition localMatrix_of (srcOffset : SkIPoint) : float * float :=
  (SFopp (F32.of_int (fX srcOffset)), SFopp (F32.of_int (fY srcOffset))).

(** *** The planner *)

(** [adjust_sigma]: the returned float, [*scaleFactor] and [*radius]. *)
Definition adjust_sigma (fuel : nat) (sigma : float) (maxTextureSize : Z)
  : outcome (float * Z * Z) :=
  match adjust_sigma_loop fuel maxTextureSize sigma 1 with
  | None => OutOfFuel
  | Some (sigma, scaleFactor) =>
      let radius := sigma_radius sigma in
      if negb SK_DEBUG || (radius <=? kMaxKernelRadius)
      then Returned (sigma, scaleFactor, radius)
      else AssertFailed
  end.

(** *** Stages *)

Definition shrink_irect_by_2 (rect : SkIRect) (xAxis yAxis : bool)
  : M SkIRect :=
  rect <- (if xAxis then
             SkASSERT (is_even (fLeft rect) && is_even (fRight rect)) ;;;
             ret (MkIRect (Z.quot (fLeft rect) 2) (fTop rect)
                          (Z.quot (fRight rect) 2) (fBottom rect))
           else ret rect) ;;
  if yAxis then
    SkASSERT (is_even (fTop rect) && is_even (fBottom rect)) ;;;
    ret (MkIRect (fLeft rect) (Z.quot (fTop rect) 2)
                 (fRight rect) (Z.quot (fBottom rect) 2))
  else ret rect.

Definition convolve_gaussian_1d (renderTargetContext : GrRenderTargetContext)
    (clip : SkIRect) (dstRect : SkIRect) (srcOffset : SkIPoint)
    (proxy : GrTextureProxy) (direction : Direction) (radius : Z)
    (sigma : float) (mode : Mode) (bounds : Z * Z) : M unit :=
  let conv := GaussianConvolution proxy direction radius sigma mode bounds in
  let paint := MkPaint (isGammaCorrect renderTargetContext) conv in
  fillRectWithLocalMatrix renderTargetContext clip paint (Rect.Make dstRect)
    (localMatrix_of srcOffset).

(** The config after the sRGB switch of [get_blur_config]. *)
Definition blur_config (config : GrPixelConfig)
    (cs : option SkColorSpace) : GrPixelConfig :=
  if GrPixelConfigIsSRGB config
     && (match cs with None => true | Some _ => false end)
  then kRGBA_8888_GrPixelConfig
  else config.

Definition blur_config_supported (config : GrPixelConfig) : bool :=
  GrPixelConfig_eqb kBGRA_8888_GrPixelConfig config
  || GrPixelConfig_eqb kRGBA_8888_GrPixelConfig config
  || GrPixelConfig_eqb kRGB_888_GrPixelConfig config
  || GrPixelConfig_eqb kRGBA_4444_GrPixelConfig config
  || GrPixelConfig_eqb kRGB_565_GrPixelConfig config
  || GrPixelConfig_eqb kSRGBA_8888_GrPixelConfig config
  || GrPixelConfig_eqb kSBGRA_8888_GrPixelConfig config
  || GrPixelConfig_eqb kRGBA_half_GrPixelConfig config
  || GrPixelConfig_eqb kAlpha_8_GrPixelConfig config
  || GrPixelConfig_eqb kRGBA_1010102_GrPixelConfig config.

Definition get_blur_config (proxy : GrTextureProxy)
    (cs : option SkColorSpace) : M GrPixelConfig :=
  let config := blur_config (proxy_config proxy) cs in
  SkASSERT (blur_config_supported config) ;;;
  ret config.

Definition convolve_gaussian_2d (proxy : GrTextureProxy)
    (srcBounds : SkIRect) (srcOffset : SkIPoint) (radiusX radiusY : Z)
    (sigmaX sigmaY : float) (mode : Mode) (dstII : SkImageInfo)
    (dstFit : SkBackingFit) : M (option GrRenderTargetContext) :=
  emit (Enter Stage_convolve_gaussian_2d) ;;;
  config <- get_blur_config proxy (ii_colorSpace dstII) ;;
  renderTargetContext <-
    makeDeferredRenderTargetContext dstFit (ii_width dstII) (ii_height dstII)
      config (ii_colorSpace dstII) ;;
  match renderTargetContext with
  | None => ret None
  | Some rtc =>
      let size := (iadd (imul 2 radiusX) 1, iadd (imul 2 radiusY) 1) in
      let kernelOffset := MkIPoint radiusX radiusY in
      let conv :=
        MatrixConvolutionGaussian proxy srcBounds size F32.one F32.zero
          kernelOffset mode true sigmaX sigmaY in
      let paint := MkPaint (isGammaCorrect rtc) conv in
      let clip := ii_bounds dstII in
      fillRectWithLocalMatrix rtc clip paint (Rect.Make (ii_bounds dstII))
        (localMatrix_of srcOffset) ;;;
      ret (Some rtc)
  end.

Definition clear_unless_empty (rtc : GrRenderTargetContext) (rect : SkIRect)
  : M unit :=
  if negb (IRect.isEmpty rect) then clear rtc rect else ret tt.

Definition convolve_gaussian (proxy : GrTextureProxy) (srcRect : SkIRect)
    (srcOffset : SkIPoint) (direction : Direction) (radius : Z)
    (sigma : float) (srcBounds : SkIRect) (mode : Mode)
    (dstII : SkImageInfo) (fit : SkBackingFit)
  : M (option GrRenderTargetContext) :=
  emit (Enter (Stage_convolve_gaussian direction)) ;;;
  SkASSERT ((IRect.width srcRect <=? ii_width dstII)
            && (IRect.height srcRect <=? ii_height dstII)) ;;;
  config <- get_blur_config proxy (ii_colorSpace dstII) ;;
  dstRenderTargetContext <-
    makeDeferredRenderTargetContext fit (IRect.width srcRect)
      (IRect.height srcRect) config (ii_colorSpace dstII) ;;
  match dstRenderTargetContext with
  | None => ret None
  | Some dst =>
      let clip := ii_bounds dstII in
      let dstRect := IRect.MakeWH (IRect.width srcRect) (IRect.height srcRect) in
      if GrTextureDomain.eqb kIgnore_Mode mode then
        convolve_gaussian_1d dst clip dstRect srcOffset proxy direction radius
          sigma kIgnore_Mode (0, 0) ;;;
        ret (Some dst)
      else
        let midRect := IRect.offset srcBounds (fX srcOffset) (fY srcOffset) in
        let '(bounds, topRect, bottomRect, midRect, leftRect, rightRect, dstRect) :=
          match direction with
          | kX =>
              let bounds := (fLeft srcBounds, fRight srcBounds) in
              let topRect := IRect.MakeLTRB 0 0 (fRight dstRect) (fTop midRect) in
              let bottomRect :=
                IRect.MakeLTRB 0 (fBottom midRect) (fRight dstRect) (fBottom dstRect) in
              let midRect := IRect.inset midRect radius 0 in
              let leftRect :=
                IRect.MakeLTRB 0 (fTop midRect) (fLeft midRect) (fBottom midRect) in
              let rightRect :=
                IRect.MakeLTRB (fRight midRect) (fTop midRect)
                  (IRect.width dstRect) (fBottom midRect) in
              let dstRect :=
                MkIRect (fLeft dstRect) (fTop midRect)
                        (fRight dstRect) (fBottom midRect) in
              (bounds, topRect, bottomRect, midRect, leftRect, rightRect, dstRect)
          | kY =>
              let bounds := (fTop srcBounds, fBottom srcBounds) in
              let topRect := IRect.MakeLTRB 0 0 (fLeft midRect) (fBottom dstRect) in
              let bottomRect :=
                IRect.MakeLTRB (fRight midRect) 0 (fRight dstRect) (fBottom dstRect) in
              let midRect := IRect.inset midRect 0 radius in
              let leftRect :=
                IRect.MakeLTRB (fLeft midRect) 0 (fRight midRect) (fTop midRect) in
              let rightRect :=
                IRect.MakeLTRB (fLeft midRect) (fBottom midRect)
                  (fRight midRect) (IRect.height dstRect) in
              let dstRect :=
                MkIRect (fLeft midRect) (fTop dstRect)
                        (fRight midRect) (fBottom dstRect) in
              (bounds, topRect, bottomRect, midRect, leftRect, rightRect, dstRect)
          end in
        clear_unless_empty dst topRect ;;;
        clear_unless_empty dst bottomRect ;;;
        (if IRect.isEmpty midRect then
           convolve_gaussian_1d dst clip dstRect srcOffset proxy direction
             radius sigma mode bounds
         else
           convolve_gaussian_1d dst clip leftRect srcOffset proxy direction
             radius sigma mode bounds ;;;
           convolve_gaussian_1d dst clip rightRect srcOffset proxy direction
             radius sigma mode bounds ;;;
           convolve_gaussian_1d dst clip midRect srcOffset proxy direction
             radius sigma kIgnore_Mode bounds) ;;;
        ret (Some dst)
  end.

(** The variables the [for] loop of [decimate] updates. *)
Record DecimateVars : Type := MkDecimateVars {
  dv_src : GrTextureProxy;
  dv_srcOffset : SkIPoint;
  dv_srcRect : SkIRect;
  dv_dstRect : SkIRect;
  dv_dstRenderTargetContext : option GrRenderTargetContext
}.

(** How the loop is left: its condition turned false, or one of the two
    [return nullptr] in its body ran. *)
Inductive DecimateExit : Type :=
| LoopDone (vars : DecimateVars)
| LoopReturnedNull (srcOffset : SkIPoint).

(** The [for (int i = 1; i < scaleFactorX || i < scaleFactorY; i *= 2)]
    loop of [decimate]; one unit of fuel per iteration. *)
Fixpoint decimate_loop (fuel : nat) (contentRect : SkIRect)
    (scaleFactorX scaleFactorY : Z) (mode : Mode) (config : GrPixelConfig)
    (dstII : SkImageInfo) (i : Z) (vars : DecimateVars) : M DecimateExit :=
  if (i <? scaleFactorX) || (i <? scaleFactorY) then
    match fuel with
    | O => lift OutOfFuel
    | S fuel' =>
        dstRect <- shrink_irect_by_2 (dv_dstRect vars)
                     (i <? scaleFactorX) (i <? scaleFactorY) ;;
        dstRenderTargetContext <-
          makeDeferredRenderTargetContext kApprox (fRight dstRect)
            (fBottom dstRect) config (ii_colorSpace dstII) ;;
        match dstRenderTargetContext with
        | None => ret (LoopReturnedNull (dv_srcOffset vars))
        | Some dst =>
            let '(processor, srcRect, srcOffset) :=
              if negb (GrTextureDomain.eqb kIgnore_Mode mode) && (i =? 1) then
                let modeForScaling :=
                  if GrTextureDomain.eqb kRepeat_Mode mode
                  then kDecal_Mode else mode in
                let domain :=
                  Rect.inset (Rect.Make contentRect)
                    (if i <? scaleFactorX then F32.half else F32.zero)
                    (if i <? scaleFactorY then F32.half else F32.zero) in
                (TextureDomainBilerp (dv_src vars) domain modeForScaling,
                 IRect.offset (dv_srcRect vars)
                   (ineg (fX (dv_srcOffset vars)))
                   (ineg (fY (dv_srcOffset vars))),
                 MkIPoint 0 0)
              else
                (TextureClampBilerp (dv_src vars), dv_srcRect vars,
                 dv_srcOffset vars) in
            let paint := MkPaint (isGammaCorrect dst) processor in
            let clip := dstRect in
            fillRectToRect dst clip paint (Rect.Make dstRect)
              (Rect.Make srcRect) ;;;
            src <- asTextureProxyRef dst ;;
            match src with
            | None => ret (LoopReturnedNull srcOffset)
            | Some src =>
                decimate_loop fuel' contentRect scaleFactorX scaleFactorY mode
                  config dstII (imul i 2)
                  (MkDecimateVars src srcOffset dstRect dstRect (Some dst))
            end
        end
    end
  else ret (LoopDone vars).

(** The float [1.0f / scaleFactor]. *)
Definition inv_scale (scaleFactor : Z) : float :=
  F32.div F32.one (F32.of_int scaleFactor).

(** [decimate]: the returned proxy with [*srcOffset] and [*contentRect] as
    the call leaves them. *)
Definition decimate (fuel : nat) (src : GrTextureProxy) (srcOffset : SkIPoint)
    (contentRect : SkIRect) (scaleFactorX scaleFactorY : Z)
    (willBeXFiltering willBeYFiltering : bool) (radiusX radiusY : Z)
    (mode : Mode) (dstII : SkImageInfo)
  : M (option GrTextureProxy * SkIPoint * SkIRect) :=
  emit (Enter Stage_decimate) ;;;
  SkASSERT (SkIsPow2 scaleFactorX && SkIsPow2 scaleFactorY) ;;;
  SkASSERT ((scaleFactorX >? 1) || (scaleFactorY >? 1)) ;;;
  config <- get_blur_config src (ii_colorSpace dstII) ;;
  let srcRect :=
    if GrTextureDomain.eqb kIgnore_Mode mode then ii_bounds dstII
    else IRect.offset contentRect (fX srcOffset) (fY srcOffset) in
  let srcRect :=
    scale_irect_roundout srcRect (inv_scale scaleFactorX)
      (inv_scale scaleFactorY) in
  let srcRect := scale_irect srcRect scaleFactorX scaleFactorY in
  let dstRect := srcRect in
  exit <- decimate_loop fuel contentRect scaleFactorX scaleFactorY mode config
            dstII 1 (MkDecimateVars src srcOffset srcRect dstRect None) ;;
  match exit with
  | LoopReturnedNull srcOffset => ret (None, srcOffset, contentRect)
  | LoopDone vars =>
      let contentRect := dv_dstRect vars in
      SkASSERT (match dv_dstRenderTargetContext vars with
                | Some _ => true | None => false end) ;;;
      match dv_dstRenderTargetContext vars with
      | None => lift NullDeref
      | Some dst =>
          (if willBeXFiltering then
             if scaleFactorX >? 1 then
               absClear dst
                 (IRect.MakeXYWH (fRight contentRect) (fTop contentRect)
                    radiusX (IRect.height contentRect))
             else ret tt
           else
             if scaleFactorY >? 1 then
               absClear dst
                 (IRect.MakeXYWH (fLeft contentRect) (fBottom contentRect)
                    (IRect.width contentRect) radiusY)
             else ret tt) ;;;
          proxy <- asTextureProxyRef dst ;;
          ret (proxy, dv_srcOffset vars, contentRect)
      end
  end.

(** [reexpand]: expand the contents of [srcRenderTargetContext] to fit in
    [dstII]. *)
Definition reexpand (srcRenderTargetContext : GrRenderTargetContext)
    (localSrcBounds : SkIRect) (scaleFactorX scaleFactorY : Z) (mode : Mode)
    (dstII : SkImageInfo) (fit : SkBackingFit)
  : M (option GrRenderTargetContext) :=
  emit (Enter Stage_reexpand) ;;;
  let srcRect :=
    IRect.MakeWH (rtc_width srcRenderTargetContext)
      (rtc_height srcRenderTargetContext) in
  absClear srcRenderTargetContext
    (IRect.MakeXYWH (fLeft srcRect) (fBottom srcRect)
       (IRect.width srcRect + 1) 1) ;;;
  absClear srcRenderTargetContext
    (IRect.MakeXYWH (fRight srcRect) (fTop srcRect) 1
       (IRect.height srcRect)) ;;;
  srcProxy <- asTextureProxyRef srcRenderTargetContext ;;
  match srcProxy with
  | None => ret None
  | Some srcProxy =>
      config <- get_blur_config srcProxy (ii_colorSpace dstII) ;;
      dstRenderTargetContext <-
        makeDeferredRenderTargetContext fit (ii_width dstII) (ii_height dstII)
          config (ii_colorSpace dstII) ;;
      match dstRenderTargetContext with
      | None => ret None
      | Some dst =>
          let processor :=
            if negb (GrTextureDomain.eqb kIgnore_Mode mode) then
              let modeForScaling :=
                if GrTextureDomain.eqb kRepeat_Mode mode
                then kDecal_Mode else mode in
              let domain := Rect.Make localSrcBounds in
              TextureDomainBilerp srcProxy domain modeForScaling
            else TextureClampBilerp srcProxy in
          let paint := MkPaint (isGammaCorrect dst) processor in
          let clip := ii_bounds dstII in
          let dstRect := scale_irect srcRect scaleFactorX scaleFactorY in
          fillRectToRect dst clip paint (Rect.Make dstRect)
            (Rect.Make srcRect) ;;;
          ret (Some dst)
      end
  end.

(** *** The orchestrator *)

(** The local variables of [GaussianBlur] that its stages update. *)
Record BlurVars : Type := MkBlurVars {
  bv_srcProxy : GrTextureProxy;
  bv_dstRenderTargetContext : option GrRenderTargetContext;
  bv_srcRect : SkIRect;
  bv_localSrcBounds : SkIRect;
  bv_srcOffset : SkIPoint
}.

(** [(2 * radiusX + 1) * (2 * radiusY + 1)] *)
Definition kernel_taps (radiusX radiusY : Z) : Z :=
  imul (iadd (imul 2 radiusX) 1) (iadd (imul 2 radiusY) 1).

(** The test that sends [GaussianBlur] to [convolve_gaussian_2d]. *)
Definition use_2d_kernel (sigmaX sigmaY : float) (radiusX radiusY : Z)
  : bool :=
  F32.gtb sigmaX F32.zero && F32.gtb sigmaY F32.zero
  && (kernel_taps radiusX radiusY <=? MAX_KERNEL_SIZE).

(** A [float] as a condition: true unless it compares equal to zero. *)
Definition float_is_true (x : float) : bool := negb (SFeqb x F32.zero).

(** The block [if (sigmaX > 0.0f) { ... }] of [GaussianBlur]; [None] is
    its [return nullptr]. *)
Definition x_pass (sigmaX sigmaY : float) (radiusX radiusY : Z) (mode : Mode)
    (finalDestII : SkImageInfo) (xFit : SkBackingFit) (vars : BlurVars)
  : M (option BlurVars) :=
  if F32.gtb sigmaX F32.zero then
    dstRenderTargetContext <-
      convolve_gaussian (bv_srcProxy vars) (bv_srcRect vars)
        (bv_srcOffset vars) kX radiusX sigmaX (bv_localSrcBounds vars) mode
        finalDestII xFit ;;
    match dstRenderTargetContext with
    | None => ret None
    | Some dst =>
        (if F32.gtb sigmaY F32.zero then
           absClear dst
             (IRect.MakeXYWH (fLeft (bv_srcRect vars))
                (fBottom (bv_srcRect vars)) (IRect.width (bv_srcRect vars))
                radiusY)
         else ret tt) ;;;
        srcProxy <- asTextureProxyRef dst ;;
        match srcProxy with
        | None => ret None
        | Some srcProxy =>
            let srcRect := IRect.offsetTo (bv_srcRect vars) 0 0 in
            let localSrcBounds :=
              if GrTextureDomain.eqb kClamp_Mode mode
              then IRect.inset srcRect 0 radiusY else srcRect in
            ret (Some (MkBlurVars srcProxy (Some dst) srcRect localSrcBounds
                         (MkIPoint 0 0)))
        end
    end
  else ret (Some vars).

(** The block [if (sigmaY > 0.0f) { ... }] of [GaussianBlur]. *)
Definition y_pass (sigmaY : float) (radiusY : Z) (mode : Mode)
    (finalDestII : SkImageInfo) (yFit : SkBackingFit) (vars : BlurVars)
  : M (option BlurVars) :=
  if F32.gtb sigmaY F32.zero then
    dstRenderTargetContext <-
      convolve_gaussian (bv_srcProxy vars) (bv_srcRect vars)
        (bv_srcOffset vars) kY radiusY sigmaY (bv_localSrcBounds vars) mode
        finalDestII yFit ;;
    match dstRenderTargetContext with
    | None => ret None
    | Some dst =>
        srcProxy <- asTextureProxyRef dst ;;
        match srcProxy with
        | None => ret None
        | Some srcProxy =>
            ret (Some (MkBlurVars srcProxy (Some dst)
                         (IRect.offsetTo (bv_srcRect vars) 0 0)
                         (bv_localSrcBounds vars) (MkIPoint 0 0)))
        end
    end
  else ret (Some vars).

(** [SkGpuBlurUtils::GaussianBlur], after planning: from the test for the
    2-D kernel to the end. *)
Definition blur_planned (fuel : nat) (srcProxy : GrTextureProxy)
    (srcBounds : SkIRect) (srcOffset : SkIPoint) (mode : Mode)
    (finalDestII : SkImageInfo) (fit : SkBackingFit)
    (sigmaX : float) (scaleFactorX radiusX : Z)
    (sigmaY : float) (scaleFactorY radiusY : Z)
  : M (option GrRenderTargetContext) :=
  if use_2d_kernel sigmaX sigmaY radiusX radiusY then
    SkASSERT ((1 =? scaleFactorX) && (1 =? scaleFactorY)) ;;;
    convolve_gaussian_2d srcProxy srcBounds srcOffset radiusX radiusY
      sigmaX sigmaY mode finalDestII fit
  else
    let scaled := (scaleFactorX >? 1) || (scaleFactorY >? 1) in
    let xFit :=
      if scaled then kApprox
      else if F32.gtb sigmaY F32.zero then kApprox else fit in
    let yFit := if scaled then kApprox else fit in
    let localSrcBounds := srcBounds in
    '(decimated, srcOffset, localSrcBounds) <-
      (if scaled then
         decimate fuel srcProxy srcOffset localSrcBounds scaleFactorX
           scaleFactorY (F32.gtb sigmaX F32.zero) (F32.gtb sigmaY F32.zero)
           radiusX radiusY mode finalDestII
       else ret (Some srcProxy, srcOffset, localSrcBounds)) ;;
    match decimated with
    | None => ret None
    | Some srcProxy =>
        let srcRect :=
          scale_irect_roundout (ii_bounds finalDestII)
            (inv_scale scaleFactorX) (inv_scale scaleFactorY) in
        afterX <- x_pass sigmaX sigmaY radiusX radiusY mode finalDestII xFit
                    (MkBlurVars srcProxy None srcRect localSrcBounds srcOffset) ;;
        match afterX with
        | None => ret None
        | Some vars =>
            afterY <- y_pass sigmaY radiusY mode finalDestII yFit vars ;;
            match afterY with
            | None => ret None
            | Some vars =>
                SkASSERT (match bv_dstRenderTargetContext vars with
                          | Some _ => true | None => false end) ;;;
                SkASSERT (match bv_dstRenderTargetContext vars with
                          | Some dst =>
                              Nat.eqb (proxy_id (bv_srcProxy vars)) (rtc_id dst)
                          | None => false
                          end) ;;;
                if scaled then
                  match bv_dstRenderTargetContext vars with
                  | None => lift NullDeref
                  | Some dst =>
                      reexpand dst (bv_localSrcBounds vars) scaleFactorX
                        scaleFactorY mode finalDestII fit
                  end
                else ret (bv_dstRenderTargetContext vars)
            end
        end
    end.

(** [SkGpuBlurUtils::GaussianBlur]. [context] is dereferenced without a
    test, and is not null here. *)
Definition GaussianBlur (fuel : nat) (context : GrContext)
    (srcProxy : GrTextureProxy) (colorSpace : option SkColorSpace)
    (dstBounds srcBounds : SkIRect) (sigmaX sigmaY : float) (mode : Mode)
    (at_ : SkAlphaType) (fit : SkBackingFit)
  : M (option GrRenderTargetContext) :=
  config <- get_blur_config srcProxy colorSpace ;;
  match GrPixelConfigToColorType config with
  | None => ret None
  | Some ct =>
      let finalDestII :=
        MkImageInfo (IRect.width dstBounds) (IRect.height dstBounds) ct at_
          colorSpace in
      let maxTextureSize := caps_maxTextureSize context in
      '(sigmaX, scaleFactorX, radiusX) <-
        lift (adjust_sigma fuel sigmaX maxTextureSize) ;;
      '(sigmaY, scaleFactorY, radiusY) <-
        lift (adjust_sigma fuel sigmaY maxTextureSize) ;;
      SkASSERT (float_is_true sigmaX || float_is_true sigmaY) ;;;
      let srcOffset :=
        MkIPoint (ineg (fLeft dstBounds)) (ineg (fTop dstBounds)) in
      blur_planned fuel srcProxy srcBounds srcOffset mode finalDestII fit
        sigmaX scaleFactorX radiusX sigmaY scaleFactorY radiusY
  end.

End Blur.


(** ** Reading the trace of a call *)

(** [sat m Q]: from every state of the GPU layer, the outcome and the
    events of [m] satisfy [Q]. *)
Definition sat {A} (m : M A) (Q : outcome A -> list GpuEvent -> Prop)
  : Prop :=
  forall s, Q (outcome_of (m s)) (events_of (m s)).

Definition is_none {A} (x : option A) : bool :=
  match x with None => true | Some _ => false end.

(** A request the GPU layer answered with null. *)
Definition is_failure (e : GpuEvent) : bool :=
  match e with
  | MakeDeferredRenderTargetContext _ _ _ _ _ None => true
  | AsTextureProxyRef _ false => true
  | _ => false
  end.

Definition clean (l : list GpuEvent) : Prop :=
  Forall (fun e => is_failure e = false) l.

(** The events stop at a failure, and the call returned null. *)
Definition stopped_at_failure {A} (is_null : A -> bool)
    (o : outcome A) (l : list GpuEvent) : Prop :=
  exists l' f a,
    l = l' ++ [f] /\ clean l' /\ is_failure f = true /\
    o = Returned a /\ is_null a = true.

(** Either nothing failed, or the call stopped at the failure. *)
Definition fail_stop {A} (is_null : A -> bool)
    (o : outcome A) (l : list GpuEvent) : Prop :=
  clean l \/ stopped_at_failure is_null o l.

(** The null results of [decimate_loop] and of [decimate]. *)
Definition loop_returned_null (exit : DecimateExit) : bool :=
  match exit with LoopReturnedNull _ => true | LoopDone _ => false end.

Definition decimate_returned_null
    (r : option GrTextureProxy * SkIPoint * SkIRect) : bool :=
  is_none (fst (fst r)).

(** The static functions entered, in order. *)
Definition stages_of (l : list GpuEvent) : list Stage :=
  flat_map (fun e => match e with Enter st => [st] | _ => [] end) l.

Definition is_abs_clear (e : GpuEvent) : bool :=
  match e with AbsClear _ _ => true | _ => false end.

(** The mode of the texture domain effect a draw samples through, when it
    samples through one. *)
Definition domain_mode_of (e : GpuEvent) : option Mode :=
  match e with
  | FillRectWithLocalMatrix _ _ paint _ _ | FillRectToRect _ _ paint _ _ =>
      match paint_processor paint with
      | TextureDomainBilerp _ _ mode => Some mode
      | _ => None
      end
  | _ => None
  end.

(** The pixel config an allocation asks for. *)
Definition alloc_config_of (e : GpuEvent) : option GrPixelConfig :=
  match e with
  | MakeDeferredRenderTargetContext _ _ _ config _ _ => Some config
  | _ => None
  end.

Definition prefix_of {A} (l1 l2 : list A) : Prop := exists l3, l2 = l1 ++ l3.

(** The stages of the separable path: decimation when an axis is scaled,
    a pass per axis with a positive sigma, re-expansion when an axis is
    scaled. *)
Definition separable_stages (sigmaX sigmaY : float)
    (scaleFactorX scaleFactorY : Z) : list Stage :=
  let scaled := (scaleFactorX >? 1) || (scaleFactorY >? 1) in
  (if scaled then [Stage_decimate] else [])
  ++ (if F32.gtb sigmaX F32.zero then [Stage_convolve_gaussian kX] else [])
  ++ (if F32.gtb sigmaY F32.zero then [Stage_convolve_gaussian kY] else [])
  ++ (if scaled then [Stage_reexpand] else []).

(** ** An instance of what the file takes from elsewhere, for concrete runs

    The two sRGB configs the file names are the sRGB ones, every config it
    names has a colour type, the constants have the values of the Skia
    headers (12 and 25), and the GPU layer grants every request. *)
Definition example_IsSRGB (config : GrPixelConfig) : bool :=
  match config with
  | kSRGBA_8888_GrPixelConfig | kSBGRA_8888_GrPixelConfig => true
  | _ => false
  end.

Definition example_ToColorType (config : GrPixelConfig)
  : option SkColorType :=
  match config with
  | kOther_GrPixelConfig _ => None
  | _ => Some 4%nat
  end.

Definition debug_build : Externals :=
  MkExternals true 12 25 example_IsSRGB example_ToColorType (fun _ => true).

Definition release_build : Externals :=
  MkExternals false 12 25 example_IsSRGB example_ToColorType (fun _ => true).

(** A debug build on a GPU layer that grants its first [k] requests and
    refuses the others. *)
Definition refusing_build (k : nat) : Externals :=
  MkExternals true 12 25 example_IsSRGB example_ToColorType
    (fun n => Nat.ltb n k).

(** The blur of the examples: a 100 x 100 square in a 200 x 200 canvas,
    from an sRGB texture, with no colour space. *)
Definition example_source : GrTextureProxy :=
  MkProxy 100 kSRGBA_8888_GrPixelConfig.

Definition example_blur {ext : Externals} (sigmaX sigmaY : float)
    (mode : Mode) : outcome (option GrRenderTargetContext) * GpuState
                    * list GpuEvent :=
  GaussianBlur 30 (MkContext 16384) example_source None
    (IRect.MakeWH 200 200) (IRect.MakeXYWH 50 50 100 100) sigmaX sigmaY mode
    2%nat kExact initial_gpu.

(** A call of [decimate] on the same square. *)
Definition example_decimate {ext : Externals} (scaleFactorX scaleFactorY : Z)
    (willBeXFiltering willBeYFiltering : bool) (radiusX radiusY : Z)
  : outcome (option GrTextureProxy * SkIPoint * SkIRect) * GpuState
    * list GpuEvent :=
  decimate 30 example_source (MkIPoint 0 0) (IRect.MakeXYWH 50 50 100 100)
    scaleFactorX scaleFactorY willBeXFiltering willBeYFiltering radiusX
    radiusY kClamp_Mode (MkImageInfo 200 200 4%nat 2%nat None) initial_gpu.
(** ** The planner as the specification states it

    "While sigma exceeds the fixed per-pass maximum (4.0), double the scale
    factor and halve sigma; if the scale factor would exceed maxTextureSize,
    clamp the scale factor to maxTextureSize and clamp sigma to the maximum.
    Radius = ceil(3 x final sigma)."  The scale factor is an integer, and
    doubling it is doubling it; sigma is a float. *)

Inductive plan_loop (maxTextureSize : Z) : float -> Z -> float -> Z -> Prop :=
| plan_stop sigma scale :
    F32.gtb sigma MAX_BLUR_SIGMA = false ->
    plan_loop maxTextureSize sigma scale sigma scale
| plan_double sigma scale sigma' scale' :
    F32.gtb sigma MAX_BLUR_SIGMA = true ->
    2 * scale <= maxTextureSize ->
    plan_loop maxTextureSize (F32.mul sigma F32.half) (2 * scale) sigma' scale' ->
    plan_loop maxTextureSize sigma scale sigma' scale'
| plan_clamp sigma scale sigma' scale' :
    F32.gtb sigma MAX_BLUR_SIGMA = true ->
    maxTextureSize < 2 * scale ->
    plan_loop maxTextureSize MAX_BLUR_SIGMA maxTextureSize sigma' scale' ->
    plan_loop maxTextureSize sigma scale sigma' scale'.

Definition plan_radius (sigma : float) : Z :=
  F32.ceilf_to_int (F32.mul F32.three sigma).

(** [plan sigma maxTextureSize] relates the request to the triple
    (effectiveSigma, scaleFactor, radius) of the specification. *)
Definition plan (sigma : float) (maxTextureSize : Z)
    (result : float * Z * Z) : Prop :=
  let '(effectiveSigma, scaleFactor, radius) := result in
  plan_loop maxTextureSize sigma 1 effectiveSigma scaleFactor /\
  radius = plan_radius effectiveSigma.

(** ** More on the planner *)

(** [2.0f] *)
Definition float_two : float := S754_finite false 8388608 (-22).
(** ** More on the trace *)

Definition is_alloc (e : GpuEvent) : bool :=
  match e with
  | MakeDeferredRenderTargetContext _ _ _ _ _ _ => true
  | _ => false
  end.

Definition is_draw (e : GpuEvent) : bool :=
  match e with
  | FillRectWithLocalMatrix _ _ _ _ _ | FillRectToRect _ _ _ _ _ => true
  | _ => false
  end.

(** How many events of a kind a trace holds. *)
Definition count_events (kind : GpuEvent -> bool) (l : list GpuEvent) : nat :=
  length (filter kind l).

(** [rect] with every coordinate multiplied, in exact arithmetic. *)
Definition scaled_up (rect : SkIRect) (xScale yScale : Z) : SkIRect :=
  MkIRect (fLeft rect * xScale) (fTop rect * yScale)
          (fRight rect * xScale) (fBottom rect * yScale).

(** An [int] that converts to [float] without rounding: its magnitude is
    below 2^24. *)
Definition float_exact (z : Z) : Prop := - 2 ^ 24 < z < 2 ^ 24.

Definition rect_float_exact (rect : SkIRect) : Prop :=
  float_exact (fLeft rect) /\ float_exact (fTop rect) /\
  float_exact (fRight rect) /\ float_exact (fBottom rect).

(** [rect] divided by [2^kx] and [2^ky] and rounded out: the floors of
    left and top, the ceilings of right and bottom. *)
Definition rounded_out (rect : SkIRect) (kx ky : Z) : SkIRect :=
  MkIRect (fLeft rect / 2 ^ kx) (fTop rect / 2 ^ ky)
          (- ((- fRight rect) / 2 ^ kx)) (- ((- fBottom rect) / 2 ^ ky)).

(** The rectangle [decimate] scales down: [dstII.bounds()] when the mode is
    [kIgnore_Mode], the content rectangle moved by the offset otherwise. *)
Definition decimate_srcRect (mode : Mode) (dstII : SkImageInfo)
    (contentRect : SkIRect) (srcOffset : SkIPoint) : SkIRect :=
  if GrTextureDomain.eqb kIgnore_Mode mode then ii_bounds dstII
  else IRect.offset contentRect (fX srcOffset) (fY srcOffset).

(** The allocations of a trace, in order. *)
Definition allocations (l : list GpuEvent) : list GpuEvent :=
  filter is_alloc l.

(** The fit an allocation asks for. *)
Definition alloc_fit_of (e : GpuEvent) : option SkBackingFit :=
  match e with
  | MakeDeferredRenderTargetContext fit _ _ _ _ _ => Some fit
  | _ => None
  end.

(** The allocation that made the surface [r]. *)
Definition alloc_event (r : GrRenderTargetContext) : GpuEvent :=
  MakeDeferredRenderTargetContext (rtc_fit r) (rtc_width r) (rtc_height r)
    (rtc_config r) (rtc_colorSpace r) (Some (rtc_id r)).

(** The pixels of an integer rectangle: left and top included, right and
    bottom excluded. *)
Definition IRect_contains (r : SkIRect) (x y : Z) : bool :=
  (fLeft r <=? x) && (x <? fRight r) && (fTop r <=? y) && (y <? fBottom r).

(** How many rectangles of a list hold the pixel (x, y). *)
Definition times_covered (rects : list SkIRect) (x y : Z) : nat :=
  length (filter (fun r => IRect_contains r x y) rects).

(** [e] clears, or draws on, the integer rectangle [r] of the surface
    [target]. *)
Definition writes_rect (target : nat) (e : GpuEvent) (r : SkIRect) : Prop :=
  match e with
  | Clear t rect => t = target /\ rect = r
  | FillRectWithLocalMatrix t _ _ rect _ => t = target /\ rect = Rect.Make r
  | _ => False
  end.

(** *** The flow of textures through a blur *)

(** The texture a paint samples. *)
Definition paint_texture (paint : GrPaint) : nat :=
  proxy_id
    match paint_processor paint with
    | GaussianConvolution proxy _ _ _ _ _
    | MatrixConvolutionGaussian proxy _ _ _ _ _ _ _ _ _
    | TextureDomainBilerp proxy _ _
    | TextureClampBilerp proxy => proxy
    end.

(** Where a blur stands: the texture its next draw is to read, and the
    surface it is rendering to, if it has allocated one. *)
Record Flow : Type := MkFlow { flow_texture : nat; flow_surface : option nat }.

Definition on_surface (st : Flow) (target : nat) : bool :=
  match flow_surface st with
  | Some s => Nat.eqb s target
  | None => false
  end.

(** One request in the flow: an allocation gives the surface rendered to
    from then on; a clear or a draw must be on that surface, and a draw
    must read the texture of the flow; a texture is extracted from that
    surface, and is the texture read from then on. [None]: the request is
    out of the flow. *)
Definition flow_step (st : Flow) (e : GpuEvent) : option Flow :=
  match e with
  | Enter _ => Some st
  | MakeDeferredRenderTargetContext _ _ _ _ _ (Some id) =>
      Some (MkFlow (flow_texture st) (Some id))
  | MakeDeferredRenderTargetContext _ _ _ _ _ None => Some st
  | AsTextureProxyRef target ok =>
      if on_surface st target
      then Some (if ok then MkFlow target (flow_surface st) else st)
      else None
  | Clear target _ | AbsClear target _ =>
      if on_surface st target then Some st else None
  | FillRectWithLocalMatrix target _ paint _ _
  | FillRectToRect target _ paint _ _ =>
      if on_surface st target && Nat.eqb (paint_texture paint) (flow_texture st)
      then Some st else None
  end.

Fixpoint flow (st : Flow) (l : list GpuEvent) : option Flow :=
  match l with
  | [] => Some st
  | e :: l' =>
      match flow_step st e with
      | Some st' => flow st' l'
      | None => None
      end
  end.

(** *** The texture domains of the draws *)

(** For each draw of a trace, in order: the mode of the texture domain it
    samples through, or [None] when it samples through none. *)
Definition domain_modes (l : list GpuEvent) : list (option Mode) :=
  map domain_mode_of (filter is_draw l).

(** The first draw samples through a Decal domain, and no later draw
    samples through a domain. *)
Definition decal_first (modes : list (option Mode)) : Prop :=
  exists rest, modes = Some kDecal_Mode :: rest /\ Forall (eq None) rest.

(** The first and the last draw sample through a Decal domain, and no draw
    between them samples through a domain. *)
Definition decal_first_and_last (modes : list (option Mode)) : Prop :=
  exists middle,
    modes = Some kDecal_Mode :: middle ++ [Some kDecal_Mode] /\
    Forall (eq None) middle.
(** * Properties *)

(** ** 32-bit integers *)

Lemma wrap32_small z : in_range z -> wrap32 z = z.
Proof.
  unfold in_range, min_int, max_int, wrap32. intros H.
  rewrite Z.mod_small by lia. lia.
Qed.

(** ** binary32: rounding *)

Lemma digits2_pos_size p : digits2_pos p = Pos.size p.
Proof. induction p; simpl; congruence. Qed.

Lemma Zpos_size_bounds p :
  2 ^ (Zpos (Pos.size p) - 1) <= Zpos p < 2 ^ Zpos (Pos.size p).
Proof.
  split.
  - pose proof (Pos.size_le p) as H.
    assert (H2 : 2 ^ Zpos (Pos.size p) <= 2 * Zpos p).
    { change (2 * Zpos p) with (Zpos p~0). rewrite <- Pos2Z.inj_pow. lia. }
    replace (Zpos (Pos.size p)) with (Z.succ (Zpos (Pos.size p) - 1)) in H2 by lia.
    rewrite Z.pow_succ_r in H2 by lia. lia.
  - pose proof (Pos.size_gt p) as H. rewrite <- Pos2Z.inj_pow. lia.
Qed.

Lemma iter_pos_nat {A} (f : A -> A) p x :
  iter_pos f p x = Nat.iter (Pos.to_nat p) f x.
Proof.
  revert x. induction p as [p IH | p IH |]; intros x.
  - change (iter_pos f p~1 x) with (iter_pos f p (iter_pos f p (f x))).
    rewrite !IH, Pos2Nat.inj_xI.
    replace (S (2 * Pos.to_nat p)) with (Pos.to_nat p + S (Pos.to_nat p))%nat by lia.
    rewrite Nat.iter_add. f_equal. symmetry. apply Nat.iter_succ_r.
  - change (iter_pos f p~0 x) with (iter_pos f p (iter_pos f p x)).
    rewrite !IH, Pos2Nat.inj_xO.
    replace (2 * Pos.to_nat p)%nat with (Pos.to_nat p + Pos.to_nat p)%nat by lia.
    now rewrite Nat.iter_add.
  - reflexivity.
Qed.

Lemma shr_1_spec m r s :
  0 <= m ->
  shr_m (shr_1 (Build_shr_record m r s)) = m / 2 /\
  shr_r (shr_1 (Build_shr_record m r s)) = Z.odd m.
Proof.
  intros Hm. destruct m as [| p | p]; [now split | | lia].
  destruct p as [p | p |]; simpl; split; try reflexivity.
  - rewrite Pos2Z.inj_xI. apply Z.div_unique with (r := 1); lia.
  - rewrite Pos2Z.inj_xO. apply Z.div_unique with (r := 0); lia.
Qed.

Lemma shr_iter_spec k m r s :
  0 <= m ->
  shr_m (Nat.iter (S k) shr_1 (Build_shr_record m r s)) = m / 2 ^ Z.of_nat (S k) /\
  shr_r (Nat.iter (S k) shr_1 (Build_shr_record m r s)) = Z.odd (m / 2 ^ Z.of_nat k).
Proof.
  intros Hm. induction k as [| k IH].
  - change (Nat.iter 1 shr_1 (Build_shr_record m r s))
      with (shr_1 (Build_shr_record m r s)).
    destruct (shr_1_spec m r s Hm) as [H1 H2].
    rewrite H1, H2. change (2 ^ Z.of_nat 1) with 2. change (2 ^ Z.of_nat 0) with 1.
    now rewrite Z.div_1_r.
  - change (Nat.iter (S (S k)) shr_1 (Build_shr_record m r s))
      with (shr_1 (Nat.iter (S k) shr_1 (Build_shr_record m r s))).
    destruct (Nat.iter (S k) shr_1 (Build_shr_record m r s)) as [m' r' s'].
    destruct IH as [IH1 IH2]. cbn [shr_m shr_r] in IH1, IH2. subst m'.
    assert (H0 : 0 <= m / 2 ^ Z.of_nat (S k)) by (apply Z.div_pos; lia).
    destruct (shr_1_spec _ r' s' H0) as [H1 H2]. rewrite H1, H2.
    split; [| reflexivity].
    rewrite Z.div_div by lia. f_equal.
    rewrite (Nat2Z.inj_succ (S k)), Z.pow_succ_r by lia. lia.
Qed.

Lemma shr_spec m r s e n :
  0 <= m -> 0 < n ->
  shr_m (fst (shr (Build_shr_record m r s) e n)) = m / 2 ^ n /\
  shr_r (fst (shr (Build_shr_record m r s) e n)) = Z.odd (m / 2 ^ (n - 1)) /\
  snd (shr (Build_shr_record m r s) e n) = e + n.
Proof.
  intros Hm Hn. destruct n as [| p | p]; try lia. simpl.
  rewrite iter_pos_nat.
  destruct (Pos2Nat.is_succ p) as [k Hk]. rewrite Hk.
  destruct (shr_iter_spec k m r s Hm) as [H1 H2].
  rewrite H1, H2. rewrite <- Hk, positive_nat_Z.
  replace (Z.of_nat k) with (Zpos p - 1) by lia. auto.
Qed.

Lemma shr_nop mrs e n : n <= 0 -> shr mrs e n = (mrs, e).
Proof. destruct n; try reflexivity. lia. Qed.

Lemma round_nearest_even_cases q r s :
  round_nearest_even q (loc_of_shr_record (Build_shr_record q r s)) = q \/
  (round_nearest_even q (loc_of_shr_record (Build_shr_record q r s)) = q + 1 /\ r = true).
Proof.
  destruct r, s; simpl; auto. destruct (Z.even q); auto.
Qed.

Section RoundAux.
Variables prec emax : Z.

Lemma bra_loc_exact sx mx ex :
  exists m1 e1 m2 e2,
    let n := fexp prec emax (Zpos (Pos.size mx) + ex) - ex in
    (n <= 0 -> m1 = Zpos mx /\ e1 = ex) /\
    (0 < n -> e1 = ex + n /\
              (m1 = Zpos mx / 2 ^ n \/
               (m1 = Zpos mx / 2 ^ n + 1 /\ Z.odd (Zpos mx / 2 ^ (n - 1)) = true))) /\
    (let n2 := fexp prec emax (Zdigits2 m1 + e1) - e1 in
     (n2 <= 0 -> m2 = m1 /\ e2 = e1) /\
     (0 < n2 -> m2 = m1 / 2 ^ n2 /\ e2 = e1 + n2)) /\
    0 <= m1 /\
    binary_round_aux prec emax sx (Zpos mx) ex loc_Exact =
      match m2 with
      | 0 => S754_zero sx
      | Zpos m => if e2 <=? emax - prec then S754_finite sx m e2 else S754_infinity sx
      | Zneg _ => S754_nan
      end.
Proof.
  set (n := fexp prec emax (Zpos (Pos.size mx) + ex) - ex).
  assert (Hstage1 : exists m1 e1,
     (n <= 0 -> m1 = Zpos mx /\ e1 = ex) /\
     (0 < n -> e1 = ex + n /\
              (m1 = Zpos mx / 2 ^ n \/
               (m1 = Zpos mx / 2 ^ n + 1 /\ Z.odd (Zpos mx / 2 ^ (n - 1)) = true))) /\
     0 <= m1 /\
     (let '(mrs', e') := shr (Build_shr_record (Zpos mx) false false) ex n in
      (round_nearest_even (shr_m mrs') (loc_of_shr_record mrs'), e')) = (m1, e1)).
  { destruct (Z_lt_le_dec 0 n) as [Hn | Hn].
    - destruct (shr_spec (Zpos mx) false false ex n ltac:(lia) Hn) as (H1 & H2 & H3).
      destruct (shr (Build_shr_record (Zpos mx) false false) ex n) as [[q r s] e'].
      cbn [fst snd shr_m shr_r] in *. subst q e'.
      assert (Hq : 0 <= Zpos mx / 2 ^ n) by (apply Z.div_pos; lia).
      destruct (round_nearest_even_cases (Zpos mx / 2 ^ n) r s) as [E | [E Er]].
      + eexists _, _. split; [lia |]. split; [| split; [| reflexivity]].
        * intros _. split; [reflexivity |]. left. exact E.
        * cbn [shr_m]. rewrite E. exact Hq.
      + eexists _, _. split; [lia |]. split; [| split; [| reflexivity]].
        * intros _. split; [reflexivity |]. right. split; [exact E |]. congruence.
        * cbn [shr_m]. rewrite E. lia.
    - rewrite shr_nop by lia. exists (Zpos mx), ex. cbn.
      repeat split; try lia. }
  destruct Hstage1 as (m1 & e1 & Ha & Hb & Hpos & Heq).
  set (n2 := fexp prec emax (Zdigits2 m1 + e1) - e1).
  assert (Hstage2 : exists m2 e2,
     ((n2 <= 0 -> m2 = m1 /\ e2 = e1) /\
      (0 < n2 -> m2 = m1 / 2 ^ n2 /\ e2 = e1 + n2)) /\
     (let '(mrs'', e'') := shr (Build_shr_record m1 false false) e1 n2 in
      (shr_m mrs'', e'')) = (m2, e2)).
  { destruct (Z_lt_le_dec 0 n2) as [Hn2 | Hn2].
    - destruct (shr_spec m1 false false e1 n2 Hpos Hn2) as (H1 & H2 & H3).
      destruct (shr (Build_shr_record m1 false false) e1 n2) as [mrs'' e''].
      cbn [fst snd] in *. exists (shr_m mrs''), e''.
      repeat split; auto; lia.
    - rewrite shr_nop by lia. exists m1, e1. cbn [shr_m].
      repeat split; auto; lia. }
  destruct Hstage2 as (m2 & e2 & Hc & Heq2).
  exists m1, e1, m2, e2. fold n2.
  split; [exact Ha |]. split; [exact Hb |]. split; [exact Hc |].
  split; [exact Hpos |].
  unfold binary_round_aux, shr_fexp.
  change (Zdigits2 (Zpos mx)) with (Zpos (digits2_pos mx)).
  rewrite digits2_pos_size. fold n.
  change (shr_record_of_loc (Zpos mx) loc_Exact) with (Build_shr_record (Zpos mx) false false).
  destruct (shr (Build_shr_record (Zpos mx) false false) ex n) as [mrs' e'].
  injection Heq as Hm1 He1. rewrite Hm1, He1.
  change (shr_record_of_loc m1 loc_Exact) with (Build_shr_record m1 false false).
  fold n2.
  destruct (shr (Build_shr_record m1 false false) e1 n2) as [mrs'' e''].
  injection Heq2 as Hm2 He2. rewrite Hm2, He2. reflexivity.
Qed.

End RoundAux.

(** ** binary32: the floats of the planner *)

Lemma size_unique p d :
  2 ^ (d - 1) <= Zpos p < 2 ^ d -> Zpos (Pos.size p) = d.
Proof.
  intros [Hlo Hhi]. pose proof (Zpos_size_bounds p) as [Slo Shi].
  set (s := Zpos (Pos.size p)) in *.
  assert (Hd : 0 < d).
  { destruct (Z_lt_le_dec 0 d) as [|Hd]; [assumption |].
    destruct (Z.eq_dec d 0) as [-> | Hne]; [simpl in Hhi; lia |].
    rewrite Z.pow_neg_r in Hhi by lia. lia. }
  destruct (Z.lt_trichotomy s d) as [Hlt | [Heq | Hgt]]; [| exact Heq |].
  - pose proof (Z.pow_le_mono_r 2 s (d - 1) ltac:(lia) ltac:(lia)). lia.
  - pose proof (Z.pow_le_mono_r 2 d (s - 1) ltac:(lia) ltac:(lia)). lia.
Qed.

Lemma valid_finite_inv s m e :
  F32.valid (S754_finite s m e) = true ->
  Z.max (Zpos (Pos.size m) + e - 24) (-149) = e /\ e <= 104.
Proof.
  unfold F32.valid, valid_binary, bounded, canonical_mantissa, fexp, emin,
    F32.prec, F32.emax.
  rewrite digits2_pos_size, andb_true_iff, Z.eqb_eq, Z.leb_le.
  intros [H1 H2]. split; [exact H1 | exact H2].
Qed.

Lemma valid_finite_intro s m e :
  Z.max (Zpos (Pos.size m) + e - 24) (-149) = e -> e <= 104 ->
  F32.valid (S754_finite s m e) = true.
Proof.
  unfold F32.valid, valid_binary, bounded, canonical_mantissa, fexp, emin,
    F32.prec, F32.emax.
  intros H1 H2. rewrite digits2_pos_size. apply andb_true_iff. split.
  - apply Z.eqb_eq. exact H1.
  - apply Z.leb_le. exact H2.
Qed.

Lemma gtb_four_finite s m e :
  F32.gtb (S754_finite s m e) MAX_BLUR_SIGMA = true <->
  s = false /\ (-21 < e \/ (e = -21 /\ 8388608 < Zpos m)).
Proof.
  unfold F32.gtb, SFltb, MAX_BLUR_SIGMA, F32.four, SFcompare.
  destruct s.
  - split; [discriminate | intros [H _]; discriminate].
  - destruct (Z.compare_spec (-21) e) as [He | He | He].
    + change (Pos.compare_cont Eq 8388608 m) with (Pos.compare 8388608 m).
      destruct (Pos.compare_spec 8388608 m) as [Hm | Hm | Hm].
      * split; [discriminate | intros [_ H]; lia].
      * split; [intros _; split; [reflexivity | right; lia] | reflexivity].
      * split; [discriminate | intros [_ H]; lia].
    + split; [intros _; split; [reflexivity | lia] | reflexivity].
    + split; [discriminate | intros [_ H]; lia].
Qed.

(** A valid float above 4 is a normal number: its mantissa has 24 bits. *)
Lemma gtb_four_normal m e :
  F32.valid (S754_finite false m e) = true ->
  F32.gtb (S754_finite false m e) MAX_BLUR_SIGMA = true ->
  -21 <= e <= 104 /\ 2 ^ 23 <= Zpos m < 2 ^ 24.
Proof.
  intros Hv Hg. apply valid_finite_inv in Hv. apply gtb_four_finite in Hg.
  destruct Hv as [Hc He]. destruct Hg as [_ Hg].
  assert (Hs : Zpos (Pos.size m) = 24) by lia.
  pose proof (Zpos_size_bounds m) as Hb. rewrite Hs in Hb.
  change (24 - 1) with 23 in Hb. lia.
Qed.

Lemma mul_half_exact m e :
  F32.valid (S754_finite false m e) = true ->
  F32.gtb (S754_finite false m e) MAX_BLUR_SIGMA = true ->
  F32.mul (S754_finite false m e) F32.half = S754_finite false m (e - 1).
Proof.
  intros Hv Hg. destruct (gtb_four_normal m e Hv Hg) as [He Hm].
  unfold F32.mul, F32.half, SFmul. cbn [xorb].
  destruct (bra_loc_exact F32.prec F32.emax false (m * 8388608) (e + -24))
    as (m1 & e1 & m2 & e2 & Ha & Hb & Hc & Hpos & Heq).
  rewrite Heq. clear Heq.
  assert (Hmx : Zpos (m * 8388608) = Zpos m * 2 ^ 23) by (rewrite Pos2Z.inj_mul; reflexivity).
  assert (Hsz : Zpos (Pos.size (m * 8388608)) = 47).
  { apply size_unique. rewrite Hmx. change (47 - 1) with 46.
    change (2 ^ 46) with (2 ^ 23 * 2 ^ 23). change (2 ^ 47) with (2 ^ 24 * 2 ^ 23). lia. }
  rewrite Hsz in Ha, Hb.
  unfold fexp, emin, F32.prec, F32.emax in Ha, Hb, Hc.
  replace (Z.max (47 + (e + -24) - 24) (3 - 128 - 24) - (e + -24)) with 23 in Ha, Hb by lia.
  clear Ha. destruct (Hb ltac:(lia)) as [He1 Hm1]. clear Hb.
  assert (Em1 : m1 = Zpos m).
  { rewrite Hmx in Hm1. destruct Hm1 as [Hm1 | [_ Hodd]].
    - rewrite Hm1. apply Z.div_mul. lia.
    - exfalso. change (23 - 1) with 22 in Hodd.
      change (2 ^ 23) with (2 * 2 ^ 22) in Hodd.
      rewrite Z.mul_assoc, Z.div_mul in Hodd by lia.
      rewrite Z.odd_mul in Hodd. rewrite andb_false_r in Hodd. discriminate. }
  subst m1 e1.
  change (Zdigits2 (Zpos m)) with (Zpos (digits2_pos m)) in Hc.
  rewrite digits2_pos_size in Hc.
  assert (Hs : Zpos (Pos.size m) = 24).
  { apply size_unique. change (24 - 1) with 23. lia. }
  rewrite Hs in Hc. destruct Hc as [Hc _].
  destruct (Hc ltac:(lia)) as [-> ->].
  replace (e + -24 + 23) with (e - 1) by lia.
  unfold F32.emax, F32.prec.
  destruct (Z.leb_spec (e - 1) (128 - 24)); [reflexivity | lia].
Qed.

Lemma pow2_pos k : 0 < 2 ^ k \/ k < 0.
Proof. destruct (Z_lt_le_dec k 0); [right; lia | left; apply Z.pow_pos_nonneg; lia]. Qed.

Lemma to_int_checked_small z :
  0 <= z <= 12 -> F32.to_int_checked z = z.
Proof.
  intros H. unfold F32.to_int_checked, min_int, max_int.
  destruct (Z.leb_spec (- 2 ^ 31) z); [| lia].
  destruct (Z.leb_spec z (2 ^ 31 - 1)); [reflexivity | lia].
Qed.

(** A positive float whose value [m * 2^e] is at most 12, the bound given
    relative to a reference exponent [ex <= e], has a ceiling in [0, 12]. *)
Lemma Zceil_val_le_12 m e k :
  0 <= k -> 0 <= e + k ->
  Zpos m * 2 ^ (e + k) <= 12 * 2 ^ k ->
  0 <= F32.Zceil_val false m e <= 12.
Proof.
  intros Hk Hek H. unfold F32.Zceil_val.
  assert (Pk : 0 < 2 ^ k) by (apply Z.pow_pos_nonneg; lia).
  destruct (Z.leb_spec 0 e) as [He | He].
  - assert (Pe : 0 < 2 ^ e) by (apply Z.pow_pos_nonneg; lia).
    rewrite Z.pow_add_r in H by lia. split; [lia |]. nia.
  - assert (Pe : 0 < 2 ^ (- e)) by (apply Z.pow_pos_nonneg; lia).
    assert (Pek : 0 < 2 ^ (e + k)) by (apply Z.pow_pos_nonneg; lia).
    assert (Hsplit : 2 ^ k = 2 ^ (- e) * 2 ^ (e + k)).
    { rewrite <- Z.pow_add_r by lia. f_equal. lia. }
    rewrite Hsplit in H.
    assert (Hm : Zpos m <= 12 * 2 ^ (- e)) by nia.
    split.
    + assert ((- Zpos m) / 2 ^ (- e) <= 0); [| lia].
      apply Z.lt_le_incl, Z.div_lt_upper_bound; lia.
    + assert (- 12 <= (- Zpos m) / 2 ^ (- e)); [| lia].
      apply Z.div_le_lower_bound; lia.
Qed.

Lemma mul_three_le_12 m e :
  F32.valid (S754_finite false m e) = true ->
  e <= -22 ->
  match F32.mul (S754_finite false m e) F32.three with
  | S754_zero _ => True
  | S754_finite false m' e' => 0 <= F32.Zceil_val false m' e' <= 12
  | _ => False
  end.
Proof.
  intros Hv He. apply valid_finite_inv in Hv. destruct Hv as [Hc _].
  assert (Hsm : Zpos (Pos.size m) <= 24) by lia.
  assert (Hm : Zpos m < 2 ^ 24).
  { pose proof (Zpos_size_bounds m) as [_ Hhi].
    pose proof (Z.pow_le_mono_r 2 (Zpos (Pos.size m)) 24 ltac:(lia) Hsm). lia. }
  unfold F32.mul, F32.three, SFmul. cbn [xorb].
  set (mx := (m * 12582912)%positive). set (ex := e + -22).
  destruct (bra_loc_exact F32.prec F32.emax false mx ex)
    as (m1 & e1 & m2 & e2 & Ha & Hb & Hc2 & Hpos & Heq).
  rewrite Heq. clear Heq.
  set (k := - ex). assert (Hk : 44 <= k) by (unfold k, ex; lia).
  set (T := 12 * 2 ^ k).
  assert (Pk : 0 < 2 ^ k) by (apply Z.pow_pos_nonneg; lia).
  assert (Hmx : Zpos mx < T).
  { unfold mx, T. rewrite Pos2Z.inj_mul.
    pose proof (Z.pow_le_mono_r 2 44 k ltac:(lia) Hk) as Hp.
    change (Zpos 12582912) with (3 * 2 ^ 22).
    assert (Zpos m * (3 * 2 ^ 22) < 12 * 2 ^ 44); [| lia].
    change (2 ^ 44) with (2 ^ 20 * 2 ^ 24). change (2 ^ 24) with 16777216 in *.
    change (2 ^ 22) with 4194304. change (2 ^ 20) with 1048576. lia. }
  set (d := Zpos (Pos.size mx)) in *.
  assert (Hd : d + ex <= 4).
  { pose proof (Zpos_size_bounds mx) as [Hlo _]. fold d in Hlo.
    destruct (Z_le_gt_dec (d + ex) 4) as [|Hgt]; [assumption | exfalso].
    pose proof (Z.pow_le_mono_r 2 (k + 4) (d - 1) ltac:(lia) ltac:(unfold k; lia)) as Hp.
    rewrite Z.pow_add_r in Hp by lia. change (2 ^ 4) with 16 in Hp. unfold T in Hmx. lia. }
  unfold fexp, emin, F32.prec, F32.emax in Ha, Hb, Hc2.
  set (n := Z.max (d + ex - 24) (3 - 128 - 24) - ex) in *.
  (* first rounding step *)
  assert (S1 : e1 - ex >= 0 /\ e1 <= -20 /\ m1 * 2 ^ (e1 - ex) <= T).
  { destruct (Z_lt_le_dec 0 n) as [Hn | Hn].
    - destruct (Hb Hn) as [-> Hm1]. replace (ex + n - ex) with n by lia.
      split; [lia |]. split; [unfold n; lia |].
      assert (Pn : 0 < 2 ^ n) by (apply Z.pow_pos_nonneg; lia).
      assert (HT : T = (12 * 2 ^ (k - n)) * 2 ^ n).
      { unfold T. rewrite <- Z.mul_assoc, <- Z.pow_add_r by (unfold n, k; lia).
        do 2 f_equal. lia. }
      assert (Hq : Zpos mx / 2 ^ n < 12 * 2 ^ (k - n)).
      { apply Z.div_lt_upper_bound; [exact Pn |]. rewrite Z.mul_comm, <- HT. exact Hmx. }
      rewrite HT. apply Z.mul_le_mono_nonneg_r; [lia |].
      destruct Hm1 as [-> | [-> _]]; lia.
    - destruct (Ha Hn) as [-> ->]. replace (ex - ex) with 0 by lia.
      split; [lia |]. split; [unfold n in Hn; unfold ex; lia |].
      change (2 ^ 0) with 1. lia. }
  destruct S1 as (G1 & G1' & S1).
  (* second rounding step *)
  set (n2 := Z.max (Zdigits2 m1 + e1 - 24) (3 - 128 - 24) - e1) in *.
  assert (S2 : e2 - ex >= 0 /\ 0 <= m2 /\ m2 * 2 ^ (e2 - ex) <= T).
  { destruct Hc2 as [Hc2a Hc2b]. destruct (Z_lt_le_dec 0 n2) as [Hn | Hn].
    - destruct (Hc2b Hn) as [-> ->]. split; [lia |].
      assert (Pn : 0 < 2 ^ n2) by (apply Z.pow_pos_nonneg; lia).
      split; [apply Z.div_pos; lia |].
      replace (e1 + n2 - ex) with (n2 + (e1 - ex)) by lia.
      rewrite Z.pow_add_r by lia.
      assert (P1 : 0 < 2 ^ (e1 - ex)) by (apply Z.pow_pos_nonneg; lia).
      pose proof (Z.mul_div_le m1 (2 ^ n2) Pn) as Hle.
      rewrite Z.mul_assoc.
      eapply Z.le_trans; [| exact S1].
      apply Z.mul_le_mono_nonneg_r; lia.
    - destruct (Hc2a Hn) as [-> ->]. split; [lia |]. split; [exact Hpos | exact S1]. }
  destruct S2 as (G2 & Hm2 & S2).
  destruct m2 as [| p | p]; [exact I | | lia].
  assert (P2 : 0 < 2 ^ (e2 - ex)) by (apply Z.pow_pos_nonneg; lia).
  assert (He2 : e2 <= 3).
  { destruct (Z_le_gt_dec e2 3) as [|Hgt]; [assumption | exfalso].
    pose proof (Z.pow_le_mono_r 2 (k + 4) (e2 - ex) ltac:(lia) ltac:(unfold k; lia)) as Hp.
    rewrite Z.pow_add_r in Hp by lia. change (2 ^ 4) with 16 in Hp. unfold T in S2. nia. }
  unfold F32.emax, F32.prec.
  destruct (Z.leb_spec e2 (128 - 24)); [| lia].
  apply Zceil_val_le_12 with (k := k); [lia | unfold k; lia |].
  replace (e2 + k) with (e2 - ex) by (unfold k; lia). exact S2.
Qed.

Lemma sigma_radius_four : sigma_radius MAX_BLUR_SIGMA = 12.
Proof. reflexivity. Qed.

Lemma gtb_four_four : F32.gtb MAX_BLUR_SIGMA MAX_BLUR_SIGMA = false.
Proof. reflexivity. Qed.

Lemma sigma_radius_bound x :
  F32.valid x = true -> F32.leb F32.zero x = true ->
  F32.gtb x MAX_BLUR_SIGMA = false ->
  0 <= sigma_radius x <= 12.
Proof.
  intros Hv Hn Hg. destruct x as [s | s | | s m e].
  - unfold sigma_radius. simpl. lia.
  - destruct s; discriminate.
  - discriminate.
  - destruct s; [discriminate |].
    assert (Hng : ~ (false = false /\ (-21 < e \/ e = -21 /\ 8388608 < Zpos m))).
    { intros H. apply gtb_four_finite in H. congruence. }
    destruct (Z_le_gt_dec e (-22)) as [He | He].
    + pose proof (mul_three_le_12 m e Hv He) as H.
      unfold sigma_radius.
      destruct (F32.mul (S754_finite false m e) F32.three) as [s' | s' | | s' m' e'];
        try contradiction.
      * simpl. lia.
      * destruct s'; [contradiction |]. unfold F32.ceilf_to_int.
        rewrite to_int_checked_small; exact H.
    + assert (He' : e = -21) by lia. subst e.
      pose proof (valid_finite_inv _ _ _ Hv) as [Hc _].
      assert (Hs : Zpos (Pos.size m) = 24) by lia.
      pose proof (Zpos_size_bounds m) as Hb. rewrite Hs in Hb.
      change (2 ^ (24 - 1)) with 8388608 in Hb.
      assert (Hm : m = 8388608%positive) by lia. subst m.
      vm_compute. split; discriminate.
Qed.

Lemma leb_finite_pos m1 e1 m2 e2 :
  F32.leb (S754_finite false m1 e1) (S754_finite false m2 e2) = true <->
  e1 < e2 \/ (e1 = e2 /\ Zpos m1 <= Zpos m2).
Proof.
  unfold F32.leb, SFleb, SFcompare.
  destruct (Z.compare_spec e1 e2) as [He | He | He].
  - change (Pos.compare_cont Eq m1 m2) with (Pos.compare m1 m2).
    destruct (Pos.compare_spec m1 m2) as [Hm | Hm | Hm].
    + split; [intros _; right; lia | reflexivity].
    + split; [intros _; right; lia | reflexivity].
    + split; [discriminate | lia].
  - split; [intros _; left; lia | reflexivity].
  - split; [discriminate | lia].
Qed.

(** What is above 4 is a positive finite number or [+inf]. *)
Lemma gtb_four_shape x :
  F32.gtb x MAX_BLUR_SIGMA = true ->
  x = S754_infinity false \/ exists m e, x = S754_finite false m e.
Proof.
  destruct x as [s | s | | s m e]; try discriminate.
  - destruct s; [discriminate | auto].
  - destruct s; [discriminate | eauto].
Qed.

Lemma gtb_four_mono x y :
  F32.leb x y = true ->
  F32.gtb x MAX_BLUR_SIGMA = true -> F32.gtb y MAX_BLUR_SIGMA = true.
Proof.
  intros Hle Hx. destruct (gtb_four_shape x Hx) as [-> | (m & e & ->)].
  - destruct y as [s | s | | s m e]; try discriminate; destruct s; try discriminate.
    reflexivity.
  - destruct y as [s | s | | s m2 e2]; try discriminate; destruct s; try discriminate.
    + reflexivity.
    + apply gtb_four_finite in Hx. apply leb_finite_pos in Hle.
      apply gtb_four_finite. split; [reflexivity | lia].
Qed.

Lemma valid_half m e :
  F32.valid (S754_finite false m e) = true ->
  F32.gtb (S754_finite false m e) MAX_BLUR_SIGMA = true ->
  F32.valid (S754_finite false m (e - 1)) = true.
Proof.
  intros Hv Hg. destruct (gtb_four_normal m e Hv Hg) as [He Hm].
  assert (Hs : Zpos (Pos.size m) = 24).
  { apply size_unique. change (24 - 1) with 23. lia. }
  apply valid_finite_intro; lia.
Qed.

(** Halving keeps validity, for every float the loop halves. *)
Lemma mul_half_valid x :
  F32.valid x = true -> F32.gtb x MAX_BLUR_SIGMA = true ->
  F32.valid (F32.mul x F32.half) = true.
Proof.
  intros Hv Hg. destruct (gtb_four_shape x Hg) as [-> | (m & e & ->)].
  - reflexivity.
  - rewrite mul_half_exact by assumption. now apply valid_half.
Qed.

(** Halving is monotone on the floats the loop halves. *)
Lemma mul_half_mono x y :
  F32.valid x = true -> F32.valid y = true ->
  F32.leb x y = true ->
  F32.gtb x MAX_BLUR_SIGMA = true ->
  F32.leb (F32.mul x F32.half) (F32.mul y F32.half) = true.
Proof.
  intros Hvx Hvy Hle Hx. pose proof (gtb_four_mono x y Hle Hx) as Hy.
  destruct (gtb_four_shape x Hx) as [-> | (m & e & ->)];
    destruct (gtb_four_shape y Hy) as [-> | (m2 & e2 & ->)];
    try reflexivity; try discriminate.
  - rewrite mul_half_exact by assumption. reflexivity.
  - rewrite !mul_half_exact by assumption.
    apply leb_finite_pos in Hle. apply leb_finite_pos. lia.
Qed.

(** Halving a positive float gives a positive float. *)
Lemma mul_half_nonneg x :
  F32.valid x = true -> F32.gtb x MAX_BLUR_SIGMA = true ->
  F32.leb F32.zero (F32.mul x F32.half) = true.
Proof.
  intros Hv Hg. destruct (gtb_four_shape x Hg) as [-> | (m & e & ->)].
  - reflexivity.
  - rewrite mul_half_exact by assumption. reflexivity.
Qed.

(** ** The planner loop *)

Lemma mul_comm x y : F32.mul x y = F32.mul y x.
Proof.
  unfold F32.mul.
  destruct x as [sx | sx | | sx mx ex], y as [sy | sy | | sy my ey]; simpl;
    rewrite ?(xorb_comm sx sy); try reflexivity.
  now rewrite (Pos.mul_comm mx my), (Z.add_comm ex ey).
Qed.

Lemma plan_radius_eq sigma : plan_radius sigma = sigma_radius sigma.
Proof. unfold plan_radius, sigma_radius. now rewrite mul_comm. Qed.

Lemma plan_loop_deterministic M sigma scale a1 s1 a2 s2 :
  plan_loop M sigma scale a1 s1 -> plan_loop M sigma scale a2 s2 ->
  a1 = a2 /\ s1 = s2.
Proof.
  intros H1. revert a2 s2.
  induction H1 as [sg sc Hg | sg sc a b Hg Hle H IH | sg sc a b Hg Hlt H IH];
    intros a2 s2 H2; inversion H2; subst; try congruence; try lia; auto.
Qed.

Lemma loop_unfold fuel M sigma scale :
  adjust_sigma_loop fuel M sigma scale =
  if F32.gtb sigma MAX_BLUR_SIGMA then
    match fuel with
    | O => None
    | S fuel' =>
        if imul scale 2 >? M
        then adjust_sigma_loop fuel' M MAX_BLUR_SIGMA M
        else adjust_sigma_loop fuel' M (F32.mul sigma F32.half) (imul scale 2)
    end
  else Some (sigma, scale).
Proof. destruct fuel; reflexivity. Qed.

Lemma loop_at_max fuel M :
  adjust_sigma_loop fuel M MAX_BLUR_SIGMA M = Some (MAX_BLUR_SIGMA, M).
Proof. rewrite loop_unfold. reflexivity. Qed.

Lemma double_no_wrap scale M :
  0 < scale <= M -> M < 2 ^ 30 -> imul scale 2 = 2 * scale.
Proof.
  intros H1 H2. unfold imul. rewrite wrap32_small; [lia |].
  unfold in_range, min_int, max_int. lia.
Qed.

(** The loop returns within [fuel] iterations once [scale * 2^fuel] passes
    the texture limit, and what it returns is what the stated loop gives. *)
Lemma loop_correct fuel : forall M sigma scale,
  0 < scale <= M -> M < 2 ^ 30 -> M < scale * 2 ^ Z.of_nat fuel ->
  exists sigma' scale',
    adjust_sigma_loop fuel M sigma scale = Some (sigma', scale') /\
    plan_loop M sigma scale sigma' scale' /\
    scale <= scale' <= M /\
    (scale' = M \/ exists k, 0 <= k /\ scale' = scale * 2 ^ k) /\
    F32.gtb sigma' MAX_BLUR_SIGMA = false /\
    (F32.valid sigma = true ->
     F32.valid sigma' = true /\
     (F32.leb F32.zero sigma = true -> F32.leb F32.zero sigma' = true)).
Proof.
  assert (Hstop : forall M sigma scale,
    0 < scale <= M -> F32.gtb sigma MAX_BLUR_SIGMA = false ->
    exists sigma' scale',
      Some (sigma, scale) = Some (sigma', scale') /\
      plan_loop M sigma scale sigma' scale' /\
      scale <= scale' <= M /\
      (scale' = M \/ exists k, 0 <= k /\ scale' = scale * 2 ^ k) /\
      F32.gtb sigma' MAX_BLUR_SIGMA = false /\
      (F32.valid sigma = true ->
       F32.valid sigma' = true /\
       (F32.leb F32.zero sigma = true -> F32.leb F32.zero sigma' = true))).
  { intros M sigma scale Hs Hg. exists sigma, scale.
    split; [reflexivity |]. split; [now constructor |]. split; [lia |].
    split; [| split; [exact Hg | auto]].
    right. exists 0. split; [lia |]. change (2 ^ 0) with 1. lia. }
  induction fuel as [| fuel IH]; intros M sigma scale Hs HM Hf;
    rewrite loop_unfold; destruct (F32.gtb sigma MAX_BLUR_SIGMA) eqn:Hg;
    try (now apply Hstop).
  - change (2 ^ Z.of_nat 0) with 1 in Hf. lia.
  - rewrite (double_no_wrap scale M Hs HM).
    destruct (Z.gtb_spec (2 * scale) M) as [Hgt | Hle].
    + exists MAX_BLUR_SIGMA, M. rewrite loop_at_max.
      split; [reflexivity |].
      split; [apply plan_clamp; [assumption | lia | now constructor] |].
      split; [lia |]. split; [now left |]. split; [reflexivity |].
      intros _. split; reflexivity.
    + rewrite Nat2Z.inj_succ, Z.pow_succ_r in Hf by lia.
      destruct (IH M (F32.mul sigma F32.half) (2 * scale) ltac:(lia) HM ltac:(lia))
        as (a & b & E & P & Hb & Hp & Hg' & Hv).
      exists a, b. split; [exact E |]. split; [now apply plan_double |].
      split; [lia |]. split.
      { destruct Hp as [-> | (k & Hk & ->)]; [now left | right].
        exists (k + 1). split; [lia |]. rewrite Z.pow_add_r by lia.
        change (2 ^ 1) with 2. lia. }
      split; [exact Hg' |].
      intros V. destruct (Hv (mul_half_valid sigma V Hg)) as [Hv1 Hv2].
      split; [exact Hv1 |]. intros _. apply Hv2. now apply mul_half_nonneg.
Qed.

Lemma loop_scale_bounds fuel : forall M sigma scale a b,
  0 < scale <= M -> M < 2 ^ 30 ->
  adjust_sigma_loop fuel M sigma scale = Some (a, b) ->
  scale <= b <= M.
Proof.
  induction fuel as [| fuel IH]; intros M sigma scale a b Hs HM;
    rewrite loop_unfold; destruct (F32.gtb sigma MAX_BLUR_SIGMA) eqn:Hg;
    try discriminate; try (intros [= _ <-]; lia).
  rewrite (double_no_wrap scale M Hs HM).
  destruct (Z.gtb_spec (2 * scale) M) as [Hgt | Hle].
  - rewrite loop_at_max. intros [= _ <-]. lia.
  - intros E. apply IH in E; lia.
Qed.

(** A larger sigma never gets a smaller scale factor. *)
Lemma loop_mono fuel : forall M s1 s2 scale a1 b1 a2 b2,
  0 < scale <= M -> M < 2 ^ 30 ->
  F32.valid s1 = true -> F32.valid s2 = true -> F32.leb s1 s2 = true ->
  adjust_sigma_loop fuel M s1 scale = Some (a1, b1) ->
  adjust_sigma_loop fuel M s2 scale = Some (a2, b2) ->
  b1 <= b2.
Proof.
  induction fuel as [| fuel IH];
    intros M s1 s2 scale a1 b1 a2 b2 Hs HM V1 V2 Hle E1 E2;
    rewrite loop_unfold in E1;
    destruct (F32.gtb s1 MAX_BLUR_SIGMA) eqn:Hg1; try discriminate;
    try (injection E1 as _ <-; apply loop_scale_bounds in E2; lia).
  pose proof (gtb_four_mono s1 s2 Hle Hg1) as Hg2.
  rewrite loop_unfold, Hg2 in E2.
  rewrite (double_no_wrap scale M Hs HM) in E1, E2.
  destruct (Z.gtb_spec (2 * scale) M) as [Hgt | Hle2].
  - rewrite loop_at_max in E1, E2. injection E1 as _ <-. injection E2 as _ <-. lia.
  - apply (IH M (F32.mul s1 F32.half) (F32.mul s2 F32.half) (2 * scale) a1 b1 a2 b2);
      try assumption; try lia.
    + now apply mul_half_valid.
    + now apply mul_half_valid.
    + now apply mul_half_mono.
Qed.

Lemma plan_loop_scale_ge M sigma scale sigma' scale' :
  plan_loop M sigma scale sigma' scale' -> 0 < scale <= M -> scale <= scale'.
Proof.
  induction 1 as [sg sc Hg | sg sc a b Hg Hle H IH | sg sc a b Hg Hlt H IH];
    intros Hs; [lia | |].
  - assert (2 * sc <= b) by (apply IH; lia). lia.
  - assert (M <= b) by (apply IH; lia). lia.
Qed.

Lemma leb_zero_trans x y :
  F32.leb F32.zero x = true -> F32.leb x y = true ->
  F32.leb F32.zero y = true.
Proof.
  destruct x as [sx | sx | | sx mx ex], y as [sy | sy | | sy my ey];
    try destruct sx; try destruct sy; try discriminate; try reflexivity.
Qed.

(** ** Claims on the planner *)

Section PlannerProperties.

Context {ext : Externals}.

(** The kernel radius the convolution supports covers the radius of the
    largest sigma a pass is given, [ceil (3 * 4.0) = 12]. *)
Hypothesis kMaxKernelRadius_covers : 12 <= kMaxKernelRadius.

Variable maxTextureSize : Z.
Hypothesis maxTextureSize_pos : 0 < maxTextureSize.
Hypothesis maxTextureSize_small : maxTextureSize < 2 ^ 30.

Variable fuel : nat.
Hypothesis fuel_enough : (30 <= fuel)%nat.

Lemma fuel_covers : maxTextureSize < 1 * 2 ^ Z.of_nat fuel.
Proof.
  assert (2 ^ 30 <= 2 ^ Z.of_nat fuel) by (apply Z.pow_le_mono_r; lia). lia.
Qed.

(** What [adjust_sigma] returns for a non-negative sigma. *)
Lemma adjust_sigma_returns sigma :
  F32.valid sigma = true -> F32.leb F32.zero sigma = true ->
  exists sigma' scaleFactor,
    adjust_sigma fuel sigma maxTextureSize
      = Returned (sigma', scaleFactor, sigma_radius sigma') /\
    adjust_sigma_loop fuel maxTextureSize sigma 1 = Some (sigma', scaleFactor) /\
    plan_loop maxTextureSize sigma 1 sigma' scaleFactor /\
    1 <= scaleFactor <= maxTextureSize /\
    (scaleFactor = maxTextureSize \/ exists k, 0 <= k /\ scaleFactor = 2 ^ k) /\
    F32.gtb sigma' MAX_BLUR_SIGMA = false /\
    0 <= sigma_radius sigma' <= 12.
Proof.
  intros Hv Hn.
  destruct (loop_correct fuel maxTextureSize sigma 1 ltac:(lia)
              maxTextureSize_small fuel_covers)
    as (a & b & E & P & Hb & Hp & Hg & Hv').
  destruct (Hv' Hv) as [Va Na]. specialize (Na Hn).
  pose proof (sigma_radius_bound a Va Na Hg) as Hr.
  exists a, b. unfold adjust_sigma. rewrite E.
  destruct (Z.leb_spec (sigma_radius a) kMaxKernelRadius); [| lia].
  rewrite orb_true_r. repeat split; auto; try lia.
  destruct Hp as [-> | (k & Hk & ->)]; [now left | right].
  exists k. split; [exact Hk | lia].
Qed.

(** C1, as amended: for every non-negative sigma and every maxTextureSize
    with [0 < maxTextureSize < 2^30], [adjust_sigma] returns the triple
    (effectiveSigma, scaleFactor, radius) of the stated loop, which is
    unique: starting from scale factor 1, while sigma exceeds 4.0 the scale
    factor doubles and sigma halves, a scale factor that would exceed
    maxTextureSize being clamped to it with sigma clamped to 4.0, and the
    radius is the ceiling of three times the final sigma. *)
Theorem adjust_sigma_computes_plan sigma :
  F32.valid sigma = true -> F32.leb F32.zero sigma = true ->
  exists result,
    adjust_sigma fuel sigma maxTextureSize
      = Returned result /\
    plan sigma maxTextureSize result /\
    forall result', plan sigma maxTextureSize result' -> result' = result.
Proof.
  intros Hv Hn.
  destruct (adjust_sigma_returns sigma Hv Hn)
    as (a & b & E & _ & P & _ & _ & _ & _).
  exists (a, b, sigma_radius a). split; [exact E |]. split.
  - split; [exact P | symmetry; apply plan_radius_eq].
  - intros [[a' b'] r'] [P' ->].
    destruct (plan_loop_deterministic _ _ _ _ _ _ _ P' P) as [-> ->].
    now rewrite plan_radius_eq.
Qed.

(** C5, as amended: for a fixed maxTextureSize with
    [0 < maxTextureSize < 2^30], the scale factor [adjust_sigma] returns
    does not decrease when the non-negative sigma increases, and the radius
    it returns never exceeds the maximal supported kernel radius. *)
Theorem adjust_sigma_monotone sigma1 sigma2 :
  F32.valid sigma1 = true -> F32.valid sigma2 = true ->
  F32.leb F32.zero sigma1 = true -> F32.leb sigma1 sigma2 = true ->
  exists e1 scale1 radius1 e2 scale2 radius2,
    adjust_sigma fuel sigma1 maxTextureSize
      = Returned (e1, scale1, radius1) /\
    adjust_sigma fuel sigma2 maxTextureSize
      = Returned (e2, scale2, radius2) /\
    scale1 <= scale2 /\
    radius1 <= kMaxKernelRadius /\ radius2 <= kMaxKernelRadius.
Proof.
  intros V1 V2 N1 Hle.
  pose proof (leb_zero_trans _ _ N1 Hle) as N2.
  destruct (adjust_sigma_returns sigma1 V1 N1)
    as (a1 & b1 & E1 & L1 & _ & _ & _ & _ & R1).
  destruct (adjust_sigma_returns sigma2 V2 N2)
    as (a2 & b2 & E2 & L2 & _ & _ & _ & _ & R2).
  exists a1, b1, (sigma_radius a1), a2, b2, (sigma_radius a2).
  split; [exact E1 |]. split; [exact E2 |]. split; [| lia].
  apply (loop_mono fuel maxTextureSize sigma1 sigma2 1 a1 b1 a2 b2);
    try assumption; lia.
Qed.

End PlannerProperties.

(** ** Reasoning on the command monad *)

Section Hoare.

Context {ext : Externals}.

Lemma sat_ret {A} (a : A) (Q : outcome A -> list GpuEvent -> Prop) :
  Q (Returned a) [] -> sat (ret a) Q.
Proof. intros H s. exact H. Qed.

Lemma sat_emit e (Q : outcome unit -> list GpuEvent -> Prop) :
  Q (Returned tt) [e] -> sat (emit e) Q.
Proof. intros H s. exact H. Qed.

Lemma sat_lift {A} (o : outcome A) (Q : outcome A -> list GpuEvent -> Prop) :
  Q o [] -> sat (lift o) Q.
Proof. intros H s. exact H. Qed.

Lemma sat_conseq {A} (m : M A) (Q Q' : outcome A -> list GpuEvent -> Prop) :
  sat m Q -> (forall o l, Q o l -> Q' o l) -> sat m Q'.
Proof. intros H HQ s. apply HQ, H. Qed.

Lemma sat_bind {A B} (m : M A) (k : A -> M B)
    (R : outcome B -> list GpuEvent -> Prop) :
  sat m (fun o l1 =>
           match o with
           | Returned a => sat (k a) (fun o2 l2 => R o2 (l1 ++ l2))
           | AssertFailed => R AssertFailed l1
           | NullDeref => R NullDeref l1
           | OutOfFuel => R OutOfFuel l1
           end) ->
  sat (bind m k) R.
Proof.
  intros H s. specialize (H s). unfold bind, outcome_of, events_of in *.
  destruct (m s) as [[o s1] l1]. cbn [fst snd] in H.
  destruct o as [a | | |]; try exact H.
  specialize (H s1). unfold outcome_of, events_of in H.
  destruct (k a s1) as [[o2 s2] l2]. exact H.
Qed.

Lemma sat_SkASSERT cond (Q : outcome unit -> list GpuEvent -> Prop) :
  (negb SK_DEBUG || cond = true -> Q (Returned tt) []) ->
  (SK_DEBUG = true -> cond = false -> Q AssertFailed []) ->
  sat (SkASSERT cond) Q.
Proof.
  intros H1 H2. unfold SkASSERT.
  destruct (negb SK_DEBUG || cond) eqn:E.
  - apply sat_ret. now apply H1.
  - apply sat_lift. apply orb_false_iff in E. destruct E as [E1 E2].
    apply H2; [now destruct SK_DEBUG | exact E2].
Qed.

Lemma sat_makeDeferredRenderTargetContext fit w h config cs
    (Q : outcome (option GrRenderTargetContext) -> list GpuEvent -> Prop) :
  (forall id,
     Q (Returned (Some (MkRTC id fit w h config cs)))
       [MakeDeferredRenderTargetContext fit w h config cs (Some id)]) ->
  Q (Returned None) [MakeDeferredRenderTargetContext fit w h config cs None] ->
  sat (makeDeferredRenderTargetContext fit w h config cs) Q.
Proof.
  intros H1 H2 s. unfold makeDeferredRenderTargetContext.
  destruct (gpu_ok (requests s)); [apply H1 | apply H2].
Qed.

Lemma sat_asTextureProxyRef rtc
    (Q : outcome (option GrTextureProxy) -> list GpuEvent -> Prop) :
  Q (Returned (Some (MkProxy (rtc_id rtc) (rtc_config rtc))))
    [AsTextureProxyRef (rtc_id rtc) true] ->
  Q (Returned None) [AsTextureProxyRef (rtc_id rtc) false] ->
  sat (asTextureProxyRef rtc) Q.
Proof.
  intros H1 H2 s. unfold asTextureProxyRef.
  destruct (gpu_ok (requests s)); [apply H1 | apply H2].
Qed.

Lemma sat_and {A} (m : M A) (Q1 Q2 : outcome A -> list GpuEvent -> Prop) :
  sat m Q1 -> sat m Q2 -> sat m (fun o l => Q1 o l /\ Q2 o l).
Proof. intros H1 H2 s. split; [apply H1 | apply H2]. Qed.

(** Every event of a call satisfies [P]. *)
Lemma sat_all_bind {A B} (P : GpuEvent -> Prop) (m : M A) (k : A -> M B) :
  sat m (fun _ l => Forall P l) ->
  (forall a, sat (k a) (fun _ l => Forall P l)) ->
  sat (bind m k) (fun _ l => Forall P l).
Proof.
  intros Hm Hk. apply sat_bind. eapply sat_conseq; [exact Hm |].
  intros o l Hl. destruct o as [a | | |]; try exact Hl.
  eapply sat_conseq; [apply Hk |]. intros o2 l2 H2.
  apply Forall_app. now split.
Qed.

End Hoare.

(** One step of symbolic execution of a call; [wp_call] holds the steps
    through the calls whose effect has been established. *)
Ltac wp_call := fail.

Ltac wp_step :=
  first [ wp_call | lazymatch goal with
  | |- sat (bind _ _) _ => apply sat_bind
  | |- sat (ret _) _ => apply sat_ret
  | |- sat (emit _) _ => apply sat_emit
  | |- sat (lift _) _ => apply sat_lift
  | |- sat (SkASSERT _) _ => apply sat_SkASSERT; [intros _ | intros _ _]
  | |- sat (makeDeferredRenderTargetContext _ _ _ _ _) _ =>
      apply sat_makeDeferredRenderTargetContext; [intros ? |]
  | |- sat (asTextureProxyRef _) _ => apply sat_asTextureProxyRef
  | |- sat (absClear _ _) _ => unfold absClear; apply sat_emit
  | |- sat (clear _ _) _ => unfold clear; apply sat_emit
  | |- sat (fillRectToRect _ _ _ _ _) _ => unfold fillRectToRect; apply sat_emit
  | |- sat (fillRectWithLocalMatrix _ _ _ _ _) _ =>
      unfold fillRectWithLocalMatrix; apply sat_emit
  | |- sat (if ?b then _ else _) _ => destruct b eqn:?
  | |- sat (match (if ?b then _ else _) with _ => _ end) _ => destruct b eqn:?
  | |- sat (match (match ?x with _ => _ end) with _ => _ end) _ =>
      destruct x eqn:?
  | |- sat (match ?x with _ => _ end) _ => destruct x eqn:?
  | |- match ?o with
       | Returned _ => _ | AssertFailed => _ | NullDeref => _ | OutOfFuel => _
       end => destruct o as [? | | |] eqn:?
  end ]; cbv beta iota zeta.

Ltac wp := repeat wp_step.

(** Symbolic execution for a property [Forall P] of the events: [leaf]
    proves [P] of an emitted event, [call] the property of a call whose
    events have been dealt with. *)
Ltac all_events_step leaf call :=
  lazymatch goal with
  | |- sat (bind _ _) _ => apply sat_all_bind; [| intros ?]
  | |- sat (ret _) _ => apply sat_ret; constructor
  | |- sat (lift _) _ => apply sat_lift; constructor
  | |- sat (emit _) _ => apply sat_emit; constructor; [leaf | constructor]
  | |- sat (SkASSERT _) _ => apply sat_SkASSERT; intros; constructor
  | |- sat (makeDeferredRenderTargetContext _ _ _ _ _) _ =>
      apply sat_makeDeferredRenderTargetContext;
      [intros ? |]; (constructor; [leaf | constructor])
  | |- sat (asTextureProxyRef _) _ =>
      apply sat_asTextureProxyRef; (constructor; [leaf | constructor])
  | |- sat (absClear _ _) _ => unfold absClear
  | |- sat (clear _ _) _ => unfold clear
  | |- sat (fillRectToRect _ _ _ _ _) _ => unfold fillRectToRect
  | |- sat (fillRectWithLocalMatrix _ _ _ _ _) _ =>
      unfold fillRectWithLocalMatrix
  | |- sat (if ?b then _ else _) _ => destruct b eqn:?
  | |- sat (match (if ?b then _ else _) with _ => _ end) _ =>
      destruct b eqn:?
  | |- sat (match (match ?x with _ => _ end) with _ => _ end) _ =>
      destruct x eqn:?
  | |- sat (match ?x with _ => _ end) _ => destruct x eqn:?
  | |- sat _ _ => call
  end;
  cbv beta iota zeta.

Ltac all_events leaf call := repeat all_events_step leaf call.

(** ** Claims on the stages *)

Lemma get_blur_config_spec {ext : Externals} proxy cs :
  sat (get_blur_config proxy cs)
    (fun o l =>
       l = [] /\
       (o = AssertFailed \/ o = Returned (blur_config (proxy_config proxy) cs))).
Proof. unfold get_blur_config. wp; auto. Qed.

Ltac wp_call ::=
  lazymatch goal with
  | |- sat (get_blur_config _ _) _ =>
      eapply sat_conseq;
      [apply get_blur_config_spec | intros ? ? [-> [-> | ->]]]
  end.

Section StageProperties.

Context {ext : Externals}.

(** C8: whatever the GPU layer answers, [reexpand] first clears two strips
    of the source surface, one pixel high immediately below and one pixel
    wide immediately to the right of the rectangle [(0, 0, width, height)]
    that holds the surface's content, and every draw comes after them. *)
Theorem reexpand_clears_halo_first src localSrcBounds scaleFactorX scaleFactorY
    mode dstII fit :
  sat (reexpand src localSrcBounds scaleFactorX scaleFactorY mode dstII fit)
    (fun _ l =>
       let w := rtc_width src in
       let h := rtc_height src in
       exists rest,
         l = [Enter Stage_reexpand;
              AbsClear (rtc_id src) (MkIRect 0 h (w + 1) (h + 1));
              AbsClear (rtc_id src) (MkIRect w 0 (w + 1) h)]
             ++ rest /\
         Forall (fun e => is_abs_clear e = false) rest).
Proof.
  unfold reexpand. wp;
    unfold IRect.MakeXYWH, IRect.width, IRect.height, IRect.MakeWH;
    cbn [fLeft fTop fRight fBottom];
    replace (0 + (rtc_width src - 0 + 1)) with (rtc_width src + 1) by lia;
    replace (0 + (rtc_height src - 0)) with (rtc_height src) by lia;
    (eexists; split; [reflexivity | repeat constructor]).
Qed.

End StageProperties.

(** *** Repeat is sampled as Decal *)

Lemma shrink_irect_by_2_quiet {ext : Externals} (P : GpuEvent -> Prop)
    rect xAxis yAxis :
  sat (shrink_irect_by_2 rect xAxis yAxis) (fun _ l => Forall P l).
Proof. unfold shrink_irect_by_2. all_events fail fail. Qed.

Lemma get_blur_config_quiet {ext : Externals} (P : GpuEvent -> Prop) proxy cs :
  sat (get_blur_config proxy cs) (fun _ l => Forall P l).
Proof. unfold get_blur_config. all_events fail fail. Qed.

Section DecalProperties.

Context {ext : Externals}.

(** A draw that samples through a texture domain does so in Decal mode. *)
Let decal_or_none (e : GpuEvent) : Prop :=
  domain_mode_of e = None \/ domain_mode_of e = Some kDecal_Mode.

Ltac decal_leaf := solve [left; reflexivity | right; reflexivity].
Ltac quiet_call :=
  first [ apply shrink_irect_by_2_quiet | apply get_blur_config_quiet ].

Lemma convolve_gaussian_1d_no_domain rtc clip dstRect srcOffset proxy direction
    radius sigma mode bounds :
  sat (convolve_gaussian_1d rtc clip dstRect srcOffset proxy direction radius
         sigma mode bounds)
    (fun _ l => Forall decal_or_none l).
Proof. unfold convolve_gaussian_1d. all_events decal_leaf quiet_call. Qed.

Lemma convolve_gaussian_no_domain proxy srcRect srcOffset direction radius sigma
    srcBounds mode dstII fit :
  sat (convolve_gaussian proxy srcRect srcOffset direction radius sigma
         srcBounds mode dstII fit)
    (fun _ l => Forall decal_or_none l).
Proof.
  unfold convolve_gaussian, clear_unless_empty.
  all_events decal_leaf
    ltac:(first [quiet_call | apply convolve_gaussian_1d_no_domain]).
Qed.

Lemma convolve_gaussian_2d_no_domain proxy srcBounds srcOffset radiusX radiusY
    sigmaX sigmaY mode dstII dstFit :
  sat (convolve_gaussian_2d proxy srcBounds srcOffset radiusX radiusY sigmaX
         sigmaY mode dstII dstFit)
    (fun _ l => Forall decal_or_none l).
Proof. unfold convolve_gaussian_2d. all_events decal_leaf quiet_call. Qed.

Lemma decimate_loop_repeat_is_decal fuel : forall contentRect scaleFactorX
    scaleFactorY config dstII i vars,
  sat (decimate_loop fuel contentRect scaleFactorX scaleFactorY kRepeat_Mode
         config dstII i vars)
    (fun _ l => Forall decal_or_none l).
Proof.
  induction fuel as [| fuel IH]; intros; cbn [decimate_loop];
    all_events decal_leaf ltac:(first [quiet_call | apply IH]).
Qed.

Lemma decimate_repeat_is_decal fuel src srcOffset contentRect scaleFactorX
    scaleFactorY willBeXFiltering willBeYFiltering radiusX radiusY dstII :
  sat (decimate fuel src srcOffset contentRect scaleFactorX scaleFactorY
         willBeXFiltering willBeYFiltering radiusX radiusY kRepeat_Mode dstII)
    (fun _ l => Forall decal_or_none l).
Proof.
  unfold decimate.
  all_events decal_leaf
    ltac:(first [quiet_call | apply decimate_loop_repeat_is_decal]).
Qed.

Lemma reexpand_repeat_is_decal src localSrcBounds scaleFactorX scaleFactorY
    dstII fit :
  sat (reexpand src localSrcBounds scaleFactorX scaleFactorY kRepeat_Mode
         dstII fit)
    (fun _ l => Forall decal_or_none l).
Proof. unfold reexpand. all_events decal_leaf quiet_call. Qed.

Lemma blur_planned_repeat_is_decal fuel srcProxy srcBounds srcOffset
    finalDestII fit sigmaX scaleFactorX radiusX sigmaY scaleFactorY radiusY :
  sat (blur_planned fuel srcProxy srcBounds srcOffset kRepeat_Mode finalDestII
         fit sigmaX scaleFactorX radiusX sigmaY scaleFactorY radiusY)
    (fun _ l => Forall decal_or_none l).
Proof.
  unfold blur_planned, x_pass, y_pass.
  all_events decal_leaf
    ltac:(first [ quiet_call
                | apply convolve_gaussian_no_domain
                | apply convolve_gaussian_2d_no_domain
                | apply decimate_repeat_is_decal
                | apply reexpand_repeat_is_decal ]).
Qed.

(** In a blur with edge mode Repeat no draw samples through a texture
    domain in a mode other than Decal. *)
Lemma GaussianBlur_repeat_all_decal fuel context srcProxy colorSpace
    dstBounds srcBounds sigmaX sigmaY at_ fit :
  sat (GaussianBlur fuel context srcProxy colorSpace dstBounds srcBounds
         sigmaX sigmaY kRepeat_Mode at_ fit)
    (fun _ l =>
       forall e mode, In e l -> domain_mode_of e = Some mode ->
                      mode = kDecal_Mode).
Proof.
  eapply sat_conseq with (Q := fun _ l => Forall decal_or_none l).
  - unfold GaussianBlur.
    all_events decal_leaf
      ltac:(first [quiet_call | apply blur_planned_repeat_is_decal]).
  - intros _ l H e mode Hin He. rewrite Forall_forall in H.
    destruct (H e Hin) as [E | E]; congruence.
Qed.

End DecalProperties.

(** *** The pixel config of the surfaces *)

Section ConfigProperties.

Context {ext : Externals}.

(** The config of the source texture and the colour space of the blur. *)
Variable config0 : GrPixelConfig.
Variable cs : option SkColorSpace.

Let chosen : GrPixelConfig := blur_config config0 cs.

(** An allocation asks for the chosen config. *)
Let asks_chosen (e : GpuEvent) : Prop :=
  alloc_config_of e = None \/ alloc_config_of e = Some chosen.

(** A proxy whose config [get_blur_config] maps to the chosen one. *)
Let good_proxy (p : GrTextureProxy) : Prop :=
  blur_config (proxy_config p) cs = chosen.

Let surface_post (o : outcome (option GrRenderTargetContext))
    (l : list GpuEvent) : Prop :=
  Forall asks_chosen l /\
  forall r, o = Returned (Some r) -> rtc_config r = chosen.

Lemma blur_config_idempotent c :
  blur_config (blur_config c cs) cs = blur_config c cs.
Proof.
  unfold blur_config.
  destruct (GrPixelConfigIsSRGB c) eqn:E, cs; cbn [andb]; rewrite ?E;
    cbn [andb]; try reflexivity.
  now destruct (GrPixelConfigIsSRGB kRGBA_8888_GrPixelConfig).
Qed.

Lemma chosen_is_good id : good_proxy (MkProxy id chosen).
Proof. apply blur_config_idempotent. Qed.

Ltac chosen_leaf :=
  solve [ left; reflexivity
        | right; reflexivity
        | right; cbn [alloc_config_of]; f_equal; assumption ].

Ltac finish_surface :=
  split;
  [ repeat (apply Forall_app; split); repeat constructor;
    try assumption; chosen_leaf
  | intros ? [= <-] || intros ? [=]; try reflexivity; try assumption ].

Lemma convolve_gaussian_2d_config proxy srcBounds srcOffset radiusX radiusY
    sigmaX sigmaY mode dstII dstFit :
  good_proxy proxy -> ii_colorSpace dstII = cs ->
  sat (convolve_gaussian_2d proxy srcBounds srcOffset radiusX radiusY sigmaX
         sigmaY mode dstII dstFit) surface_post.
Proof.
  intros Hp Hcs. unfold convolve_gaussian_2d. rewrite Hcs.
  wp; rewrite ?Hp; finish_surface.
Qed.

Lemma convolve_gaussian_config proxy srcRect srcOffset direction radius sigma
    srcBounds mode dstII fit :
  good_proxy proxy -> ii_colorSpace dstII = cs ->
  sat (convolve_gaussian proxy srcRect srcOffset direction radius sigma
         srcBounds mode dstII fit) surface_post.
Proof.
  intros Hp Hcs.
  unfold convolve_gaussian, clear_unless_empty, convolve_gaussian_1d.
  rewrite Hcs. wp; rewrite ?Hp; finish_surface.
Qed.

Let loop_vars_good (vars : DecimateVars) : Prop :=
  good_proxy (dv_src vars) /\
  forall d, dv_dstRenderTargetContext vars = Some d -> rtc_config d = chosen.

Lemma decimate_loop_config fuel : forall contentRect scaleFactorX scaleFactorY
    mode dstII i vars,
  loop_vars_good vars -> ii_colorSpace dstII = cs ->
  sat (decimate_loop fuel contentRect scaleFactorX scaleFactorY mode chosen
         dstII i vars)
    (fun o l =>
       Forall asks_chosen l /\
       forall vars', o = Returned (LoopDone vars') -> loop_vars_good vars').
Proof.
  induction fuel as [| fuel IH]; intros contentRect sx sy mode dstII i vars
    Hv Hcs; cbn [decimate_loop].
  - wp; (split; [constructor | intros ? [= <-] || intros ? [=]; assumption]).
  - unfold shrink_irect_by_2. rewrite Hcs.
    wp;
      try (split;
           [ repeat (apply Forall_app; split); repeat constructor; chosen_leaf
           | intros ? [= <-] || intros ? [=]; assumption ]).
    all: eapply sat_conseq;
      [ apply IH; [split; [apply chosen_is_good | intros ? [= <-]; reflexivity]
                  | exact Hcs]
      | cbv beta; intros o l [Hl Ho]; split;
        [ repeat (apply Forall_app; split); repeat constructor;
          try assumption; chosen_leaf
        | exact Ho ] ].
Qed.

Ltac forall_events :=
  repeat (apply Forall_app; split); repeat constructor;
  try assumption; try chosen_leaf.

Lemma decimate_config fuel src srcOffset contentRect scaleFactorX scaleFactorY
    willBeXFiltering willBeYFiltering radiusX radiusY mode dstII :
  good_proxy src -> ii_colorSpace dstII = cs ->
  sat (decimate fuel src srcOffset contentRect scaleFactorX scaleFactorY
         willBeXFiltering willBeYFiltering radiusX radiusY mode dstII)
    (fun o l =>
       Forall asks_chosen l /\
       forall p off r, o = Returned (Some p, off, r) -> good_proxy p).
Proof.
  intros Hp Hcs. unfold decimate. rewrite Hcs.
  wp; try solve [split; [forall_events | intros ? ? ? [=]]].
  rewrite Hp.
  eapply sat_conseq;
    [ apply decimate_loop_config;
      [split; [exact Hp | intros ? [=]] | exact Hcs] |].
  cbv beta. intros o l [Hl Ho].
  destruct o as [[vars | off] | | |];
    try solve [split; [forall_events | intros ? ? ? [=]]].
  destruct (Ho vars eq_refl) as [Hsrc Hdst].
  wp; try solve [split; [forall_events | intros ? ? ? [=]]].
  all: split; [forall_events | intros ? ? ? [= <- _ _]];
    cbn [proxy_config]; unfold good_proxy;
    erewrite Hdst by reflexivity; apply blur_config_idempotent.
Qed.

Lemma reexpand_config src localSrcBounds scaleFactorX scaleFactorY mode dstII
    fit :
  rtc_config src = chosen -> ii_colorSpace dstII = cs ->
  sat (reexpand src localSrcBounds scaleFactorX scaleFactorY mode dstII fit)
    surface_post.
Proof.
  intros Hsrc Hcs. unfold reexpand. rewrite Hcs.
  wp; cbn [proxy_config]; rewrite ?Hsrc;
    rewrite ?(chosen_is_good 0); finish_surface.
Qed.

Let blur_vars_good (vars : BlurVars) : Prop :=
  good_proxy (bv_srcProxy vars) /\
  forall d, bv_dstRenderTargetContext vars = Some d -> rtc_config d = chosen.

Lemma x_pass_config sigmaX sigmaY radiusX radiusY mode finalDestII xFit vars :
  blur_vars_good vars -> ii_colorSpace finalDestII = cs ->
  sat (x_pass sigmaX sigmaY radiusX radiusY mode finalDestII xFit vars)
    (fun o l =>
       Forall asks_chosen l /\
       forall vars', o = Returned (Some vars') -> blur_vars_good vars').
Proof.
  intros [Hp Hd] Hcs. unfold x_pass.
  wp_step; [| wp; split; [forall_events | intros ? [= <-]; now split]].
  wp_step.
  eapply sat_conseq; [apply convolve_gaussian_config; eassumption |].
  cbv beta. intros o l [Hl Ho].
  destruct o as [[dst |] | | |];
    try solve [split; [forall_events | intros ? [=]]].
  pose proof (Ho dst eq_refl) as Hdst.
  wp; try solve [split; [forall_events | intros ? [=]]].
  all: split; [forall_events | intros ? [= <-]];
    (split; [cbn [bv_srcProxy]; rewrite Hdst; apply chosen_is_good
            | cbn [bv_dstRenderTargetContext]; intros ? [= <-]; exact Hdst]).
Qed.

Lemma y_pass_config sigmaY radiusY mode finalDestII yFit vars :
  blur_vars_good vars -> ii_colorSpace finalDestII = cs ->
  sat (y_pass sigmaY radiusY mode finalDestII yFit vars)
    (fun o l =>
       Forall asks_chosen l /\
       forall vars', o = Returned (Some vars') -> blur_vars_good vars').
Proof.
  intros [Hp Hd] Hcs. unfold y_pass.
  wp_step; [| wp; split; [forall_events | intros ? [= <-]; now split]].
  wp_step.
  eapply sat_conseq; [apply convolve_gaussian_config; eassumption |].
  cbv beta. intros o l [Hl Ho].
  destruct o as [[dst |] | | |];
    try solve [split; [forall_events | intros ? [=]]].
  pose proof (Ho dst eq_refl) as Hdst.
  wp; try solve [split; [forall_events | intros ? [=]]].
  split; [forall_events | intros ? [= <-]];
    (split; [cbn [bv_srcProxy]; rewrite Hdst; apply chosen_is_good
            | cbn [bv_dstRenderTargetContext]; intros ? [= <-]; exact Hdst]).
Qed.

Lemma blur_planned_config fuel srcProxy srcBounds srcOffset mode finalDestII
    fit sigmaX scaleFactorX radiusX sigmaY scaleFactorY radiusY :
  good_proxy srcProxy -> ii_colorSpace finalDestII = cs ->
  sat (blur_planned fuel srcProxy srcBounds srcOffset mode finalDestII fit
         sigmaX scaleFactorX radiusX sigmaY scaleFactorY radiusY)
    surface_post.
Proof.
  intros Hp Hcs. unfold blur_planned. wp_step.
  - wp; try solve [split; [forall_events | intros ? [=]]].
    eapply sat_conseq; [apply convolve_gaussian_2d_config; assumption |].
    cbv beta. intros o l [Hl Ho]. split; [forall_events | exact Ho].
  - apply sat_bind.
    eapply sat_conseq with
      (Q := fun o l => Forall asks_chosen l /\
                       forall p off r, o = Returned (Some p, off, r) ->
                                       good_proxy p).
    { destruct ((scaleFactorX >? 1) || (scaleFactorY >? 1)).
      - now apply decimate_config.
      - apply sat_ret. split; [constructor | intros ? ? ? [= <- _ _]; exact Hp]. }
    cbv beta. intros o l [Hl Ho].
    destruct o as [[[[p |] off] r] | | |];
      try solve [split; [forall_events | intros ? [=]]].
    specialize (Ho p off r eq_refl). cbv beta iota zeta.
    apply sat_bind.
    eapply sat_conseq;
      [ apply x_pass_config; [split; [exact Ho | intros ? [=]] | exact Hcs] |].
    cbv beta. intros o1 l1 [Hl1 Ho1].
    destruct o1 as [[vars1 |] | | |];
      try solve [split; [forall_events | intros ? [=]]].
    apply sat_bind.
    eapply sat_conseq;
      [ apply y_pass_config; [now apply Ho1 | exact Hcs] |].
    cbv beta. intros o2 l2 [Hl2 Ho2].
    destruct o2 as [[vars2 |] | | |];
      try solve [split; [forall_events | intros ? [=]]].
    destruct (Ho2 vars2 eq_refl) as [Hp2 Hd2].
    wp; try solve [split; [forall_events | intros ? [=]]].
    + eapply sat_conseq;
        [ apply reexpand_config; [now apply Hd2 | exact Hcs] |].
      cbv beta. intros o3 l3 [Hl3 Ho3]. split; [forall_events | exact Ho3].
    + split; [forall_events | intros ? [= E]; now apply Hd2].
Qed.

Lemma GaussianBlur_config_of_source fuel context srcProxy dstBounds srcBounds sigmaX
    sigmaY mode at_ fit :
  config0 = proxy_config srcProxy ->
  sat (GaussianBlur fuel context srcProxy cs dstBounds srcBounds sigmaX
         sigmaY mode at_ fit)
    (fun o l =>
       let expected :=
         if GrPixelConfigIsSRGB (proxy_config srcProxy) && is_none cs
         then kRGBA_8888_GrPixelConfig
         else proxy_config srcProxy in
       (forall e c, In e l -> alloc_config_of e = Some c -> c = expected) /\
       (forall r, o = Returned (Some r) -> rtc_config r = expected)).
Proof.
  intros E0.
  assert (Hexp : (if GrPixelConfigIsSRGB (proxy_config srcProxy) && is_none cs
                  then kRGBA_8888_GrPixelConfig
                  else proxy_config srcProxy) = chosen).
  { unfold chosen, blur_config. rewrite E0. now destruct cs. }
  cbv zeta. rewrite Hexp.
  eapply sat_conseq with (Q := surface_post).
  - unfold GaussianBlur.
    wp; try solve [split; [forall_events | intros ? [=]]].
    eapply sat_conseq;
      [ apply blur_planned_config; [unfold good_proxy, chosen; now rewrite E0
                                   | reflexivity] |].
    cbv beta. intros o l [Hl Ho]. split; [forall_events | exact Ho].
  - intros o l [Hl Ho]. split; [| exact Ho].
    intros e c Hin Hc. rewrite Forall_forall in Hl.
    destruct (Hl e Hin) as [H | H]; congruence.
Qed.

End ConfigProperties.

(** C10: every surface [GaussianBlur] allocates, intermediate or final, is
    asked for with pixel config RGBA_8888 when the source texture has an
    sRGB config and the colour space is null, and with the config of the
    source texture in every other case; the surface it returns has that
    config. *)
Theorem GaussianBlur_config {ext : Externals} fuel context srcProxy colorSpace
    dstBounds srcBounds sigmaX sigmaY mode at_ fit :
  sat (GaussianBlur fuel context srcProxy colorSpace dstBounds srcBounds
         sigmaX sigmaY mode at_ fit)
    (fun o l =>
       let expected :=
         if GrPixelConfigIsSRGB (proxy_config srcProxy) && is_none colorSpace
         then kRGBA_8888_GrPixelConfig
         else proxy_config srcProxy in
       (forall e c, In e l -> alloc_config_of e = Some c -> c = expected) /\
       (forall r, o = Returned (Some r) -> rtc_config r = expected)).
Proof.
  now apply (GaussianBlur_config_of_source (proxy_config srcProxy) colorSpace).
Qed.

(** *** A failure stops the blur *)

Lemma clean_app l1 l2 : clean l1 -> clean l2 -> clean (l1 ++ l2).
Proof. intros H1 H2. apply Forall_app. now split. Qed.

Lemma fail_stop_app_clean {A} (n : A -> bool) o l1 l2 :
  clean l1 -> fail_stop n o l2 -> fail_stop n o (l1 ++ l2).
Proof.
  intros H1 [H2 | (l' & f & a & -> & Hc & Hf & Ho & Hn)].
  - left. now apply clean_app.
  - right. exists (l1 ++ l'), f, a. rewrite app_assoc.
    repeat split; auto. now apply clean_app.
Qed.

Lemma fail_stop_at_failure {A} (n : A -> bool) a f :
  is_failure f = true -> n a = true -> fail_stop n (Returned a) ([f] ++ []).
Proof.
  intros Hf Hn. right. exists [], f, a. repeat split; auto. constructor.
Qed.

(** A null result is handed on: the caller returns null in its turn,
    asking the GPU nothing more. *)
Lemma fail_stop_propagate {A B} (n1 : A -> bool) (n2 : B -> bool) a b l :
  fail_stop n1 (Returned a) l -> n2 b = true ->
  fail_stop n2 (Returned b) (l ++ []).
Proof.
  rewrite app_nil_r. intros [H | (l' & f & a' & -> & Hc & Hf & Ho & Hn)] Hb.
  - now left.
  - right. exists l', f, b. repeat split; auto.
Qed.

Lemma fail_stop_not_null {A} (n : A -> bool) a l :
  fail_stop n (Returned a) l -> n a = false -> clean l.
Proof.
  intros [H | (l' & f & a' & -> & Hc & Hf & Ho & Hn)] Ha; [exact H |].
  injection Ho as <-. congruence.
Qed.

Lemma fail_stop_aborted {A B} (n1 : A -> bool) (n2 : B -> bool) o1 o2 l :
  fail_stop n1 o1 l -> (forall a, o1 <> Returned a) -> fail_stop n2 o2 l.
Proof.
  intros [H | (l' & f & a' & -> & Hc & Hf & Ho & Hn)] Hne; [now left |].
  now destruct (Hne a').
Qed.

(** Closes a goal [fail_stop n o l] for the events [l] of one path. *)
Ltac clean_events :=
  solve [ assumption
        | unfold clean; repeat (constructor; [reflexivity |]); constructor ].

Ltac fail_stop_leaf :=
  repeat (apply fail_stop_app_clean; [clean_events |]);
  first
    [ left; clean_events
    | apply fail_stop_at_failure; reflexivity
    | eapply fail_stop_propagate; [eassumption | reflexivity]
    | eapply fail_stop_aborted; [eassumption | discriminate] ].

Section FailStopProperties.

Context {ext : Externals}.

Lemma convolve_gaussian_2d_fail_stop proxy srcBounds srcOffset radiusX radiusY
    sigmaX sigmaY mode dstII dstFit :
  sat (convolve_gaussian_2d proxy srcBounds srcOffset radiusX radiusY sigmaX
         sigmaY mode dstII dstFit) (fail_stop is_none).
Proof. unfold convolve_gaussian_2d. wp; fail_stop_leaf. Qed.

Lemma convolve_gaussian_fail_stop proxy srcRect srcOffset direction radius
    sigma srcBounds mode dstII fit :
  sat (convolve_gaussian proxy srcRect srcOffset direction radius sigma
         srcBounds mode dstII fit) (fail_stop is_none).
Proof.
  unfold convolve_gaussian, clear_unless_empty, convolve_gaussian_1d.
  wp; fail_stop_leaf.
Qed.

Lemma reexpand_fail_stop src localSrcBounds scaleFactorX scaleFactorY mode
    dstII fit :
  sat (reexpand src localSrcBounds scaleFactorX scaleFactorY mode dstII fit)
    (fail_stop is_none).
Proof. unfold reexpand. wp; fail_stop_leaf. Qed.

Lemma decimate_loop_fail_stop fuel : forall contentRect scaleFactorX
    scaleFactorY mode config dstII i vars,
  sat (decimate_loop fuel contentRect scaleFactorX scaleFactorY mode config
         dstII i vars) (fail_stop loop_returned_null).
Proof.
  induction fuel as [| fuel IH]; intros; cbn [decimate_loop].
  - wp; fail_stop_leaf.
  - unfold shrink_irect_by_2. wp; try solve [fail_stop_leaf].
    all: eapply sat_conseq; [apply IH |]; cbv beta; intros o l H;
      repeat (apply fail_stop_app_clean; [clean_events |]); exact H.
Qed.

Lemma decimate_fail_stop fuel src srcOffset contentRect scaleFactorX
    scaleFactorY willBeXFiltering willBeYFiltering radiusX radiusY mode dstII :
  sat (decimate fuel src srcOffset contentRect scaleFactorX scaleFactorY
         willBeXFiltering willBeYFiltering radiusX radiusY mode dstII)
    (fail_stop decimate_returned_null).
Proof.
  unfold decimate. wp; try solve [fail_stop_leaf].
  eapply sat_conseq; [apply decimate_loop_fail_stop |].
  cbv beta. intros o l H.
  destruct o as [[vars | off] | | |]; try solve [wp; fail_stop_leaf].
  pose proof (fail_stop_not_null _ _ _ H eq_refl) as Hclean.
  wp; fail_stop_leaf.
Qed.

Lemma x_pass_fail_stop sigmaX sigmaY radiusX radiusY mode finalDestII xFit
    vars :
  sat (x_pass sigmaX sigmaY radiusX radiusY mode finalDestII xFit vars)
    (fail_stop is_none).
Proof.
  unfold x_pass. wp; try solve [fail_stop_leaf].
  eapply sat_conseq; [apply convolve_gaussian_fail_stop |].
  cbv beta. intros o l H.
  destruct o as [[dst |] | | |]; try solve [wp; fail_stop_leaf].
  pose proof (fail_stop_not_null _ _ _ H eq_refl) as Hclean.
  wp; fail_stop_leaf.
Qed.

Lemma y_pass_fail_stop sigmaY radiusY mode finalDestII yFit vars :
  sat (y_pass sigmaY radiusY mode finalDestII yFit vars) (fail_stop is_none).
Proof.
  unfold y_pass. wp; try solve [fail_stop_leaf].
  eapply sat_conseq; [apply convolve_gaussian_fail_stop |].
  cbv beta. intros o l H.
  destruct o as [[dst |] | | |]; try solve [wp; fail_stop_leaf].
  pose proof (fail_stop_not_null _ _ _ H eq_refl) as Hclean.
  wp; fail_stop_leaf.
Qed.

Lemma blur_planned_fail_stop fuel srcProxy srcBounds srcOffset mode
    finalDestII fit sigmaX scaleFactorX radiusX sigmaY scaleFactorY radiusY :
  sat (blur_planned fuel srcProxy srcBounds srcOffset mode finalDestII fit
         sigmaX scaleFactorX radiusX sigmaY scaleFactorY radiusY)
    (fail_stop is_none).
Proof.
  unfold blur_planned. wp_step.
  - wp; try solve [fail_stop_leaf].
    eapply sat_conseq; [apply convolve_gaussian_2d_fail_stop |].
    cbv beta. intros o l H. exact H.
  - apply sat_bind.
    eapply sat_conseq with (Q := fail_stop decimate_returned_null).
    { destruct ((scaleFactorX >? 1) || (scaleFactorY >? 1)).
      - apply decimate_fail_stop.
      - apply sat_ret. left. constructor. }
    cbv beta. intros o l H.
    destruct o as [[[[p |] off] r] | | |]; try solve [wp; fail_stop_leaf].
    pose proof (fail_stop_not_null _ _ _ H eq_refl) as Hclean.
    cbv beta iota zeta. apply sat_bind.
    eapply sat_conseq; [apply x_pass_fail_stop |].
    cbv beta. intros o1 l1 H1.
    destruct o1 as [[vars1 |] | | |]; try solve [wp; fail_stop_leaf].
    pose proof (fail_stop_not_null _ _ _ H1 eq_refl) as Hclean1.
    apply sat_bind.
    eapply sat_conseq; [apply y_pass_fail_stop |].
    cbv beta. intros o2 l2 H2.
    destruct o2 as [[vars2 |] | | |]; try solve [wp; fail_stop_leaf].
    pose proof (fail_stop_not_null _ _ _ H2 eq_refl) as Hclean2.
    wp; try solve [fail_stop_leaf].
    eapply sat_conseq; [apply reexpand_fail_stop |].
    cbv beta. intros o3 l3 H3.
    repeat (apply fail_stop_app_clean; [clean_events |]). exact H3.
Qed.

Lemma GaussianBlur_fail_stop fuel context srcProxy colorSpace dstBounds
    srcBounds sigmaX sigmaY mode at_ fit :
  sat (GaussianBlur fuel context srcProxy colorSpace dstBounds srcBounds
         sigmaX sigmaY mode at_ fit) (fail_stop is_none).
Proof.
  unfold GaussianBlur. wp; try solve [fail_stop_leaf].
  eapply sat_conseq; [apply blur_planned_fail_stop |].
  cbv beta. intros o l H.
  repeat (apply fail_stop_app_clean; [clean_events |]). exact H.
Qed.

(** C3: in every blur, as soon as a stage is answered with null (an
    allocation of a render target or the extraction of a texture proxy, in
    decimation, in a convolution pass or in re-expansion), [GaussianBlur]
    returns null: the failed request is the last thing it asks of the GPU,
    and no surface is returned. *)
Theorem GaussianBlur_stops_at_failure fuel context srcProxy colorSpace
    dstBounds srcBounds sigmaX sigmaY mode at_ fit :
  sat (GaussianBlur fuel context srcProxy colorSpace dstBounds srcBounds
         sigmaX sigmaY mode at_ fit)
    (fun o l =>
       forall f, In f l -> is_failure f = true ->
         o = Returned None /\
         exists before, l = before ++ [f] /\ clean before).
Proof.
  eapply sat_conseq; [apply GaussianBlur_fail_stop |].
  intros o l [Hc | (l' & f' & a & -> & Hc & Hf & -> & Hn)] f Hin Hfail.
  - unfold clean in Hc. rewrite Forall_forall in Hc.
    specialize (Hc f Hin). congruence.
  - destruct a; [discriminate |]. split; [reflexivity |].
    apply in_app_or in Hin. destruct Hin as [Hin | [<- | []]].
    + unfold clean in Hc. rewrite Forall_forall in Hc.
      specialize (Hc f Hin). congruence.
    + now exists l'.
Qed.

End FailStopProperties.

(** *** The halo that decimation clears *)

Section HaloProperties.

Context {ext : Externals}.

Let not_abs_clear (e : GpuEvent) : Prop := is_abs_clear e = false.

Ltac halo_leaf := reflexivity.
Ltac halo_quiet :=
  first [ apply shrink_irect_by_2_quiet | apply get_blur_config_quiet ].

Lemma decimate_loop_no_abs_clear fuel : forall contentRect scaleFactorX
    scaleFactorY mode config dstII i vars,
  sat (decimate_loop fuel contentRect scaleFactorX scaleFactorY mode config
         dstII i vars)
    (fun _ l => Forall not_abs_clear l).
Proof.
  induction fuel as [| fuel IH]; intros; cbn [decimate_loop];
    all_events halo_leaf ltac:(first [halo_quiet | apply IH]).
Qed.

(** C7, as amended: when [decimate] hands a texture back, the only clear it
    has issued is the one after the last halving step, on the surface it
    hands back and just before handing it back: if an X pass will follow
    and the X axis was decimated (scale factor above 1), the strip of
    radiusX columns immediately to the right of the content rectangle; if
    no X pass will follow and the Y axis was decimated, the strip of
    radiusY rows immediately below it; and no clear otherwise. *)
Theorem decimate_halo fuel src srcOffset contentRect scaleFactorX scaleFactorY
    willBeXFiltering willBeYFiltering radiusX radiusY mode dstII :
  sat (decimate fuel src srcOffset contentRect scaleFactorX scaleFactorY
         willBeXFiltering willBeYFiltering radiusX radiusY mode dstII)
    (fun o l =>
       forall proxy srcOffset' content,
         o = Returned (Some proxy, srcOffset', content) ->
         let halo :=
           if willBeXFiltering then
             if scaleFactorX >? 1 then
               [AbsClear (proxy_id proxy)
                  (MkIRect (fRight content) (fTop content)
                     (fRight content + radiusX) (fBottom content))]
             else []
           else
             if scaleFactorY >? 1 then
               [AbsClear (proxy_id proxy)
                  (MkIRect (fLeft content) (fBottom content)
                     (fRight content) (fBottom content + radiusY))]
             else [] in
         exists before,
           l = before ++ halo ++ [AsTextureProxyRef (proxy_id proxy) true] /\
           Forall (fun e => is_abs_clear e = false) before).
Proof.
  assert (EX : forall c rx,
             IRect.MakeXYWH (fRight c) (fTop c) rx (IRect.height c)
             = MkIRect (fRight c) (fTop c) (fRight c + rx) (fBottom c)).
  { intros. unfold IRect.MakeXYWH, IRect.height. f_equal. lia. }
  assert (EY : forall c ry,
             IRect.MakeXYWH (fLeft c) (fBottom c) (IRect.width c) ry
             = MkIRect (fLeft c) (fBottom c) (fRight c) (fBottom c + ry)).
  { intros. unfold IRect.MakeXYWH, IRect.width. f_equal. lia. }
  unfold decimate. wp; try solve [intros ? ? ? [=]].
  eapply sat_conseq; [apply decimate_loop_no_abs_clear |].
  cbv beta. intros o l Hl.
  destruct o as [[vars | off] | | |]; try solve [wp; intros ? ? ? [=]].
  wp; try solve [intros ? ? ? [=]];
    intros proxy off content [= <- <- <-]; cbn [proxy_id];
    exists (Enter Stage_decimate :: l);
    rewrite ?EX, ?EY;
    (split;
     [ cbn [app]; reflexivity
     | constructor; [reflexivity | exact Hl] ]).
Qed.

End HaloProperties.

(** *** The fuel of the model is enough *)

Section FuelProperties.

Context {ext : Externals}.

Let not_out_of_fuel {A} (o : outcome A) (_ : list GpuEvent) : Prop :=
  o <> OutOfFuel.

Ltac fuel_leaf := solve [unfold not_out_of_fuel; discriminate].

(** The loop of [decimate] doubles [i] from 1 and stops once [i] has
    reached both scale factors: below 2^30 that takes at most 30 rounds. *)
Lemma decimate_loop_fuel fuel : forall contentRect scaleFactorX scaleFactorY
    mode config dstII k vars,
  scaleFactorX <= 2 ^ 30 -> scaleFactorY <= 2 ^ 30 ->
  0 <= k -> 30 <= k + Z.of_nat fuel ->
  sat (decimate_loop fuel contentRect scaleFactorX scaleFactorY mode config
         dstII (2 ^ k) vars) not_out_of_fuel.
Proof.
  induction fuel as [| fuel IH];
    intros contentRect sx sy mode config dstII k vars Hx Hy Hk Hf;
    cbn [decimate_loop].
  - destruct ((2 ^ k <? sx) || (2 ^ k <? sy)) eqn:Hc.
    + exfalso. apply orb_true_iff in Hc.
      pose proof (Z.pow_le_mono_r 2 30 k ltac:(lia) ltac:(lia)) as Hp.
      destruct Hc as [Hc | Hc]; apply Z.ltb_lt in Hc; lia.
    + apply sat_ret. discriminate.
  - destruct ((2 ^ k <? sx) || (2 ^ k <? sy)) eqn:Hc;
      [| apply sat_ret; discriminate].
    assert (Hk30 : k < 30).
    { destruct (Z_lt_le_dec k 30) as [| Hge]; [assumption | exfalso].
      apply orb_true_iff in Hc.
      pose proof (Z.pow_le_mono_r 2 30 k ltac:(lia) ltac:(lia)) as Hp.
      destruct Hc as [Hc | Hc]; apply Z.ltb_lt in Hc; lia. }
    assert (Hi : imul (2 ^ k) 2 = 2 ^ (k + 1)).
    { unfold imul. rewrite Z.pow_add_r by lia. change (2 ^ 1) with 2.
      apply wrap32_small. unfold in_range, min_int, max_int.
      pose proof (Z.pow_le_mono_r 2 k 29 ltac:(lia) ltac:(lia)) as Hp.
      pose proof (Z.pow_pos_nonneg 2 k ltac:(lia) Hk).
      change (2 ^ 29) with 536870912 in Hp. lia. }
    rewrite Hi. unfold shrink_irect_by_2.
    wp; try fuel_leaf.
    all: eapply sat_conseq; [apply IH; lia |]; cbv beta; intros o l H; exact H.
Qed.

Lemma decimate_fuel fuel src srcOffset contentRect scaleFactorX scaleFactorY
    willBeXFiltering willBeYFiltering radiusX radiusY mode dstII :
  scaleFactorX <= 2 ^ 30 -> scaleFactorY <= 2 ^ 30 -> (30 <= fuel)%nat ->
  sat (decimate fuel src srcOffset contentRect scaleFactorX scaleFactorY
         willBeXFiltering willBeYFiltering radiusX radiusY mode dstII)
    not_out_of_fuel.
Proof.
  intros Hx Hy Hf. unfold decimate. wp; try fuel_leaf.
  change 1 with (2 ^ 0).
  eapply sat_conseq; [apply decimate_loop_fuel; lia |].
  cbv beta. intros o l H. destruct o as [[vars | off] | | |];
    try (now destruct H); wp; fuel_leaf.
Qed.

Lemma convolve_gaussian_fuel proxy srcRect srcOffset direction radius sigma
    srcBounds mode dstII fit :
  sat (convolve_gaussian proxy srcRect srcOffset direction radius sigma
         srcBounds mode dstII fit) not_out_of_fuel.
Proof.
  unfold convolve_gaussian, clear_unless_empty, convolve_gaussian_1d.
  wp; fuel_leaf.
Qed.

Lemma blur_planned_fuel fuel srcProxy srcBounds srcOffset mode finalDestII fit
    sigmaX scaleFactorX radiusX sigmaY scaleFactorY radiusY :
  scaleFactorX <= 2 ^ 30 -> scaleFactorY <= 2 ^ 30 -> (30 <= fuel)%nat ->
  sat (blur_planned fuel srcProxy srcBounds srcOffset mode finalDestII fit
         sigmaX scaleFactorX radiusX sigmaY scaleFactorY radiusY)
    not_out_of_fuel.
Proof.
  intros Hx Hy Hf.
  unfold blur_planned, convolve_gaussian_2d, x_pass, y_pass, reexpand.
  wp; try fuel_leaf.
  1: eapply sat_conseq; [now apply decimate_fuel |].
  1: cbv beta; intros o l H; destruct o as [[[[p |] off] r] | | |];
       try (now destruct H).
  all: repeat first
    [ fuel_leaf
    | wp_step
    | (eapply sat_conseq; [apply convolve_gaussian_fuel |];
       cbv beta; intros [[?dst |] | | |] ? ?H; try (now destruct H)) ].
Qed.

(** With the fuel of the planner claims, a blur on a device whose texture
    limit is below 2^30 is never cut short by the fuel of the model: both
    loops end. *)
Lemma GaussianBlur_fuel fuel context srcProxy colorSpace dstBounds srcBounds
    sigmaX sigmaY mode at_ fit :
  0 < caps_maxTextureSize context < 2 ^ 30 -> (30 <= fuel)%nat ->
  sat (GaussianBlur fuel context srcProxy colorSpace dstBounds srcBounds
         sigmaX sigmaY mode at_ fit) not_out_of_fuel.
Proof.
  intros [HM1 HM2] Hf. unfold GaussianBlur.
  assert (Hplan : forall sigma e s r,
            adjust_sigma fuel sigma (caps_maxTextureSize context)
            = Returned (e, s, r) -> s <= 2 ^ 30).
  { intros sigma e s r. unfold adjust_sigma.
    destruct (adjust_sigma_loop fuel (caps_maxTextureSize context) sigma 1)
      as [[a b] |] eqn:E; [| discriminate].
    apply loop_scale_bounds in E; [| lia | lia].
    destruct (negb SK_DEBUG || (sigma_radius a <=? kMaxKernelRadius));
      [| discriminate].
    intros [= _ <- _]. lia. }
  assert (Hnever : forall sigma,
            adjust_sigma fuel sigma (caps_maxTextureSize context) <> OutOfFuel).
  { intros sigma. unfold adjust_sigma.
    destruct (loop_correct fuel (caps_maxTextureSize context) sigma 1
                ltac:(lia) HM2) as (a & b & E & _).
    { assert (2 ^ 30 <= 2 ^ Z.of_nat fuel) by (apply Z.pow_le_mono_r; lia).
      lia. }
    rewrite E.
    destruct (negb SK_DEBUG || (sigma_radius a <=? kMaxKernelRadius));
      discriminate. }
  wp; try fuel_leaf;
    try (unfold not_out_of_fuel;
         match goal with H : adjust_sigma _ _ _ = OutOfFuel |- _ =>
           now destruct (Hnever _ H) end).
  eapply sat_conseq;
    [ apply blur_planned_fuel; [eapply Hplan; eassumption .. | exact Hf] |].
  cbv beta. intros o l H. exact H.
Qed.

End FuelProperties.

(** *** The path through the orchestrator *)

Lemma stages_of_app l1 l2 : stages_of (l1 ++ l2) = stages_of l1 ++ stages_of l2.
Proof. unfold stages_of. apply flat_map_app. Qed.

Lemma stages_of_quiet l :
  Forall (fun e => stages_of [e] = []) l -> stages_of l = [].
Proof.
  induction 1 as [| e l He _ IH]; [reflexivity |].
  change (e :: l) with ([e] ++ l). now rewrite stages_of_app, He, IH.
Qed.

(** The range in which the tap count is computed without wrap-around. *)
Lemma kernel_taps_exact radiusX radiusY :
  0 <= radiusX <= 12 -> 0 <= radiusY <= 12 ->
  kernel_taps radiusX radiusY = (2 * radiusX + 1) * (2 * radiusY + 1).
Proof.
  intros Hx Hy. unfold kernel_taps, imul, iadd.
  assert (R : forall z, - 1000 <= z <= 1000 -> wrap32 z = z).
  { intros z Hz. apply wrap32_small. unfold in_range, min_int, max_int. lia. }
  rewrite (R (2 * radiusX)), (R (2 * radiusY)) by lia.
  rewrite (R (2 * radiusX + 1)), (R (2 * radiusY + 1)) by lia.
  apply R. nia.
Qed.

Section DispatchProperties.

Context {ext : Externals}.

Let no_enter (e : GpuEvent) : Prop := stages_of [e] = [].

Ltac enter_leaf := reflexivity.
Ltac enter_quiet :=
  first [ apply shrink_irect_by_2_quiet | apply get_blur_config_quiet ].

(** A static function is entered once, and what it does after entering
    enters nothing. *)
Lemma sat_enter {A} st (m : M A) :
  sat m (fun _ l => Forall no_enter l) ->
  sat (emit (Enter st) ;;; m) (fun _ l => stages_of l = [st]).
Proof.
  intros H. apply sat_bind, sat_emit.
  eapply sat_conseq; [exact H |]. cbv beta. intros o l Hl.
  rewrite stages_of_app, (stages_of_quiet l Hl). reflexivity.
Qed.

Lemma convolve_gaussian_2d_stage proxy srcBounds srcOffset radiusX radiusY
    sigmaX sigmaY mode dstII dstFit :
  sat (convolve_gaussian_2d proxy srcBounds srcOffset radiusX radiusY sigmaX
         sigmaY mode dstII dstFit)
    (fun _ l => stages_of l = [Stage_convolve_gaussian_2d]).
Proof.
  unfold convolve_gaussian_2d. apply sat_enter.
  all_events enter_leaf enter_quiet.
Qed.

Lemma convolve_gaussian_stage proxy srcRect srcOffset direction radius sigma
    srcBounds mode dstII fit :
  sat (convolve_gaussian proxy srcRect srcOffset direction radius sigma
         srcBounds mode dstII fit)
    (fun _ l => stages_of l = [Stage_convolve_gaussian direction]).
Proof.
  unfold convolve_gaussian, clear_unless_empty, convolve_gaussian_1d.
  apply sat_enter. all_events enter_leaf enter_quiet.
Qed.

Lemma decimate_loop_no_enter fuel : forall contentRect scaleFactorX
    scaleFactorY mode config dstII i vars,
  sat (decimate_loop fuel contentRect scaleFactorX scaleFactorY mode config
         dstII i vars)
    (fun _ l => Forall no_enter l).
Proof.
  induction fuel as [| fuel IH]; intros; cbn [decimate_loop];
    all_events enter_leaf ltac:(first [enter_quiet | apply IH]).
Qed.

Lemma decimate_stage fuel src srcOffset contentRect scaleFactorX scaleFactorY
    willBeXFiltering willBeYFiltering radiusX radiusY mode dstII :
  sat (decimate fuel src srcOffset contentRect scaleFactorX scaleFactorY
         willBeXFiltering willBeYFiltering radiusX radiusY mode dstII)
    (fun _ l => stages_of l = [Stage_decimate]).
Proof.
  unfold decimate. apply sat_enter.
  all_events enter_leaf
    ltac:(first [enter_quiet | apply decimate_loop_no_enter]).
Qed.

Lemma reexpand_stage src localSrcBounds scaleFactorX scaleFactorY mode dstII
    fit :
  sat (reexpand src localSrcBounds scaleFactorX scaleFactorY mode dstII fit)
    (fun _ l => stages_of l = [Stage_reexpand]).
Proof.
  unfold reexpand. apply sat_enter. all_events enter_leaf enter_quiet.
Qed.

Lemma sat_stage_then_quiet {A B} sts (m : M A) (k : A -> M B) :
  sat m (fun _ l => stages_of l = sts) ->
  (forall a, sat (k a) (fun _ l => Forall no_enter l)) ->
  sat (bind m k) (fun _ l => stages_of l = sts).
Proof.
  intros Hm Hk. apply sat_bind. eapply sat_conseq; [exact Hm |].
  cbv beta. intros o l Hl. destruct o as [a | | |]; try exact Hl.
  eapply sat_conseq; [apply Hk |]. cbv beta. intros o2 l2 H2.
  rewrite stages_of_app, Hl, (stages_of_quiet l2 H2). apply app_nil_r.
Qed.

Lemma x_pass_stage sigmaX sigmaY radiusX radiusY mode finalDestII xFit vars :
  sat (x_pass sigmaX sigmaY radiusX radiusY mode finalDestII xFit vars)
    (fun _ l =>
       stages_of l =
       if F32.gtb sigmaX F32.zero then [Stage_convolve_gaussian kX] else []).
Proof.
  unfold x_pass. destruct (F32.gtb sigmaX F32.zero).
  - apply sat_stage_then_quiet; [apply convolve_gaussian_stage |].
    intros a. all_events enter_leaf enter_quiet.
  - now apply sat_ret.
Qed.

Lemma y_pass_stage sigmaY radiusY mode finalDestII yFit vars :
  sat (y_pass sigmaY radiusY mode finalDestII yFit vars)
    (fun _ l =>
       stages_of l =
       if F32.gtb sigmaY F32.zero then [Stage_convolve_gaussian kY] else []).
Proof.
  unfold y_pass. destruct (F32.gtb sigmaY F32.zero).
  - apply sat_stage_then_quiet; [apply convolve_gaussian_stage |].
    intros a. all_events enter_leaf enter_quiet.
  - now apply sat_ret.
Qed.

(** The stages entered so far are the first stages of the separable path,
    and all of them when a surface is returned. *)
Let on_separable_path (expected : list Stage)
    (o : outcome (option GrRenderTargetContext)) (l : list GpuEvent) : Prop :=
  prefix_of (stages_of l) expected /\
  (forall r, o = Returned (Some r) -> stages_of l = expected).

Ltac stage_leaf :=
  rewrite ?stages_of_app;
  repeat match goal with H : stages_of _ = _ |- _ => rewrite H; clear H end;
  cbn [stages_of flat_map app];
  (split;
   [ eexists; cbn [app]; reflexivity
   | first [ solve [intros ? [=]] | intros _ _; reflexivity ] ]).

Lemma blur_planned_separable fuel srcProxy srcBounds srcOffset mode
    finalDestII fit sigmaX scaleFactorX radiusX sigmaY scaleFactorY radiusY :
  use_2d_kernel sigmaX sigmaY radiusX radiusY = false ->
  sat (blur_planned fuel srcProxy srcBounds srcOffset mode finalDestII fit
         sigmaX scaleFactorX radiusX sigmaY scaleFactorY radiusY)
    (on_separable_path
       (separable_stages sigmaX sigmaY scaleFactorX scaleFactorY)).
Proof.
  intros Hno. unfold blur_planned, separable_stages. rewrite Hno.
  cbv zeta. unfold on_separable_path.
  apply sat_bind.
  eapply sat_conseq with
    (Q := fun _ l =>
            stages_of l =
            if (scaleFactorX >? 1) || (scaleFactorY >? 1)
            then [Stage_decimate] else []).
  { destruct ((scaleFactorX >? 1) || (scaleFactorY >? 1)).
    - apply decimate_stage.
    - now apply sat_ret. }
  cbv beta. intros o l Hl.
  destruct o as [[[[p |] off] r] | | |]; cbv beta iota zeta.
  2: { wp. destruct ((scaleFactorX >? 1) || (scaleFactorY >? 1)),
         (F32.gtb sigmaX F32.zero), (F32.gtb sigmaY F32.zero); stage_leaf. }
  2-4: destruct ((scaleFactorX >? 1) || (scaleFactorY >? 1)),
         (F32.gtb sigmaX F32.zero), (F32.gtb sigmaY F32.zero); stage_leaf.
  apply sat_bind.
  eapply sat_conseq; [apply x_pass_stage |].
  cbv beta. intros o1 l1 Hl1.
  destruct o1 as [[vars1 |] | | |].
  2: { wp. destruct ((scaleFactorX >? 1) || (scaleFactorY >? 1)),
         (F32.gtb sigmaX F32.zero), (F32.gtb sigmaY F32.zero); stage_leaf. }
  2-4: destruct ((scaleFactorX >? 1) || (scaleFactorY >? 1)),
         (F32.gtb sigmaX F32.zero), (F32.gtb sigmaY F32.zero); stage_leaf.
  apply sat_bind.
  eapply sat_conseq; [apply y_pass_stage |].
  cbv beta. intros o2 l2 Hl2.
  destruct o2 as [[vars2 |] | | |].
  2: { wp. destruct ((scaleFactorX >? 1) || (scaleFactorY >? 1)),
         (F32.gtb sigmaX F32.zero), (F32.gtb sigmaY F32.zero); stage_leaf. }
  2-4: destruct ((scaleFactorX >? 1) || (scaleFactorY >? 1)),
         (F32.gtb sigmaX F32.zero), (F32.gtb sigmaY F32.zero); stage_leaf.
  destruct ((scaleFactorX >? 1) || (scaleFactorY >? 1)) eqn:Hs.
  - wp; try solve [destruct (F32.gtb sigmaX F32.zero),
                     (F32.gtb sigmaY F32.zero); stage_leaf].
    eapply sat_conseq; [apply reexpand_stage |].
    cbv beta. intros o3 l3 Hl3.
    destruct (F32.gtb sigmaX F32.zero), (F32.gtb sigmaY F32.zero); stage_leaf.
  - wp; destruct (F32.gtb sigmaX F32.zero), (F32.gtb sigmaY F32.zero);
      stage_leaf.
Qed.

Lemma blur_planned_fused fuel srcProxy srcBounds srcOffset mode finalDestII
    fit sigmaX scaleFactorX radiusX sigmaY scaleFactorY radiusY :
  use_2d_kernel sigmaX sigmaY radiusX radiusY = true ->
  sat (blur_planned fuel srcProxy srcBounds srcOffset mode finalDestII fit
         sigmaX scaleFactorX radiusX sigmaY scaleFactorY radiusY)
    (fun o l => o <> AssertFailed -> stages_of l = [Stage_convolve_gaussian_2d]).
Proof.
  intros Hyes. unfold blur_planned. rewrite Hyes.
  apply sat_bind, sat_SkASSERT.
  - intros _. eapply sat_conseq; [apply convolve_gaussian_2d_stage |].
    cbv beta. intros o l Hl _. exact Hl.
  - intros _ _ Hne. now destruct Hne.
Qed.

Lemma In_Enter_stages st l : In (Enter st) l <-> In st (stages_of l).
Proof.
  unfold stages_of. rewrite in_flat_map. split.
  - intros H. exists (Enter st). split; [exact H | now left].
  - intros (e & He & Hst). destruct e; try contradiction.
    destruct Hst as [<- | []]. exact He.
Qed.

Lemma separable_stages_not_2d sigmaX sigmaY scaleFactorX scaleFactorY :
  ~ In Stage_convolve_gaussian_2d
      (separable_stages sigmaX sigmaY scaleFactorX scaleFactorY).
Proof.
  unfold separable_stages.
  destruct ((scaleFactorX >? 1) || (scaleFactorY >? 1)),
    (F32.gtb sigmaX F32.zero), (F32.gtb sigmaY F32.zero); cbn;
    intuition discriminate.
Qed.

Lemma use_2d_kernel_iff sigmaX sigmaY radiusX radiusY :
  0 <= radiusX <= 12 -> 0 <= radiusY <= 12 ->
  use_2d_kernel sigmaX sigmaY radiusX radiusY = true <->
  F32.gtb sigmaX F32.zero = true /\ F32.gtb sigmaY F32.zero = true /\
  (2 * radiusX + 1) * (2 * radiusY + 1) < MAX_KERNEL_SIZE + 1.
Proof.
  intros Hx Hy. unfold use_2d_kernel.
  rewrite (kernel_taps_exact radiusX radiusY Hx Hy).
  rewrite !andb_true_iff, Z.leb_le. intuition lia.
Qed.

End DispatchProperties.

(** * Concrete runs *)

(** ** The planner *)

(** C4 at sigma = 100 and maxTextureSize = 6: the scale factor doubles to
    2, to 4, and 8 exceeds 6, so the clamp leaves the scale factor 6, which
    is not a power of two; the assertion [SkIsPow2] at the head of
    [decimate] then stops a debug build of [GaussianBlur]. *)
Theorem adjust_sigma_clamp_not_power_of_two :
  adjust_sigma (ext := debug_build) 30 (F32.of_int 100) 6
    = Returned (MAX_BLUR_SIGMA, 6, 12) /\
  SkIsPow2 6 = false /\
  (forall k, 0 <= k -> 6 <> 2 ^ k) /\
  outcome_of
    (GaussianBlur (ext := debug_build) 30 (MkContext 6)
       (MkProxy 100 kRGBA_8888_GrPixelConfig) None (IRect.MakeWH 200 200)
       (IRect.MakeXYWH 50 50 100 100) (F32.of_int 100) F32.zero kClamp_Mode
       2%nat kExact initial_gpu)
    = AssertFailed.
Proof.
  split; [vm_compute; reflexivity |]. split; [reflexivity |].
  split; [| vm_compute; reflexivity].
  intros k Hk E.
  destruct (Z_le_gt_dec k 2) as [Hle | Hgt].
  - assert (Hc : k = 0 \/ k = 1 \/ k = 2) by lia.
    destruct Hc as [-> | [-> | ->]]; discriminate.
  - pose proof (Z.pow_le_mono_r 2 3 k ltac:(lia) ltac:(lia)) as Hp.
    change (2 ^ 3) with 8 in Hp. lia.
Qed.

Lemma adjust_sigma_computes_plan_witness :
  (12 <= 12 /\ 0 < 16384 /\ 16384 < 2 ^ 30 /\ (30 <= 30)%nat /\
   F32.valid (F32.of_int 100) = true /\
   F32.leb F32.zero (F32.of_int 100) = true) /\
  exists result,
    adjust_sigma (ext := debug_build) 30 (F32.of_int 100) 16384
      = Returned result /\
    plan (F32.of_int 100) 16384 result /\
    forall result', plan (F32.of_int 100) 16384 result' -> result' = result.
Proof.
  split.
  - repeat split; try lia; try reflexivity.
  - apply (adjust_sigma_computes_plan (ext := debug_build));
      first [lia | reflexivity].
Defined.

(** C1 as stated fails at sigma = 2^33, maxTextureSize = 2^30: after thirty
    doublings the scale factor is 2^30 and sigma is 8; the next doubling
    wraps to -2^31, which does not exceed maxTextureSize, so nothing is
    clamped, while the stated loop clamps. *)
Lemma adjust_sigma_computes_plan_counterexample :
  F32.valid (F32.of_int (2 ^ 33)) = true /\
  F32.leb F32.zero (F32.of_int (2 ^ 33)) = true /\
  0 < 2 ^ 30 /\
  adjust_sigma (ext := debug_build) 64 (F32.of_int (2 ^ 33)) (2 ^ 30)
    = Returned (MAX_BLUR_SIGMA, - 2 ^ 31, 12) /\
  ~ plan (F32.of_int (2 ^ 33)) (2 ^ 30) (MAX_BLUR_SIGMA, - 2 ^ 31, 12).
Proof.
  split; [reflexivity |]. split; [reflexivity |]. split; [lia |].
  split; [vm_compute; reflexivity |].
  intros [P _]. apply plan_loop_scale_ge in P; lia.
Qed.

Lemma adjust_sigma_monotone_witness :
  (12 <= 12 /\ 0 < 16384 /\ 16384 < 2 ^ 30 /\ (30 <= 30)%nat /\
   F32.valid (F32.of_int 5) = true /\ F32.valid (F32.of_int 100) = true /\
   F32.leb F32.zero (F32.of_int 5) = true /\
   F32.leb (F32.of_int 5) (F32.of_int 100) = true) /\
  exists e1 scale1 radius1 e2 scale2 radius2,
    adjust_sigma (ext := debug_build) 30 (F32.of_int 5) 16384
      = Returned (e1, scale1, radius1) /\
    adjust_sigma (ext := debug_build) 30 (F32.of_int 100) 16384
      = Returned (e2, scale2, radius2) /\
    scale1 <= scale2 /\ radius1 <= 12 /\ radius2 <= 12.
Proof.
  split.
  - repeat split; try lia; try reflexivity.
  - apply (adjust_sigma_monotone (ext := debug_build));
      first [lia | reflexivity].
Defined.

(** C5 as stated fails at maxTextureSize = 2^30: sigma = 2^32 is given the
    scale factor 2^30, and the larger sigma = 2^33 the wrapped -2^31. *)
Lemma adjust_sigma_monotone_counterexample :
  F32.leb (F32.of_int (2 ^ 32)) (F32.of_int (2 ^ 33)) = true /\
  adjust_sigma (ext := debug_build) 64 (F32.of_int (2 ^ 32)) (2 ^ 30)
    = Returned (MAX_BLUR_SIGMA, 2 ^ 30, 12) /\
  adjust_sigma (ext := debug_build) 64 (F32.of_int (2 ^ 33)) (2 ^ 30)
    = Returned (MAX_BLUR_SIGMA, - 2 ^ 31, 12) /\
  ~ 2 ^ 30 <= - 2 ^ 31.
Proof.
  split; [reflexivity |]. split; [vm_compute; reflexivity |].
  split; [vm_compute; reflexivity | lia].
Qed.

(** ** The stages and the orchestrator *)

(** C7 as stated fails when the X pass runs on an axis that was not
    decimated while the Y axis was (scale factors 1 and 4): [decimate]
    hands the texture back having cleared nothing. *)
Lemma decimate_halo_counterexample :
  (exists proxy srcOffset content,
     outcome_of (example_decimate (ext := debug_build) 1 4 true true 3 12)
     = Returned (Some proxy, srcOffset, content)) /\
  existsb is_abs_clear
    (events_of (example_decimate (ext := debug_build) 1 4 true true 3 12))
  = false.
Proof.
  split; [| vm_compute; reflexivity].
  do 3 eexists. vm_compute. reflexivity.
Qed.

Lemma decimate_halo_witness :
  outcome_of (example_decimate (ext := debug_build) 4 4 true true 12 12)
  = Returned (Some (MkProxy 1 kRGBA_8888_GrPixelConfig), MkIPoint 0 0,
              MkIRect 12 12 38 38) /\
  exists before,
    events_of (example_decimate (ext := debug_build) 4 4 true true 12 12)
    = before ++ [AbsClear 1 (MkIRect 38 12 (38 + 12) 38)]
             ++ [AsTextureProxyRef 1 true] /\
    Forall (fun e => is_abs_clear e = false) before.
Proof.
  split; [vm_compute; reflexivity |].
  apply (decimate_halo (ext := debug_build) 30 example_source (MkIPoint 0 0)
           (IRect.MakeXYWH 50 50 100 100) 4 4 true true 12 12 kClamp_Mode
           (MkImageInfo 200 200 4%nat 2%nat None) initial_gpu
           (MkProxy 1 kRGBA_8888_GrPixelConfig) (MkIPoint 0 0)
           (MkIRect 12 12 38 38)).
  vm_compute. reflexivity.
Defined.

Lemma reexpand_clears_halo_first_witness :
  exists rest,
    events_of
      (reexpand (ext := debug_build)
         (MkRTC 7 kApprox 100 100 kRGBA_8888_GrPixelConfig None)
         (IRect.MakeWH 100 100) 2 2 kClamp_Mode
         (MkImageInfo 200 200 4%nat 2%nat None) kExact initial_gpu)
    = [Enter Stage_reexpand;
       AbsClear 7 (MkIRect 0 100 (100 + 1) (100 + 1));
       AbsClear 7 (MkIRect 100 0 (100 + 1) 100)] ++ rest /\
    Forall (fun e => is_abs_clear e = false) rest.
Proof.
  exact (reexpand_clears_halo_first (ext := debug_build)
           (MkRTC 7 kApprox 100 100 kRGBA_8888_GrPixelConfig None)
           (IRect.MakeWH 100 100) 2 2 kClamp_Mode
           (MkImageInfo 200 200 4%nat 2%nat None) kExact initial_gpu).
Defined.

Lemma GaussianBlur_config_witness :
  (forall e c,
     In e (events_of (example_blur (ext := debug_build) (F32.of_int 16)
                        (F32.of_int 16) kClamp_Mode)) ->
     alloc_config_of e = Some c -> c = kRGBA_8888_GrPixelConfig) /\
  (forall r,
     outcome_of (example_blur (ext := debug_build) (F32.of_int 16)
                   (F32.of_int 16) kClamp_Mode) = Returned (Some r) ->
     rtc_config r = kRGBA_8888_GrPixelConfig).
Proof.
  exact (GaussianBlur_config (ext := debug_build) 30 (MkContext 16384)
           example_source None (IRect.MakeWH 200 200)
           (IRect.MakeXYWH 50 50 100 100) (F32.of_int 16) (F32.of_int 16)
           kClamp_Mode 2%nat kExact initial_gpu).
Defined.

Lemma GaussianBlur_stops_at_failure_witness :
  existsb is_failure
    (events_of (example_blur (ext := refusing_build 3) (F32.of_int 16)
                  (F32.of_int 16) kClamp_Mode)) = true /\
  forall f,
    In f (events_of (example_blur (ext := refusing_build 3) (F32.of_int 16)
                       (F32.of_int 16) kClamp_Mode)) ->
    is_failure f = true ->
    outcome_of (example_blur (ext := refusing_build 3) (F32.of_int 16)
                  (F32.of_int 16) kClamp_Mode) = Returned None /\
    exists before,
      events_of (example_blur (ext := refusing_build 3) (F32.of_int 16)
                   (F32.of_int 16) kClamp_Mode) = before ++ [f] /\
      clean before.
Proof.
  split; [vm_compute; reflexivity |].
  exact (GaussianBlur_stops_at_failure (ext := refusing_build 3) 30
           (MkContext 16384) example_source None (IRect.MakeWH 200 200)
           (IRect.MakeXYWH 50 50 100 100) (F32.of_int 16) (F32.of_int 16)
           kClamp_Mode 2%nat kExact initial_gpu).
Defined.
(** ** More on the planner *)

(** The loop is left with a sigma that is not above the maximum. *)
Lemma loop_result_not_above fuel : forall M sigma scale a b,
  adjust_sigma_loop fuel M sigma scale = Some (a, b) ->
  F32.gtb a MAX_BLUR_SIGMA = false.
Proof.
  induction fuel as [| fuel IH]; intros M sigma scale a b;
    rewrite loop_unfold; destruct (F32.gtb sigma MAX_BLUR_SIGMA) eqn:Hg;
    try discriminate; try (intros [= <- _]; exact Hg).
  destruct (imul scale 2 >? M); apply IH.
Qed.

Lemma adjust_sigma_inv {ext : Externals} fuel sigma M sigma' scale radius :
  adjust_sigma fuel sigma M = Returned (sigma', scale, radius) ->
  adjust_sigma_loop fuel M sigma 1 = Some (sigma', scale) /\
  radius = sigma_radius sigma' /\
  negb SK_DEBUG || (radius <=? kMaxKernelRadius) = true.
Proof.
  unfold adjust_sigma.
  destruct (adjust_sigma_loop fuel M sigma 1) as [[a b] |]; [| discriminate].
  destruct (negb SK_DEBUG || (sigma_radius a <=? kMaxKernelRadius)) eqn:E;
    [| discriminate].
  intros [= <- <- <-]. auto.
Qed.

(** X1: planning is idempotent. Planning again the sigma a plan returned, on
    any device, asks for no decimation and returns the same sigma and the
    same radius. *)
Theorem adjust_sigma_idempotent {ext : Externals} fuel fuel' sigma
    maxTextureSize maxTextureSize' sigma' scaleFactor radius :
  adjust_sigma fuel sigma maxTextureSize
    = Returned (sigma', scaleFactor, radius) ->
  adjust_sigma fuel' sigma' maxTextureSize' = Returned (sigma', 1, radius).
Proof.
  intros H. apply adjust_sigma_inv in H. destruct H as (E & -> & Ha).
  apply loop_result_not_above in E.
  unfold adjust_sigma. rewrite loop_unfold, E, Ha. reflexivity.
Qed.

(** The scale factor the loop returns: the texture limit, or a power of
    two times the one it started from. *)
Lemma loop_scale_shape fuel : forall M sigma scale a b,
  0 < scale <= M -> M < 2 ^ 30 ->
  adjust_sigma_loop fuel M sigma scale = Some (a, b) ->
  (a = MAX_BLUR_SIGMA /\ b = M) \/
  (exists k, 0 <= k /\ b = scale * 2 ^ k /\ b <= M).
Proof.
  induction fuel as [| fuel IH]; intros M sigma scale a b Hs HM;
    rewrite loop_unfold; destruct (F32.gtb sigma MAX_BLUR_SIGMA) eqn:Hg;
    try discriminate;
    try (intros [= _ <-]; right; exists 0; change (2 ^ 0) with 1; lia).
  rewrite (double_no_wrap scale M Hs HM).
  destruct (Z.gtb_spec (2 * scale) M) as [Hgt | Hle].
  - rewrite loop_at_max. intros [= <- <-]. now left.
  - intros E. apply IH in E; [| lia | assumption].
    destruct E as [E | (k & Hk & -> & Hb)]; [now left | right].
    exists (k + 1). rewrite Z.pow_add_r by lia. change (2 ^ 1) with 2. lia.
Qed.

Lemma SkIsPow2_pow2 k : 0 <= k <= 30 -> SkIsPow2 (2 ^ k) = true.
Proof.
  intros Hk. unfold SkIsPow2, isub.
  assert (Hp : 0 < 2 ^ k) by (apply Z.pow_pos_nonneg; lia).
  assert (Hle : 2 ^ k <= 2 ^ 30) by (apply Z.pow_le_mono_r; lia).
  rewrite wrap32_small
    by (unfold in_range, min_int, max_int; change (2 ^ 30) with 1073741824 in Hle; lia).
  replace (2 ^ k - 1) with (Z.ones k) by (rewrite Z.ones_equiv; lia).
  rewrite Z.land_ones by lia. rewrite Z.mod_same by lia. reflexivity.
Qed.

(** X2: on a device whose texture limit is a power of two, the planned scale
    factor is a power of two between 1 and the limit, which is what
    [decimate] asserts of it. *)
Theorem adjust_sigma_scale_pow2 {ext : Externals} fuel sigma j sigma'
    scaleFactor radius :
  0 <= j < 30 ->
  adjust_sigma fuel sigma (2 ^ j) = Returned (sigma', scaleFactor, radius) ->
  (exists k, 0 <= k <= j /\ scaleFactor = 2 ^ k) /\
  SkIsPow2 scaleFactor = true.
Proof.
  intros Hj H. apply adjust_sigma_inv in H. destruct H as (E & _ & _).
  assert (Hp : 0 < 2 ^ j) by (apply Z.pow_pos_nonneg; lia).
  assert (Hlt : 2 ^ j < 2 ^ 30) by (apply Z.pow_lt_mono_r; lia).
  apply loop_scale_shape in E; [| lia | assumption].
  assert (K : exists k, 0 <= k <= j /\ scaleFactor = 2 ^ k).
  { destruct E as [[_ ->] | (k & Hk & -> & Hb)].
    - exists j. lia.
    - exists k. split; [| lia]. split; [lia |].
      destruct (Z_le_gt_dec k j) as [| Hgt]; [assumption | exfalso].
      assert (2 ^ (j + 1) <= 2 ^ k) by (apply Z.pow_le_mono_r; lia).
      rewrite Z.pow_add_r in H by lia. lia. }
  split; [exact K |].
  destruct K as (k & Hk & ->). apply SkIsPow2_pow2. lia.
Qed.

(** Halving is exact: the mantissa is kept and the exponent lowered. *)
Lemma loop_exact fuel : forall M m e j a b,
  0 <= j -> 2 ^ j <= M -> M < 2 ^ 30 ->
  F32.valid (S754_finite false m (e - j)) = true ->
  adjust_sigma_loop fuel M (S754_finite false m (e - j)) (2 ^ j) = Some (a, b) ->
  (a = MAX_BLUR_SIGMA /\ b = M) \/
  (exists k, j <= k /\ b = 2 ^ k /\ 2 ^ k <= M /\ a = S754_finite false m (e - k)).
Proof.
  induction fuel as [| fuel IH]; intros M m e j a b Hj HjM HM Hv;
    rewrite loop_unfold;
    destruct (F32.gtb (S754_finite false m (e - j)) MAX_BLUR_SIGMA) eqn:Hg;
    try discriminate;
    try (intros [= <- <-]; right; exists j; repeat split; (lia || reflexivity)).
  assert (Hp : 0 < 2 ^ j) by (apply Z.pow_pos_nonneg; lia).
  rewrite (double_no_wrap (2 ^ j) M) by lia.
  destruct (Z.gtb_spec (2 * 2 ^ j) M) as [Hgt | Hle].
  - rewrite loop_at_max. intros [= <- <-]. now left.
  - rewrite mul_half_exact by assumption.
    replace (e - j - 1) with (e - (j + 1)) by lia.
    replace (2 * 2 ^ j) with (2 ^ (j + 1))
      by (rewrite Z.pow_add_r by lia; change (2 ^ 1) with 2; lia).
    intros E. apply IH in E; try lia.
    + destruct E as [E | (k & Hk & E)]; [now left | right].
      exists k. split; [lia | exact E].
    + rewrite Z.pow_add_r by lia. change (2 ^ 1) with 2. lia.
    + replace (e - (j + 1)) with (e - j - 1) by lia. now apply valid_half.
Qed.

(** X3: the halving of the planner is exact. For a finite sigma m * 2^e the
    plan is either the clamp (sigma 4.0 with the texture limit as scale
    factor), or a scale factor 2^k within the limit with the sigma
    m * 2^(e - k): the planned sigma times the scale factor is the sigma
    asked for, with no rounding. *)
Theorem adjust_sigma_halving_exact {ext : Externals} fuel m e maxTextureSize
    sigma' scaleFactor radius :
  0 < maxTextureSize < 2 ^ 30 ->
  F32.valid (S754_finite false m e) = true ->
  adjust_sigma fuel (S754_finite false m e) maxTextureSize
    = Returned (sigma', scaleFactor, radius) ->
  (sigma' = MAX_BLUR_SIGMA /\ scaleFactor = maxTextureSize /\ radius = 12) \/
  (exists k, 0 <= k /\ scaleFactor = 2 ^ k /\ 2 ^ k <= maxTextureSize /\
             sigma' = S754_finite false m (e - k)).
Proof.
  intros HM Hv H. apply adjust_sigma_inv in H. destruct H as (E & Hr & _).
  replace e with (e - 0) in E, Hv by lia. change 1 with (2 ^ 0) in E.
  apply loop_exact in E; try lia; [| assumption].
  destruct E as [[-> ->] | (k & Hk & E)].
  - left. repeat split. rewrite Hr. apply sigma_radius_four.
  - right. exists k. split; [lia | exact E].
Qed.

(** An infinite sigma is halved to itself until the clamp. *)
Lemma loop_infinity fuel : forall M scale,
  0 < scale <= M -> M < 2 ^ 30 -> M < scale * 2 ^ Z.of_nat fuel ->
  adjust_sigma_loop fuel M (S754_infinity false) scale
  = Some (MAX_BLUR_SIGMA, M).
Proof.
  induction fuel as [| fuel IH]; intros M scale Hs HM Hf; rewrite loop_unfold;
    change (F32.gtb (S754_infinity false) MAX_BLUR_SIGMA) with true;
    cbv iota.
  - change (2 ^ Z.of_nat 0) with 1 in Hf. lia.
  - rewrite (double_no_wrap scale M Hs HM).
    destruct (Z.gtb_spec (2 * scale) M) as [Hgt | Hle].
    + apply loop_at_max.
    + change (F32.mul (S754_infinity false) F32.half)
        with (S754_infinity false).
      apply IH; try lia.
      rewrite Nat2Z.inj_succ, Z.pow_succ_r in Hf by lia. lia.
Qed.

(** X4: an infinite sigma is clamped: the plan is sigma 4.0, the texture
    limit as scale factor and radius 12. *)
Theorem adjust_sigma_infinity {ext : Externals} fuel maxTextureSize :
  12 <= kMaxKernelRadius -> 0 < maxTextureSize < 2 ^ 30 -> (30 <= fuel)%nat ->
  adjust_sigma fuel (S754_infinity false) maxTextureSize
  = Returned (MAX_BLUR_SIGMA, maxTextureSize, 12).
Proof.
  intros Hk HM Hf. unfold adjust_sigma. rewrite loop_infinity; try lia.
  - rewrite sigma_radius_four.
    destruct (Z.leb_spec 12 kMaxKernelRadius); [| lia].
    now rewrite orb_true_r.
  - assert (2 ^ 30 <= 2 ^ Z.of_nat fuel) by (apply Z.pow_le_mono_r; lia). lia.
Qed.

Lemma gtb_two_finite m e :
  F32.gtb (S754_finite false m e) float_two = true <->
  -22 < e \/ (e = -22 /\ 8388608 < Zpos m).
Proof.
  unfold F32.gtb, SFltb, SFcompare, float_two.
  destruct (Z.compare_spec (-22) e) as [He | He | He].
  - subst e. change (Pos.compare_cont Eq 8388608 m) with (Pos.compare 8388608 m).
    rewrite Pos2Z.inj_compare.
    destruct (Z.compare_spec 8388608 (Zpos m)) as [Hm | Hm | Hm].
    + split; [intros H; discriminate H | lia].
    + split; [intros _; right; lia | reflexivity].
    + split; [intros H; discriminate H | lia].
  - split; [intros _; left; lia | reflexivity].
  - split; [discriminate | lia].
Qed.

Lemma mul_half_above_two x :
  F32.valid x = true -> F32.gtb x MAX_BLUR_SIGMA = true ->
  F32.gtb (F32.mul x F32.half) float_two = true.
Proof.
  intros Hv Hg. destruct (gtb_four_shape x Hg) as [-> | (m & e & ->)].
  - reflexivity.
  - rewrite mul_half_exact by assumption.
    apply gtb_four_finite in Hg. apply gtb_two_finite. lia.
Qed.

Lemma loop_above_two fuel : forall M sigma scale a b,
  0 < scale <= M -> M < 2 ^ 30 -> F32.valid sigma = true ->
  (1 < scale -> F32.gtb sigma float_two = true) ->
  adjust_sigma_loop fuel M sigma scale = Some (a, b) ->
  1 < b -> F32.gtb a float_two = true.
Proof.
  induction fuel as [| fuel IH]; intros M sigma scale a b Hs HM Hv H2;
    rewrite loop_unfold; destruct (F32.gtb sigma MAX_BLUR_SIGMA) eqn:Hg;
    try discriminate; try (intros [= <- <-]; exact H2).
  rewrite (double_no_wrap scale M Hs HM).
  destruct (Z.gtb_spec (2 * scale) M) as [Hgt | Hle].
  - rewrite loop_at_max. intros [= <- <-] _. reflexivity.
  - apply IH; try lia.
    + now apply mul_half_valid.
    + intros _. now apply mul_half_above_two.
Qed.

(** X5: an axis that is decimated is blurred. When the planned scale factor
    is above 1 the planned sigma is above 2.0 (and not above 4.0), so the
    pass along that axis runs. *)
Theorem adjust_sigma_decimated_above_two {ext : Externals} fuel sigma
    maxTextureSize sigma' scaleFactor radius :
  0 < maxTextureSize < 2 ^ 30 -> F32.valid sigma = true ->
  adjust_sigma fuel sigma maxTextureSize
    = Returned (sigma', scaleFactor, radius) ->
  1 < scaleFactor ->
  F32.gtb sigma' float_two = true /\ F32.gtb sigma' MAX_BLUR_SIGMA = false /\
  F32.gtb sigma' F32.zero = true.
Proof.
  intros HM Hv H Hs. apply adjust_sigma_inv in H. destruct H as (E & _ & _).
  assert (H2 : F32.gtb sigma' float_two = true).
  { apply (loop_above_two fuel maxTextureSize sigma 1 sigma' scaleFactor);
      [lia | lia | exact Hv | lia | exact E | exact Hs]. }
  split; [exact H2 |]. split; [eapply loop_result_not_above; exact E |].
  destruct sigma' as [s | s | | s m e]; try discriminate;
    destruct s; try discriminate; reflexivity.
Qed.
(** ** binary32: integers and powers of two *)

(** A float with a full mantissa times [2^-k]: the exponent is lowered, the
    mantissa kept. *)
Lemma mul_pow2_exact s m e k :
  Zpos (Pos.size m) = 24 -> -149 <= e - k -> e - k <= 104 ->
  F32.mul (S754_finite s m e) (S754_finite false 8388608 (-23 - k))
  = S754_finite s m (e - k).
Proof.
  intros Hs Hlo Hhi.
  pose proof (Zpos_size_bounds m) as Hm. rewrite Hs in Hm.
  change (24 - 1) with 23 in Hm.
  unfold F32.mul, SFmul. rewrite xorb_false_r.
  destruct (bra_loc_exact F32.prec F32.emax s (m * 8388608) (e + (-23 - k)))
    as (m1 & e1 & m2 & e2 & Ha & Hb & Hc & Hpos & Heq).
  rewrite Heq. clear Heq.
  assert (Hmx : Zpos (m * 8388608) = Zpos m * 2 ^ 23)
    by (rewrite Pos2Z.inj_mul; reflexivity).
  assert (Hsz : Zpos (Pos.size (m * 8388608)) = 47).
  { apply size_unique. rewrite Hmx. change (47 - 1) with 46.
    change (2 ^ 46) with (2 ^ 23 * 2 ^ 23).
    change (2 ^ 47) with (2 ^ 24 * 2 ^ 23). lia. }
  rewrite Hsz in Ha, Hb.
  unfold fexp, emin, F32.prec, F32.emax in Ha, Hb, Hc.
  replace (Z.max (47 + (e + (-23 - k)) - 24) (3 - 128 - 24) - (e + (-23 - k)))
    with 23 in Ha, Hb by lia.
  clear Ha. destruct (Hb ltac:(lia)) as [He1 Hm1]. clear Hb.
  assert (Em1 : m1 = Zpos m).
  { rewrite Hmx in Hm1. destruct Hm1 as [Hm1 | [_ Hodd]].
    - rewrite Hm1. apply Z.div_mul. lia.
    - exfalso. change (23 - 1) with 22 in Hodd.
      change (2 ^ 23) with (2 * 2 ^ 22) in Hodd.
      rewrite Z.mul_assoc, Z.div_mul in Hodd by lia.
      rewrite Z.odd_mul in Hodd. rewrite andb_false_r in Hodd. discriminate. }
  subst m1 e1.
  change (Zdigits2 (Zpos m)) with (Zpos (digits2_pos m)) in Hc.
  rewrite digits2_pos_size, Hs in Hc. destruct Hc as [Hc _].
  destruct (Hc ltac:(lia)) as [-> ->].
  replace (e + (-23 - k) + 23) with (e - k) by lia.
  unfold F32.emax, F32.prec.
  destruct (Z.leb_spec (e - k) (128 - 24)); [reflexivity | lia].
Qed.

(** An integer below 2^24 in magnitude is a float: its mantissa, shifted
    to 24 bits. *)
Lemma binary_round_small s p :
  Zpos p < 2 ^ 24 ->
  exists m e,
    binary_round F32.prec F32.emax s p 0 = S754_finite s m e /\
    Zpos (Pos.size m) = 24 /\ -23 <= e <= 0 /\
    Zpos m = Zpos p * 2 ^ (- e).
Proof.
  intros Hp.
  pose proof (Zpos_size_bounds p) as Hb.
  assert (Hsz : 1 <= Zpos (Pos.size p) <= 24).
  { split; [lia |].
    destruct (Z_le_gt_dec (Zpos (Pos.size p)) 24) as [| Hgt]; [assumption |].
    exfalso.
    assert (2 ^ 24 <= 2 ^ (Zpos (Pos.size p) - 1))
      by (apply Z.pow_le_mono_r; lia).
    lia. }
  unfold binary_round, shl_align, fexp, emin, F32.prec, F32.emax.
  rewrite digits2_pos_size.
  replace (Z.max (Zpos (Pos.size p) + 0 - 24) (3 - 128 - 24))
    with (Zpos (Pos.size p) - 24) by lia.
  set (sz := Zpos (Pos.size p)) in *.
  assert (general : forall m e,
            Zpos (Pos.size m) = 24 -> -23 <= e <= 0 ->
            binary_round_aux 24 128 s (Zpos m) e loc_Exact
            = S754_finite s m e).
  { intros m e Hs He.
    destruct (bra_loc_exact 24 128 s m e)
      as (m1 & e1 & m2 & e2 & Ha & _ & Hc & _ & Heq).
    rewrite Heq. clear Heq. rewrite Hs in Ha.
    unfold fexp, emin in Ha, Hc.
    destruct (Ha ltac:(lia)) as [-> ->].
    change (Zdigits2 (Zpos m)) with (Zpos (digits2_pos m)) in Hc.
    rewrite digits2_pos_size, Hs in Hc. destruct Hc as [Hc _].
    destruct (Hc ltac:(lia)) as [-> ->].
    destruct (Z.leb_spec e (128 - 24)); [reflexivity | lia]. }
  destruct (sz - 24 - 0) as [| d | d] eqn:Ed.
  - exists p, 0. split; [apply general; lia |].
    change (2 ^ (- 0)) with 1. repeat split; lia.
  - lia.
  - change (Pos.iter xO p d) with (shift_pos d p).
    assert (Hm : Zpos (shift_pos d p) = Zpos p * 2 ^ Zpos d).
    { rewrite shift_pos_correct. change (Z.pow_pos 2 d) with (2 ^ Zpos d). lia. }
    assert (Hd : Zpos d = 24 - sz) by lia.
    assert (P : 0 < 2 ^ Zpos d) by (apply Z.pow_pos_nonneg; lia).
    assert (Hs : Zpos (Pos.size (shift_pos d p)) = 24).
    { apply size_unique. rewrite Hm. change (24 - 1) with 23.
      assert (E23 : 2 ^ 23 = 2 ^ (sz - 1) * 2 ^ Zpos d).
      { rewrite <- Z.pow_add_r by lia. f_equal. lia. }
      assert (E24 : 2 ^ 24 = 2 ^ sz * 2 ^ Zpos d).
      { rewrite <- Z.pow_add_r by lia. f_equal. lia. }
      rewrite E23, E24. nia. }
    exists (shift_pos d p), (sz - 24).
    split; [apply general; [exact Hs | lia] |].
    replace (- (sz - 24)) with (Zpos d) by lia.
    repeat split; lia.
Qed.

(** [1.0f / 2^k] is the float [2^-k]. *)
Lemma inv_scale_pow2 k :
  0 <= k <= 30 -> inv_scale (2 ^ k) = S754_finite false 8388608 (-23 - k).
Proof.
  intros Hk.
  assert (E : exists n, (n <= 30)%nat /\ k = Z.of_nat n)
    by (exists (Z.to_nat k); lia).
  destruct E as (n & Hn & ->). clear Hk.
  do 31 (destruct n as [| n]; [vm_compute; reflexivity |]). lia.
Qed.

Lemma to_int_checked_in_range z :
  - 2 ^ 24 <= z <= 2 ^ 24 -> F32.to_int_checked z = z.
Proof.
  intros H. unfold F32.to_int_checked, min_int, max_int.
  destruct (Z.leb_spec (- 2 ^ 31) z); [| lia].
  destruct (Z.leb_spec z (2 ^ 31 - 1)); [reflexivity | lia].
Qed.

(** The product of an integer below 2^24 in magnitude with [2^-k] is
    exact. *)
Lemma int_times_inv_pow2 z k :
  - 2 ^ 24 < z < 2 ^ 24 -> 0 <= k <= 30 ->
  match z with
  | 0 => int_times_float z (inv_scale (2 ^ k)) = S754_zero false
  | Zpos p =>
      exists m e,
        int_times_float z (inv_scale (2 ^ k)) = S754_finite false m (e - k) /\
        -23 <= e <= 0 /\ Zpos m = Zpos p * 2 ^ (- e)
  | Zneg p =>
      exists m e,
        int_times_float z (inv_scale (2 ^ k)) = S754_finite true m (e - k) /\
        -23 <= e <= 0 /\ Zpos m = Zpos p * 2 ^ (- e)
  end.
Proof.
  intros Hz Hk. unfold int_times_float. rewrite inv_scale_pow2 by exact Hk.
  unfold F32.of_int, binary_normalize.
  destruct z as [| p | p].
  - reflexivity.
  - destruct (binary_round_small false p ltac:(lia)) as (m & e & E & Hs & He & Hm).
    exists m, e. rewrite E, mul_pow2_exact by lia. auto.
  - destruct (binary_round_small true p ltac:(lia)) as (m & e & E & Hs & He & Hm).
    exists m, e. rewrite E, mul_pow2_exact by lia. auto.
Qed.

Lemma div_scaled a e k :
  0 <= e -> 0 <= k -> (a * 2 ^ e) / 2 ^ (k + e) = a / 2 ^ k.
Proof.
  intros He Hk. rewrite Z.pow_add_r by lia.
  apply Z.div_mul_cancel_r.
  - pose proof (Z.pow_pos_nonneg 2 k ltac:(lia) Hk). lia.
  - pose proof (Z.pow_pos_nonneg 2 e ltac:(lia) He). lia.
Qed.

Lemma floor_times_inv_pow2 z k :
  - 2 ^ 24 < z < 2 ^ 24 -> 0 <= k <= 30 ->
  SkScalarFloorToInt (int_times_float z (inv_scale (2 ^ k))) = z / 2 ^ k.
Proof.
  intros Hz Hk. pose proof (int_times_inv_pow2 z k Hz Hk) as H.
  assert (P : 0 < 2 ^ k) by (apply Z.pow_pos_nonneg; lia).
  assert (B : - 2 ^ 24 <= z / 2 ^ k <= 2 ^ 24).
  { split.
    - apply Z.div_le_lower_bound; [lia |]. nia.
    - apply Z.lt_le_incl, Z.div_lt_upper_bound; [lia |]. nia. }
  unfold SkScalarFloorToInt.
  destruct z as [| p | p].
  - rewrite H. reflexivity.
  - destruct H as (m & e & -> & He & Hm).
    unfold F32.floorf_to_int, F32.Zfloor_val.
    destruct (Z.leb_spec 0 (e - k)) as [H0 | H0].
    + assert (e = 0) by lia. assert (k = 0) by lia. subst e k.
      change (2 ^ (- 0)) with 1 in Hm. change (2 ^ (0 - 0)) with 1.
      change (2 ^ 0) with 1 in B |- *. rewrite Z.div_1_r in B |- *.
      rewrite Z.mul_1_r, Hm, Z.mul_1_r. now apply to_int_checked_in_range.
    + rewrite Hm. replace (- (e - k)) with (k + - e) by lia.
      rewrite div_scaled by lia. now apply to_int_checked_in_range.
  - destruct H as (m & e & -> & He & Hm).
    unfold F32.floorf_to_int, F32.Zfloor_val.
    destruct (Z.leb_spec 0 (e - k)) as [H0 | H0].
    + assert (e = 0) by lia. assert (k = 0) by lia. subst e k.
      change (2 ^ (- 0)) with 1 in Hm. change (2 ^ (0 - 0)) with 1.
      change (2 ^ 0) with 1 in B |- *. rewrite Z.div_1_r in B |- *.
      rewrite Z.mul_1_r, Hm, Z.mul_1_r.
      change (- Zpos p) with (Zneg p). now apply to_int_checked_in_range.
    + rewrite Hm. replace (- (e - k)) with (k + - e) by lia.
      rewrite <- Z.mul_opp_l, div_scaled by lia.
      change (- Zpos p) with (Zneg p). now apply to_int_checked_in_range.
Qed.

Lemma ceil_times_inv_pow2 z k :
  - 2 ^ 24 < z < 2 ^ 24 -> 0 <= k <= 30 ->
  SkScalarCeilToInt (int_times_float z (inv_scale (2 ^ k)))
  = - ((- z) / 2 ^ k).
Proof.
  intros Hz Hk. pose proof (int_times_inv_pow2 z k Hz Hk) as H.
  assert (P : 0 < 2 ^ k) by (apply Z.pow_pos_nonneg; lia).
  assert (B : - 2 ^ 24 <= - ((- z) / 2 ^ k) <= 2 ^ 24).
  { assert (- 2 ^ 24 <= (- z) / 2 ^ k <= 2 ^ 24); [| lia].
    split.
    - apply Z.div_le_lower_bound; [lia |]. nia.
    - apply Z.lt_le_incl, Z.div_lt_upper_bound; [lia |]. nia. }
  unfold SkScalarCeilToInt.
  destruct z as [| p | p].
  - rewrite H. reflexivity.
  - destruct H as (m & e & -> & He & Hm).
    unfold F32.ceilf_to_int, F32.Zceil_val.
    destruct (Z.leb_spec 0 (e - k)) as [H0 | H0].
    + assert (e = 0) by lia. assert (k = 0) by lia. subst e k.
      change (2 ^ (- 0)) with 1 in Hm. change (2 ^ (0 - 0)) with 1.
      change (2 ^ 0) with 1 in B |- *. rewrite Z.div_1_r in B |- *.
      rewrite Z.mul_1_r, Hm, Z.mul_1_r. rewrite Z.opp_involutive in B |- *.
      now apply to_int_checked_in_range.
    + rewrite Hm. replace (- (e - k)) with (k + - e) by lia.
      rewrite <- Z.mul_opp_l, div_scaled by lia.
      now apply to_int_checked_in_range.
  - destruct H as (m & e & -> & He & Hm).
    unfold F32.ceilf_to_int, F32.Zceil_val.
    destruct (Z.leb_spec 0 (e - k)) as [H0 | H0].
    + assert (e = 0) by lia. assert (k = 0) by lia. subst e k.
      change (2 ^ (- 0)) with 1 in Hm. change (2 ^ (0 - 0)) with 1.
      change (2 ^ 0) with 1 in B |- *. rewrite Z.div_1_r in B |- *.
      rewrite Z.mul_1_r, Hm, Z.mul_1_r.
      change (- Zneg p) with (Zpos p) in B |- *.
      now apply to_int_checked_in_range.
    + rewrite Hm. replace (- (e - k)) with (k + - e) by lia.
      rewrite div_scaled by lia.
      change (- Zneg p) with (Zpos p) in B |- *.
      now apply to_int_checked_in_range.
Qed.
(** ** Decimation *)

Lemma is_even_double a : is_even (a * 2) = true.
Proof.
  unfold is_even. change 1 with (Z.ones 1). rewrite Z.land_ones by lia.
  change (2 ^ 1) with 2. rewrite Z.mod_mul by lia. reflexivity.
Qed.

Lemma wrap32_multiple a k :
  0 <= k <= 31 -> exists q, wrap32 (a * 2 ^ k) = q * 2 ^ k.
Proof.
  intros Hk. unfold wrap32.
  exists (a - 2 ^ (32 - k) * ((a * 2 ^ k + 2 ^ 31) / 2 ^ 32)).
  rewrite Z.mod_eq by (change (2 ^ 32) with 4294967296; lia).
  assert (E : 2 ^ 32 = 2 ^ (32 - k) * 2 ^ k).
  { rewrite <- Z.pow_add_r by lia. f_equal. lia. }
  rewrite E at 1. ring.
Qed.

Lemma pow2_lt_iff j k : 0 <= j -> 0 <= k -> (2 ^ j <? 2 ^ k) = (j <? k).
Proof.
  intros Hj Hk. destruct (Z.ltb_spec j k) as [H | H].
  - apply Z.ltb_lt. apply Z.pow_lt_mono_r; lia.
  - apply Z.ltb_ge. apply Z.pow_le_mono_r; lia.
Qed.

Lemma count_events_app kind l1 l2 :
  count_events kind (l1 ++ l2)
  = (count_events kind l1 + count_events kind l2)%nat.
Proof. unfold count_events. now rewrite filter_app, length_app. Qed.

(** Symbolic execution that keeps what an [SkASSERT] tells. *)
Ltac wp_keep_step :=
  first
    [ lazymatch goal with
      | |- sat (SkASSERT _) _ =>
          apply sat_SkASSERT; [intros ?Hpass | intros ?Hdebug ?Hfail]
      end
    | wp_step ].

Ltac wp_keep := repeat wp_keep_step.

Section DecimateLoop.

Context {ext : Externals}.

Lemma shrink_irect_by_2_halves rect xAxis yAxis :
  (xAxis = true ->
   is_even (fLeft rect) && is_even (fRight rect) = true) ->
  (yAxis = true ->
   is_even (fTop rect) && is_even (fBottom rect) = true) ->
  sat (shrink_irect_by_2 rect xAxis yAxis)
    (fun o l =>
       l = [] /\
       o = Returned
             (MkIRect
                (if xAxis then Z.quot (fLeft rect) 2 else fLeft rect)
                (if yAxis then Z.quot (fTop rect) 2 else fTop rect)
                (if xAxis then Z.quot (fRight rect) 2 else fRight rect)
                (if yAxis then Z.quot (fBottom rect) 2 else fBottom rect))).
Proof.
  intros Hx Hy. unfold shrink_irect_by_2.
  destruct xAxis, yAxis; wp_keep; cbn [fLeft fTop fRight fBottom] in *;
    try (split; [reflexivity | now destruct rect]);
    try (rewrite Hx in * by reflexivity; discriminate);
    try (rewrite Hy in * by reflexivity; discriminate).
Qed.

Variables (contentRect : SkIRect) (kx ky : Z) (mode : Mode).
Variables (config : GrPixelConfig) (dstII : SkImageInfo).

(** The rectangle the loop ends with, and the offset it started with. *)
Variables (Q : SkIRect) (srcOffset0 : SkIPoint).

Hypothesis kx_range : 0 <= kx <= 30.
Hypothesis ky_range : 0 <= ky <= 30.

Let passes : Z := Z.max kx ky.

(** The variables of the loop when [i] is [2^j]. *)
Let loop_inv (j : Z) (vars : DecimateVars) : Prop :=
  dv_dstRect vars
  = scaled_up Q (2 ^ (kx - Z.min j kx)) (2 ^ (ky - Z.min j ky)) /\
  (dv_dstRenderTargetContext vars = None -> j = 0) /\
  dv_srcOffset vars
  = (if GrTextureDomain.eqb kIgnore_Mode mode then srcOffset0
     else if j =? 0 then srcOffset0 else MkIPoint 0 0).

Let loop_post (j : Z) (o : outcome DecimateExit) (l : list GpuEvent) : Prop :=
  o <> AssertFailed /\ o <> NullDeref /\
  (forall vars,
     o = Returned (LoopDone vars) ->
     loop_inv (Z.max j passes) vars /\
     count_events is_alloc l = Z.to_nat (Z.max j passes - j) /\
     count_events is_draw l = Z.to_nat (Z.max j passes - j)) /\
  (forall srcOffset,
     o = Returned (LoopReturnedNull srcOffset) ->
     (count_events is_alloc l <= Z.to_nat (Z.max j passes - j))%nat /\
     (GrTextureDomain.eqb kIgnore_Mode mode = true -> srcOffset = srcOffset0)).

Lemma decimate_loop_invariant fuel : forall j vars,
  0 <= j -> loop_inv j vars ->
  sat (decimate_loop fuel contentRect (2 ^ kx) (2 ^ ky) mode config dstII
         (2 ^ j) vars)
    (fun o l => o = OutOfFuel \/ loop_post j o l).
Proof.
  induction fuel as [| fuel IH]; intros j vars Hj (Hd & Hn & Ho);
    cbn [decimate_loop]; rewrite !pow2_lt_iff by lia.
  - destruct ((j <? kx) || (j <? ky)) eqn:Hc.
    + apply sat_lift. now left.
    + apply sat_ret. right. apply orb_false_iff in Hc.
      destruct Hc as [Hc1 Hc2]. apply Z.ltb_ge in Hc1, Hc2.
      assert (Em : Z.max j passes = j) by (unfold passes; lia).
      split; [discriminate |]. split; [discriminate |]. split.
      * intros ? [= <-]. rewrite Em, Z.sub_diag.
        repeat split; assumption.
      * intros ? [=].
  - destruct ((j <? kx) || (j <? ky)) eqn:Hc.
    2:{ apply sat_ret. right. apply orb_false_iff in Hc.
        destruct Hc as [Hc1 Hc2]. apply Z.ltb_ge in Hc1, Hc2.
        assert (Em : Z.max j passes = j) by (unfold passes; lia).
        split; [discriminate |]. split; [discriminate |]. split.
        - intros ? [= <-]. rewrite Em, Z.sub_diag.
          repeat split; assumption.
        - intros ? [=]. }
    assert (Hlt : j < passes).
    { apply orb_true_iff in Hc. unfold passes.
      destruct Hc as [Hc | Hc]; apply Z.ltb_lt in Hc; lia. }
    assert (Em : Z.max j passes = passes) by lia.
    assert (Em' : Z.max (j + 1) passes = passes) by lia.
    assert (Hi : imul (2 ^ j) 2 = 2 ^ (j + 1)).
    { unfold imul. rewrite Z.pow_add_r by lia. change (2 ^ 1) with 2.
      apply wrap32_small. unfold in_range, min_int, max_int.
      assert (j <= 29) by (unfold passes in Hlt; lia).
      pose proof (Z.pow_le_mono_r 2 j 29 ltac:(lia) ltac:(lia)) as Hp.
      pose proof (Z.pow_pos_nonneg 2 j ltac:(lia) Hj).
      change (2 ^ 29) with 536870912 in Hp. lia. }
    rewrite Hi.
    (* the rectangle after the halving of this round *)
    set (next := scaled_up Q (2 ^ (kx - Z.min (j + 1) kx))
                   (2 ^ (ky - Z.min (j + 1) ky))).
    assert (Hx : forall c, (j <? kx) = true ->
              c * 2 ^ (kx - Z.min j kx) = c * 2 ^ (kx - Z.min (j + 1) kx) * 2).
    { intros c H. apply Z.ltb_lt in H.
      replace (kx - Z.min j kx) with (kx - Z.min (j + 1) kx + 1) by lia.
      rewrite Z.pow_add_r by lia. change (2 ^ 1) with 2. ring. }
    assert (Hy : forall c, (j <? ky) = true ->
              c * 2 ^ (ky - Z.min j ky) = c * 2 ^ (ky - Z.min (j + 1) ky) * 2).
    { intros c H. apply Z.ltb_lt in H.
      replace (ky - Z.min j ky) with (ky - Z.min (j + 1) ky + 1) by lia.
      rewrite Z.pow_add_r by lia. change (2 ^ 1) with 2. ring. }
    assert (Hx' : (j <? kx) = false -> Z.min j kx = Z.min (j + 1) kx).
    { intros H. apply Z.ltb_ge in H. lia. }
    assert (Hy' : (j <? ky) = false -> Z.min j ky = Z.min (j + 1) ky).
    { intros H. apply Z.ltb_ge in H. lia. }
    apply sat_bind. eapply sat_conseq.
    { apply shrink_irect_by_2_halves; intros H; rewrite Hd;
        cbn [scaled_up fLeft fTop fRight fBottom];
        rewrite ?(Hx _ H), ?(Hy _ H), !is_even_double; reflexivity. }
    cbv beta. intros o l [-> ->].
    assert (Enext :
      {| fLeft := if j <? kx then Z.quot (fLeft (dv_dstRect vars)) 2
                  else fLeft (dv_dstRect vars);
         fTop := if j <? ky then Z.quot (fTop (dv_dstRect vars)) 2
                 else fTop (dv_dstRect vars);
         fRight := if j <? kx then Z.quot (fRight (dv_dstRect vars)) 2
                   else fRight (dv_dstRect vars);
         fBottom := if j <? ky then Z.quot (fBottom (dv_dstRect vars)) 2
                    else fBottom (dv_dstRect vars) |} = next).
    { rewrite Hd. unfold next, scaled_up. cbn [fLeft fTop fRight fBottom].
      destruct (j <? kx) eqn:Ex, (j <? ky) eqn:Ey;
        rewrite ?(Hx _ eq_refl), ?(Hy _ eq_refl), ?Z.quot_mul by lia;
        rewrite ?(Hx' eq_refl), ?(Hy' eq_refl); reflexivity. }
    rewrite Enext. clear Enext.
    assert (Hpost : forall pre o l,
              count_events is_alloc pre = 1%nat ->
              count_events is_draw pre = 1%nat ->
              (o = OutOfFuel \/ loop_post (j + 1) o l) ->
              o = OutOfFuel \/ loop_post j o (pre ++ l)).
    { intros pre o l Ha Hdr [-> | (P1 & P2 & P3 & P4)]; [now left | right].
      split; [exact P1 |]. split; [exact P2 |]. rewrite Em' in P3, P4.
      rewrite Em. split.
      - intros v E. destruct (P3 v E) as (I & C1 & C2).
        rewrite !count_events_app, Ha, Hdr, C1, C2.
        split; [exact I | split; lia].
      - intros off E. destruct (P4 off E) as (C & I).
        rewrite count_events_app, Ha. split; [lia | exact I]. }
    assert (Hnull : forall l off,
              (count_events is_alloc l <= 1)%nat ->
              (GrTextureDomain.eqb kIgnore_Mode mode = true -> off = srcOffset0) ->
              loop_post j (Returned (LoopReturnedNull off)) l).
    { intros l off Hl Hoff. split; [discriminate |]. split; [discriminate |].
      split; [intros ? [=] |]. intros ? [= <-]. rewrite Em. split; [lia | exact Hoff]. }
    assert (Hoff : GrTextureDomain.eqb kIgnore_Mode mode = true ->
                   dv_srcOffset vars = srcOffset0).
    { intros H. now rewrite Ho, H. }
    wp.
    + (* first pass through a texture domain *)
      replace (Returned (LoopReturnedNull _)) with
        (Returned (A := DecimateExit) (LoopReturnedNull (MkIPoint 0 0)))
        by reflexivity.
      eapply sat_conseq.
      { apply (IH (j + 1)); [lia |]. split; [reflexivity |].
        split; [discriminate |]. cbn [dv_srcOffset].
        apply andb_true_iff in Heqb. destruct Heqb as [Hm _].
        apply negb_true_iff in Hm. rewrite Hm.
        destruct (Z.eqb_spec (j + 1) 0); [lia | reflexivity]. }
      cbv beta. intros o l H.
      change ([] ++ ?a ++ ?b ++ ?c ++ l) with (([] ++ a ++ b ++ c) ++ l).
      apply Hpost; [reflexivity | reflexivity | exact H].
    + right. apply Hnull; [cbn; lia |].
      apply andb_true_iff in Heqb. destruct Heqb as [Hm _].
      apply negb_true_iff in Hm. rewrite Hm. discriminate.
    + eapply sat_conseq.
      { apply (IH (j + 1)); [lia |]. split; [reflexivity |].
        split; [discriminate |]. cbn [dv_srcOffset]. rewrite Ho.
        destruct (GrTextureDomain.eqb kIgnore_Mode mode) eqn:Hm;
          [reflexivity |].
        cbn [negb andb] in Heqb. apply Z.eqb_neq in Heqb.
        assert (j <> 0).
        { intros ->. now apply Heqb. }
        destruct (Z.eqb_spec j 0); [lia |].
        destruct (Z.eqb_spec (j + 1) 0); [lia | reflexivity]. }
      cbv beta. intros o l H.
      change ([] ++ ?a ++ ?b ++ ?c ++ l) with (([] ++ a ++ b ++ c) ++ l).
      apply Hpost; [reflexivity | reflexivity | exact H].
    + right. apply Hnull; [cbn; lia | exact Hoff].
    + right. apply Hnull; [cbn; lia | exact Hoff].
Qed.

End DecimateLoop.

Lemma get_blur_config_supported {ext : Externals} proxy cs :
  blur_config_supported (blur_config (proxy_config proxy) cs) = true ->
  sat (get_blur_config proxy cs)
    (fun o l => l = [] /\ o = Returned (blur_config (proxy_config proxy) cs)).
Proof.
  intros H. unfold get_blur_config. wp_keep; [auto |].
  rewrite H in *. discriminate.
Qed.

Lemma scale_irect_aligned rect kx ky :
  0 <= kx <= 30 -> 0 <= ky <= 30 ->
  exists Q, scale_irect rect (2 ^ kx) (2 ^ ky) = scaled_up Q (2 ^ kx) (2 ^ ky).
Proof.
  intros Hx Hy. unfold scale_irect, imul.
  destruct (wrap32_multiple (fLeft rect) kx ltac:(lia)) as [l El].
  destruct (wrap32_multiple (fTop rect) ky ltac:(lia)) as [t Et].
  destruct (wrap32_multiple (fRight rect) kx ltac:(lia)) as [r Er].
  destruct (wrap32_multiple (fBottom rect) ky ltac:(lia)) as [b Eb].
  exists (MkIRect l t r b). unfold scaled_up. cbn [fLeft fTop fRight fBottom].
  now rewrite El, Et, Er, Eb.
Qed.

Section Decimate.

Context {ext : Externals}.

Variables (fuel : nat) (src : GrTextureProxy) (srcOffset : SkIPoint).
Variables (contentRect : SkIRect) (kx ky : Z).
Variables (willBeXFiltering willBeYFiltering : bool) (radiusX radiusY : Z).
Variables (mode : Mode) (dstII : SkImageInfo).

Hypothesis kx_range : 0 <= kx <= 30.
Hypothesis ky_range : 0 <= ky <= 30.
Hypothesis decimated : 0 < kx \/ 0 < ky.
Hypothesis supported :
  blur_config_supported
    (blur_config (proxy_config src) (ii_colorSpace dstII)) = true.

(** The rectangle [decimate] scales down, and the aligned rectangle its
    loop starts from. *)
Let srcRect0 : SkIRect :=
  if GrTextureDomain.eqb kIgnore_Mode mode then ii_bounds dstII
  else IRect.offset contentRect (fX srcOffset) (fY srcOffset).

Let aligned : SkIRect :=
  scale_irect
    (scale_irect_roundout srcRect0 (inv_scale (2 ^ kx)) (inv_scale (2 ^ ky)))
    (2 ^ kx) (2 ^ ky).

Lemma decimate_spec Q :
  aligned = scaled_up Q (2 ^ kx) (2 ^ ky) ->
  sat (decimate fuel src srcOffset contentRect (2 ^ kx) (2 ^ ky)
         willBeXFiltering willBeYFiltering radiusX radiusY mode dstII)
    (fun o l =>
       o = OutOfFuel \/
       (o <> AssertFailed /\ o <> NullDeref /\
        (forall proxy srcOffset' content,
           o = Returned (Some proxy, srcOffset', content) ->
           content = Q /\
           srcOffset' = (if GrTextureDomain.eqb kIgnore_Mode mode
                         then srcOffset else MkIPoint 0 0) /\
           count_events is_alloc l = Z.to_nat (Z.max kx ky) /\
           count_events is_draw l = Z.to_nat (Z.max kx ky)) /\
        (forall srcOffset' content,
           o = Returned (None, srcOffset', content) ->
           (count_events is_alloc l <= Z.to_nat (Z.max kx ky))%nat /\
           (GrTextureDomain.eqb kIgnore_Mode mode = true ->
            srcOffset' = srcOffset)))).
Proof.
  intros HQ. unfold decimate.
  apply sat_bind, sat_emit. apply sat_bind.
  apply sat_SkASSERT;
    [intros _ | intros _ Hf; rewrite !SkIsPow2_pow2 in Hf by lia; discriminate].
  apply sat_bind.
  apply sat_SkASSERT; [intros _ | intros _ Hf].
  2:{ exfalso. apply orb_false_iff in Hf. destruct Hf as [H1 H2].
      change 1 with (2 ^ 0) in H1, H2.
      rewrite Z.gtb_ltb, pow2_lt_iff in H1, H2 by lia.
      apply Z.ltb_ge in H1, H2. lia. }
  apply sat_bind. eapply sat_conseq;
    [apply get_blur_config_supported; exact supported |].
  cbv beta. intros ? ? [-> ->]. cbv zeta.
  fold srcRect0. fold aligned. rewrite HQ.
  apply sat_bind. change 1 with (2 ^ 0) at 3.
  eapply sat_conseq.
  { apply (decimate_loop_invariant contentRect kx ky mode _ dstII Q srcOffset
             kx_range ky_range fuel 0); [lia |].
    split; [| split; [reflexivity |]].
    - cbn [dv_dstRect]. now rewrite !Z.min_l, !Z.sub_0_r by lia.
    - cbn [dv_srcOffset]. now destruct (GrTextureDomain.eqb kIgnore_Mode mode). }
  cbv beta. intros o l [-> | (P1 & P2 & P3 & P4)]; [now left |].
  assert (Em : Z.max 0 (Z.max kx ky) = Z.max kx ky) by lia.
  rewrite Em, Z.sub_0_r in P3, P4.
  destruct o as [[vars | off] | | |]; try contradiction; [| | now left].
  - destruct (P3 vars eq_refl) as ((Hd & Hn & Ho) & C1 & C2).
    destruct (dv_dstRenderTargetContext vars) as [dst |] eqn:Edst.
    2:{ specialize (Hn eq_refl). lia. }
    assert (Hmin : Z.min (Z.max kx ky) kx = kx /\ Z.min (Z.max kx ky) ky = ky)
      by lia.
    destruct Hmin as [Hmx Hmy].
    rewrite Hmx, Hmy, !Z.sub_diag in Hd. change (2 ^ 0) with 1 in Hd.
    assert (HdQ : dv_dstRect vars = Q).
    { rewrite Hd. unfold scaled_up. destruct Q. cbn. f_equal; lia. }
    assert (Hoff : dv_srcOffset vars
                   = if GrTextureDomain.eqb kIgnore_Mode mode
                     then srcOffset else MkIPoint 0 0).
    { rewrite Ho. destruct (GrTextureDomain.eqb kIgnore_Mode mode);
        [reflexivity |].
      destruct (Z.eqb_spec (Z.max kx ky) 0); [lia | reflexivity]. }
    cbv beta iota. apply sat_bind.
    apply sat_SkASSERT; [intros _ | intros _ Hf; discriminate Hf].
    wp; right;
      (split; [discriminate |]; split; [discriminate |]; split;
       [ intros ? ? ? [= <- <- <-] || intros ? ? ? [=]
       | intros ? ? [= <- <-] || intros ? ? [=] ]);
      rewrite ?count_events_app, ?C1, ?C2; cbn [count_events filter is_alloc
        is_draw length app Nat.add];
      try (split; [exact HdQ | split; [exact Hoff | split; lia]]);
      try (split; [lia | intros H; rewrite Hoff, H; reflexivity]).
  - wp. right. destruct (P4 off eq_refl) as [C I].
    split; [discriminate |]. split; [discriminate |].
    split; [intros ? ? ? [=] |]. intros ? ? [= <- <-].
    rewrite !count_events_app. cbn [count_events filter is_alloc length app
      Nat.add]. split; [| exact I].
    lia.
Qed.

End Decimate.

(** ** Rounding out by powers of two *)

Lemma floor_ceil_roundout rect kx ky :
  rect_float_exact rect -> 0 <= kx <= 30 -> 0 <= ky <= 30 ->
  scale_irect_roundout rect (inv_scale (2 ^ kx)) (inv_scale (2 ^ ky))
  = rounded_out rect kx ky.
Proof.
  intros (Hl & Ht & Hr & Hb) Hx Hy. unfold scale_irect_roundout, rounded_out.
  now rewrite !floor_times_inv_pow2, !ceil_times_inv_pow2.
Qed.

(** X7: for coordinates below 2^24 in magnitude and scale factors 2^kx
    and 2^ky up to 2^30, [scale_irect_roundout] by [1.0f / 2^kx] and
    [1.0f / 2^ky] rounds nothing in float: it gives the exact floors of
    left and top and the exact ceilings of right and bottom. *)
Theorem scale_irect_roundout_exact rect kx ky :
  rect_float_exact rect -> 0 <= kx <= 30 -> 0 <= ky <= 30 ->
  scale_irect_roundout rect (inv_scale (2 ^ kx)) (inv_scale (2 ^ ky))
  = rounded_out rect kx ky.
Proof. apply floor_ceil_roundout. Qed.

Lemma floor_pow2_bounds z k :
  0 <= k -> z / 2 ^ k * 2 ^ k <= z < z / 2 ^ k * 2 ^ k + 2 ^ k.
Proof.
  intros Hk. assert (P : 0 < 2 ^ k) by (apply Z.pow_pos_nonneg; lia).
  pose proof (Z.div_mod z (2 ^ k) ltac:(lia)).
  pose proof (Z.mod_pos_bound z (2 ^ k) P). lia.
Qed.

Lemma ceil_pow2_bounds z k :
  0 <= k ->
  z <= - ((- z) / 2 ^ k) * 2 ^ k < z + 2 ^ k.
Proof. intros Hk. pose proof (floor_pow2_bounds (- z) k Hk). lia. Qed.

Lemma scale_rounded_out rect kx ky :
  rect_float_exact rect -> 0 <= kx <= 30 -> 0 <= ky <= 30 ->
  scale_irect (rounded_out rect kx ky) (2 ^ kx) (2 ^ ky)
  = scaled_up (rounded_out rect kx ky) (2 ^ kx) (2 ^ ky).
Proof.
  intros (Hl & Ht & Hr & Hb) Hx Hy.
  assert (Px : 0 < 2 ^ kx <= 2 ^ 30)
    by (split; [apply Z.pow_pos_nonneg | apply Z.pow_le_mono_r]; lia).
  assert (Py : 0 < 2 ^ ky <= 2 ^ 30)
    by (split; [apply Z.pow_pos_nonneg | apply Z.pow_le_mono_r]; lia).
  unfold float_exact in *.
  pose proof (floor_pow2_bounds (fLeft rect) kx ltac:(lia)).
  pose proof (floor_pow2_bounds (fTop rect) ky ltac:(lia)).
  pose proof (ceil_pow2_bounds (fRight rect) kx ltac:(lia)).
  pose proof (ceil_pow2_bounds (fBottom rect) ky ltac:(lia)).
  unfold scale_irect, scaled_up, rounded_out, imul.
  cbn [fLeft fTop fRight fBottom].
  change (2 ^ 30) with 1073741824 in *. change (2 ^ 24) with 16777216 in *.
  rewrite !wrap32_small
    by (unfold in_range, min_int, max_int;
        change (2 ^ 31) with 2147483648; lia).
  reflexivity.
Qed.

(** X8: the rectangle [decimate] starts from, the content rounded out by
    the scale factors and scaled back, contains the content rectangle, is
    aligned to the scale factors, and exceeds the content by less than one
    scale factor on each side. *)
Theorem roundout_then_scale_contains rect kx ky :
  rect_float_exact rect -> 0 <= kx <= 30 -> 0 <= ky <= 30 ->
  let aligned :=
    scale_irect
      (scale_irect_roundout rect (inv_scale (2 ^ kx)) (inv_scale (2 ^ ky)))
      (2 ^ kx) (2 ^ ky) in
  (fLeft aligned <= fLeft rect < fLeft aligned + 2 ^ kx /\
   fTop aligned <= fTop rect < fTop aligned + 2 ^ ky /\
   fRight rect <= fRight aligned < fRight rect + 2 ^ kx /\
   fBottom rect <= fBottom aligned < fBottom rect + 2 ^ ky) /\
  (fLeft aligned mod 2 ^ kx = 0 /\ fTop aligned mod 2 ^ ky = 0 /\
   fRight aligned mod 2 ^ kx = 0 /\ fBottom aligned mod 2 ^ ky = 0).
Proof.
  intros He Hx Hy. cbv zeta.
  rewrite floor_ceil_roundout, scale_rounded_out by assumption.
  unfold scaled_up, rounded_out. cbn [fLeft fTop fRight fBottom].
  assert (Px : 0 < 2 ^ kx) by (apply Z.pow_pos_nonneg; lia).
  assert (Py : 0 < 2 ^ ky) by (apply Z.pow_pos_nonneg; lia).
  pose proof (floor_pow2_bounds (fLeft rect) kx ltac:(lia)).
  pose proof (floor_pow2_bounds (fTop rect) ky ltac:(lia)).
  pose proof (ceil_pow2_bounds (fRight rect) kx ltac:(lia)).
  pose proof (ceil_pow2_bounds (fBottom rect) ky ltac:(lia)).
  rewrite !Z.mod_mul by lia. repeat split; lia.
Qed.

(** ** What [decimate] returns *)

Section DecimateProperties.

Context {ext : Externals}.

Variables (fuel : nat) (src : GrTextureProxy) (srcOffset : SkIPoint).
Variables (contentRect : SkIRect) (kx ky : Z).
Variables (willBeXFiltering willBeYFiltering : bool) (radiusX radiusY : Z).
Variables (mode : Mode) (dstII : SkImageInfo).

Hypothesis kx_range : 0 <= kx <= 30.
Hypothesis ky_range : 0 <= ky <= 30.
Hypothesis decimated : 0 < kx \/ 0 < ky.
Hypothesis supported :
  blur_config_supported
    (blur_config (proxy_config src) (ii_colorSpace dstII)) = true.

(** X9: called with scale factors that are powers of two, one of them above
    1, on a texture whose blur config is among the supported ones,
    [decimate] returns: none of its assertions fails (every rectangle it
    halves has even coordinates, whatever the rectangles it was given), it
    dereferences no null pointer, and its loop ends. *)
Theorem decimate_returns :
  (30 <= fuel)%nat ->
  sat (decimate fuel src srcOffset contentRect (2 ^ kx) (2 ^ ky)
         willBeXFiltering willBeYFiltering radiusX radiusY mode dstII)
    (fun o _ => exists result, o = Returned result).
Proof.
  intros Hf.
  destruct (scale_irect_aligned
              (scale_irect_roundout
                 (if GrTextureDomain.eqb kIgnore_Mode mode then ii_bounds dstII
                  else IRect.offset contentRect (fX srcOffset) (fY srcOffset))
                 (inv_scale (2 ^ kx)) (inv_scale (2 ^ ky))) kx ky
              kx_range ky_range) as [Q HQ].
  eapply sat_conseq.
  { apply sat_and.
    - apply (decimate_spec fuel src srcOffset contentRect kx ky
               willBeXFiltering willBeYFiltering radiusX radiusY mode dstII
               kx_range ky_range decimated supported Q HQ).
    - apply (decimate_fuel fuel src srcOffset contentRect (2 ^ kx) (2 ^ ky)
               willBeXFiltering willBeYFiltering radiusX radiusY mode dstII);
        [apply Z.pow_le_mono_r; lia | apply Z.pow_le_mono_r; lia | exact Hf]. }
  cbv beta. intros o l [[E | (P1 & P2 & _)] Hnf]; [contradiction |].
  destruct o as [r | | |]; try contradiction. now exists r.
Qed.

(** X10: a decimation by 2^kx and 2^ky that hands a texture back has made
    exactly max(kx, ky) halving passes, each one allocation and one draw;
    one that fails has allocated no more. *)
Theorem decimate_pass_count :
  sat (decimate fuel src srcOffset contentRect (2 ^ kx) (2 ^ ky)
         willBeXFiltering willBeYFiltering radiusX radiusY mode dstII)
    (fun o l =>
       forall proxy srcOffset' content,
         o = Returned (proxy, srcOffset', content) ->
         (count_events is_alloc l <= Z.to_nat (Z.max kx ky))%nat /\
         (proxy <> None ->
          count_events is_alloc l = Z.to_nat (Z.max kx ky) /\
          count_events is_draw l = Z.to_nat (Z.max kx ky))).
Proof.
  destruct (scale_irect_aligned
              (scale_irect_roundout
                 (if GrTextureDomain.eqb kIgnore_Mode mode then ii_bounds dstII
                  else IRect.offset contentRect (fX srcOffset) (fY srcOffset))
                 (inv_scale (2 ^ kx)) (inv_scale (2 ^ ky))) kx ky
              kx_range ky_range) as [Q HQ].
  eapply sat_conseq.
  { apply (decimate_spec fuel src srcOffset contentRect kx ky
             willBeXFiltering willBeYFiltering radiusX radiusY mode dstII
             kx_range ky_range decimated supported Q HQ). }
  cbv beta. intros o l [-> | (_ & _ & P3 & P4)]; [intros ? ? ? [=] |].
  intros [p |] off c ->.
  - destruct (P3 p off c eq_refl) as (_ & _ & C1 & C2).
    split; [lia | intros _; now split].
  - destruct (P4 off c eq_refl) as (C & _).
    split; [exact C | intros H; now destruct H].
Qed.

(** X11: [decimate] consumes the source offset: when it hands a texture back
    in a mode other than [kIgnore_Mode], [*srcOffset] is (0, 0); in
    [kIgnore_Mode] it leaves [*srcOffset] as it was, also when it fails. *)
Theorem decimate_consumes_offset :
  sat (decimate fuel src srcOffset contentRect (2 ^ kx) (2 ^ ky)
         willBeXFiltering willBeYFiltering radiusX radiusY mode dstII)
    (fun o _ =>
       forall proxy srcOffset' content,
         o = Returned (proxy, srcOffset', content) ->
         (mode = kIgnore_Mode -> srcOffset' = srcOffset) /\
         (mode <> kIgnore_Mode -> proxy <> None ->
          srcOffset' = MkIPoint 0 0)).
Proof.
  destruct (scale_irect_aligned
              (scale_irect_roundout
                 (if GrTextureDomain.eqb kIgnore_Mode mode then ii_bounds dstII
                  else IRect.offset contentRect (fX srcOffset) (fY srcOffset))
                 (inv_scale (2 ^ kx)) (inv_scale (2 ^ ky))) kx ky
              kx_range ky_range) as [Q HQ].
  eapply sat_conseq.
  { apply (decimate_spec fuel src srcOffset contentRect kx ky
             willBeXFiltering willBeYFiltering radiusX radiusY mode dstII
             kx_range ky_range decimated supported Q HQ). }
  cbv beta. intros o l [-> | (_ & _ & P3 & P4)]; [intros ? ? ? [=] |].
  intros [p |] off c ->.
  - destruct (P3 p off c eq_refl) as (_ & -> & _).
    split.
    + intros ->. reflexivity.
    + intros Hm _. destruct mode; try reflexivity. now destruct Hm.
  - destruct (P4 off c eq_refl) as (_ & I).
    split.
    + intros ->. now apply I.
    + intros _ H. now destruct H.
Qed.

(** X12: when the rectangle it scales down has coordinates below 2^24 in
    magnitude, [decimate] leaves in [*contentRect] that rectangle divided
    by the scale factors and rounded out. *)
Theorem decimate_content_rect :
  rect_float_exact (decimate_srcRect mode dstII contentRect srcOffset) ->
  sat (decimate fuel src srcOffset contentRect (2 ^ kx) (2 ^ ky)
         willBeXFiltering willBeYFiltering radiusX radiusY mode dstII)
    (fun o _ =>
       forall proxy srcOffset' content,
         o = Returned (Some proxy, srcOffset', content) ->
         content
         = rounded_out (decimate_srcRect mode dstII contentRect srcOffset)
             kx ky).
Proof.
  intros He.
  eapply sat_conseq.
  { apply (decimate_spec fuel src srcOffset contentRect kx ky
             willBeXFiltering willBeYFiltering radiusX radiusY mode dstII
             kx_range ky_range decimated supported
             (rounded_out (decimate_srcRect mode dstII contentRect srcOffset)
                kx ky)).
    fold (decimate_srcRect mode dstII contentRect srcOffset).
    rewrite floor_ceil_roundout by assumption.
    now apply scale_rounded_out. }
  cbv beta. intros o l [-> | (_ & _ & P3 & _)]; [intros ? ? ? [=] |].
  intros p off c E. now destruct (P3 p off c E) as (-> & _).
Qed.

End DecimateProperties.

(** ** binary32: the radius of a positive sigma *)

Lemma Zdigits2_bounds m d :
  2 ^ (d - 1) <= m < 2 ^ d -> 0 < d -> Zdigits2 m = d.
Proof.
  intros Hm Hd. assert (P : 0 < 2 ^ (d - 1)) by (apply Z.pow_pos_nonneg; lia).
  destruct m as [| p | p]; try lia.
  change (Zdigits2 (Zpos p)) with (Zpos (digits2_pos p)).
  rewrite digits2_pos_size. now apply size_unique.
Qed.

(** The ceiling of a positive float is above [c] when its value is. *)
Lemma Zceil_val_gt m e c k :
  0 <= k -> 0 <= e + k -> 0 <= c ->
  c * 2 ^ k < Zpos m * 2 ^ (e + k) ->
  c < F32.Zceil_val false m e.
Proof.
  intros Hk Hek Hc H. unfold F32.Zceil_val.
  assert (Pk : 0 < 2 ^ k) by (apply Z.pow_pos_nonneg; lia).
  destruct (Z.leb_spec 0 e) as [He | He].
  - rewrite Z.pow_add_r in H by lia.
    assert (Pe : 0 < 2 ^ e) by (apply Z.pow_pos_nonneg; lia). nia.
  - assert (Pe : 0 < 2 ^ (- e)) by (apply Z.pow_pos_nonneg; lia).
    assert (Pek : 0 < 2 ^ (e + k)) by (apply Z.pow_pos_nonneg; lia).
    assert (Hsplit : 2 ^ k = 2 ^ (- e) * 2 ^ (e + k)).
    { rewrite <- Z.pow_add_r by lia. f_equal. lia. }
    rewrite Hsplit in H.
    assert (Hm : c * 2 ^ (- e) < Zpos m) by nia.
    assert ((- Zpos m) / 2 ^ (- e) < - c); [| lia].
    apply Z.div_lt_upper_bound; lia.
Qed.

(** Three times a float above 2 and below 4 rounds to a float above 6. *)
Lemma mul_three_above_six m :
  2 ^ 23 < Zpos m < 2 ^ 24 ->
  exists m' e',
    F32.mul (S754_finite false m (-22)) F32.three = S754_finite false m' e' /\
    6 < F32.Zceil_val false m' e'.
Proof.
  intros Hm. unfold F32.mul, F32.three, SFmul. cbn [xorb].
  set (mx := (m * 12582912)%positive).
  destruct (bra_loc_exact F32.prec F32.emax false mx (-22 + -22))
    as (m1 & e1 & m2 & e2 & Ha & Hb & Hc & Hpos & Heq).
  rewrite Heq. clear Heq.
  assert (Hmx : Zpos mx = Zpos m * 12582912) by (unfold mx; lia).
  change (2 ^ 23) with 8388608 in Hm. change (2 ^ 24) with 16777216 in Hm.
  unfold fexp, emin, F32.prec, F32.emax in Ha, Hb, Hc.
  change (-22 + -22) with (-44) in *.
  destruct (Z_lt_le_dec (Zpos mx) (2 ^ 47)) as [Hlt | Hge].
  - (* the product is below 8 *)
    assert (Hd : Zpos (Pos.size mx) = 47).
    { apply size_unique. change (47 - 1) with 46.
      change (2 ^ 46) with 70368744177664.
      change (2 ^ 47) with 140737488355328 in *. lia. }
    rewrite Hd in Ha, Hb.
    change (Z.max (47 + -44 - 24) (3 - 128 - 24) - -44) with 23 in Ha, Hb.
    clear Ha. destruct (Hb ltac:(lia)) as [He1 Hm1]. clear Hb.
    change (-44 + 23) with (-21) in He1. subst e1.
    change (2 ^ 47) with 140737488355328 in Hlt.
    assert (Hq : 12582913 <= Zpos mx / 2 ^ 23 < 16777216).
    { change (2 ^ 23) with 8388608. split.
      - apply Z.div_le_lower_bound; lia.
      - apply Z.div_lt_upper_bound; lia. }
    assert (Hm1' : 12582913 <= m1 <= 16777216).
    { destruct Hm1 as [-> | [-> _]]; lia. }
    destruct (Z_lt_le_dec m1 16777216) as [Hn | Hn].
    + assert (D1 : Zdigits2 m1 = 24).
      { apply Zdigits2_bounds; [| lia]. change (2 ^ (24 - 1)) with 8388608.
        change (2 ^ 24) with 16777216. lia. }
      rewrite D1 in Hc.
      change (Z.max (24 + -21 - 24) (3 - 128 - 24) - -21) with 0 in Hc.
      destruct Hc as [Hc _]. destruct (Hc ltac:(lia)) as [-> ->].
      destruct m1 as [| p | p]; try lia.
      change (-21 <=? 128 - 24) with true. cbv iota.
      exists p, (-21). split; [reflexivity |].
      apply Zceil_val_gt with (k := 21); try lia;
        change (-21 + 21) with 0; change (2 ^ 0) with 1;
        change (2 ^ 21) with 2097152; lia.
    + assert (m1 = 16777216) by lia. subst m1.
      change (Zdigits2 16777216) with 25 in Hc.
      change (Z.max (25 + -21 - 24) (3 - 128 - 24) - -21) with 1 in Hc.
      destruct Hc as [_ Hc]. destruct (Hc ltac:(lia)) as [-> ->].
      exists 8388608%positive, (-20). split; [reflexivity |].
      vm_compute. reflexivity.
  - (* the product is 8 or more *)
    assert (Hd : Zpos (Pos.size mx) = 48).
    { apply size_unique. change (48 - 1) with 47.
      change (2 ^ 48) with 281474976710656.
      change (2 ^ 47) with 140737488355328 in *. lia. }
    rewrite Hd in Ha, Hb.
    change (Z.max (48 + -44 - 24) (3 - 128 - 24) - -44) with 24 in Ha, Hb.
    clear Ha. destruct (Hb ltac:(lia)) as [He1 Hm1]. clear Hb.
    change (-44 + 24) with (-20) in He1. subst e1.
    change (2 ^ 47) with 140737488355328 in Hge.
    assert (Hq : 8388608 <= Zpos mx / 2 ^ 24 < 16777216).
    { change (2 ^ 24) with 16777216. split.
      - apply Z.div_le_lower_bound; lia.
      - apply Z.div_lt_upper_bound; lia. }
    assert (Hm1' : 8388608 <= m1 <= 16777216).
    { destruct Hm1 as [-> | [-> _]]; lia. }
    destruct (Z_lt_le_dec m1 16777216) as [Hn | Hn].
    + assert (D1 : Zdigits2 m1 = 24).
      { apply Zdigits2_bounds; [| lia]. change (2 ^ (24 - 1)) with 8388608.
        change (2 ^ 24) with 16777216. lia. }
      rewrite D1 in Hc.
      change (Z.max (24 + -20 - 24) (3 - 128 - 24) - -20) with 0 in Hc.
      destruct Hc as [Hc _]. destruct (Hc ltac:(lia)) as [-> ->].
      destruct m1 as [| p | p]; try lia.
      change (-20 <=? 128 - 24) with true. cbv iota.
      exists p, (-20). split; [reflexivity |].
      apply Zceil_val_gt with (k := 20); try lia;
        change (-20 + 20) with 0; change (2 ^ 0) with 1;
        change (2 ^ 20) with 1048576; lia.
    + assert (m1 = 16777216) by lia. subst m1.
      change (Zdigits2 16777216) with 25 in Hc.
      change (Z.max (25 + -20 - 24) (3 - 128 - 24) - -20) with 1 in Hc.
      destruct Hc as [_ Hc]. destruct (Hc ltac:(lia)) as [-> ->].
      exists 8388608%positive, (-19). split; [reflexivity |].
      vm_compute. reflexivity.
Qed.

(** A sigma above 2 (and not above 4) has a radius of 7 at least. *)
Lemma sigma_radius_above_two x :
  F32.valid x = true -> F32.gtb x float_two = true ->
  F32.gtb x MAX_BLUR_SIGMA = false ->
  7 <= sigma_radius x <= 12.
Proof.
  intros Hv H2 H4.
  assert (Hpos : F32.leb F32.zero x = true).
  { destruct x as [s | s | | s m e]; try discriminate; destruct s;
      try discriminate; reflexivity. }
  pose proof (sigma_radius_bound x Hv Hpos H4) as Hb.
  split; [| lia].
  destruct x as [s | s | | s m e]; try discriminate;
    destruct s; try discriminate.
  apply gtb_two_finite in H2.
  assert (Hng : ~ (false = false /\ (-21 < e \/ e = -21 /\ 8388608 < Zpos m))).
  { intros H. apply gtb_four_finite in H. congruence. }
  pose proof (valid_finite_inv _ _ _ Hv) as [Hc _].
  pose proof (Zpos_size_bounds m) as Hsz.
  destruct (Z.eq_dec e (-21)) as [-> | Hne].
  - assert (Zpos (Pos.size m) = 24) by lia.
    replace (Zpos (Pos.size m)) with 24 in Hsz.
    change (2 ^ (24 - 1)) with 8388608 in Hsz.
    assert (m = 8388608%positive) by lia. subst m.
    vm_compute. discriminate.
  - assert (e = -22) by lia. subst e.
    assert (Zpos (Pos.size m) = 24).
    { destruct (Z.eq_dec (Zpos (Pos.size m)) 24) as [| Hn]; [assumption |].
      exfalso. assert (Hle : Zpos (Pos.size m) <= 23) by lia.
      pose proof (Z.pow_le_mono_r 2 _ 23 ltac:(lia) Hle).
      change (2 ^ 23) with 8388608 in *. lia. }
    replace (Zpos (Pos.size m)) with 24 in Hsz.
    destruct (mul_three_above_six m) as (m' & e' & E & Hc').
    { change (2 ^ 23) with 8388608. lia. }
    unfold sigma_radius in *. rewrite E in *. unfold F32.ceilf_to_int in *.
    assert (Hin : F32.to_int_checked (F32.Zceil_val false m' e')
                  = F32.Zceil_val false m' e').
    { unfold F32.to_int_checked, min_int, max_int.
      destruct (Z.leb_spec (- 2 ^ 31) (F32.Zceil_val false m' e')); [| lia].
      destruct (Z.leb_spec (F32.Zceil_val false m' e') (2 ^ 31 - 1));
        [reflexivity |].
      (* out of range: the conversion gives the minimal int *)
      exfalso. unfold F32.to_int_checked, min_int, max_int in Hb.
      destruct (Z.leb_spec (- 2 ^ 31) (F32.Zceil_val false m' e')); [| lia].
      destruct (Z.leb_spec (F32.Zceil_val false m' e') (2 ^ 31 - 1)); [lia |].
      cbn [andb] in Hb. unfold F32.int_indefinite, min_int in Hb. lia. }
    rewrite Hin. lia.
Qed.

Lemma Zdigits2_pow_le m :
  0 < m -> 2 ^ (Zdigits2 m - 1) <= m /\ 0 < Zdigits2 m.
Proof.
  intros Hm. destruct m as [| p | p]; try lia.
  change (Zdigits2 (Zpos p)) with (Zpos (digits2_pos p)).
  rewrite digits2_pos_size. split; [apply Zpos_size_bounds | lia].
Qed.

(** Three times a positive float is not rounded to zero. *)
Lemma mul_three_not_zero m e s :
  F32.valid (S754_finite false m e) = true ->
  F32.mul (S754_finite false m e) F32.three <> S754_zero s.
Proof.
  intros Hv. apply valid_finite_inv in Hv. destruct Hv as [Hc _].
  unfold F32.mul, F32.three, SFmul. cbn [xorb].
  set (mx := (m * 12582912)%positive). set (ex := e + -22).
  destruct (bra_loc_exact F32.prec F32.emax false mx ex)
    as (m1 & e1 & m2 & e2 & Ha & Hb & Hc2 & Hpos & Heq).
  rewrite Heq. clear Heq.
  unfold fexp, emin, F32.prec, F32.emax in Ha, Hb, Hc2.
  set (d := Zpos (Pos.size mx)) in *.
  pose proof (Zpos_size_bounds mx) as Hsz. fold d in Hsz.
  assert (Hd : 24 <= d).
  { destruct (Z_le_gt_dec 24 d) as [| Hlt]; [assumption | exfalso].
    assert (Hle : d <= 23) by lia.
    pose proof (Z.pow_le_mono_r 2 d 23 ltac:(lia) Hle) as Hp.
    assert (Zpos mx = Zpos m * 12582912) by (unfold mx; lia).
    change (2 ^ 23) with 8388608 in Hp. lia. }
  set (n := Z.max (d + ex - 24) (3 - 128 - 24) - ex) in *.
  assert (S1 : 1 <= m1 /\ -149 <= e1).
  { destruct (Z_lt_le_dec 0 n) as [Hn | Hn].
    - destruct (Hb Hn) as [-> Hm1]. split; [| unfold n; lia].
      assert (Hq : 1 <= Zpos mx / 2 ^ n).
      { apply Z.div_le_lower_bound; [apply Z.pow_pos_nonneg; lia |].
        rewrite Z.mul_1_r. eapply Z.le_trans; [| apply Hsz].
        apply Z.pow_le_mono_r; [lia |]. unfold n, ex. lia. }
      destruct Hm1 as [-> | [-> _]]; lia.
    - destruct (Ha Hn) as [-> ->]. split; [lia |]. unfold n in Hn. lia. }
  destruct S1 as [Hm1 He1].
  destruct (Zdigits2_pow_le m1 ltac:(lia)) as [Hd1 Hd1'].
  set (d1 := Zdigits2 m1) in *.
  set (n2 := Z.max (d1 + e1 - 24) (3 - 128 - 24) - e1) in *.
  assert (S2 : 1 <= m2).
  { destruct Hc2 as [Hc2a Hc2b]. destruct (Z_lt_le_dec 0 n2) as [Hn | Hn].
    - destruct (Hc2b Hn) as [-> _].
      apply Z.div_le_lower_bound; [apply Z.pow_pos_nonneg; lia |].
      rewrite Z.mul_1_r. eapply Z.le_trans; [| apply Hd1].
      apply Z.pow_le_mono_r; [lia |]. unfold n2. lia.
    - destruct (Hc2a Hn) as [-> _]. exact Hm1. }
  destruct m2 as [| p | p]; try lia.
  unfold F32.emax, F32.prec.
  destruct (e2 <=? 128 - 24); intros H; discriminate H.
Qed.

(** A positive sigma (not above 4) has a radius of 1 at least. *)
Lemma sigma_radius_positive x :
  F32.valid x = true -> F32.gtb x F32.zero = true ->
  F32.gtb x MAX_BLUR_SIGMA = false ->
  1 <= sigma_radius x <= 12.
Proof.
  intros Hv H0 H4.
  assert (Hpos : F32.leb F32.zero x = true).
  { destruct x as [s | s | | s m e]; try discriminate; destruct s;
      try discriminate; reflexivity. }
  pose proof (sigma_radius_bound x Hv Hpos H4) as Hb.
  split; [| lia].
  destruct x as [s | s | | s m e]; try discriminate;
    destruct s; try discriminate.
  unfold sigma_radius in *.
  assert (Hnz : forall s,
            F32.mul (S754_finite false m e) F32.three <> S754_zero s)
    by (intros s; now apply mul_three_not_zero).
  destruct (Z_le_gt_dec e (-22)) as [He | He].
  - pose proof (mul_three_le_12 m e Hv He) as H.
    destruct (F32.mul (S754_finite false m e) F32.three)
      as [s' | s' | | s' m' e']; try contradiction.
    + exfalso. specialize (Hnz s'). congruence.
    + destruct s'; [contradiction |]. unfold F32.ceilf_to_int in *.
      rewrite to_int_checked_small by exact H.
      assert (0 < F32.Zceil_val false m' e'); [| lia].
      assert (0 < 2 ^ (e' + Z.max 0 (- e'))) by (apply Z.pow_pos_nonneg; lia).
      apply Zceil_val_gt with (k := Z.max 0 (- e')); lia.
  - assert (Hng : ~ (false = false /\ (-21 < e \/ e = -21 /\ 8388608 < Zpos m))).
    { intros H. apply gtb_four_finite in H. congruence. }
    pose proof (valid_finite_inv _ _ _ Hv) as [Hc _].
    pose proof (Zpos_size_bounds m) as Hsz.
    assert (e = -21) by lia. subst e.
    assert (Zpos (Pos.size m) = 24) by lia.
    replace (Zpos (Pos.size m)) with 24 in Hsz.
    change (2 ^ (24 - 1)) with 8388608 in Hsz.
    assert (m = 8388608%positive) by lia. subst m.
    vm_compute. discriminate.
Qed.

Lemma loop_positive fuel : forall M sigma scale a b,
  F32.valid sigma = true -> F32.gtb sigma F32.zero = true ->
  adjust_sigma_loop fuel M sigma scale = Some (a, b) ->
  F32.gtb a F32.zero = true.
Proof.
  induction fuel as [| fuel IH]; intros M sigma scale a b Hv Hp;
    rewrite loop_unfold; destruct (F32.gtb sigma MAX_BLUR_SIGMA) eqn:Hg;
    try discriminate; try (intros [= <- _]; exact Hp).
  destruct (imul scale 2 >? M).
  - rewrite loop_at_max. now intros [= <- _].
  - apply IH; [now apply mul_half_valid |].
    destruct (gtb_four_shape sigma Hg) as [-> | (m & e & ->)];
      [reflexivity |].
    now rewrite mul_half_exact.
Qed.

Lemma loop_valid fuel : forall M sigma scale a b,
  F32.valid sigma = true ->
  adjust_sigma_loop fuel M sigma scale = Some (a, b) ->
  F32.valid a = true.
Proof.
  induction fuel as [| fuel IH]; intros M sigma scale a b Hv;
    rewrite loop_unfold; destruct (F32.gtb sigma MAX_BLUR_SIGMA) eqn:Hg;
    try discriminate; try (intros [= <- _]; exact Hv).
  destruct (imul scale 2 >? M).
  - rewrite loop_at_max. now intros [= <- _].
  - apply IH. now apply mul_half_valid.
Qed.

(** X6: the radius of a plan. A positive sigma is planned with a radius
    between 1 and 12, so its kernel has between 3 and 25 taps; when the plan
    decimates, the radius is 7 at least. *)
Theorem adjust_sigma_radius_range {ext : Externals} fuel sigma maxTextureSize
    sigma' scaleFactor radius :
  0 < maxTextureSize < 2 ^ 30 ->
  F32.valid sigma = true -> F32.gtb sigma F32.zero = true ->
  adjust_sigma fuel sigma maxTextureSize
    = Returned (sigma', scaleFactor, radius) ->
  1 <= radius <= 12 /\ (1 < scaleFactor -> 7 <= radius).
Proof.
  intros HM Hv Hp H. apply adjust_sigma_inv in H. destruct H as (E & -> & _).
  pose proof (loop_valid _ _ _ _ _ _ Hv E) as Va.
  pose proof (loop_result_not_above _ _ _ _ _ _ E) as Ga.
  pose proof (loop_positive _ _ _ _ _ _ Hv Hp E) as Pa.
  split; [exact (sigma_radius_positive sigma' Va Pa Ga) |].
  intros Hs.
  assert (H2 : F32.gtb sigma' float_two = true).
  { apply (loop_above_two fuel maxTextureSize sigma 1 sigma' scaleFactor);
      [lia | lia | exact Hv | lia | exact E | exact Hs]. }
  apply (sigma_radius_above_two sigma' Va H2 Ga).
Qed.

(** ** Blurs with nothing to do *)

Lemma not_positive_not_above x :
  F32.gtb x F32.zero = false -> F32.gtb x MAX_BLUR_SIGMA = false.
Proof.
  destruct x as [s | s | | s m e]; try reflexivity; destruct s;
    try reflexivity; discriminate.
Qed.

Section NothingToBlur.

Context {ext : Externals}.

(** X13: a source whose blur config has no colour type is not blurred:
    [GaussianBlur] returns null before planning and asks the GPU layer
    nothing. Only the assertion of [get_blur_config], in a debug build on
    a config outside its list, comes before that. *)
Theorem GaussianBlur_no_color_type fuel context srcProxy colorSpace dstBounds
    srcBounds sigmaX sigmaY mode at_ fit :
  GrPixelConfigToColorType (blur_config (proxy_config srcProxy) colorSpace)
  = None ->
  sat (GaussianBlur fuel context srcProxy colorSpace dstBounds srcBounds
         sigmaX sigmaY mode at_ fit)
    (fun o l =>
       l = [] /\
       o = if SK_DEBUG
              && negb (blur_config_supported
                         (blur_config (proxy_config srcProxy) colorSpace))
           then AssertFailed else Returned None).
Proof.
  intros Hct. unfold GaussianBlur, get_blur_config.
  apply sat_bind, sat_bind.
  apply sat_SkASSERT; [intros Hp | intros Hd Hf].
  - cbv beta iota. apply sat_ret. cbv beta iota.
    rewrite Hct. apply sat_ret. split; [reflexivity |].
    destruct SK_DEBUG; [| reflexivity].
    cbn [negb orb] in Hp. now rewrite Hp.
  - split; [reflexivity |]. now rewrite Hd, Hf.
Qed.

(** X14: a blur in which neither sigma is positive (zero, negative or NaN)
    asks the GPU layer nothing: a build without assertions returns null,
    a debug build stops at an assertion. *)
Theorem GaussianBlur_nothing_to_blur fuel context srcProxy colorSpace
    dstBounds srcBounds sigmaX sigmaY mode at_ fit ct :
  GrPixelConfigToColorType (blur_config (proxy_config srcProxy) colorSpace)
  = Some ct ->
  F32.gtb sigmaX F32.zero = false -> F32.gtb sigmaY F32.zero = false ->
  sat (GaussianBlur fuel context srcProxy colorSpace dstBounds srcBounds
         sigmaX sigmaY mode at_ fit)
    (fun o l =>
       l = [] /\ o = if SK_DEBUG then AssertFailed else Returned None).
Proof.
  intros Hct Hx Hy.
  assert (Hplan : forall sigma,
            F32.gtb sigma F32.zero = false ->
            adjust_sigma fuel sigma (caps_maxTextureSize context)
            = if negb SK_DEBUG || (sigma_radius sigma <=? kMaxKernelRadius)
              then Returned (sigma, 1, sigma_radius sigma)
              else AssertFailed).
  { intros sigma H. unfold adjust_sigma.
    now rewrite loop_unfold, (not_positive_not_above sigma H). }
  unfold GaussianBlur, get_blur_config.
  apply sat_bind, sat_bind.
  apply sat_SkASSERT; [intros _ | intros Hd _; now rewrite Hd].
  cbv beta iota. apply sat_ret. cbv beta iota.
  rewrite Hct. cbv beta iota zeta.
  rewrite (Hplan sigmaX Hx), (Hplan sigmaY Hy).
  apply sat_bind.
  destruct (negb SK_DEBUG || (sigma_radius sigmaX <=? kMaxKernelRadius)) eqn:Ex.
  2:{ apply sat_lift. apply orb_false_iff in Ex. destruct Ex as [Ex _].
      apply negb_false_iff in Ex. now rewrite Ex. }
  apply sat_lift. cbv beta iota. apply sat_bind.
  destruct (negb SK_DEBUG || (sigma_radius sigmaY <=? kMaxKernelRadius)) eqn:Ey.
  2:{ apply sat_lift. apply orb_false_iff in Ey. destruct Ey as [Ey _].
      apply negb_false_iff in Ey. now rewrite Ey. }
  apply sat_lift. cbv beta iota. apply sat_bind.
  apply sat_SkASSERT; [intros _ | intros Hd _; now rewrite Hd].
  unfold blur_planned, use_2d_kernel, x_pass, y_pass.
  rewrite Hx, Hy. cbn [andb]. change ((1 >? 1) || (1 >? 1)) with false.
  cbv beta iota zeta.
  apply sat_bind, sat_ret. cbv beta iota.
  apply sat_bind, sat_ret. cbv beta iota.
  apply sat_bind, sat_ret. cbv beta iota.
  cbn [bv_dstRenderTargetContext].
  apply sat_bind.
  apply sat_SkASSERT; [intros Hp | intros Hd _; now rewrite Hd].
  rewrite orb_false_r in Hp. apply negb_true_iff in Hp.
  apply sat_bind.
  apply sat_SkASSERT; [intros _ | intros Hd _; now rewrite Hd].
  apply sat_ret. now rewrite Hp.
Qed.

End NothingToBlur.

Lemma width_offsetTo r x y : IRect.width (IRect.offsetTo r x y) = IRect.width r.
Proof. unfold IRect.width, IRect.offsetTo. cbn. lia. Qed.

Lemma height_offsetTo r x y :
  IRect.height (IRect.offsetTo r x y) = IRect.height r.
Proof. unfold IRect.height, IRect.offsetTo. cbn. lia. Qed.

(** ** The surface a blur returns *)

Lemma allocations_app l1 l2 :
  allocations (l1 ++ l2) = allocations l1 ++ allocations l2.
Proof. apply filter_app. Qed.

Section ResultSurface.

Context {ext : Externals}.

(** An allocation asked for an approximate fit. *)
Let approx (e : GpuEvent) : Prop := alloc_fit_of e = Some kApprox.

(** [l] allocates one surface, [r], with fit [f] and size [w] x [h]. *)
Let makes (f : SkBackingFit) (w h : Z) (r : GrRenderTargetContext)
    (l : list GpuEvent) : Prop :=
  allocations l = [alloc_event r] /\
  rtc_fit r = f /\ rtc_width r = w /\ rtc_height r = h.

Ltac makes_leaf :=
  solve [ intros ? [=]
        | intros ? [= <-]; repeat split; reflexivity ].

Lemma convolve_gaussian_2d_makes proxy srcBounds srcOffset radiusX radiusY
    sigmaX sigmaY mode dstII dstFit :
  sat (convolve_gaussian_2d proxy srcBounds srcOffset radiusX radiusY sigmaX
         sigmaY mode dstII dstFit)
    (fun o l =>
       forall r, o = Returned (Some r) ->
                 makes dstFit (ii_width dstII) (ii_height dstII) r l).
Proof. unfold convolve_gaussian_2d. wp; makes_leaf. Qed.

Lemma convolve_gaussian_makes proxy srcRect srcOffset direction radius sigma
    srcBounds mode dstII fit :
  sat (convolve_gaussian proxy srcRect srcOffset direction radius sigma
         srcBounds mode dstII fit)
    (fun o l =>
       forall r, o = Returned (Some r) ->
                 makes fit (IRect.width srcRect) (IRect.height srcRect) r l).
Proof.
  unfold convolve_gaussian, clear_unless_empty, convolve_gaussian_1d.
  wp; makes_leaf.
Qed.

Lemma reexpand_makes src localSrcBounds scaleFactorX scaleFactorY mode dstII
    fit :
  sat (reexpand src localSrcBounds scaleFactorX scaleFactorY mode dstII fit)
    (fun o l =>
       forall r, o = Returned (Some r) ->
                 makes fit (ii_width dstII) (ii_height dstII) r l).
Proof. unfold reexpand. wp; makes_leaf. Qed.

Let approx_or_none (e : GpuEvent) : Prop :=
  is_alloc e = false \/ approx e.

Ltac approx_leaf := solve [left; reflexivity | right; reflexivity].
Ltac approx_quiet :=
  first [ apply shrink_irect_by_2_quiet | apply get_blur_config_quiet ].

Lemma decimate_loop_allocates_approx fuel : forall contentRect scaleFactorX
    scaleFactorY mode config dstII i vars,
  sat (decimate_loop fuel contentRect scaleFactorX scaleFactorY mode config
         dstII i vars)
    (fun _ l => Forall approx_or_none l).
Proof.
  induction fuel as [| fuel IH]; intros; cbn [decimate_loop];
    all_events approx_leaf ltac:(first [approx_quiet | apply IH]).
Qed.

Lemma allocations_approx l :
  Forall approx_or_none l -> Forall approx (allocations l).
Proof.
  induction 1 as [| e l He _ IH]; [constructor |].
  unfold allocations in *. cbn [filter].
  destruct (is_alloc e) eqn:E; [| exact IH].
  constructor; [| exact IH]. destruct He as [He | He]; [congruence | exact He].
Qed.

Lemma decimate_allocates_approx fuel src srcOffset contentRect scaleFactorX
    scaleFactorY willBeXFiltering willBeYFiltering radiusX radiusY mode dstII :
  sat (decimate fuel src srcOffset contentRect scaleFactorX scaleFactorY
         willBeXFiltering willBeYFiltering radiusX radiusY mode dstII)
    (fun _ l => Forall approx (allocations l)).
Proof.
  eapply sat_conseq with (Q := fun _ l => Forall approx_or_none l).
  - unfold decimate.
    all_events approx_leaf
      ltac:(first [approx_quiet | apply decimate_loop_allocates_approx]).
  - intros _ l. apply allocations_approx.
Qed.

(** What a pass leaves: the variables untouched and nothing asked when the
    sigma is not positive; one surface otherwise. *)
Let pass_post (sigma : float) (f : SkBackingFit) (vars : BlurVars)
    (o : outcome (option BlurVars)) (l : list GpuEvent) : Prop :=
  forall vars', o = Returned (Some vars') ->
    if F32.gtb sigma F32.zero then
      exists dst,
        bv_dstRenderTargetContext vars' = Some dst /\
        makes f (IRect.width (bv_srcRect vars))
          (IRect.height (bv_srcRect vars)) dst l /\
        bv_srcRect vars' = IRect.offsetTo (bv_srcRect vars) 0 0
    else vars' = vars /\ l = [].

Lemma x_pass_makes sigmaX sigmaY radiusX radiusY mode finalDestII xFit vars :
  sat (x_pass sigmaX sigmaY radiusX radiusY mode finalDestII xFit vars)
    (pass_post sigmaX xFit vars).
Proof.
  unfold x_pass, pass_post. destruct (F32.gtb sigmaX F32.zero).
  2:{ apply sat_ret. now intros ? [= <-]. }
  apply sat_bind. eapply sat_conseq; [apply convolve_gaussian_makes |].
  cbv beta. intros o l H.
  destruct o as [[dst |] | | |]; try solve [wp; intros ? [=]];
    try solve [intros ? [=]].
  destruct (H dst eq_refl) as (Ha & Hf & Hw & Hh).
  wp; try solve [intros ? [=]];
    intros ? [= <-]; exists dst; cbn [bv_dstRenderTargetContext bv_srcRect];
    (split; [reflexivity |]); (split; [| reflexivity]); unfold makes;
    rewrite !allocations_app, Ha; repeat split; assumption.
Qed.

Lemma y_pass_makes sigmaY radiusY mode finalDestII yFit vars :
  sat (y_pass sigmaY radiusY mode finalDestII yFit vars)
    (pass_post sigmaY yFit vars).
Proof.
  unfold y_pass, pass_post. destruct (F32.gtb sigmaY F32.zero).
  2:{ apply sat_ret. now intros ? [= <-]. }
  apply sat_bind. eapply sat_conseq; [apply convolve_gaussian_makes |].
  cbv beta. intros o l H.
  destruct o as [[dst |] | | |]; try solve [wp; intros ? [=]];
    try solve [intros ? [=]].
  destruct (H dst eq_refl) as (Ha & Hf & Hw & Hh).
  wp; try solve [intros ? [=]];
    intros ? [= <-]; exists dst; cbn [bv_dstRenderTargetContext bv_srcRect];
    (split; [reflexivity |]); (split; [| reflexivity]); unfold makes;
    rewrite !allocations_app, Ha; repeat split; assumption.
Qed.

(** The surface a planned blur returns: the last one allocated, with the
    fit asked for, after approximate-fit ones; its size is the size of the
    destination on the 2-D and the decimated paths, and the size of the
    pass rectangle otherwise. *)
Lemma blur_planned_surface fuel srcProxy srcBounds srcOffset mode finalDestII
    fit sigmaX scaleFactorX radiusX sigmaY scaleFactorY radiusY :
  sat (blur_planned fuel srcProxy srcBounds srcOffset mode finalDestII fit
         sigmaX scaleFactorX radiusX sigmaY scaleFactorY radiusY)
    (fun o l =>
       forall r, o = Returned (Some r) ->
         rtc_fit r = fit /\
         (exists earlier,
            allocations l = earlier ++ [alloc_event r] /\
            Forall approx earlier) /\
         let passRect :=
           scale_irect_roundout (ii_bounds finalDestII)
             (inv_scale scaleFactorX) (inv_scale scaleFactorY) in
         (rtc_width r, rtc_height r)
         = if use_2d_kernel sigmaX sigmaY radiusX radiusY
              || ((scaleFactorX >? 1) || (scaleFactorY >? 1))
           then (ii_width finalDestII, ii_height finalDestII)
           else (IRect.width passRect, IRect.height passRect)).
Proof.
  unfold blur_planned.
  destruct (use_2d_kernel sigmaX sigmaY radiusX radiusY) eqn:E2d.
  { cbn [orb]. apply sat_bind.
    apply sat_SkASSERT; [intros _ | intros _ _ ? [=]].
    eapply sat_conseq; [apply convolve_gaussian_2d_makes |].
    cbv beta. intros o l H r ->. destruct (H r eq_refl) as (Ha & Hf & Hw & Hh).
    split; [exact Hf |]. split; [| now rewrite Hw, Hh].
    exists []. cbn [app]. split; [exact Ha | constructor]. }
  cbn [orb]. cbv zeta.
  set (scaled := (scaleFactorX >? 1) || (scaleFactorY >? 1)).
  set (passRect := scale_irect_roundout (ii_bounds finalDestII)
                     (inv_scale scaleFactorX) (inv_scale scaleFactorY)).
  apply sat_bind.
  eapply sat_conseq with
    (Q := fun o l => Forall approx (allocations l) /\
                     (scaled = false -> l = [])).
  { destruct scaled.
    - eapply sat_conseq; [apply decimate_allocates_approx |].
      cbv beta. intros o l H. split; [exact H | discriminate].
    - apply sat_ret. split; [constructor | reflexivity]. }
  cbv beta. intros o0 l0 [Hl0 Hn0].
  destruct o0 as [[[[p |] off] lsb] | | |]; try solve [intros ? [=]];
    [| wp; intros ? [=]].
  cbv beta iota. apply sat_bind.
  eapply sat_conseq; [apply x_pass_makes |].
  unfold pass_post. cbv beta. intros o1 l1 H1.
  destruct o1 as [[vars1 |] | | |]; try solve [intros ? [=]];
    [| wp; intros ? [=]].
  specialize (H1 vars1 eq_refl). cbn [bv_srcRect] in H1.
  cbv beta iota. apply sat_bind.
  eapply sat_conseq; [apply y_pass_makes |].
  unfold pass_post. cbv beta. intros o2 l2 H2.
  destruct o2 as [[vars2 |] | | |]; try solve [intros ? [=]];
    [| wp; intros ? [=]].
  specialize (H2 vars2 eq_refl).
  (* the surfaces the two passes made were asked for with an approximate
     fit, unless the pass is the last thing the blur does *)
  assert (Hrect1 : IRect.width (bv_srcRect vars1) = IRect.width passRect /\
                   IRect.height (bv_srcRect vars1) = IRect.height passRect).
  { destruct (F32.gtb sigmaX F32.zero).
    - destruct H1 as (d & _ & _ & ->).
      now rewrite width_offsetTo, height_offsetTo.
    - destruct H1 as [-> _]. now split. }
  destruct Hrect1 as [Hw1 Hh1].
  cbv beta iota. apply sat_bind.
  apply sat_SkASSERT; [intros _ | intros _ _ ? [=]].
  apply sat_bind.
  apply sat_SkASSERT; [intros _ | intros _ _ ? [=]].
  destruct scaled eqn:Es.
  - (* re-expansion is last *)
    destruct (bv_dstRenderTargetContext vars2) as [dst2 |];
      [| apply sat_lift; intros ? [=]].
    eapply sat_conseq; [apply reexpand_makes |].
    cbv beta. intros o3 l3 H3 r ->.
    destruct (H3 r eq_refl) as (Ha & Hf & Hw & Hh).
    split; [exact Hf |]. split; [| now rewrite Hw, Hh].
    exists (allocations l0 ++ allocations l1 ++ allocations l2).
    split.
    { rewrite !allocations_app. cbn [allocations filter app].
      rewrite Ha, !app_assoc, ?app_nil_r. reflexivity. }
    apply Forall_app. split; [exact Hl0 |]. apply Forall_app. split.
    + destruct (F32.gtb sigmaX F32.zero).
      * destruct H1 as (d & _ & (Ha1 & Hf1 & _) & _). rewrite Ha1.
        constructor; [| constructor]. unfold approx, alloc_event.
        cbn [alloc_fit_of]. now rewrite Hf1.
      * destruct H1 as [_ ->]. constructor.
    + destruct (F32.gtb sigmaY F32.zero).
      * destruct H2 as (d & _ & (Ha2 & Hf2 & _) & _). rewrite Ha2.
        constructor; [| constructor]. unfold approx, alloc_event.
        cbn [alloc_fit_of]. now rewrite Hf2.
      * destruct H2 as [_ ->]. constructor.
  - (* the last pass is last *)
    rewrite (Hn0 eq_refl).
    apply sat_ret. intros r Hr. injection Hr as Hr.
    destruct (F32.gtb sigmaY F32.zero) eqn:Ey.
    + destruct H2 as (d & Hd & (Ha2 & Hf2 & Hw2 & Hh2) & _).
      rewrite Hd in Hr. injection Hr as <-.
      split; [exact Hf2 |]. split; [| now rewrite Hw2, Hh2, Hw1, Hh1].
      exists (allocations l1). split.
      { rewrite !allocations_app. cbn [allocations filter app].
        now rewrite Ha2, ?app_nil_r. }
      destruct (F32.gtb sigmaX F32.zero).
      * destruct H1 as (d1 & _ & (Ha1 & Hf1 & _) & _). rewrite Ha1.
        constructor; [| constructor]. unfold approx, alloc_event.
        cbn [alloc_fit_of]. now rewrite Hf1.
      * destruct H1 as [_ ->]. constructor.
    + destruct H2 as [-> ->].
      destruct (F32.gtb sigmaX F32.zero) eqn:Ex.
      * destruct H1 as (d1 & Hd & (Ha1 & Hf1 & Hw1' & Hh1') & _).
        rewrite Hd in Hr. injection Hr as <-.
        split; [exact Hf1 |]. split; [| now rewrite Hw1', Hh1'].
        exists []. split; [| constructor].
        rewrite !allocations_app. cbn [allocations filter app].
        now rewrite Ha1, ?app_nil_r.
      * destruct H1 as [-> _]. discriminate Hr.
Qed.

End ResultSurface.

(** X15: "only the last rendered render target context needs to match the
    supplied fit". The surface a blur returns was asked for with the fit
    of the call and is the last surface the blur allocated; every surface
    allocated before it was asked for with an approximate fit. *)
Theorem GaussianBlur_backing_fit {ext : Externals} fuel context srcProxy
    colorSpace dstBounds srcBounds sigmaX sigmaY mode at_ fit :
  sat (GaussianBlur fuel context srcProxy colorSpace dstBounds srcBounds
         sigmaX sigmaY mode at_ fit)
    (fun o l =>
       forall r, o = Returned (Some r) ->
         rtc_fit r = fit /\
         exists earlier,
           allocations l = earlier ++ [alloc_event r] /\
           Forall (fun e => alloc_fit_of e = Some kApprox) earlier).
Proof.
  unfold GaussianBlur. wp; try solve [intros ? [=]].
  eapply sat_conseq; [apply blur_planned_surface |].
  cbv beta. intros o l H r ->. destruct (H r eq_refl) as (Hf & He & _).
  split; [exact Hf |]. cbn [app]. exact He.
Qed.

(** X16: on a device whose texture limit is below 2^30, the surface a blur
    returns has the width and the height of [dstBounds], when these are
    below 2^24 in magnitude. *)
Theorem GaussianBlur_result_size {ext : Externals} fuel context srcProxy
    colorSpace dstBounds srcBounds sigmaX sigmaY mode at_ fit :
  0 < caps_maxTextureSize context < 2 ^ 30 ->
  float_exact (IRect.width dstBounds) ->
  float_exact (IRect.height dstBounds) ->
  sat (GaussianBlur fuel context srcProxy colorSpace dstBounds srcBounds
         sigmaX sigmaY mode at_ fit)
    (fun o _ =>
       forall r, o = Returned (Some r) ->
         rtc_width r = IRect.width dstBounds /\
         rtc_height r = IRect.height dstBounds).
Proof.
  intros HM Hw Hh.
  assert (Hplan : forall sigma e s r,
            adjust_sigma fuel sigma (caps_maxTextureSize context)
            = Returned (e, s, r) -> 1 <= s).
  { intros sigma e s r H. apply adjust_sigma_inv in H.
    destruct H as (E & _ & _).
    apply loop_scale_bounds in E; lia. }
  unfold GaussianBlur. wp; try solve [intros ? [=]].
  eapply sat_conseq; [apply blur_planned_surface |].
  cbv beta. intros o l H r ->. destruct (H r eq_refl) as (_ & _ & Hs).
  cbv zeta in Hs. cbn [ii_width ii_height] in Hs.
  match type of Hs with
  | _ = (if ?c then _ else _) => destruct c eqn:Ec
  end.
  - now injection Hs as -> ->.
  - apply orb_false_iff in Ec. destruct Ec as [_ Ec].
    apply orb_false_iff in Ec. destruct Ec as [Ex Ey].
    rewrite Z.gtb_ltb in Ex, Ey. apply Z.ltb_ge in Ex, Ey.
    match goal with
    | H1 : adjust_sigma _ sigmaX _ = Returned (_, ?sx, _),
      H2 : adjust_sigma _ sigmaY _ = Returned (_, ?sy, _) |- _ =>
        pose proof (Hplan _ _ _ _ H1); pose proof (Hplan _ _ _ _ H2);
        assert (sx = 2 ^ 0) by (change (2 ^ 0) with 1; lia);
        assert (sy = 2 ^ 0) by (change (2 ^ 0) with 1; lia); subst sx sy
    end.
    unfold float_exact in *.
    rewrite floor_ceil_roundout in Hs; [| | lia | lia].
    + unfold rounded_out, ii_bounds, IRect.MakeWH, IRect.width, IRect.height
        in Hs.
      cbn [fLeft fTop fRight fBottom ii_width ii_height] in Hs.
      change (2 ^ 0) with 1 in Hs. rewrite !Z.div_1_r in Hs.
      injection Hs as -> ->. unfold IRect.width, IRect.height. lia.
    + unfold rect_float_exact, float_exact, ii_bounds, IRect.MakeWH.
      cbn [fLeft fTop fRight fBottom ii_width ii_height].
      change (2 ^ 24) with 16777216. lia.
Qed.

(** ** The rectangles a convolution pass writes *)

Lemma contains_spec r x y :
  IRect_contains r x y = true <->
  fLeft r <= x < fRight r /\ fTop r <= y < fBottom r.
Proof.
  unfold IRect_contains.
  rewrite !andb_true_iff, !Z.leb_le, !Z.ltb_lt. lia.
Qed.

Lemma covered_cons r l x y :
  times_covered (r :: l) x y
  = ((if IRect_contains r x y then 1 else 0) + times_covered l x y)%nat.
Proof. unfold times_covered. cbn. now destruct (IRect_contains r x y). Qed.

(** Decides, in a context that orders the coordinates, whether a pixel is
    in a rectangle. *)
Ltac decide_contains :=
  repeat match goal with
  | |- context [IRect_contains ?r ?x ?y] =>
      let E := fresh "E" in
      destruct (IRect_contains r x y) eqn:E;
      [ apply contains_spec in E; cbn [fLeft fTop fRight fBottom] in E
      | apply not_true_iff_false in E; rewrite contains_spec in E;
        cbn [fLeft fTop fRight fBottom] in E ];
      try lia
  end.

Section PassCoverage.

Context {ext : Externals}.

Ltac rect_norm :=
  unfold IRect.MakeLTRB, IRect.MakeWH, IRect.inset, IRect.offset,
    IRect.width, IRect.height in *;
  cbn [fLeft fTop fRight fBottom] in *;
  rewrite ?Z.add_0_r, ?Z.sub_0_r in *.

Ltac empties :=
  repeat match goal with
  | H : negb _ = true |- _ => apply negb_true_iff in H
  | H : negb _ = false |- _ => apply negb_false_iff in H
  | H : IRect.isEmpty _ = true |- _ =>
      unfold IRect.isEmpty in H; apply orb_true_iff in H;
      rewrite !Z.leb_le in H
  | H : IRect.isEmpty _ = false |- _ =>
      unfold IRect.isEmpty in H; apply orb_false_iff in H;
      rewrite !Z.leb_gt in H
  end.

(** X17: a convolution pass writes every pixel of its destination exactly
    once: the rectangles it clears and the rectangles it draws tile the
    destination (0, 0, width, height), whatever the radius and wherever
    the source bounds lie, provided these are not inverted across the
    direction of the pass. *)
Theorem convolve_gaussian_covers_once proxy srcRect srcOffset direction
    radius sigma srcBounds mode dstII fit :
  (mode <> kIgnore_Mode ->
   match direction with
   | kX => fTop srcBounds <= fBottom srcBounds
   | kY => fLeft srcBounds <= fRight srcBounds
   end) ->
  sat (convolve_gaussian proxy srcRect srcOffset direction radius sigma
         srcBounds mode dstII fit)
    (fun o l =>
       forall dst, o = Returned (Some dst) ->
         exists writes rects,
           l = [Enter (Stage_convolve_gaussian direction); alloc_event dst]
               ++ writes /\
           Forall2 (writes_rect (rtc_id dst)) writes rects /\
           forall x y,
             0 <= x < IRect.width srcRect -> 0 <= y < IRect.height srcRect ->
             times_covered rects x y = 1%nat).
Proof.
  intros Hsorted.
  unfold convolve_gaussian, clear_unless_empty, convolve_gaussian_1d.
  wp; try solve [intros ? [=]]; intros ? [= <-];
    (eexists _, _; split; [cbn [app]; reflexivity |]);
    (split;
     [ repeat first
         [ apply Forall2_nil
         | apply Forall2_cons; [cbn [writes_rect]; split; reflexivity |] ]
     |]);
    intros x y Hx Hy;
    try (assert (Hm : mode <> kIgnore_Mode) by (intros ->; discriminate);
         specialize (Hsorted Hm); cbv iota in Hsorted);
    empties; rect_norm;
    rewrite !covered_cons; change (times_covered [] x y) with 0%nat;
    decide_contains; lia.
Qed.

End PassCoverage.

(** ** A build without assertions *)

Section ReleaseBuild.

Context {ext : Externals}.

Hypothesis release : SK_DEBUG = false.

(** Neither an assertion nor a null pointer stops the call. *)
Let safe {A} (o : outcome A) : Prop := o <> AssertFailed /\ o <> NullDeref.

Ltac safe_leaf :=
  solve [ split; discriminate
        | congruence
        | match goal with H : SK_DEBUG = true |- _ =>
            rewrite release in H; discriminate H end ].

(** An outcome that is not safe contradicts [H]. *)
Ltac unsafe H := solve [exfalso; destruct H as [? ?]; congruence].

Lemma convolve_gaussian_safe proxy srcRect srcOffset direction radius sigma
    srcBounds mode dstII fit :
  sat (convolve_gaussian proxy srcRect srcOffset direction radius sigma
         srcBounds mode dstII fit) (fun o _ => safe o).
Proof.
  unfold convolve_gaussian, get_blur_config, clear_unless_empty,
    convolve_gaussian_1d.
  wp_keep; safe_leaf.
Qed.

Lemma convolve_gaussian_2d_safe proxy srcBounds srcOffset radiusX radiusY
    sigmaX sigmaY mode dstII dstFit :
  sat (convolve_gaussian_2d proxy srcBounds srcOffset radiusX radiusY sigmaX
         sigmaY mode dstII dstFit) (fun o _ => safe o).
Proof. unfold convolve_gaussian_2d, get_blur_config. wp_keep; safe_leaf. Qed.

Lemma reexpand_safe src localSrcBounds scaleFactorX scaleFactorY mode dstII
    fit :
  sat (reexpand src localSrcBounds scaleFactorX scaleFactorY mode dstII fit)
    (fun o _ => safe o).
Proof. unfold reexpand, get_blur_config. wp_keep; safe_leaf. Qed.

(** The loop of [decimate] ends with a surface once it has made a round. *)
Lemma decimate_loop_safe fuel : forall contentRect scaleFactorX scaleFactorY
    mode config dstII i vars,
  sat (decimate_loop fuel contentRect scaleFactorX scaleFactorY mode config
         dstII i vars)
    (fun o _ =>
       safe o /\
       forall vars', o = Returned (LoopDone vars') ->
         dv_dstRenderTargetContext vars' = None ->
         dv_dstRenderTargetContext vars = None /\
         (i <? scaleFactorX) || (i <? scaleFactorY) = false).
Proof.
  induction fuel as [| fuel IH]; intros; cbn [decimate_loop].
  - destruct ((i <? scaleFactorX) || (i <? scaleFactorY)) eqn:Hc.
    + apply sat_lift. split; [safe_leaf | intros ? [=]].
    + apply sat_ret. split; [safe_leaf |]. intros ? [= <-] H. now split.
  - destruct ((i <? scaleFactorX) || (i <? scaleFactorY)) eqn:Hc.
    2:{ apply sat_ret. split; [safe_leaf |]. intros ? [= <-] H. now split. }
    unfold shrink_irect_by_2.
    wp_keep; try solve [split; [safe_leaf | intros ? [=]]]; try safe_leaf.
    all: eapply sat_conseq; [apply IH |]; cbv beta; intros o l [Hs Hd];
      (split; [exact Hs |]); intros v E Hv;
      destruct (Hd v E Hv) as [Hnone _]; discriminate Hnone.
Qed.

Lemma decimate_safe fuel src srcOffset contentRect scaleFactorX scaleFactorY
    willBeXFiltering willBeYFiltering radiusX radiusY mode dstII :
  (scaleFactorX >? 1) || (scaleFactorY >? 1) = true ->
  sat (decimate fuel src srcOffset contentRect scaleFactorX scaleFactorY
         willBeXFiltering willBeYFiltering radiusX radiusY mode dstII)
    (fun o _ => safe o).
Proof.
  intros Hs. unfold decimate, get_blur_config.
  wp_keep; try safe_leaf.
  eapply sat_conseq; [apply decimate_loop_safe |].
  cbv beta. intros o l [Hsafe Hd].
  destruct o as [[vars | off] | | |]; try unsafe Hsafe;
    [| wp; safe_leaf | safe_leaf].
  destruct (dv_dstRenderTargetContext vars) as [dst |] eqn:Edst.
  - wp_keep; safe_leaf.
  - exfalso. destruct (Hd vars eq_refl Edst) as [_ Hc].
    rewrite !Z.gtb_ltb in Hs. rewrite Hs in Hc. discriminate Hc.
Qed.

(** After a pass with a positive sigma there is a surface. *)
Let pass_safe (sigma : float) (vars : BlurVars)
    (o : outcome (option BlurVars)) : Prop :=
  safe o /\
  forall vars', o = Returned (Some vars') ->
    bv_dstRenderTargetContext vars' = None ->
    F32.gtb sigma F32.zero = false /\ bv_dstRenderTargetContext vars = None.

Lemma x_pass_safe sigmaX sigmaY radiusX radiusY mode finalDestII xFit vars :
  sat (x_pass sigmaX sigmaY radiusX radiusY mode finalDestII xFit vars)
    (fun o _ => pass_safe sigmaX vars o).
Proof.
  unfold x_pass, pass_safe. destruct (F32.gtb sigmaX F32.zero).
  2:{ apply sat_ret. split; [safe_leaf |]. intros ? [= <-] H. now split. }
  apply sat_bind. eapply sat_conseq; [apply convolve_gaussian_safe |].
  cbv beta. intros o l Hs.
  destruct o as [[dst |] | | |]; try unsafe Hs;
    wp; (split; [safe_leaf |]); intros ? [=]; subst; discriminate.
Qed.

Lemma y_pass_safe sigmaY radiusY mode finalDestII yFit vars :
  sat (y_pass sigmaY radiusY mode finalDestII yFit vars)
    (fun o _ => pass_safe sigmaY vars o).
Proof.
  unfold y_pass, pass_safe. destruct (F32.gtb sigmaY F32.zero).
  2:{ apply sat_ret. split; [safe_leaf |]. intros ? [= <-] H. now split. }
  apply sat_bind. eapply sat_conseq; [apply convolve_gaussian_safe |].
  cbv beta. intros o l Hs.
  destruct o as [[dst |] | | |]; try unsafe Hs;
    wp; (split; [safe_leaf |]); intros ? [=]; subst; discriminate.
Qed.

Lemma blur_planned_safe fuel srcProxy srcBounds srcOffset mode finalDestII
    fit sigmaX scaleFactorX radiusX sigmaY scaleFactorY radiusY :
  ((scaleFactorX >? 1) || (scaleFactorY >? 1) = true ->
   F32.gtb sigmaX F32.zero = true \/ F32.gtb sigmaY F32.zero = true) ->
  sat (blur_planned fuel srcProxy srcBounds srcOffset mode finalDestII fit
         sigmaX scaleFactorX radiusX sigmaY scaleFactorY radiusY)
    (fun o _ => safe o).
Proof.
  intros Hpos. unfold blur_planned.
  destruct (use_2d_kernel sigmaX sigmaY radiusX radiusY).
  { apply sat_bind. apply sat_SkASSERT; [intros _ | intros Hd _; safe_leaf].
    apply convolve_gaussian_2d_safe. }
  cbv zeta.
  destruct ((scaleFactorX >? 1) || (scaleFactorY >? 1)) eqn:Es.
  - specialize (Hpos eq_refl).
    apply sat_bind. eapply sat_conseq; [now apply decimate_safe |].
    cbv beta. intros o0 l0 H0.
    destruct o0 as [[[[p |] off] lsb] | | |]; try unsafe H0;
      [| wp; safe_leaf | safe_leaf].
    cbv beta iota. apply sat_bind.
    eapply sat_conseq; [apply x_pass_safe |].
    unfold pass_safe. cbv beta. intros o1 l1 [S1 H1].
    destruct o1 as [[vars1 |] | | |]; try unsafe S1;
      [| wp; safe_leaf | safe_leaf].
    cbv beta iota. apply sat_bind.
    eapply sat_conseq; [apply y_pass_safe |].
    unfold pass_safe. cbv beta. intros o2 l2 [S2 H2].
    destruct o2 as [[vars2 |] | | |]; try unsafe S2;
      [| wp; safe_leaf | safe_leaf].
    cbv beta iota.
    destruct (bv_dstRenderTargetContext vars2) as [dst |] eqn:E2.
    + wp_keep; try safe_leaf. apply reexpand_safe.
    + exfalso. destruct (H2 vars2 eq_refl E2) as [Hy E1].
      destruct (H1 vars1 eq_refl E1) as [Hx _].
      destruct Hpos; congruence.
  - apply sat_bind, sat_ret. cbv beta iota. apply sat_bind.
    eapply sat_conseq; [apply x_pass_safe |].
    unfold pass_safe. cbv beta. intros o1 l1 [S1 H1].
    destruct o1 as [[vars1 |] | | |]; try unsafe S1;
      [| wp; safe_leaf | safe_leaf].
    cbv beta iota. apply sat_bind.
    eapply sat_conseq; [apply y_pass_safe |].
    unfold pass_safe. cbv beta. intros o2 l2 [S2 H2].
    destruct o2 as [[vars2 |] | | |]; try unsafe S2;
      [| wp; safe_leaf | safe_leaf].
    cbv beta iota. wp_keep; safe_leaf.
Qed.

Lemma adjust_sigma_safe fuel sigma maxTextureSize :
  safe (adjust_sigma fuel sigma maxTextureSize).
Proof.
  unfold adjust_sigma.
  destruct (adjust_sigma_loop fuel maxTextureSize sigma 1) as [[a b] |];
    [| safe_leaf].
  rewrite release. cbn [negb orb]. safe_leaf.
Qed.

(** X18: a build without assertions always returns from a blur, with a
    surface or with null, on a device whose texture limit is below 2^30
    and for sigmas that are floats (NaN and the infinities included): no
    null pointer is dereferenced and both loops end. *)
Theorem GaussianBlur_release_returns fuel context srcProxy colorSpace
    dstBounds srcBounds sigmaX sigmaY mode at_ fit :
  0 < caps_maxTextureSize context < 2 ^ 30 -> (30 <= fuel)%nat ->
  F32.valid sigmaX = true -> F32.valid sigmaY = true ->
  sat (GaussianBlur fuel context srcProxy colorSpace dstBounds srcBounds
         sigmaX sigmaY mode at_ fit)
    (fun o _ => exists result, o = Returned result).
Proof.
  intros HM Hf Vx Vy.
  assert (Hplan : forall sigma e s r,
            F32.valid sigma = true ->
            adjust_sigma fuel sigma (caps_maxTextureSize context)
            = Returned (e, s, r) ->
            (s >? 1) = true -> F32.gtb e F32.zero = true).
  { intros sigma e s r V H Hs. apply adjust_sigma_inv in H.
    destruct H as (E & _ & _). rewrite Z.gtb_ltb in Hs. apply Z.ltb_lt in Hs.
    assert (H2 : F32.gtb e float_two = true).
    { apply (loop_above_two fuel (caps_maxTextureSize context) sigma 1 e s);
        [lia | lia | exact V | lia | exact E | exact Hs]. }
    destruct e as [sg | sg | | sg m ex]; try discriminate;
      destruct sg; try discriminate; reflexivity. }
  eapply sat_conseq.
  { apply sat_and.
    - apply (GaussianBlur_fuel fuel context srcProxy colorSpace dstBounds
               srcBounds sigmaX sigmaY mode at_ fit HM Hf).
    - unfold GaussianBlur, get_blur_config.
      instantiate (1 := fun o _ => safe o).
      wp_keep; try safe_leaf;
        try (match goal with
             | H : adjust_sigma _ ?sg _ = _ |- _ =>
                 pose proof (adjust_sigma_safe fuel sg
                               (caps_maxTextureSize context)) as Hs;
                 rewrite H in Hs; unsafe Hs
             end).
      apply blur_planned_safe. intros Hs. apply orb_true_iff in Hs.
      destruct Hs as [Hs | Hs]; [left | right].
      * match goal with
        | H : adjust_sigma _ sigmaX _ = _ |- _ =>
            exact (Hplan _ _ _ _ Vx H Hs)
        end.
      * match goal with
        | H : adjust_sigma _ sigmaY _ = _ |- _ =>
            exact (Hplan _ _ _ _ Vy H Hs)
        end. }
  cbv beta. intros o _ [Hnf [Ha Hn]].
  destruct o as [r | | |]; try congruence. now exists r.
Qed.

End ReleaseBuild.

(** ** A blur that meets its assertions *)

Lemma ceil_pow2_le w k : 0 <= w -> 0 <= k -> - ((- w) / 2 ^ k) <= w.
Proof.
  intros Hw Hk. assert (P : 0 < 2 ^ k) by (apply Z.pow_pos_nonneg; lia).
  assert (- w <= (- w) / 2 ^ k); [| lia].
  apply Z.div_le_lower_bound; [exact P |]. nia.
Qed.

Section Returns.

Context {ext : Externals}.

(** The colour space of the blur and the config it chose. *)
Variables (cs : option SkColorSpace) (chosen : GrPixelConfig).

Hypothesis chosen_fixed : blur_config chosen cs = chosen.
Hypothesis chosen_supported : blur_config_supported chosen = true.

Let good (p : GrTextureProxy) : Prop :=
  blur_config (proxy_config p) cs = chosen.

(** The call returns, and the surface it returns has the chosen config. *)
Let returns_surface (o : outcome (option GrRenderTargetContext)) : Prop :=
  exists r, o = Returned r /\
            forall dst, r = Some dst -> rtc_config dst = chosen.

Lemma get_blur_config_good proxy :
  good proxy ->
  sat (get_blur_config proxy cs) (fun o l => l = [] /\ o = Returned chosen).
Proof.
  intros Hg. unfold good in Hg.
  eapply sat_conseq; [apply get_blur_config_supported |].
  - rewrite Hg. exact chosen_supported.
  - cbv beta. intros o l [-> ->]. now rewrite Hg.
Qed.

Ltac returns_leaf :=
  solve [ eexists; split; [reflexivity |]; intros ? [= <-] || intros ? [=];
          reflexivity ].

Lemma convolve_gaussian_2d_returns proxy srcBounds srcOffset radiusX radiusY
    sigmaX sigmaY mode dstII dstFit :
  good proxy -> ii_colorSpace dstII = cs ->
  sat (convolve_gaussian_2d proxy srcBounds srcOffset radiusX radiusY sigmaX
         sigmaY mode dstII dstFit) (fun o _ => returns_surface o).
Proof.
  intros Hg Hcs. unfold convolve_gaussian_2d. rewrite Hcs.
  apply sat_bind, sat_emit. apply sat_bind.
  eapply sat_conseq; [now apply get_blur_config_good |].
  cbv beta. intros ? ? [-> ->]. wp; returns_leaf.
Qed.

Lemma convolve_gaussian_returns proxy srcRect srcOffset direction radius sigma
    srcBounds mode dstII fit :
  good proxy -> ii_colorSpace dstII = cs ->
  IRect.width srcRect <= ii_width dstII ->
  IRect.height srcRect <= ii_height dstII ->
  sat (convolve_gaussian proxy srcRect srcOffset direction radius sigma
         srcBounds mode dstII fit) (fun o _ => returns_surface o).
Proof.
  intros Hg Hcs Hw Hh.
  unfold convolve_gaussian, clear_unless_empty, convolve_gaussian_1d.
  rewrite Hcs. apply sat_bind, sat_emit. apply sat_bind.
  apply sat_SkASSERT; [intros _ | intros _ Hf].
  2:{ exfalso. apply andb_false_iff in Hf.
      destruct Hf as [Hf | Hf]; apply Z.leb_gt in Hf; lia. }
  apply sat_bind.
  eapply sat_conseq; [now apply get_blur_config_good |].
  cbv beta. intros ? ? [-> ->]. wp; returns_leaf.
Qed.

Lemma reexpand_returns src localSrcBounds scaleFactorX scaleFactorY mode dstII
    fit :
  rtc_config src = chosen -> ii_colorSpace dstII = cs ->
  sat (reexpand src localSrcBounds scaleFactorX scaleFactorY mode dstII fit)
    (fun o _ => returns_surface o).
Proof.
  intros Hc Hcs. unfold reexpand. rewrite Hcs.
  apply sat_bind, sat_emit. apply sat_bind; [unfold absClear; apply sat_emit].
  apply sat_bind; [unfold absClear; apply sat_emit].
  apply sat_bind. apply sat_asTextureProxyRef; [| apply sat_ret; returns_leaf].
  cbv beta iota. apply sat_bind.
  eapply sat_conseq.
  { apply get_blur_config_good. unfold good. cbn [proxy_config].
    now rewrite Hc. }
  cbv beta. intros ? ? [-> ->]. wp; returns_leaf.
Qed.

Lemma decimate_returns_good fuel src srcOffset contentRect kx ky
    willBeXFiltering willBeYFiltering radiusX radiusY mode dstII :
  0 <= kx <= 30 -> 0 <= ky <= 30 -> 0 < kx \/ 0 < ky -> (30 <= fuel)%nat ->
  good src -> ii_colorSpace dstII = cs ->
  sat (decimate fuel src srcOffset contentRect (2 ^ kx) (2 ^ ky)
         willBeXFiltering willBeYFiltering radiusX radiusY mode dstII)
    (fun o _ =>
       exists r, o = Returned r /\
                 forall p off c, r = (Some p, off, c) -> good p).
Proof.
  intros Hx Hy Hd Hf Hg Hcs.
  assert (Hsup : blur_config_supported
                   (blur_config (proxy_config src) (ii_colorSpace dstII))
                 = true).
  { rewrite Hcs. unfold good in Hg. rewrite Hg. exact chosen_supported. }
  destruct (scale_irect_aligned
              (scale_irect_roundout
                 (if GrTextureDomain.eqb kIgnore_Mode mode then ii_bounds dstII
                  else IRect.offset contentRect (fX srcOffset) (fY srcOffset))
                 (inv_scale (2 ^ kx)) (inv_scale (2 ^ ky))) kx ky Hx Hy)
    as [Q HQ].
  eapply sat_conseq.
  { apply sat_and; [apply sat_and |].
    - apply (decimate_spec fuel src srcOffset contentRect kx ky
               willBeXFiltering willBeYFiltering radiusX radiusY mode dstII
               Hx Hy Hd Hsup Q HQ).
    - apply (decimate_fuel fuel src srcOffset contentRect (2 ^ kx) (2 ^ ky)
               willBeXFiltering willBeYFiltering radiusX radiusY mode dstII);
        [apply Z.pow_le_mono_r; lia | apply Z.pow_le_mono_r; lia | exact Hf].
    - apply (decimate_config chosen cs fuel src srcOffset contentRect
               (2 ^ kx) (2 ^ ky) willBeXFiltering willBeYFiltering radiusX
               radiusY mode dstII); [| exact Hcs].
      unfold good in Hg. now rewrite Hg, chosen_fixed. }
  cbv beta. intros o l [[[E | (P1 & P2 & _)] Hnf] [_ Hc]]; [contradiction |].
  destruct o as [r | | |]; try contradiction. exists r.
  split; [reflexivity |]. intros p off c ->.
  unfold good. rewrite (Hc p off c eq_refl). exact chosen_fixed.
Qed.

(** The size of the destination, and the variables of a blur that fit
    it. *)
Variables (finalDestII : SkImageInfo).
Hypothesis colorSpace_fixed : ii_colorSpace finalDestII = cs.

Let vars_fit (vars : BlurVars) : Prop :=
  good (bv_srcProxy vars) /\
  IRect.width (bv_srcRect vars) <= ii_width finalDestII /\
  IRect.height (bv_srcRect vars) <= ii_height finalDestII /\
  forall dst, bv_dstRenderTargetContext vars = Some dst ->
              rtc_config dst = chosen /\
              proxy_id (bv_srcProxy vars) = rtc_id dst.

(** A pass returns; the variables it leaves fit, and hold a surface when
    the pass had a positive sigma. *)
Let pass_returns (sigma : float) (o : outcome (option BlurVars)) : Prop :=
  exists r, o = Returned r /\
            forall vars', r = Some vars' ->
              vars_fit vars' /\
              (F32.gtb sigma F32.zero = true ->
               bv_dstRenderTargetContext vars' <> None).

Lemma x_pass_returns sigmaX sigmaY radiusX radiusY mode xFit vars :
  vars_fit vars ->
  sat (x_pass sigmaX sigmaY radiusX radiusY mode finalDestII xFit vars)
    (fun o _ => pass_returns sigmaX o).
Proof.
  intros (Hg & Hw & Hh & Hd). unfold x_pass, pass_returns.
  destruct (F32.gtb sigmaX F32.zero).
  2:{ apply sat_ret. eexists. split; [reflexivity |].
      intros ? [= <-]. split; [| discriminate].
      exact (conj Hg (conj Hw (conj Hh Hd))). }
  apply sat_bind.
  eapply sat_conseq; [now apply convolve_gaussian_returns |].
  cbv beta. intros o l (r & -> & Hr).
  destruct r as [dst |];
    [| apply sat_ret; eexists; split; [reflexivity | intros ? [=]]].
  specialize (Hr dst eq_refl).
  wp; (eexists; split; [reflexivity |]); try solve [intros ? [=]];
    intros ? [= <-]; (split; [| discriminate]);
    unfold vars_fit, good;
    cbn [bv_srcProxy bv_srcRect bv_dstRenderTargetContext proxy_config
         proxy_id];
    rewrite width_offsetTo, height_offsetTo, Hr;
    (split; [exact chosen_fixed |]); (split; [exact Hw |]);
    (split; [exact Hh |]); intros ? [= <-]; auto.
Qed.

Lemma y_pass_returns sigmaY radiusY mode yFit vars :
  vars_fit vars ->
  (bv_dstRenderTargetContext vars <> None \/ F32.gtb sigmaY F32.zero = true) ->
  sat (y_pass sigmaY radiusY mode finalDestII yFit vars)
    (fun o _ =>
       exists r, o = Returned r /\
                 forall vars', r = Some vars' ->
                   vars_fit vars' /\
                   bv_dstRenderTargetContext vars' <> None).
Proof.
  intros (Hg & Hw & Hh & Hd) Hsome. unfold y_pass.
  destruct (F32.gtb sigmaY F32.zero).
  2:{ apply sat_ret. eexists. split; [reflexivity |].
      intros ? [= <-]. split; [exact (conj Hg (conj Hw (conj Hh Hd))) |].
      destruct Hsome as [H | H]; [exact H | discriminate H]. }
  apply sat_bind.
  eapply sat_conseq; [now apply convolve_gaussian_returns |].
  cbv beta. intros o l (r & -> & Hr).
  destruct r as [dst |];
    [| apply sat_ret; eexists; split; [reflexivity | intros ? [=]]].
  specialize (Hr dst eq_refl).
  wp; (eexists; split; [reflexivity |]); try solve [intros ? [=]];
    intros ? [= <-]; (split; [| discriminate]);
    unfold vars_fit, good;
    cbn [bv_srcProxy bv_srcRect bv_dstRenderTargetContext proxy_config
         proxy_id];
    rewrite width_offsetTo, height_offsetTo, Hr;
    (split; [exact chosen_fixed |]); (split; [exact Hw |]);
    (split; [exact Hh |]); intros ? [= <-]; auto.
Qed.

Lemma pass_rect_fits kx ky :
  0 <= kx <= 30 -> 0 <= ky <= 30 ->
  0 <= ii_width finalDestII < 2 ^ 24 -> 0 <= ii_height finalDestII < 2 ^ 24 ->
  let passRect :=
    scale_irect_roundout (ii_bounds finalDestII) (inv_scale (2 ^ kx))
      (inv_scale (2 ^ ky)) in
  IRect.width passRect <= ii_width finalDestII /\
  IRect.height passRect <= ii_height finalDestII.
Proof.
  intros Hx Hy Hw Hh. cbv zeta. rewrite floor_ceil_roundout; try assumption.
  - unfold rounded_out, ii_bounds, IRect.MakeWH, IRect.width, IRect.height.
    cbn [fLeft fTop fRight fBottom]. rewrite !Z.div_0_l, !Z.sub_0_r.
    + split; apply ceil_pow2_le; lia.
    + assert (0 < 2 ^ ky) by (apply Z.pow_pos_nonneg; lia). lia.
    + assert (0 < 2 ^ kx) by (apply Z.pow_pos_nonneg; lia). lia.
  - unfold rect_float_exact, float_exact, ii_bounds, IRect.MakeWH.
    cbn [fLeft fTop fRight fBottom]. change (2 ^ 24) with 16777216 in *. lia.
Qed.

Lemma blur_planned_returns fuel srcProxy srcBounds srcOffset mode fit
    sigmaX kx radiusX sigmaY ky radiusY :
  0 <= kx <= 30 -> 0 <= ky <= 30 -> (30 <= fuel)%nat ->
  (use_2d_kernel sigmaX sigmaY radiusX radiusY = true -> kx = 0 /\ ky = 0) ->
  F32.gtb sigmaX F32.zero = true \/ F32.gtb sigmaY F32.zero = true ->
  0 <= ii_width finalDestII < 2 ^ 24 -> 0 <= ii_height finalDestII < 2 ^ 24 ->
  good srcProxy ->
  sat (blur_planned fuel srcProxy srcBounds srcOffset mode finalDestII fit
         sigmaX (2 ^ kx) radiusX sigmaY (2 ^ ky) radiusY)
    (fun o _ => returns_surface o).
Proof.
  intros Hx Hy Hf Hfused Hpos Hw Hh Hg. unfold blur_planned.
  destruct (use_2d_kernel sigmaX sigmaY radiusX radiusY).
  { destruct (Hfused eq_refl) as [-> ->]. apply sat_bind.
    apply sat_SkASSERT; [intros _ | intros _ Hfail; discriminate Hfail].
    now apply convolve_gaussian_2d_returns. }
  cbv zeta.
  destruct (pass_rect_fits kx ky Hx Hy Hw Hh) as [Hpw Hph].
  set (passRect := scale_irect_roundout (ii_bounds finalDestII)
                     (inv_scale (2 ^ kx)) (inv_scale (2 ^ ky))) in *.
  assert (Hnull : returns_surface (Returned None)).
  { eexists. split; [reflexivity | intros ? [=]]. }
  apply sat_bind.
  eapply sat_conseq with
    (Q := fun o _ =>
            exists r, o = Returned r /\
                      forall p off c, r = (Some p, off, c) -> good p).
  { destruct ((2 ^ kx >? 1) || (2 ^ ky >? 1)) eqn:Es.
    - apply decimate_returns_good; try assumption.
      apply orb_true_iff in Es. change 1 with (2 ^ 0) in Es.
      rewrite !Z.gtb_ltb, !pow2_lt_iff in Es by lia.
      destruct Es as [Es | Es]; apply Z.ltb_lt in Es; lia.
    - apply sat_ret. eexists. split; [reflexivity |].
      now intros ? ? ? [= <- _ _]. }
  cbv beta. intros o0 l0 (r0 & -> & H0).
  destruct r0 as [[[p |] off] lsb]; [| now apply sat_ret].
  specialize (H0 p off lsb eq_refl). cbv beta iota.
  apply sat_bind.
  eapply sat_conseq.
  { apply x_pass_returns. unfold vars_fit.
    cbn [bv_srcProxy bv_srcRect bv_dstRenderTargetContext].
    split; [exact H0 |]. split; [exact Hpw |]. split; [exact Hph |].
    intros ? [=]. }
  unfold pass_returns. cbv beta. intros o1 l1 (r1 & -> & H1).
  destruct r1 as [vars1 |]; [| now apply sat_ret].
  destruct (H1 vars1 eq_refl) as [Hfit1 Hdst1]. cbv beta iota.
  apply sat_bind.
  eapply sat_conseq.
  { apply y_pass_returns; [exact Hfit1 |].
    destruct Hpos as [Hp | Hp]; [left; now apply Hdst1 | now right]. }
  cbv beta. intros o2 l2 (r2 & -> & H2).
  destruct r2 as [vars2 |]; [| now apply sat_ret].
  destruct (H2 vars2 eq_refl) as [(Hg2 & _ & _ & Hd2) Hdst2]. cbv beta iota.
  destruct (bv_dstRenderTargetContext vars2) as [dst |] eqn:Edst;
    [| now destruct Hdst2].
  destruct (Hd2 dst eq_refl) as [Hc Hid].
  apply sat_bind.
  apply sat_SkASSERT; [intros _ | intros _ Hfail; discriminate Hfail].
  apply sat_bind.
  apply sat_SkASSERT; [intros _ | intros _ Hfail].
  2:{ rewrite Hid, Nat.eqb_refl in Hfail. discriminate Hfail. }
  destruct ((2 ^ kx >? 1) || (2 ^ ky >? 1)).
  - now apply reexpand_returns.
  - apply sat_ret. eexists. split; [reflexivity |]. now intros ? [= <-].
Qed.

End Returns.

(** X19: a blur meets every assertion of the file and returns, in a debug
    build as in any other, when: the texture limit is a power of two
    below 2^30, the sigmas are non-negative floats and one of them is
    positive, the blur config of the source is among the supported ones,
    the destination is at most 2^24 - 1 wide and high, the maximal kernel
    radius is 12 or more and the threshold of the 2-D kernel is below 45
    taps. *)
Theorem GaussianBlur_returns {ext : Externals} fuel context srcProxy
    colorSpace dstBounds srcBounds sigmaX sigmaY mode at_ fit j :
  12 <= kMaxKernelRadius -> MAX_KERNEL_SIZE < 45 ->
  0 <= j < 30 -> caps_maxTextureSize context = 2 ^ j -> (30 <= fuel)%nat ->
  F32.valid sigmaX = true -> F32.valid sigmaY = true ->
  F32.leb F32.zero sigmaX = true -> F32.leb F32.zero sigmaY = true ->
  F32.gtb sigmaX F32.zero = true \/ F32.gtb sigmaY F32.zero = true ->
  blur_config_supported (blur_config (proxy_config srcProxy) colorSpace)
  = true ->
  0 <= IRect.width dstBounds < 2 ^ 24 ->
  0 <= IRect.height dstBounds < 2 ^ 24 ->
  sat (GaussianBlur fuel context srcProxy colorSpace dstBounds srcBounds
         sigmaX sigmaY mode at_ fit)
    (fun o _ => exists result, o = Returned result).
Proof.
  intros Hk Hmks Hj HM Hf Vx Vy Nx Ny Hpos Hsup Hw Hh.
  assert (HMpos : 0 < 2 ^ j) by (apply Z.pow_pos_nonneg; lia).
  assert (HMlt : 2 ^ j < 2 ^ 30) by (apply Z.pow_lt_mono_r; lia).
  (* what the planner returns *)
  assert (Hplan : forall sigma,
            F32.valid sigma = true -> F32.leb F32.zero sigma = true ->
            exists sigma' k,
              adjust_sigma fuel sigma (2 ^ j)
              = Returned (sigma', 2 ^ k, sigma_radius sigma') /\
              0 <= k <= 30 /\
              F32.valid sigma' = true /\
              F32.gtb sigma' MAX_BLUR_SIGMA = false /\
              0 <= sigma_radius sigma' <= 12 /\
              (F32.gtb sigma F32.zero = true ->
               F32.gtb sigma' F32.zero = true) /\
              (0 < k -> F32.gtb sigma' float_two = true)).
  { intros sigma V N.
    destruct (adjust_sigma_returns Hk (2 ^ j) HMpos HMlt fuel Hf sigma V N)
      as (s' & sc & E & El & _ & Hb & _ & Hg & Hr).
    pose proof (loop_scale_shape fuel (2 ^ j) sigma 1 s' sc ltac:(lia) HMlt
                  El) as Hshape.
    assert (K : exists k, 0 <= k <= j /\ sc = 2 ^ k).
    { destruct Hshape as [[_ ->] | (k & Hk0 & -> & Hle)].
      - exists j. lia.
      - exists k. split; [| lia]. split; [lia |].
        destruct (Z_le_gt_dec k j) as [| Hgt]; [assumption | exfalso].
        assert (2 ^ (j + 1) <= 2 ^ k) by (apply Z.pow_le_mono_r; lia).
        rewrite Z.pow_add_r in H by lia. lia. }
    destruct K as (k & Hk0 & ->). exists s', k.
    split; [exact E |]. split; [lia |].
    destruct (loop_correct fuel (2 ^ j) sigma 1 ltac:(lia) HMlt)
      as (a & b & El' & _ & _ & _ & _ & Hval).
    { assert (2 ^ 30 <= 2 ^ Z.of_nat fuel) by (apply Z.pow_le_mono_r; lia).
      lia. }
    rewrite El in El'. injection El' as <- <-.
    split; [now apply Hval |]. split; [exact Hg |]. split; [exact Hr |].
    split.
    - intros Hp. eapply loop_positive; eassumption.
    - intros Hk1.
      apply (loop_above_two fuel (2 ^ j) sigma 1 s' (2 ^ k));
        [lia | lia | exact V | lia | exact El |].
      change 1 with (2 ^ 0). apply Z.pow_lt_mono_r; lia. }
  destruct (Hplan sigmaX Vx Nx)
    as (ex & kx & Ex & Hkx & Vex & Gx & Rx & Px & Tx).
  destruct (Hplan sigmaY Vy Ny)
    as (ey & ky & Ey & Hky & Vey & Gy & Ry & Py & Ty).
  unfold GaussianBlur. rewrite HM, Ex, Ey.
  apply sat_bind.
  eapply sat_conseq; [now apply get_blur_config_supported |].
  cbv beta. intros ? ? [-> ->].
  destruct (GrPixelConfigToColorType
              (blur_config (proxy_config srcProxy) colorSpace)) as [ct |];
    [| apply sat_ret; now eexists].
  cbv zeta. apply sat_bind, sat_lift. cbv beta iota.
  apply sat_bind, sat_lift. cbv beta iota.
  assert (Hsome : F32.gtb ex F32.zero = true \/ F32.gtb ey F32.zero = true).
  { destruct Hpos as [H | H]; [left; now apply Px | right; now apply Py]. }
  apply sat_bind.
  apply sat_SkASSERT; [intros _ | intros _ Hfail].
  2:{ exfalso. apply orb_false_iff in Hfail. unfold float_is_true in Hfail.
      destruct Hfail as [H1 H2]. apply negb_false_iff in H1, H2.
      destruct Hsome as [H | H];
        [ destruct ex as [s | s | | s m e] | destruct ey as [s | s | | s m e] ];
        try discriminate; destruct s; discriminate. }
  eapply sat_conseq.
  { apply (blur_planned_returns colorSpace
             (blur_config (proxy_config srcProxy) colorSpace)
             (blur_config_idempotent (proxy_config srcProxy) colorSpace
                (proxy_config srcProxy)) Hsup
             (MkImageInfo (IRect.width dstBounds) (IRect.height dstBounds) ct
                at_ colorSpace) eq_refl);
      try assumption; try reflexivity.
    (* the 2-D kernel is not chosen for a decimated blur *)
    intros H2d. unfold use_2d_kernel in H2d.
    apply andb_true_iff in H2d. destruct H2d as [H2d Htaps].
    apply andb_true_iff in H2d. destruct H2d as [H0x H0y].
    apply Z.leb_le in Htaps.
    rewrite kernel_taps_exact in Htaps by assumption.
    pose proof (sigma_radius_positive ex Vex H0x Gx) as R1x.
    pose proof (sigma_radius_positive ey Vey H0y Gy) as R1y.
    destruct (Z_lt_le_dec 0 kx) as [Hx | Hx].
    { pose proof (sigma_radius_above_two ex Vex (Tx Hx) Gx). nia. }
    destruct (Z_lt_le_dec 0 ky) as [Hy | Hy].
    { pose proof (sigma_radius_above_two ey Vey (Ty Hy) Gy). nia. }
    lia. }
  cbv beta. intros o _ (r & -> & _). now exists r.
Qed.

(** ** The flow of textures *)

Lemma flow_app st l1 l2 :
  flow st (l1 ++ l2)
  = match flow st l1 with Some st' => flow st' l2 | None => None end.
Proof.
  revert st. induction l1 as [| e l1 IH]; intros st; [reflexivity |].
  cbn [app flow]. destruct (flow_step st e); [apply IH | reflexivity].
Qed.

Section TextureFlow.

Context {ext : Externals}.

(** The flow reads [texture]; [l] keeps to the flow and leaves it at a
    state that [Q] describes. *)
Let flows (texture : nat) (surface : option nat)
    (Q : Flow -> Prop) (l : list GpuEvent) : Prop :=
  exists st',
    flow (MkFlow texture surface) l = Some st' /\ Q st'.

Lemma flows_app texture surface Q l1 l2 (R : Flow -> Prop) :
  flows texture surface R l1 ->
  (forall st', R st' -> flows (flow_texture st') (flow_surface st') Q l2) ->
  flows texture surface Q (l1 ++ l2).
Proof.
  intros (st1 & E1 & H1) H2. destruct (H2 st1 H1) as (st2 & E2 & HQ).
  exists st2. split; [| exact HQ]. rewrite flow_app, E1.
  now destruct st1.
Qed.

(** The flow after a call that returns a surface: the surface is the one
    rendered to, and the texture read is the same. *)
Let surface_flow (texture : nat) (surface : option nat)
    (o : outcome (option GrRenderTargetContext)) (st' : Flow) : Prop :=
  flow_texture st' = texture /\
  match o with
  | Returned (Some dst) => flow_surface st' = Some (rtc_id dst)
  | _ => True
  end.

Ltac flow_leaf :=
  unfold flows, surface_flow;
  repeat progress
    (cbn [flow flow_step app on_surface flow_surface flow_texture
          paint_texture paint_processor proxy_id rtc_id andb];
     rewrite ?Nat.eqb_refl);
  solve [ eexists; split; [reflexivity |];
          split; [reflexivity | first [exact I | reflexivity]] ].

Lemma convolve_gaussian_2d_flow proxy srcBounds srcOffset radiusX radiusY
    sigmaX sigmaY mode dstII dstFit surface :
  sat (convolve_gaussian_2d proxy srcBounds srcOffset radiusX radiusY sigmaX
         sigmaY mode dstII dstFit)
    (fun o l =>
       flows (proxy_id proxy) surface
         (surface_flow (proxy_id proxy) surface o) l).
Proof. unfold convolve_gaussian_2d. wp; flow_leaf. Qed.

Lemma convolve_gaussian_flow proxy srcRect srcOffset direction radius sigma
    srcBounds mode dstII fit surface :
  sat (convolve_gaussian proxy srcRect srcOffset direction radius sigma
         srcBounds mode dstII fit)
    (fun o l =>
       flows (proxy_id proxy) surface
         (surface_flow (proxy_id proxy) surface o) l).
Proof.
  unfold convolve_gaussian, clear_unless_empty, convolve_gaussian_1d.
  wp; flow_leaf.
Qed.

Lemma reexpand_flow src localSrcBounds scaleFactorX scaleFactorY mode dstII
    fit texture :
  sat (reexpand src localSrcBounds scaleFactorX scaleFactorY mode dstII fit)
    (fun _ l => flows texture (Some (rtc_id src)) (fun _ => True) l).
Proof.
  unfold reexpand, get_blur_config. wp;
    unfold flows;
    repeat progress
      (cbn [flow flow_step app on_surface flow_surface flow_texture
            paint_texture paint_processor proxy_id rtc_id andb];
       rewrite ?Nat.eqb_refl);
    try solve [eexists; split; [reflexivity | exact I]];
    destruct (negb (GrTextureDomain.eqb kIgnore_Mode mode));
    repeat progress
      (cbn [flow flow_step app on_surface flow_surface flow_texture
            paint_texture paint_processor proxy_id rtc_id andb];
       rewrite ?Nat.eqb_refl);
    solve [eexists; split; [reflexivity | exact I]].
Qed.

(** The variables of the loop of [decimate] agree with the flow. *)
Let loop_agrees (vars : DecimateVars) (st : Flow) : Prop :=
  flow_texture st = proxy_id (dv_src vars) /\
  forall d, dv_dstRenderTargetContext vars = Some d ->
            flow_surface st = Some (rtc_id d).

Lemma decimate_loop_flow fuel : forall contentRect scaleFactorX scaleFactorY
    mode config dstII i vars surface,
  (forall d, dv_dstRenderTargetContext vars = Some d ->
             surface = Some (rtc_id d)) ->
  sat (decimate_loop fuel contentRect scaleFactorX scaleFactorY mode config
         dstII i vars)
    (fun o l =>
       flows (proxy_id (dv_src vars)) surface
         (fun st' => forall vars', o = Returned (LoopDone vars') ->
                                   loop_agrees vars' st') l).
Proof.
  induction fuel as [| fuel IH]; intros contentRect sx sy mode config dstII i
    vars surface Hs; cbn [decimate_loop].
  - wp; unfold flows; cbn [flow]; eexists; (split; [reflexivity |]);
      try solve [intros ? [=]].
    intros ? [= <-]. split; [reflexivity | exact Hs].
  - unfold shrink_irect_by_2.
    wp;
      try solve [ unfold flows; cbn [flow app]; eexists;
                  (split; [reflexivity |]);
                  first [ intros ? [= <-]; split; [reflexivity | exact Hs]
                        | intros ? [=] ] ];
      try solve [ unfold flows;
                  repeat progress
                    (cbn [flow flow_step app on_surface flow_surface
                          flow_texture paint_texture paint_processor proxy_id
                          rtc_id andb];
                     rewrite ?Nat.eqb_refl);
                  eexists; (split; [reflexivity |]); intros ? [=] ].
    all: eapply sat_conseq;
      [ apply IH with (surface := Some id); intros ? [= <-]; reflexivity |];
      cbv beta; intros o l (st' & E & HQ); exists st';
      (split; [| exact HQ]); rewrite !flow_app;
      repeat progress
        (cbn [flow flow_step app on_surface flow_surface flow_texture
              paint_texture paint_processor proxy_id rtc_id andb dv_src];
         rewrite ?Nat.eqb_refl);
      exact E.
Qed.

(** What remains of a call whose first events left the flow at [st1]. *)
Lemma sat_flows_from {A} (m : M A) texture surface (Q : outcome A -> Flow -> Prop)
    l1 st1 :
  flow (MkFlow texture surface) l1 = Some st1 ->
  sat m (fun o l2 =>
           flows (flow_texture st1) (flow_surface st1) (Q o) l2) ->
  sat m (fun o l2 => flows texture surface (Q o) (l1 ++ l2)).
Proof.
  intros E H. eapply sat_conseq; [exact H |]. cbv beta.
  intros o l2 (st2 & E2 & HQ). exists st2. split; [| exact HQ].
  rewrite flow_app, E. now destruct st1.
Qed.

Ltac flow_compute :=
  repeat progress
    (rewrite ?flow_app;
     cbn [flow flow_step app on_surface flow_surface flow_texture
          paint_texture paint_processor proxy_id rtc_id andb];
     rewrite ?Nat.eqb_refl).

Lemma decimate_flow fuel src srcOffset contentRect scaleFactorX scaleFactorY
    willBeXFiltering willBeYFiltering radiusX radiusY mode dstII surface :
  sat (decimate fuel src srcOffset contentRect scaleFactorX scaleFactorY
         willBeXFiltering willBeYFiltering radiusX radiusY mode dstII)
    (fun o l =>
       flows (proxy_id src) surface
         (fun st' => forall p off c, o = Returned (Some p, off, c) ->
                                     flow_texture st' = proxy_id p) l).
Proof.
  unfold decimate, get_blur_config.
  wp; try solve [unfold flows; flow_compute; eexists;
                 (split; [reflexivity |]); intros ? ? ? [=]].
  eapply sat_conseq.
  { apply decimate_loop_flow with (surface := surface). intros ? [=]. }
  cbv beta. intros o l (st1 & E & HQ). cbn [dv_src] in E.
  destruct o as [[vars | off] | | |];
    try solve [wp; exists st1; split;
               [ flow_compute; rewrite E; flow_compute; reflexivity
               | intros ? ? ? [=] ]].
  destruct (HQ vars eq_refl) as [Ht Hs].
  destruct (dv_dstRenderTargetContext vars) as [dst |] eqn:Ed.
  - specialize (Hs _ eq_refl). destruct st1 as [t s].
    cbn [flow_texture flow_surface] in Ht, Hs. subst t s.
    wp;
      (eexists; split;
       [ flow_compute; rewrite E; flow_compute; reflexivity
       | first [ intros ? ? ? [= <- _ _]; reflexivity | intros ? ? ? [=] ] ]).
  - wp;
      (exists st1; split;
       [ flow_compute; rewrite E; flow_compute; reflexivity
       | intros ? ? ? [=] ]).
Qed.

(** The variables of a blur agree with the flow. *)
Let blur_agrees (vars : BlurVars) (st : Flow) : Prop :=
  flow_texture st = proxy_id (bv_srcProxy vars) /\
  forall d, bv_dstRenderTargetContext vars = Some d ->
            flow_surface st = Some (rtc_id d).

Lemma x_pass_flow sigmaX sigmaY radiusX radiusY mode finalDestII xFit vars
    surface :
  (forall d, bv_dstRenderTargetContext vars = Some d ->
             surface = Some (rtc_id d)) ->
  sat (x_pass sigmaX sigmaY radiusX radiusY mode finalDestII xFit vars)
    (fun o l =>
       flows (proxy_id (bv_srcProxy vars)) surface
         (fun st' => forall vars', o = Returned (Some vars') ->
                                   blur_agrees vars' st') l).
Proof.
  intros Hs. unfold x_pass. destruct (F32.gtb sigmaX F32.zero).
  2:{ apply sat_ret. eexists. split; [reflexivity |].
      intros ? [= <-]. split; [reflexivity | exact Hs]. }
  apply sat_bind.
  eapply sat_conseq; [apply convolve_gaussian_flow with (surface := surface) |].
  cbv beta. intros o l (st1 & E & Ht & Hd).
  destruct o as [[dst |] | | |];
    try solve [wp; rewrite <- (app_nil_r l); exists st1;
               split; [flow_compute; now rewrite E | intros ? [=]]];
    try solve [exists st1; split; [exact E | intros ? [=]]].
  destruct st1 as [t s]. cbn [flow_texture flow_surface] in Ht, Hd.
  subst t s.
  wp; (eexists; split; [flow_compute; rewrite E; flow_compute; reflexivity |]);
    try solve [intros ? [=]];
    intros ? [= <-]; (split; [reflexivity |]); now intros ? [= <-].
Qed.

Lemma y_pass_flow sigmaY radiusY mode finalDestII yFit vars surface :
  (forall d, bv_dstRenderTargetContext vars = Some d ->
             surface = Some (rtc_id d)) ->
  sat (y_pass sigmaY radiusY mode finalDestII yFit vars)
    (fun o l =>
       flows (proxy_id (bv_srcProxy vars)) surface
         (fun st' => forall vars', o = Returned (Some vars') ->
                                   blur_agrees vars' st') l).
Proof.
  intros Hs. unfold y_pass. destruct (F32.gtb sigmaY F32.zero).
  2:{ apply sat_ret. eexists. split; [reflexivity |].
      intros ? [= <-]. split; [reflexivity | exact Hs]. }
  apply sat_bind.
  eapply sat_conseq; [apply convolve_gaussian_flow with (surface := surface) |].
  cbv beta. intros o l (st1 & E & Ht & Hd).
  destruct o as [[dst |] | | |];
    try solve [wp; rewrite <- (app_nil_r l); exists st1;
               split; [flow_compute; now rewrite E | intros ? [=]]];
    try solve [exists st1; split; [exact E | intros ? [=]]].
  destruct st1 as [t s]. cbn [flow_texture flow_surface] in Ht, Hd.
  subst t s.
  wp; (eexists; split; [flow_compute; rewrite E; flow_compute; reflexivity |]);
    try solve [intros ? [=]];
    intros ? [= <-]; (split; [reflexivity |]); now intros ? [= <-].
Qed.

Lemma flows_nil texture surface : flows texture surface (fun _ => True) [].
Proof. eexists. split; [reflexivity | exact I]. Qed.

Lemma blur_planned_flow fuel srcProxy srcBounds srcOffset mode finalDestII fit
    sigmaX scaleFactorX radiusX sigmaY scaleFactorY radiusY surface :
  sat (blur_planned fuel srcProxy srcBounds srcOffset mode finalDestII fit
         sigmaX scaleFactorX radiusX sigmaY scaleFactorY radiusY)
    (fun _ l => flows (proxy_id srcProxy) surface (fun _ => True) l).
Proof.
  unfold blur_planned.
  destruct (use_2d_kernel sigmaX sigmaY radiusX radiusY).
  { apply sat_bind.
    apply sat_SkASSERT; [intros _ | intros _ _; apply flows_nil].
    eapply sat_conseq;
      [apply convolve_gaussian_2d_flow with (surface := surface) |].
    cbv beta. intros o l (st & E & _). now exists st. }
  cbv zeta. apply sat_bind.
  eapply sat_conseq with
    (Q := fun o l =>
            flows (proxy_id srcProxy) surface
              (fun st' => forall p off c, o = Returned (Some p, off, c) ->
                                          flow_texture st' = proxy_id p) l).
  { destruct ((scaleFactorX >? 1) || (scaleFactorY >? 1)).
    - apply decimate_flow.
    - apply sat_ret. eexists. split; [reflexivity |].
      now intros ? ? ? [= <- _ _]. }
  cbv beta. intros o0 l0 (st1 & E1 & H1).
  assert (Hend : forall (st : Flow) l,
            flow (MkFlow (proxy_id srcProxy) surface) l = Some st ->
            flows (proxy_id srcProxy) surface (fun _ => True) l).
  { intros st l E. now exists st. }
  destruct o0 as [[[[p |] off] lsb] | | |]; try solve [now apply (Hend st1)];
    [| apply sat_ret; rewrite app_nil_r; now apply (Hend st1)].
  specialize (H1 p off lsb eq_refl). cbv beta iota.
  apply (sat_flows_from _ _ _ (fun _ _ => True) l0 st1 E1).
  apply sat_bind. rewrite H1.
  eapply sat_conseq.
  { apply x_pass_flow with (surface := flow_surface st1). intros ? [=]. }
  cbn [bv_srcProxy]. cbv beta. intros o1 l1 (st2 & E2 & H2).
  destruct o1 as [[vars1 |] | | |]; try solve [now exists st2];
    [| apply sat_ret; rewrite app_nil_r; now exists st2].
  destruct (H2 vars1 eq_refl) as [Ht2 Hs2]. cbv beta iota.
  apply (sat_flows_from _ _ _ (fun _ _ => True) l1 st2 E2).
  apply sat_bind. rewrite Ht2.
  eapply sat_conseq.
  { apply y_pass_flow with (surface := flow_surface st2). exact Hs2. }
  cbv beta. intros o2 l2 (st3 & E3 & H3).
  destruct o2 as [[vars2 |] | | |]; try solve [now exists st3];
    [| apply sat_ret; rewrite app_nil_r; now exists st3].
  destruct (H3 vars2 eq_refl) as [Ht3 Hs3]. cbv beta iota.
  apply (sat_flows_from _ _ _ (fun _ _ => True) l2 st3 E3).
  apply sat_bind.
  apply sat_SkASSERT; [intros _ | intros _ _; apply flows_nil].
  apply sat_bind.
  apply sat_SkASSERT; [intros _ | intros _ _; apply flows_nil].
  destruct ((scaleFactorX >? 1) || (scaleFactorY >? 1));
    [| apply sat_ret; apply flows_nil].
  destruct (bv_dstRenderTargetContext vars2) as [dst |];
    [| apply sat_lift; apply flows_nil].
  rewrite (Hs3 dst eq_refl). cbn [app]. apply reexpand_flow.
Qed.

End TextureFlow.

(** X20: the textures of a blur flow from stage to stage. In the order the
    GPU layer is asked: every clear and every draw is on the surface
    allocated last; every draw reads the texture extracted last, which is
    the source texture until one is extracted; and a texture is extracted
    only from the surface allocated last. *)
Theorem GaussianBlur_texture_flow {ext : Externals} fuel context srcProxy
    colorSpace dstBounds srcBounds sigmaX sigmaY mode at_ fit :
  sat (GaussianBlur fuel context srcProxy colorSpace dstBounds srcBounds
         sigmaX sigmaY mode at_ fit)
    (fun _ l =>
       exists st, flow (MkFlow (proxy_id srcProxy) None) l = Some st).
Proof.
  unfold GaussianBlur, get_blur_config.
  wp; try solve [eexists; reflexivity].
  eapply sat_conseq; [apply blur_planned_flow with (surface := None) |].
  cbv beta. intros o l (st & E & _). exists st. exact E.
Qed.

(** ** The new theorems at concrete inputs

    A sigma of 10.0 on a device whose texture limit is 16384: the plan
    halves it twice, to 2.5, with scale factor 4 and radius 8. *)

Lemma adjust_sigma_idempotent_witness :
  adjust_sigma (ext := debug_build) 30 (S754_finite false 10485760 (-20))
    16384
  = Returned (S754_finite false 10485760 (-22), 4, 8) /\
  adjust_sigma (ext := debug_build) 5 (S754_finite false 10485760 (-22)) 64
  = Returned (S754_finite false 10485760 (-22), 1, 8).
Proof.
  split; [vm_compute; reflexivity |].
  apply (adjust_sigma_idempotent (ext := debug_build) 30 5
           (S754_finite false 10485760 (-20)) 16384 64
           (S754_finite false 10485760 (-22)) 4 8).
  vm_compute. reflexivity.
Defined.

Lemma adjust_sigma_scale_pow2_witness :
  0 <= 14 < 30 /\
  adjust_sigma (ext := debug_build) 30 (S754_finite false 10485760 (-20))
    (2 ^ 14)
  = Returned (S754_finite false 10485760 (-22), 4, 8) /\
  (exists k, 0 <= k <= 14 /\ 4 = 2 ^ k) /\ SkIsPow2 4 = true.
Proof.
  split; [lia |]. split; [vm_compute; reflexivity |].
  apply (adjust_sigma_scale_pow2 (ext := debug_build) 30
           (S754_finite false 10485760 (-20)) 14
           (S754_finite false 10485760 (-22)) 4 8);
    [lia | vm_compute; reflexivity].
Defined.

Lemma adjust_sigma_halving_exact_witness :
  0 < 16384 < 2 ^ 30 /\
  F32.valid (S754_finite false 10485760 (-20)) = true /\
  adjust_sigma (ext := debug_build) 30 (S754_finite false 10485760 (-20))
    16384
  = Returned (S754_finite false 10485760 (-22), 4, 8) /\
  ((S754_finite false 10485760 (-22) = MAX_BLUR_SIGMA /\ 4 = 16384 /\
    8 = 12) \/
   (exists k, 0 <= k /\ 4 = 2 ^ k /\ 2 ^ k <= 16384 /\
              S754_finite false 10485760 (-22)
              = S754_finite false 10485760 (-20 - k))).
Proof.
  split; [lia |]. split; [reflexivity |].
  split; [vm_compute; reflexivity |].
  apply (adjust_sigma_halving_exact (ext := debug_build) 30 10485760 (-20)
           16384 (S754_finite false 10485760 (-22)) 4 8);
    [lia | reflexivity | vm_compute; reflexivity].
Defined.

Lemma adjust_sigma_infinity_witness :
  12 <= kMaxKernelRadius (Externals := debug_build) /\
  0 < 16384 < 2 ^ 30 /\ (30 <= 30)%nat /\
  adjust_sigma (ext := debug_build) 30 (S754_infinity false) 16384
  = Returned (MAX_BLUR_SIGMA, 16384, 12).
Proof.
  split; [simpl; lia |]. split; [lia |]. split; [lia |].
  apply (adjust_sigma_infinity (ext := debug_build) 30 16384);
    [simpl; lia | lia | lia].
Defined.

Lemma adjust_sigma_decimated_above_two_witness :
  0 < 16384 < 2 ^ 30 /\
  F32.valid (S754_finite false 10485760 (-20)) = true /\
  adjust_sigma (ext := debug_build) 30 (S754_finite false 10485760 (-20))
    16384
  = Returned (S754_finite false 10485760 (-22), 4, 8) /\
  1 < 4 /\
  F32.gtb (S754_finite false 10485760 (-22)) float_two = true /\
  F32.gtb (S754_finite false 10485760 (-22)) MAX_BLUR_SIGMA = false /\
  F32.gtb (S754_finite false 10485760 (-22)) F32.zero = true.
Proof.
  split; [lia |]. split; [reflexivity |].
  split; [vm_compute; reflexivity |]. split; [lia |].
  apply (adjust_sigma_decimated_above_two (ext := debug_build) 30
           (S754_finite false 10485760 (-20)) 16384
           (S754_finite false 10485760 (-22)) 4 8);
    [lia | reflexivity | vm_compute; reflexivity | lia].
Defined.

Lemma adjust_sigma_radius_range_witness :
  0 < 16384 < 2 ^ 30 /\
  F32.valid (S754_finite false 10485760 (-20)) = true /\
  F32.gtb (S754_finite false 10485760 (-20)) F32.zero = true /\
  adjust_sigma (ext := debug_build) 30 (S754_finite false 10485760 (-20))
    16384
  = Returned (S754_finite false 10485760 (-22), 4, 8) /\
  1 <= 8 <= 12 /\ (1 < 4 -> 7 <= 8).
Proof.
  split; [lia |]. split; [reflexivity |]. split; [reflexivity |].
  split; [vm_compute; reflexivity |].
  apply (adjust_sigma_radius_range (ext := debug_build) 30
           (S754_finite false 10485760 (-20)) 16384
           (S754_finite false 10485760 (-22)) 4 8);
    [lia | reflexivity | reflexivity | vm_compute; reflexivity].
Defined.

(** The rectangle (50, 50, 151, 151) scaled down by 4 and by 2. *)
Lemma scale_irect_roundout_exact_witness :
  rect_float_exact (MkIRect 50 50 151 151) /\
  0 <= 2 <= 30 /\ 0 <= 1 <= 30 /\
  scale_irect_roundout (MkIRect 50 50 151 151) (inv_scale (2 ^ 2))
    (inv_scale (2 ^ 1))
  = rounded_out (MkIRect 50 50 151 151) 2 1.
Proof.
  assert (H : rect_float_exact (MkIRect 50 50 151 151))
    by (unfold rect_float_exact, float_exact; simpl; lia).
  split; [exact H |]. split; [lia |]. split; [lia |].
  apply (scale_irect_roundout_exact (MkIRect 50 50 151 151) 2 1);
    [exact H | lia | lia].
Defined.

Lemma roundout_then_scale_contains_witness :
  rect_float_exact (MkIRect 50 50 151 151) /\
  0 <= 2 <= 30 /\ 0 <= 1 <= 30 /\
  let aligned :=
    scale_irect
      (scale_irect_roundout (MkIRect 50 50 151 151) (inv_scale (2 ^ 2))
         (inv_scale (2 ^ 1)))
      (2 ^ 2) (2 ^ 1) in
  (fLeft aligned <= 50 < fLeft aligned + 2 ^ 2 /\
   fTop aligned <= 50 < fTop aligned + 2 ^ 1 /\
   151 <= fRight aligned < 151 + 2 ^ 2 /\
   151 <= fBottom aligned < 151 + 2 ^ 1) /\
  (fLeft aligned mod 2 ^ 2 = 0 /\ fTop aligned mod 2 ^ 1 = 0 /\
   fRight aligned mod 2 ^ 2 = 0 /\ fBottom aligned mod 2 ^ 1 = 0).
Proof.
  assert (H : rect_float_exact (MkIRect 50 50 151 151))
    by (unfold rect_float_exact, float_exact; simpl; lia).
  split; [exact H |]. split; [lia |]. split; [lia |].
  apply (roundout_then_scale_contains (MkIRect 50 50 151 151) 2 1);
    [exact H | lia | lia].
Defined.

(** The decimation of the 100 x 100 square by 4 and by 2. *)
Lemma decimate_returns_witness :
  0 <= 2 <= 30 /\ 0 <= 1 <= 30 /\ (0 < 2 \/ 0 < 1) /\
  blur_config_supported
    (blur_config (ext := debug_build) (proxy_config example_source) None)
  = true /\
  (30 <= 30)%nat /\
  sat (decimate (ext := debug_build) 30 example_source (MkIPoint 0 0)
         (IRect.MakeXYWH 50 50 100 100) (2 ^ 2) (2 ^ 1) true true 8 6
         kClamp_Mode (MkImageInfo 200 200 4%nat 2%nat None))
    (fun o _ => exists result, o = Returned result).
Proof.
  split; [lia |]. split; [lia |]. split; [left; lia |].
  split; [reflexivity |]. split; [lia |].
  apply (decimate_returns (ext := debug_build) 30 example_source
           (MkIPoint 0 0) (IRect.MakeXYWH 50 50 100 100) 2 1 true true 8 6
           kClamp_Mode (MkImageInfo 200 200 4%nat 2%nat None));
    [lia | lia | left; lia | reflexivity | lia].
Defined.

Lemma decimate_pass_count_witness :
  0 <= 2 <= 30 /\ 0 <= 1 <= 30 /\ (0 < 2 \/ 0 < 1) /\
  blur_config_supported
    (blur_config (ext := debug_build) (proxy_config example_source) None)
  = true /\
  sat (decimate (ext := debug_build) 30 example_source (MkIPoint 0 0)
         (IRect.MakeXYWH 50 50 100 100) (2 ^ 2) (2 ^ 1) true true 8 6
         kClamp_Mode (MkImageInfo 200 200 4%nat 2%nat None))
    (fun o l =>
       forall proxy srcOffset' content,
         o = Returned (proxy, srcOffset', content) ->
         (count_events is_alloc l <= Z.to_nat (Z.max 2 1))%nat /\
         (proxy <> None ->
          count_events is_alloc l = Z.to_nat (Z.max 2 1) /\
          count_events is_draw l = Z.to_nat (Z.max 2 1))).
Proof.
  split; [lia |]. split; [lia |]. split; [left; lia |].
  split; [reflexivity |].
  apply (decimate_pass_count (ext := debug_build) 30 example_source
           (MkIPoint 0 0) (IRect.MakeXYWH 50 50 100 100) 2 1 true true 8 6
           kClamp_Mode (MkImageInfo 200 200 4%nat 2%nat None));
    [lia | lia | left; lia | reflexivity].
Defined.

Lemma decimate_consumes_offset_witness :
  0 <= 2 <= 30 /\ 0 <= 1 <= 30 /\ (0 < 2 \/ 0 < 1) /\
  blur_config_supported
    (blur_config (ext := debug_build) (proxy_config example_source) None)
  = true /\
  sat (decimate (ext := debug_build) 30 example_source (MkIPoint (-50) (-50))
         (IRect.MakeXYWH 50 50 100 100) (2 ^ 2) (2 ^ 1) true true 8 6
         kClamp_Mode (MkImageInfo 200 200 4%nat 2%nat None))
    (fun o _ =>
       forall proxy srcOffset' content,
         o = Returned (proxy, srcOffset', content) ->
         (kClamp_Mode = kIgnore_Mode -> srcOffset' = MkIPoint (-50) (-50)) /\
         (kClamp_Mode <> kIgnore_Mode -> proxy <> None ->
          srcOffset' = MkIPoint 0 0)).
Proof.
  split; [lia |]. split; [lia |]. split; [left; lia |].
  split; [reflexivity |].
  apply (decimate_consumes_offset (ext := debug_build) 30 example_source
           (MkIPoint (-50) (-50)) (IRect.MakeXYWH 50 50 100 100) 2 1 true
           true 8 6 kClamp_Mode (MkImageInfo 200 200 4%nat 2%nat None));
    [lia | lia | left; lia | reflexivity].
Defined.

Lemma decimate_content_rect_witness :
  0 <= 2 <= 30 /\ 0 <= 1 <= 30 /\ (0 < 2 \/ 0 < 1) /\
  blur_config_supported
    (blur_config (ext := debug_build) (proxy_config example_source) None)
  = true /\
  rect_float_exact
    (decimate_srcRect kClamp_Mode (MkImageInfo 200 200 4%nat 2%nat None)
       (IRect.MakeXYWH 50 50 100 100) (MkIPoint (-50) (-50))) /\
  sat (decimate (ext := debug_build) 30 example_source (MkIPoint (-50) (-50))
         (IRect.MakeXYWH 50 50 100 100) (2 ^ 2) (2 ^ 1) true true 8 6
         kClamp_Mode (MkImageInfo 200 200 4%nat 2%nat None))
    (fun o _ =>
       forall proxy srcOffset' content,
         o = Returned (Some proxy, srcOffset', content) ->
         content
         = rounded_out
             (decimate_srcRect kClamp_Mode
                (MkImageInfo 200 200 4%nat 2%nat None)
                (IRect.MakeXYWH 50 50 100 100) (MkIPoint (-50) (-50)))
             2 1).
Proof.
  assert (H : rect_float_exact
                (decimate_srcRect kClamp_Mode
                   (MkImageInfo 200 200 4%nat 2%nat None)
                   (IRect.MakeXYWH 50 50 100 100) (MkIPoint (-50) (-50))))
    by (unfold rect_float_exact, float_exact; vm_compute;
        repeat split; reflexivity).
  split; [lia |]. split; [lia |]. split; [left; lia |].
  split; [reflexivity |]. split; [exact H |].
  apply (decimate_content_rect (ext := debug_build) 30 example_source
           (MkIPoint (-50) (-50)) (IRect.MakeXYWH 50 50 100 100) 2 1 true
           true 8 6 kClamp_Mode (MkImageInfo 200 200 4%nat 2%nat None));
    [lia | lia | left; lia | reflexivity | exact H].
Defined.

(** A texture whose config has no colour type. *)
Lemma GaussianBlur_no_color_type_witness :
  GrPixelConfigToColorType (Externals := debug_build)
    (blur_config (ext := debug_build)
       (proxy_config (MkProxy 100 (kOther_GrPixelConfig 7))) None)
  = None /\
  sat (GaussianBlur (ext := debug_build) 30 (MkContext 16384)
         (MkProxy 100 (kOther_GrPixelConfig 7)) None (IRect.MakeWH 200 200)
         (IRect.MakeXYWH 50 50 100 100) F32.one F32.one kClamp_Mode 2%nat
         kExact)
    (fun o l =>
       l = [] /\
       o = if SK_DEBUG (Externals := debug_build)
              && negb (blur_config_supported
                         (blur_config (ext := debug_build)
                            (proxy_config
                               (MkProxy 100 (kOther_GrPixelConfig 7)))
                            None))
           then AssertFailed else Returned None).
Proof.
  split; [reflexivity |].
  apply (GaussianBlur_no_color_type (ext := debug_build) 30 (MkContext 16384)
           (MkProxy 100 (kOther_GrPixelConfig 7)) None (IRect.MakeWH 200 200)
           (IRect.MakeXYWH 50 50 100 100) F32.one F32.one kClamp_Mode 2%nat
           kExact).
  reflexivity.
Defined.

(** A blur with both sigmas zero, in a release build. *)
Lemma GaussianBlur_nothing_to_blur_witness :
  GrPixelConfigToColorType (Externals := release_build)
    (blur_config (ext := release_build) (proxy_config example_source) None)
  = Some 4%nat /\
  F32.gtb F32.zero F32.zero = false /\
  sat (GaussianBlur (ext := release_build) 30 (MkContext 16384)
         example_source None (IRect.MakeWH 200 200)
         (IRect.MakeXYWH 50 50 100 100) F32.zero F32.zero kClamp_Mode 2%nat
         kExact)
    (fun o l =>
       l = [] /\
       o = if SK_DEBUG (Externals := release_build)
           then AssertFailed else Returned None).
Proof.
  split; [reflexivity |]. split; [reflexivity |].
  apply (GaussianBlur_nothing_to_blur (ext := release_build) 30
           (MkContext 16384) example_source None (IRect.MakeWH 200 200)
           (IRect.MakeXYWH 50 50 100 100) F32.zero F32.zero kClamp_Mode 2%nat
           kExact 4%nat);
    reflexivity.
Defined.

Lemma GaussianBlur_result_size_witness :
  0 < caps_maxTextureSize (MkContext 16384) < 2 ^ 30 /\
  float_exact (IRect.width (IRect.MakeWH 200 200)) /\
  float_exact (IRect.height (IRect.MakeWH 200 200)) /\
  sat (GaussianBlur (ext := debug_build) 30 (MkContext 16384)
         example_source None (IRect.MakeWH 200 200)
         (IRect.MakeXYWH 50 50 100 100)
         (S754_finite false 10485760 (-20)) F32.one kClamp_Mode 2%nat kExact)
    (fun o _ =>
       forall r, o = Returned (Some r) ->
         rtc_width r = IRect.width (IRect.MakeWH 200 200) /\
         rtc_height r = IRect.height (IRect.MakeWH 200 200)).
Proof.
  assert (Hw : float_exact (IRect.width (IRect.MakeWH 200 200)))
    by (unfold float_exact; vm_compute; split; reflexivity).
  assert (Hh : float_exact (IRect.height (IRect.MakeWH 200 200)))
    by (unfold float_exact; vm_compute; split; reflexivity).
  split; [simpl; lia |]. split; [exact Hw |]. split; [exact Hh |].
  apply (GaussianBlur_result_size (ext := debug_build) 30 (MkContext 16384)
           example_source None (IRect.MakeWH 200 200)
           (IRect.MakeXYWH 50 50 100 100)
           (S754_finite false 10485760 (-20)) F32.one kClamp_Mode 2%nat
           kExact);
    [simpl; lia | exact Hw | exact Hh].
Defined.

(** A horizontal pass of radius 8 over a 100 x 100 destination whose
    source bounds are the square (50, 50, 150, 150). *)
Lemma convolve_gaussian_covers_once_witness :
  (kClamp_Mode <> kIgnore_Mode ->
   fTop (IRect.MakeXYWH 50 50 100 100)
   <= fBottom (IRect.MakeXYWH 50 50 100 100)) /\
  sat (convolve_gaussian (ext := debug_build) example_source
         (IRect.MakeWH 100 100) (MkIPoint (-50) (-50)) kX 8
         (S754_finite false 10485760 (-22)) (IRect.MakeXYWH 50 50 100 100)
         kClamp_Mode (MkImageInfo 100 100 4%nat 2%nat None) kExact)
    (fun o l =>
       forall dst, o = Returned (Some dst) ->
         exists writes rects,
           l = [Enter (Stage_convolve_gaussian kX); alloc_event dst]
               ++ writes /\
           Forall2 (writes_rect (rtc_id dst)) writes rects /\
           forall x y,
             0 <= x < IRect.width (IRect.MakeWH 100 100) ->
             0 <= y < IRect.height (IRect.MakeWH 100 100) ->
             times_covered rects x y = 1%nat).
Proof.
  assert (H : kClamp_Mode <> kIgnore_Mode ->
              fTop (IRect.MakeXYWH 50 50 100 100)
              <= fBottom (IRect.MakeXYWH 50 50 100 100))
    by (intros _; vm_compute; discriminate).
  split; [exact H |].
  apply (convolve_gaussian_covers_once (ext := debug_build) example_source
           (IRect.MakeWH 100 100) (MkIPoint (-50) (-50)) kX 8
           (S754_finite false 10485760 (-22)) (IRect.MakeXYWH 50 50 100 100)
           kClamp_Mode (MkImageInfo 100 100 4%nat 2%nat None) kExact).
  exact H.
Defined.

(** A blur with a NaN and an infinite sigma, in a release build. *)
Lemma GaussianBlur_release_returns_witness :
  SK_DEBUG (Externals := release_build) = false /\
  0 < caps_maxTextureSize (MkContext 16384) < 2 ^ 30 /\ (30 <= 30)%nat /\
  F32.valid S754_nan = true /\ F32.valid (S754_infinity false) = true /\
  sat (GaussianBlur (ext := release_build) 30 (MkContext 16384)
         example_source None (IRect.MakeWH 200 200)
         (IRect.MakeXYWH 50 50 100 100) S754_nan (S754_infinity false)
         kClamp_Mode 2%nat kExact)
    (fun o _ => exists result, o = Returned result).
Proof.
  split; [reflexivity |]. split; [simpl; lia |]. split; [lia |].
  split; [reflexivity |]. split; [reflexivity |].
  apply (GaussianBlur_release_returns (ext := release_build) eq_refl 30
           (MkContext 16384) example_source None (IRect.MakeWH 200 200)
           (IRect.MakeXYWH 50 50 100 100) S754_nan (S754_infinity false)
           kClamp_Mode 2%nat kExact);
    [simpl; lia | lia | reflexivity | reflexivity].
Defined.

(** A blur of sigma 10.0 by 1.0 in a debug build. *)
Lemma GaussianBlur_returns_witness :
  12 <= kMaxKernelRadius (Externals := debug_build) /\
  MAX_KERNEL_SIZE (Externals := debug_build) < 45 /\
  0 <= 14 < 30 /\ caps_maxTextureSize (MkContext 16384) = 2 ^ 14 /\
  (30 <= 30)%nat /\
  F32.valid (S754_finite false 10485760 (-20)) = true /\
  F32.valid F32.one = true /\
  F32.leb F32.zero (S754_finite false 10485760 (-20)) = true /\
  F32.leb F32.zero F32.one = true /\
  (F32.gtb (S754_finite false 10485760 (-20)) F32.zero = true \/
   F32.gtb F32.one F32.zero = true) /\
  blur_config_supported
    (blur_config (ext := debug_build) (proxy_config example_source) None)
  = true /\
  0 <= IRect.width (IRect.MakeWH 200 200) < 2 ^ 24 /\
  0 <= IRect.height (IRect.MakeWH 200 200) < 2 ^ 24 /\
  sat (GaussianBlur (ext := debug_build) 30 (MkContext 16384)
         example_source None (IRect.MakeWH 200 200)
         (IRect.MakeXYWH 50 50 100 100)
         (S754_finite false 10485760 (-20)) F32.one kClamp_Mode 2%nat kExact)
    (fun o _ => exists result, o = Returned result).
Proof.
  assert (Hw : 0 <= IRect.width (IRect.MakeWH 200 200) < 2 ^ 24)
    by (vm_compute; split; [discriminate | reflexivity]).
  assert (Hh : 0 <= IRect.height (IRect.MakeWH 200 200) < 2 ^ 24)
    by (vm_compute; split; [discriminate | reflexivity]).
  split; [simpl; lia |]. split; [simpl; lia |]. split; [lia |].
  split; [reflexivity |]. split; [lia |].
  split; [reflexivity |]. split; [reflexivity |].
  split; [reflexivity |]. split; [reflexivity |].
  split; [left; reflexivity |]. split; [reflexivity |].
  split; [exact Hw |]. split; [exact Hh |].
  apply (GaussianBlur_returns (ext := debug_build) 30 (MkContext 16384)
           example_source None (IRect.MakeWH 200 200)
           (IRect.MakeXYWH 50 50 100 100)
           (S754_finite false 10485760 (-20)) F32.one kClamp_Mode 2%nat
           kExact 14);
    [simpl; lia | simpl; lia | lia | reflexivity | lia | reflexivity
    | reflexivity | reflexivity | reflexivity | left; reflexivity
    | reflexivity | exact Hw | exact Hh].
Defined.

(** *** The radius check of the planner *)






(** ** The path through the orchestrator, from the plan to the result *)

Lemma clean_forallb l :
  clean l -> forallb (fun e => negb (is_failure e)) l = true.
Proof.
  intros H. apply forallb_forall. intros e He.
  unfold clean in H. rewrite Forall_forall in H. now rewrite (H e He).
Qed.

Lemma prefix_of_nil {A} (l : list A) : prefix_of l [] -> l = [].
Proof. intros [rest H]. symmetry in H. now apply app_eq_nil in H. Qed.

(** [H] says that a trace holding a refused request is clean. *)
Ltac refused H :=
  exfalso; apply clean_forallb in H; rewrite ?forallb_app in H;
  cbn [forallb is_failure negb andb] in H;
  repeat first [ rewrite andb_false_r in H | rewrite andb_true_r in H
               | progress cbn [andb] in H ];
  discriminate H.

(** A part of a clean trace is clean; [H] says the whole trace is. *)
Ltac clean_part H :=
  let e := fresh "e" in
  let He := fresh "He" in
  apply Forall_forall; intros e He;
  unfold clean in H; rewrite Forall_forall in H; apply H;
  rewrite ?in_app_iff; tauto.

Section Completion.

Context {ext : Externals}.

(** With no request refused, the call does not return null. *)
Let completes {A} (o : outcome (option A)) (l : list GpuEvent) : Prop :=
  clean l -> o <> Returned None.

Ltac complete_leaf :=
  let Hc := fresh "Hc" in
  let E := fresh "E" in
  intros Hc E; first [discriminate E | refused Hc].

Lemma convolve_gaussian_2d_completes proxy srcBounds srcOffset radiusX
    radiusY sigmaX sigmaY mode dstII dstFit :
  sat (convolve_gaussian_2d proxy srcBounds srcOffset radiusX radiusY sigmaX
         sigmaY mode dstII dstFit) completes.
Proof. unfold convolve_gaussian_2d, completes. wp; complete_leaf. Qed.

Lemma convolve_gaussian_completes proxy srcRect srcOffset direction radius
    sigma srcBounds mode dstII fit :
  sat (convolve_gaussian proxy srcRect srcOffset direction radius sigma
         srcBounds mode dstII fit) completes.
Proof.
  unfold convolve_gaussian, clear_unless_empty, convolve_gaussian_1d,
    completes.
  wp; complete_leaf.
Qed.

Lemma reexpand_completes src localSrcBounds scaleFactorX scaleFactorY mode
    dstII fit :
  sat (reexpand src localSrcBounds scaleFactorX scaleFactorY mode dstII fit)
    completes.
Proof. unfold reexpand, completes. wp; complete_leaf. Qed.

Lemma decimate_loop_completes fuel : forall contentRect scaleFactorX
    scaleFactorY mode config dstII i vars,
  sat (decimate_loop fuel contentRect scaleFactorX scaleFactorY mode config
         dstII i vars)
    (fun o l => clean l -> forall off, o <> Returned (LoopReturnedNull off)).
Proof.
  induction fuel as [| fuel IH]; intros;
    cbn [decimate_loop]; unfold shrink_irect_by_2; wp;
    try solve [intros Hc off E; first [discriminate E | refused Hc]];
    (eapply sat_conseq; [apply IH |]); cbv beta;
    intros o l H Hc; apply H; clean_part Hc.
Qed.

Lemma decimate_completes fuel src srcOffset contentRect scaleFactorX
    scaleFactorY willBeXFiltering willBeYFiltering radiusX radiusY mode dstII :
  sat (decimate fuel src srcOffset contentRect scaleFactorX scaleFactorY
         willBeXFiltering willBeYFiltering radiusX radiusY mode dstII)
    (fun o l => clean l -> forall off c, o <> Returned (None, off, c)).
Proof.
  unfold decimate. apply sat_bind, sat_emit.
  apply sat_bind, sat_SkASSERT; [intros _ | intros _ _ _ ? ? [=]].
  apply sat_bind, sat_SkASSERT; [intros _ | intros _ _ _ ? ? [=]].
  apply sat_bind. eapply sat_conseq; [apply get_blur_config_spec |].
  cbv beta. intros o0 l0 [-> [-> | ->]]; [intros _ ? ? [=] |].
  cbv beta iota zeta. apply sat_bind.
  eapply sat_conseq; [apply decimate_loop_completes |].
  cbv beta. intros o l H.
  destruct o as [[vars' | off] | | |]; cbv beta iota zeta;
    try solve [intros _ ? ? [=]].
  - wp; try solve [intros ? ? ? [=]];
      intros Hc ? ? E; first [discriminate E | refused Hc].
  - apply sat_ret. intros Hc. exfalso.
    apply (H ltac:(clean_part Hc) off). reflexivity.
Qed.

(** A pass with a positive sigma leaves a surface; one that is skipped
    leaves the variables as they were. *)
Let pass_completes (sigma : float) (vars : BlurVars)
    (o : outcome (option BlurVars)) (l : list GpuEvent) : Prop :=
  clean l ->
  o <> Returned None /\
  forall vars', o = Returned (Some vars') ->
    if F32.gtb sigma F32.zero
    then bv_dstRenderTargetContext vars' <> None
    else vars' = vars.

Lemma x_pass_completes sigmaX sigmaY radiusX radiusY mode finalDestII xFit
    vars :
  sat (x_pass sigmaX sigmaY radiusX radiusY mode finalDestII xFit vars)
    (pass_completes sigmaX vars).
Proof.
  unfold x_pass, pass_completes. destruct (F32.gtb sigmaX F32.zero).
  2:{ apply sat_ret. intros _. split; [discriminate | now intros ? [= <-]]. }
  apply sat_bind. eapply sat_conseq; [apply convolve_gaussian_completes |].
  unfold completes. cbv beta. intros o l H.
  destruct o as [[dst |] | | |];
    try solve [intros _; split; [discriminate | intros ? [=]]].
  - wp; intros Hc;
      (split; [ intros E; first [discriminate E | refused Hc]
              | intros ? [=]; subst; first [discriminate | refused Hc] ]).
  - apply sat_ret. intros Hc. exfalso.
    now apply (H ltac:(clean_part Hc)).
Qed.

Lemma y_pass_completes sigmaY radiusY mode finalDestII yFit vars :
  sat (y_pass sigmaY radiusY mode finalDestII yFit vars)
    (pass_completes sigmaY vars).
Proof.
  unfold y_pass, pass_completes. destruct (F32.gtb sigmaY F32.zero).
  2:{ apply sat_ret. intros _. split; [discriminate | now intros ? [= <-]]. }
  apply sat_bind. eapply sat_conseq; [apply convolve_gaussian_completes |].
  unfold completes. cbv beta. intros o l H.
  destruct o as [[dst |] | | |];
    try solve [intros _; split; [discriminate | intros ? [=]]].
  - wp; intros Hc;
      (split; [ intros E; first [discriminate E | refused Hc]
              | intros ? [=]; subst; first [discriminate | refused Hc] ]).
  - apply sat_ret. intros Hc. exfalso.
    now apply (H ltac:(clean_part Hc)).
Qed.

(** A planned blur in which no request is refused returns null only when
    it has nothing to do: no axis is scaled and no sigma is positive. *)
Lemma blur_planned_completes fuel srcProxy srcBounds srcOffset mode
    finalDestII fit sigmaX scaleFactorX radiusX sigmaY scaleFactorY radiusY :
  sat (blur_planned fuel srcProxy srcBounds srcOffset mode finalDestII fit
         sigmaX scaleFactorX radiusX sigmaY scaleFactorY radiusY)
    (fun o l =>
       clean l -> o = Returned None ->
       (scaleFactorX >? 1) || (scaleFactorY >? 1) = false /\
       F32.gtb sigmaX F32.zero = false /\ F32.gtb sigmaY F32.zero = false).
Proof.
  unfold blur_planned.
  destruct (use_2d_kernel sigmaX sigmaY radiusX radiusY).
  { apply sat_bind, sat_SkASSERT; [intros _ | intros _ _ _ [=]].
    eapply sat_conseq; [apply convolve_gaussian_2d_completes |].
    unfold completes. cbv beta. intros o l H Hc E. now destruct (H Hc). }
  cbv zeta. apply sat_bind.
  eapply sat_conseq with
    (Q := fun o l => clean l -> forall off c, o <> Returned (None, off, c)).
  { destruct ((scaleFactorX >? 1) || (scaleFactorY >? 1)).
    - apply decimate_completes.
    - apply sat_ret. intros _ ? ? [=]. }
  cbv beta. intros o0 l0 H0.
  destruct o0 as [[[[p |] off] lsb] | | |]; try solve [intros _ [=]].
  2:{ apply sat_ret. intros Hc. exfalso.
      now apply (H0 ltac:(clean_part Hc) off lsb). }
  cbv beta iota. apply sat_bind.
  eapply sat_conseq; [apply x_pass_completes |].
  unfold pass_completes. cbv beta. intros o1 l1 H1.
  destruct o1 as [[vars1 |] | | |]; try solve [intros _ [=]].
  2:{ apply sat_ret. intros Hc. exfalso.
      now destruct (H1 ltac:(clean_part Hc)) as [H _]. }
  cbv beta iota. apply sat_bind.
  eapply sat_conseq; [apply y_pass_completes |].
  unfold pass_completes. cbv beta. intros o2 l2 H2.
  destruct o2 as [[vars2 |] | | |]; try solve [intros _ [=]].
  2:{ apply sat_ret. intros Hc. exfalso.
      now destruct (H2 ltac:(clean_part Hc)) as [H _]. }
  cbv beta iota.
  apply sat_bind, sat_SkASSERT; [intros _ | intros _ _ _ [=]].
  apply sat_bind, sat_SkASSERT; [intros _ | intros _ _ _ [=]].
  destruct ((scaleFactorX >? 1) || (scaleFactorY >? 1)).
  - destruct (bv_dstRenderTargetContext vars2) as [dst |];
      [| apply sat_lift; intros _ [=]].
    eapply sat_conseq; [apply reexpand_completes |].
    unfold completes. cbv beta. intros o3 l3 H3 Hc E. exfalso.
    apply H3; [clean_part Hc | exact E].
  - apply sat_ret. intros Hc E. injection E as E.
    assert (Hl1 : clean l1) by clean_part Hc.
    assert (Hl2 : clean l2) by clean_part Hc.
    destruct (H1 Hl1) as [_ V1]. specialize (V1 vars1 eq_refl).
    destruct (H2 Hl2) as [_ V2]. specialize (V2 vars2 eq_refl).
    split; [reflexivity |].
    destruct (F32.gtb sigmaY F32.zero); [congruence |].
    subst vars2.
    destruct (F32.gtb sigmaX F32.zero); [congruence |]. now split.
Qed.

(** The test for the 2-D kernel passed: [convolve_gaussian_2d] is entered,
    unless the assertion on the scale factors stops the run first. *)
Lemma blur_planned_fused_entered fuel srcProxy srcBounds srcOffset mode
    finalDestII fit sigmaX scaleFactorX radiusX sigmaY scaleFactorY radiusY :
  use_2d_kernel sigmaX sigmaY radiusX radiusY = true ->
  sat (blur_planned fuel srcProxy srcBounds srcOffset mode finalDestII fit
         sigmaX scaleFactorX radiusX sigmaY scaleFactorY radiusY)
    (fun o l =>
       stages_of l = [Stage_convolve_gaussian_2d] \/
       (o = AssertFailed /\ l = [])).
Proof.
  intros Hyes. unfold blur_planned. rewrite Hyes.
  apply sat_bind, sat_SkASSERT.
  - intros _. eapply sat_conseq; [apply convolve_gaussian_2d_stage |].
    cbv beta. intros o l Hl. now left.
  - intros _ _. now right.
Qed.

(** The test for the 2-D kernel, on the sigmas and radii of a plan. *)
Lemma use_2d_kernel_planned sigmaX sigmaY :
  F32.valid sigmaX = true -> F32.valid sigmaY = true ->
  F32.gtb sigmaX MAX_BLUR_SIGMA = false ->
  F32.gtb sigmaY MAX_BLUR_SIGMA = false ->
  use_2d_kernel sigmaX sigmaY (sigma_radius sigmaX) (sigma_radius sigmaY)
  = true <->
  F32.gtb sigmaX F32.zero = true /\ F32.gtb sigmaY F32.zero = true /\
  (2 * sigma_radius sigmaX + 1) * (2 * sigma_radius sigmaY + 1)
  < MAX_KERNEL_SIZE + 1.
Proof.
  intros Vx Vy Gx Gy. unfold use_2d_kernel.
  rewrite !andb_true_iff, Z.leb_le.
  assert (R : F32.gtb sigmaX F32.zero = true ->
              F32.gtb sigmaY F32.zero = true ->
              kernel_taps (sigma_radius sigmaX) (sigma_radius sigmaY)
              = (2 * sigma_radius sigmaX + 1)
                * (2 * sigma_radius sigmaY + 1)).
  { intros Px Py.
    pose proof (sigma_radius_positive sigmaX Vx Px Gx).
    pose proof (sigma_radius_positive sigmaY Vy Py Gy).
    apply kernel_taps_exact; lia. }
  split.
  - intros [[Px Py] Ht]. rewrite (R Px Py) in Ht. repeat split; auto; lia.
  - intros (Px & Py & Ht). rewrite (R Px Py). repeat split; auto; lia.
Qed.

End Completion.

(** *** No null pointer is dereferenced *)

Section NoNullDeref.

Context {ext : Externals}.

Ltac deref_leaf := solve [discriminate | intros ? [=] | congruence].

(** The loop of [decimate] ends with a surface once it has made a round. *)
Lemma decimate_loop_no_deref fuel : forall contentRect scaleFactorX
    scaleFactorY mode config dstII i vars,
  sat (decimate_loop fuel contentRect scaleFactorX scaleFactorY mode config
         dstII i vars)
    (fun o _ =>
       o <> NullDeref /\
       forall vars', o = Returned (LoopDone vars') ->
         dv_dstRenderTargetContext vars' = None ->
         dv_dstRenderTargetContext vars = None /\
         (i <? scaleFactorX) || (i <? scaleFactorY) = false).
Proof.
  induction fuel as [| fuel IH]; intros; cbn [decimate_loop].
  - destruct ((i <? scaleFactorX) || (i <? scaleFactorY)) eqn:Hc.
    + apply sat_lift. split; [discriminate | intros ? [=]].
    + apply sat_ret. split; [discriminate |]. intros ? [= <-] H. now split.
  - destruct ((i <? scaleFactorX) || (i <? scaleFactorY)) eqn:Hc.
    2:{ apply sat_ret. split; [discriminate |]. intros ? [= <-] H.
        now split. }
    unfold shrink_irect_by_2.
    wp; try solve [split; [discriminate | intros ? [=]]].
    all: eapply sat_conseq; [apply IH |]; cbv beta; intros o l [Hs Hd];
      (split; [exact Hs |]); intros v E Hv;
      destruct (Hd v E Hv) as [Hnone _]; discriminate Hnone.
Qed.

Lemma decimate_no_deref fuel src srcOffset contentRect scaleFactorX
    scaleFactorY willBeXFiltering willBeYFiltering radiusX radiusY mode dstII :
  (scaleFactorX >? 1) || (scaleFactorY >? 1) = true ->
  sat (decimate fuel src srcOffset contentRect scaleFactorX scaleFactorY
         willBeXFiltering willBeYFiltering radiusX radiusY mode dstII)
    (fun o _ => o <> NullDeref).
Proof.
  intros Hs. unfold decimate, get_blur_config.
  wp; try discriminate.
  eapply sat_conseq; [apply decimate_loop_no_deref |].
  cbv beta. intros o l [Hsafe Hd].
  destruct o as [[vars | off] | | |];
    [| wp; discriminate | discriminate | now destruct Hsafe | discriminate].
  destruct (dv_dstRenderTargetContext vars) as [dst |] eqn:Edst.
  - wp; discriminate.
  - exfalso. destruct (Hd vars eq_refl Edst) as [_ Hc].
    rewrite !Z.gtb_ltb in Hs. rewrite Hs in Hc. discriminate Hc.
Qed.

Lemma convolve_gaussian_no_deref proxy srcRect srcOffset direction radius
    sigma srcBounds mode dstII fit :
  sat (convolve_gaussian proxy srcRect srcOffset direction radius sigma
         srcBounds mode dstII fit) (fun o _ => o <> NullDeref).
Proof.
  unfold convolve_gaussian, get_blur_config, clear_unless_empty,
    convolve_gaussian_1d.
  wp; discriminate.
Qed.

Lemma convolve_gaussian_2d_no_deref proxy srcBounds srcOffset radiusX radiusY
    sigmaX sigmaY mode dstII dstFit :
  sat (convolve_gaussian_2d proxy srcBounds srcOffset radiusX radiusY sigmaX
         sigmaY mode dstII dstFit) (fun o _ => o <> NullDeref).
Proof. unfold convolve_gaussian_2d, get_blur_config. wp; discriminate. Qed.

Lemma reexpand_no_deref src localSrcBounds scaleFactorX scaleFactorY mode
    dstII fit :
  sat (reexpand src localSrcBounds scaleFactorX scaleFactorY mode dstII fit)
    (fun o _ => o <> NullDeref).
Proof. unfold reexpand, get_blur_config. wp; discriminate. Qed.

(** After a pass with a positive sigma there is a surface. *)
Let pass_no_deref (sigma : float) (vars : BlurVars)
    (o : outcome (option BlurVars)) : Prop :=
  o <> NullDeref /\
  forall vars', o = Returned (Some vars') ->
    bv_dstRenderTargetContext vars' = None ->
    F32.gtb sigma F32.zero = false /\ bv_dstRenderTargetContext vars = None.

Lemma x_pass_no_deref sigmaX sigmaY radiusX radiusY mode finalDestII xFit
    vars :
  sat (x_pass sigmaX sigmaY radiusX radiusY mode finalDestII xFit vars)
    (fun o _ => pass_no_deref sigmaX vars o).
Proof.
  unfold x_pass, pass_no_deref. destruct (F32.gtb sigmaX F32.zero).
  2:{ apply sat_ret. split; [discriminate |]. intros ? [= <-] H. now split. }
  apply sat_bind. eapply sat_conseq; [apply convolve_gaussian_no_deref |].
  cbv beta. intros o l Hs.
  destruct o as [[dst |] | | |]; try solve [now destruct Hs];
    try solve [split; [discriminate | intros ? [=]]];
    wp; (split; [discriminate |]); intros ? [=]; subst; discriminate.
Qed.

Lemma y_pass_no_deref sigmaY radiusY mode finalDestII yFit vars :
  sat (y_pass sigmaY radiusY mode finalDestII yFit vars)
    (fun o _ => pass_no_deref sigmaY vars o).
Proof.
  unfold y_pass, pass_no_deref. destruct (F32.gtb sigmaY F32.zero).
  2:{ apply sat_ret. split; [discriminate |]. intros ? [= <-] H. now split. }
  apply sat_bind. eapply sat_conseq; [apply convolve_gaussian_no_deref |].
  cbv beta. intros o l Hs.
  destruct o as [[dst |] | | |]; try solve [now destruct Hs];
    try solve [split; [discriminate | intros ? [=]]];
    wp; (split; [discriminate |]); intros ? [=]; subst; discriminate.
Qed.

Lemma blur_planned_no_deref fuel srcProxy srcBounds srcOffset mode finalDestII
    fit sigmaX scaleFactorX radiusX sigmaY scaleFactorY radiusY :
  ((scaleFactorX >? 1) || (scaleFactorY >? 1) = true ->
   F32.gtb sigmaX F32.zero = true \/ F32.gtb sigmaY F32.zero = true) ->
  sat (blur_planned fuel srcProxy srcBounds srcOffset mode finalDestII fit
         sigmaX scaleFactorX radiusX sigmaY scaleFactorY radiusY)
    (fun o _ => o <> NullDeref).
Proof.
  intros Hpos. unfold blur_planned.
  destruct (use_2d_kernel sigmaX sigmaY radiusX radiusY).
  { apply sat_bind. apply sat_SkASSERT; [intros _ | intros _ _; discriminate].
    apply convolve_gaussian_2d_no_deref. }
  cbv zeta. apply sat_bind.
  eapply sat_conseq with (Q := fun o _ => o <> NullDeref).
  { destruct ((scaleFactorX >? 1) || (scaleFactorY >? 1)) eqn:Es.
    - now apply decimate_no_deref.
    - apply sat_ret. discriminate. }
  cbv beta. intros o0 l0 H0.
  destruct o0 as [[[[p |] off] lsb] | | |];
    [| apply sat_ret; discriminate | discriminate | now destruct H0
     | discriminate].
  cbv beta iota. apply sat_bind.
  eapply sat_conseq; [apply x_pass_no_deref |].
  unfold pass_no_deref. cbv beta. intros o1 l1 [S1 H1].
  destruct o1 as [[vars1 |] | | |];
    [| apply sat_ret; discriminate | discriminate | now destruct S1
     | discriminate].
  cbv beta iota. apply sat_bind.
  eapply sat_conseq; [apply y_pass_no_deref |].
  unfold pass_no_deref. cbv beta. intros o2 l2 [S2 H2].
  destruct o2 as [[vars2 |] | | |];
    [| apply sat_ret; discriminate | discriminate | now destruct S2
     | discriminate].
  cbv beta iota.
  apply sat_bind, sat_SkASSERT; [intros _ | intros _ _; discriminate].
  apply sat_bind, sat_SkASSERT; [intros _ | intros _ _; discriminate].
  destruct ((scaleFactorX >? 1) || (scaleFactorY >? 1)) eqn:Es;
    [| apply sat_ret; discriminate].
  destruct (bv_dstRenderTargetContext vars2) as [dst |] eqn:E2;
    [apply reexpand_no_deref |].
  exfalso. destruct (H2 vars2 eq_refl E2) as [Hy E1].
  destruct (H1 vars1 eq_refl E1) as [Hx _].
  destruct (Hpos eq_refl); congruence.
Qed.

(** On a device whose texture limit is below 2^30 a blur dereferences no
    null pointer: an axis that is scaled has a positive sigma, so a pass
    has made a surface before [reexpand] is called on it. *)
Lemma GaussianBlur_no_deref fuel context srcProxy colorSpace dstBounds
    srcBounds sigmaX sigmaY mode at_ fit :
  0 < caps_maxTextureSize context < 2 ^ 30 ->
  F32.valid sigmaX = true -> F32.valid sigmaY = true ->
  sat (GaussianBlur fuel context srcProxy colorSpace dstBounds srcBounds
         sigmaX sigmaY mode at_ fit)
    (fun o _ => o <> NullDeref).
Proof.
  intros HM Vx Vy.
  assert (Hplan : forall sigma e s r,
            F32.valid sigma = true ->
            adjust_sigma fuel sigma (caps_maxTextureSize context)
            = Returned (e, s, r) ->
            (s >? 1) = true -> F32.gtb e F32.zero = true).
  { intros sigma e s r V H Hs. apply adjust_sigma_inv in H.
    destruct H as (E & _ & _). rewrite Z.gtb_ltb in Hs. apply Z.ltb_lt in Hs.
    assert (H2 : F32.gtb e float_two = true).
    { apply (loop_above_two fuel (caps_maxTextureSize context) sigma 1 e s);
        [lia | lia | exact V | lia | exact E | exact Hs]. }
    destruct e as [sg | sg | | sg m ex]; try discriminate;
      destruct sg; try discriminate; reflexivity. }
  unfold GaussianBlur, get_blur_config.
  wp; try discriminate;
    try (match goal with
         | H : adjust_sigma _ _ _ = NullDeref |- _ =>
             unfold adjust_sigma in H;
             destruct (adjust_sigma_loop _ _ _ _) as [[? ?] |];
             [destruct (negb SK_DEBUG || _) |]; discriminate H
         end).
  apply blur_planned_no_deref. intros Hs. apply orb_true_iff in Hs.
  destruct Hs as [Hs | Hs]; [left | right].
  - match goal with
    | H : adjust_sigma _ sigmaX _ = _ |- _ => exact (Hplan _ _ _ _ Vx H Hs)
    end.
  - match goal with
    | H : adjust_sigma _ sigmaY _ = _ |- _ => exact (Hplan _ _ _ _ Vy H Hs)
    end.
Qed.

End NoNullDeref.

Lemma sat_when {ext : Externals} {A} (m : M A) (P : Prop)
    (Q : outcome A -> list GpuEvent -> Prop) :
  (P -> sat m Q) -> sat m (fun o l => P -> Q o l).
Proof. intros H s HP. now apply H. Qed.

(** What a plan returns: a sigma that is a float and is not above 4.0, and
    its radius. *)
Lemma adjust_sigma_planned {ext : Externals} fuel sigma maxTextureSize sigma'
    scaleFactor radius :
  F32.valid sigma = true ->
  adjust_sigma fuel sigma maxTextureSize
  = Returned (sigma', scaleFactor, radius) ->
  F32.valid sigma' = true /\ F32.gtb sigma' MAX_BLUR_SIGMA = false /\
  radius = sigma_radius sigma'.
Proof.
  intros Hv H. apply adjust_sigma_inv in H. destruct H as (E & -> & _).
  split; [exact (loop_valid _ _ _ _ _ _ Hv E) |].
  split; [exact (loop_result_not_above _ _ _ _ _ _ E) | reflexivity].
Qed.

(** C2: the decision between the two paths of [GaussianBlur], for every
    blur whose sigmas are floats. Once the pixel config has a colour type
    and the planner has returned sigmas, scale factors and radii:
    [convolve_gaussian_2d] is entered only if both planned sigmas are
    positive and the tap count (2 radiusX + 1)(2 radiusY + 1) is below the
    threshold MAX_KERNEL_SIZE + 1; when they are, it is the one stage
    entered, unless an assertion stops the run before any stage; when
    they are not, the stages entered are the first stages of the separable
    path (decimation when a scale factor is above 1, a 1-D pass per axis
    with a positive sigma, re-expansion when a scale factor is above 1),
    and all of them, with a surface as the result when a sigma is
    positive, as soon as the run returns and no request was refused.
    Before that point no stage is entered. On a device whose texture
    limit is below 2^30 the run returns, unless an assertion stops it:
    both loops end and no null pointer is dereferenced. *)
Theorem GaussianBlur_dispatch {ext : Externals} fuel context srcProxy
    colorSpace dstBounds srcBounds sigmaX sigmaY mode at_ fit :
  F32.valid sigmaX = true -> F32.valid sigmaY = true ->
  sat (GaussianBlur fuel context srcProxy colorSpace dstBounds srcBounds
         sigmaX sigmaY mode at_ fit)
    (fun o l =>
       let maxTextureSize := caps_maxTextureSize context in
       let config := blur_config (proxy_config srcProxy) colorSpace in
       (forall ct ex sx rx ey sy ry,
          GrPixelConfigToColorType config = Some ct ->
          adjust_sigma fuel sigmaX maxTextureSize = Returned (ex, sx, rx) ->
          adjust_sigma fuel sigmaY maxTextureSize = Returned (ey, sy, ry) ->
          let fused :=
            F32.gtb ex F32.zero = true /\ F32.gtb ey F32.zero = true /\
            (2 * rx + 1) * (2 * ry + 1) < MAX_KERNEL_SIZE + 1 in
          (In (Enter Stage_convolve_gaussian_2d) l -> fused) /\
          (fused ->
           stages_of l = [Stage_convolve_gaussian_2d] \/
           (o = AssertFailed /\ l = [])) /\
          (~ fused ->
           prefix_of (stages_of l) (separable_stages ex ey sx sy) /\
           (clean l -> forall result, o = Returned result ->
              stages_of l = separable_stages ex ey sx sy /\
              (F32.gtb ex F32.zero = true \/ F32.gtb ey F32.zero = true ->
               result <> None)))) /\
       (GrPixelConfigToColorType config = None \/
        (forall p, adjust_sigma fuel sigmaX maxTextureSize <> Returned p) \/
        (forall p, adjust_sigma fuel sigmaY maxTextureSize <> Returned p) ->
        l = []) /\
       (0 < maxTextureSize < 2 ^ 30 -> (30 <= fuel)%nat ->
        o = AssertFailed \/ exists result, o = Returned result)).
Proof.
  intros Vx Vy. cbv zeta.
  assert (Hstop : forall ex sx rx ey sy ry,
            let fused :=
              F32.gtb ex F32.zero = true /\ F32.gtb ey F32.zero = true /\
              (2 * rx + 1) * (2 * ry + 1) < MAX_KERNEL_SIZE + 1 in
            (In (Enter Stage_convolve_gaussian_2d) [] -> fused) /\
            (fused ->
             stages_of [] = [Stage_convolve_gaussian_2d] \/
             (@AssertFailed (option GrRenderTargetContext) = AssertFailed
              /\ @nil GpuEvent = [])) /\
            (~ fused ->
             prefix_of (stages_of []) (separable_stages ex ey sx sy) /\
             (clean [] -> forall result : option GrRenderTargetContext,
                AssertFailed = Returned result ->
                stages_of [] = separable_stages ex ey sx sy /\
                (F32.gtb ex F32.zero = true \/ F32.gtb ey F32.zero = true ->
                 result <> None)))).
  { intros. split; [intros [] |]. split; [intros _; now right |].
    intros _. split; [now eexists | intros _ ? [=]]. }
  eapply sat_conseq.
  { apply sat_and; [apply sat_and |].
    3:{ apply sat_when. intros HM.
        apply (GaussianBlur_no_deref fuel context srcProxy colorSpace
                 dstBounds srcBounds sigmaX sigmaY mode at_ fit HM Vx Vy). }
    2:{ apply sat_when. intros HM. apply sat_when. intros Hf.
        apply (GaussianBlur_fuel fuel context srcProxy colorSpace dstBounds
                 srcBounds sigmaX sigmaY mode at_ fit HM Hf). }
    instantiate (1 := fun o l =>
      (forall ct ex sx rx ey sy ry,
         GrPixelConfigToColorType
           (blur_config (proxy_config srcProxy) colorSpace) = Some ct ->
         adjust_sigma fuel sigmaX (caps_maxTextureSize context)
         = Returned (ex, sx, rx) ->
         adjust_sigma fuel sigmaY (caps_maxTextureSize context)
         = Returned (ey, sy, ry) ->
         (In (Enter Stage_convolve_gaussian_2d) l ->
          F32.gtb ex F32.zero = true /\ F32.gtb ey F32.zero = true /\
          (2 * rx + 1) * (2 * ry + 1) < MAX_KERNEL_SIZE + 1) /\
         (F32.gtb ex F32.zero = true /\ F32.gtb ey F32.zero = true /\
          (2 * rx + 1) * (2 * ry + 1) < MAX_KERNEL_SIZE + 1 ->
          stages_of l = [Stage_convolve_gaussian_2d] \/
          (o = AssertFailed /\ l = [])) /\
         (~ (F32.gtb ex F32.zero = true /\ F32.gtb ey F32.zero = true /\
             (2 * rx + 1) * (2 * ry + 1) < MAX_KERNEL_SIZE + 1) ->
          prefix_of (stages_of l) (separable_stages ex ey sx sy) /\
          (clean l -> forall result, o = Returned result ->
             stages_of l = separable_stages ex ey sx sy /\
             (F32.gtb ex F32.zero = true \/ F32.gtb ey F32.zero = true ->
              result <> None)))) /\
      (GrPixelConfigToColorType
         (blur_config (proxy_config srcProxy) colorSpace) = None \/
       (forall p, adjust_sigma fuel sigmaX (caps_maxTextureSize context)
                  <> Returned p) \/
       (forall p, adjust_sigma fuel sigmaY (caps_maxTextureSize context)
                  <> Returned p) ->
       l = [])).
    unfold GaussianBlur. apply sat_bind.
    eapply sat_conseq; [apply get_blur_config_spec |].
    cbv beta. intros o0 l0 [-> [-> | ->]].
    { split; [intros; apply Hstop | reflexivity]. }
    destruct (GrPixelConfigToColorType
                (blur_config (proxy_config srcProxy) colorSpace))
      as [ct |] eqn:Hct.
    2:{ apply sat_ret. split; [intros ? ? ? ? ? ? ? [=] | reflexivity]. }
    cbv beta iota zeta. apply sat_bind, sat_lift.
    destruct (adjust_sigma fuel sigmaX (caps_maxTextureSize context))
      as [[[ex sx] rx] | | |] eqn:Ex;
      try solve [split; [intros ? ? ? ? ? ? ? _ [=] | reflexivity]].
    cbv beta iota. apply sat_bind, sat_lift.
    destruct (adjust_sigma fuel sigmaY (caps_maxTextureSize context))
      as [[[ey sy] ry] | | |] eqn:Ey;
      try solve [split; [intros ? ? ? ? ? ? ? _ _ [=] | reflexivity]].
    cbv beta iota.
    destruct (adjust_sigma_planned _ _ _ _ _ _ Vx Ex) as (Vex & Gex & ->).
    destruct (adjust_sigma_planned _ _ _ _ _ _ Vy Ey) as (Vey & Gey & ->).
    pose proof (use_2d_kernel_planned ex ey Vex Vey Gex Gey) as Huse.
    apply sat_bind, sat_SkASSERT.
    2:{ intros _ _. split.
        - intros ? ? ? ? ? ? ? _ [= <- <- <-] [= <- <- <-]. apply Hstop.
        - reflexivity. }
    intros _. cbn [app].
    destruct (use_2d_kernel ex ey (sigma_radius ex) (sigma_radius ey)) eqn:Hu.
    - eapply sat_conseq; [now apply blur_planned_fused_entered |].
      cbv beta. intros o l Hl.
      assert (Hfused := proj1 Huse eq_refl).
      split.
      + intros ? ? ? ? ? ? ? _ [= <- <- <-] [= <- <- <-].
        split; [intros _; exact Hfused |].
        split; [intros _; exact Hl | intros Hn; now destruct Hn].
      + intros [H | [H | H]]; [discriminate H | |];
          exfalso; eapply H; reflexivity.
    - eapply sat_conseq.
      { apply sat_and;
          [ apply blur_planned_separable; exact Hu
          | apply blur_planned_completes ]. }
      cbv beta. intros o l [[Hp Hr] Hc].
      assert (Hnot : ~ (F32.gtb ex F32.zero = true /\
                        F32.gtb ey F32.zero = true /\
                        (2 * sigma_radius ex + 1) * (2 * sigma_radius ey + 1)
                        < MAX_KERNEL_SIZE + 1)).
      { intros H. apply Huse in H. congruence. }
      split.
      + intros ? ? ? ? ? ? ? _ [= <- <- <-] [= <- <- <-].
        split.
        { intros Hin. exfalso. apply In_Enter_stages in Hin.
          destruct Hp as [rest Hrest].
          apply (separable_stages_not_2d ex ey sx sy).
          rewrite Hrest. apply in_or_app. now left. }
        split; [intros H; now destruct Hnot |].
        intros _. split; [exact Hp |].
        intros Hcl result ->. destruct result as [r |].
        * split; [now apply (Hr r) | discriminate].
        * destruct (Hc Hcl eq_refl) as (Es & Px & Py).
          split.
          -- unfold separable_stages in *. rewrite Es, Px, Py in *.
             cbn [app] in *. now apply prefix_of_nil.
          -- intros [H | H]; congruence.
      + intros [H | [H | H]]; [discriminate H | |];
          exfalso; eapply H; reflexivity. }
  cbv beta. intros o l [[[H1 H2] H3] H4].
  split; [exact H1 |]. split; [exact H2 |].
  intros HM Hf. specialize (H3 HM Hf). specialize (H4 HM).
  destruct o as [result | | |]; [right; now exists result | now left | |];
    contradiction.
Qed.

(** ** Where a Repeat blur samples as Decal *)

Lemma domain_modes_app l1 l2 :
  domain_modes (l1 ++ l2) = domain_modes l1 ++ domain_modes l2.
Proof. unfold domain_modes. now rewrite filter_app, map_app. Qed.

Lemma no_domain_modes l :
  Forall (fun e => domain_mode_of e = None) l ->
  Forall (eq None) (domain_modes l).
Proof.
  unfold domain_modes. induction 1 as [| e l He _ IH]; [constructor |].
  cbn [filter]. destruct (is_draw e); [| exact IH].
  cbn [map]. constructor; [now rewrite He | exact IH].
Qed.

Lemma no_draw_modes l :
  Forall (fun e => is_draw e = false) l -> domain_modes l = [].
Proof.
  unfold domain_modes. induction 1 as [| e l He _ IH]; [reflexivity |].
  cbn [filter]. now rewrite He.
Qed.

(** An [int] doubled is not 1. *)
Lemma imul_2_not_1 i : (imul i 2 =? 1) = false.
Proof.
  apply Z.eqb_neq. unfold imul.
  destruct (wrap32_multiple i 1 ltac:(lia)) as [q Hq].
  change (2 ^ 1) with 2 in Hq. rewrite Hq. lia.
Qed.

Section DecalStages.

Context {ext : Externals}.

Let no_domain (e : GpuEvent) : Prop := domain_mode_of e = None.
Let no_draw (e : GpuEvent) : Prop := is_draw e = false.

Ltac plain_leaf := reflexivity.

(** Computes the domain modes of the events around the trace [l]. *)
Ltac modes_norm l :=
  rewrite ?domain_modes_app;
  let ml := fresh "ml" in
  set (ml := domain_modes l) in *;
  cbn [domain_modes filter is_draw map domain_mode_of paint_processor app];
  rewrite ?app_nil_r; subst ml.
Ltac plain_call :=
  first [ apply shrink_irect_by_2_quiet | apply get_blur_config_quiet ].

Lemma convolve_gaussian_plain proxy srcRect srcOffset direction radius sigma
    srcBounds mode dstII fit :
  sat (convolve_gaussian proxy srcRect srcOffset direction radius sigma
         srcBounds mode dstII fit)
    (fun _ l => Forall no_domain l).
Proof.
  unfold convolve_gaussian, clear_unless_empty, convolve_gaussian_1d.
  all_events plain_leaf plain_call.
Qed.

Lemma convolve_gaussian_2d_plain proxy srcBounds srcOffset radiusX radiusY
    sigmaX sigmaY mode dstII dstFit :
  sat (convolve_gaussian_2d proxy srcBounds srcOffset radiusX radiusY sigmaX
         sigmaY mode dstII dstFit)
    (fun _ l => Forall no_domain l).
Proof. unfold convolve_gaussian_2d. all_events plain_leaf plain_call. Qed.

Lemma x_pass_plain sigmaX sigmaY radiusX radiusY mode finalDestII xFit vars :
  sat (x_pass sigmaX sigmaY radiusX radiusY mode finalDestII xFit vars)
    (fun _ l => Forall no_domain l).
Proof.
  unfold x_pass.
  all_events plain_leaf
    ltac:(first [plain_call | apply convolve_gaussian_plain]).
Qed.

Lemma y_pass_plain sigmaY radiusY mode finalDestII yFit vars :
  sat (y_pass sigmaY radiusY mode finalDestII yFit vars)
    (fun _ l => Forall no_domain l).
Proof.
  unfold y_pass.
  all_events plain_leaf
    ltac:(first [plain_call | apply convolve_gaussian_plain]).
Qed.

(** After the first halving step, the steps of a Repeat decimation sample
    through no domain. *)
Lemma decimate_loop_later_plain fuel : forall contentRect scaleFactorX
    scaleFactorY config dstII i vars,
  (i =? 1) = false ->
  sat (decimate_loop fuel contentRect scaleFactorX scaleFactorY kRepeat_Mode
         config dstII i vars)
    (fun _ l => Forall no_domain l).
Proof.
  induction fuel as [| fuel IH]; intros ? ? ? ? ? i vars Hi;
    cbn [decimate_loop GrTextureDomain.eqb negb andb]; rewrite ?Hi;
    all_events plain_leaf
      ltac:(first [plain_call | apply IH; apply imul_2_not_1]).
Qed.

(** The first halving step of a Repeat decimation, when it draws, samples
    through a Decal domain. *)
Lemma decimate_loop_first_decal fuel contentRect scaleFactorX scaleFactorY
    config dstII vars :
  sat (decimate_loop fuel contentRect scaleFactorX scaleFactorY kRepeat_Mode
         config dstII 1 vars)
    (fun o l =>
       decal_first (domain_modes l) \/
       (domain_modes l = [] /\
        forall vars', o = Returned (LoopDone vars') -> vars' = vars)).
Proof.
  destruct fuel as [| fuel];
    cbn [decimate_loop GrTextureDomain.eqb negb andb Z.eqb Pos.eqb].
  { wp; right; (split; [reflexivity |]); intros ? [=]; congruence. }
  destruct ((1 <? scaleFactorX) || (1 <? scaleFactorY));
    [| apply sat_ret; right; split; [reflexivity | now intros ? [= <-]]].
  apply sat_bind.
  eapply sat_conseq;
    [apply (shrink_irect_by_2_quiet (fun _ => False)) |].
  cbv beta. intros o0 l0 H0.
  assert (E0 : l0 = []) by (destruct H0 as [| ? ? []]; reflexivity).
  subst l0. cbn [app].
  destruct o0 as [dstRect | | |];
    try (right; split; [reflexivity | intros ? [=]]).
  apply sat_bind, sat_makeDeferredRenderTargetContext;
    [intros id | apply sat_ret; right; split; [reflexivity | intros ? [=]]].
  cbv beta iota zeta. apply sat_bind.
  unfold fillRectToRect. apply sat_emit.
  apply sat_bind, sat_asTextureProxyRef; cbv beta iota.
  - eapply sat_conseq;
      [apply decimate_loop_later_plain, imul_2_not_1 |].
    cbv beta. intros o l Hl. left.
    rewrite !domain_modes_app. cbn [domain_modes filter is_draw map app].
    eexists. split; [reflexivity |]. now apply no_domain_modes.
  - apply sat_ret. left. eexists. split; [reflexivity | constructor].
Qed.

Lemma decimate_repeat_first_decal fuel src srcOffset contentRect scaleFactorX
    scaleFactorY willBeXFiltering willBeYFiltering radiusX radiusY dstII :
  sat (decimate fuel src srcOffset contentRect scaleFactorX scaleFactorY
         willBeXFiltering willBeYFiltering radiusX radiusY kRepeat_Mode dstII)
    (fun o l =>
       (domain_modes l = [] \/ decal_first (domain_modes l)) /\
       forall p off c, o = Returned (Some p, off, c) ->
                       decal_first (domain_modes l)).
Proof.
  unfold decimate. apply sat_bind, sat_emit.
  apply sat_bind, sat_SkASSERT;
    [intros _ | intros _ _; split; [now left | intros ? ? ? [=]]].
  apply sat_bind, sat_SkASSERT;
    [intros _ | intros _ _; split; [now left | intros ? ? ? [=]]].
  apply sat_bind. eapply sat_conseq; [apply get_blur_config_spec |].
  cbv beta. intros o0 l0 [-> [-> | ->]];
    [split; [now left | intros ? ? ? [=]] |].
  cbv beta iota zeta. apply sat_bind.
  eapply sat_conseq; [apply decimate_loop_first_decal |].
  cbv beta. intros o l H.
  assert (Hweak : domain_modes l = [] \/ decal_first (domain_modes l)).
  { destruct H as [H | [H _]]; [now right | now left]. }
  destruct o as [[vars' | off] | | |]; cbv beta iota zeta.
  - destruct H as [H | [H Hv]].
    + wp; modes_norm l; (split; [now right | intros; exact H]).
    + specialize (Hv vars' eq_refl). subst vars'.
      cbn [dv_dstRenderTargetContext].
      wp; modes_norm l; (split; [now left | intros ? ? ? [=]]).
  - apply sat_ret. modes_norm l. split; [exact Hweak | intros ? ? ? [=]].
  - modes_norm l. split; [exact Hweak | intros ? ? ? [=]].
  - modes_norm l. split; [exact Hweak | intros ? ? ? [=]].
  - modes_norm l. split; [exact Hweak | intros ? ? ? [=]].
Qed.

Lemma reexpand_repeat_one_decal src localSrcBounds scaleFactorX scaleFactorY
    dstII fit :
  sat (reexpand src localSrcBounds scaleFactorX scaleFactorY kRepeat_Mode
         dstII fit)
    (fun o l =>
       (domain_modes l = [] \/ domain_modes l = [Some kDecal_Mode]) /\
       forall r, o = Returned (Some r) ->
                 domain_modes l = [Some kDecal_Mode]).
Proof.
  unfold reexpand. cbn [GrTextureDomain.eqb negb].
  wp; cbn; (split; [first [now left | now right] |]);
    first [intros; reflexivity | intros ? [=]].
Qed.

End DecalStages.

Section DecalBlur.

Context {ext : Externals}.

Let no_domain (e : GpuEvent) : Prop := domain_mode_of e = None.

(** The domains of a planned Repeat blur that returns a surface: when it
    decimates, the first draw (the first halving step) and the last draw
    (the re-expansion) sample through a Decal domain and no other draw
    samples through a domain; when it does not, no draw does. *)
Lemma blur_planned_repeat_modes fuel srcProxy srcBounds srcOffset finalDestII
    fit sigmaX scaleFactorX radiusX sigmaY scaleFactorY radiusY :
  sat (blur_planned fuel srcProxy srcBounds srcOffset kRepeat_Mode finalDestII
         fit sigmaX scaleFactorX radiusX sigmaY scaleFactorY radiusY)
    (fun o l =>
       forall r, o = Returned (Some r) ->
         if negb (use_2d_kernel sigmaX sigmaY radiusX radiusY)
            && ((scaleFactorX >? 1) || (scaleFactorY >? 1))
         then decal_first_and_last (domain_modes l)
         else Forall (eq None) (domain_modes l)).
Proof.
  unfold blur_planned.
  destruct (use_2d_kernel sigmaX sigmaY radiusX radiusY); cbn [negb andb].
  { apply sat_bind, sat_SkASSERT; [intros _ | intros _ _ ? [=]].
    eapply sat_conseq; [apply convolve_gaussian_2d_plain |].
    cbv beta. intros o l Hl r _. now apply no_domain_modes. }
  cbv zeta.
  destruct ((scaleFactorX >? 1) || (scaleFactorY >? 1)).
  2:{ eapply sat_conseq with (Q := fun _ l => Forall no_domain l).
      - all_events ltac:(reflexivity)
          ltac:(first [ apply get_blur_config_quiet
                      | apply x_pass_plain | apply y_pass_plain ]).
      - cbv beta. intros o l Hl r _. now apply no_domain_modes. }
  apply sat_bind.
  eapply sat_conseq; [apply decimate_repeat_first_decal |].
  cbv beta. intros o0 l0 [_ H0].
  destruct o0 as [[[[p |] off] lsb] | | |]; try (intros ? [=]);
    [| apply sat_ret; intros ? [=]].
  destruct (H0 p off lsb eq_refl) as (rest & E0 & Hrest).
  cbv beta iota. apply sat_bind.
  eapply sat_conseq; [apply x_pass_plain |].
  cbv beta. intros o1 l1 H1.
  destruct o1 as [[vars1 |] | | |]; try (intros ? [=]);
    [| apply sat_ret; intros ? [=]].
  cbv beta iota. apply sat_bind.
  eapply sat_conseq; [apply y_pass_plain |].
  cbv beta. intros o2 l2 H2.
  destruct o2 as [[vars2 |] | | |]; try (intros ? [=]);
    [| apply sat_ret; intros ? [=]].
  cbv beta iota.
  apply sat_bind, sat_SkASSERT; [intros _ | intros _ _ ? [=]].
  apply sat_bind, sat_SkASSERT; [intros _ | intros _ _ ? [=]].
  destruct (bv_dstRenderTargetContext vars2) as [dst |];
    [| apply sat_lift; intros ? [=]].
  eapply sat_conseq; [apply reexpand_repeat_one_decal |].
  cbv beta. intros o3 l3 [_ H3] r ->.
  rewrite !domain_modes_app, (H3 r eq_refl), E0.
  change (domain_modes []) with (@nil (option Mode)). cbn [app].
  exists (rest ++ domain_modes l1 ++ domain_modes l2).
  split; [cbn [app]; now rewrite <- !app_assoc |].
  apply Forall_app. split; [exact Hrest |].
  apply Forall_app. split; now apply no_domain_modes.
Qed.

Lemma separable_stages_decimate sigmaX sigmaY scaleFactorX scaleFactorY :
  In Stage_decimate (separable_stages sigmaX sigmaY scaleFactorX scaleFactorY)
  <-> (scaleFactorX >? 1) || (scaleFactorY >? 1) = true.
Proof.
  unfold separable_stages.
  destruct ((scaleFactorX >? 1) || (scaleFactorY >? 1)),
    (F32.gtb sigmaX F32.zero), (F32.gtb sigmaY F32.zero); cbn;
    intuition discriminate.
Qed.

Lemma blur_planned_repeat_decimated fuel srcProxy srcBounds srcOffset
    finalDestII fit sigmaX scaleFactorX radiusX sigmaY scaleFactorY radiusY :
  sat (blur_planned fuel srcProxy srcBounds srcOffset kRepeat_Mode finalDestII
         fit sigmaX scaleFactorX radiusX sigmaY scaleFactorY radiusY)
    (fun o l =>
       forall r, o = Returned (Some r) ->
         (In (Enter Stage_decimate) l ->
          decal_first_and_last (domain_modes l)) /\
         (~ In (Enter Stage_decimate) l ->
          Forall (eq None) (domain_modes l))).
Proof.
  destruct (use_2d_kernel sigmaX sigmaY radiusX radiusY) eqn:Hu.
  - eapply sat_conseq.
    { apply sat_and;
        [ apply blur_planned_fused; exact Hu
        | apply blur_planned_repeat_modes ]. }
    cbv beta. intros o l [Hst Hm] r ->. specialize (Hm r eq_refl).
    rewrite Hu in Hm. cbn [negb andb] in Hm.
    split; [| intros _; exact Hm].
    intros Hin. apply In_Enter_stages in Hin.
    rewrite Hst in Hin by discriminate.
    destruct Hin as [Hin | []]. discriminate Hin.
  - eapply sat_conseq.
    { apply sat_and;
        [ apply blur_planned_separable; exact Hu
        | apply blur_planned_repeat_modes ]. }
    cbv beta. intros o l [[_ Hst] Hm] r ->. specialize (Hm r eq_refl).
    specialize (Hst r eq_refl).
    rewrite Hu in Hm. cbn [negb andb] in Hm.
    destruct ((scaleFactorX >? 1) || (scaleFactorY >? 1)) eqn:Es.
    + split; [intros _; exact Hm |].
      intros Hn. exfalso. apply Hn, In_Enter_stages. rewrite Hst.
      apply separable_stages_decimate. exact Es.
    + split; [| intros _; exact Hm].
      intros Hin. apply In_Enter_stages in Hin. rewrite Hst in Hin.
      apply separable_stages_decimate in Hin. congruence.
Qed.

End DecalBlur.

(** C9: a blur with edge mode Repeat samples as Decal where it scales.
    In [decimate] the first halving step, whenever it draws, samples
    through a texture domain in Decal mode, and no later step samples
    through a domain; in [reexpand] the draw, whenever it is made, samples
    through a texture domain in Decal mode. So in [GaussianBlur] no draw
    samples through a domain in a mode other than Decal, and a blur that
    returns a surface after decimating has sampled through a Decal domain
    in its first draw (the first halving step) and in its last draw (the
    re-expansion), and through no domain in between; one that returns a
    surface without decimating has sampled through no domain. *)
Theorem GaussianBlur_repeat_samples_as_decal {ext : Externals} fuel context
    srcProxy colorSpace dstBounds srcBounds sigmaX sigmaY at_ fit
    src srcOffset contentRect scaleFactorX scaleFactorY willBeXFiltering
    willBeYFiltering radiusX radiusY dstII
    srcRenderTargetContext localSrcBounds :
  sat (decimate fuel src srcOffset contentRect scaleFactorX scaleFactorY
         willBeXFiltering willBeYFiltering radiusX radiusY kRepeat_Mode dstII)
    (fun o l =>
       (domain_modes l = [] \/ decal_first (domain_modes l)) /\
       forall p off c, o = Returned (Some p, off, c) ->
                       decal_first (domain_modes l)) /\
  sat (reexpand srcRenderTargetContext localSrcBounds scaleFactorX
         scaleFactorY kRepeat_Mode dstII fit)
    (fun o l =>
       (domain_modes l = [] \/ domain_modes l = [Some kDecal_Mode]) /\
       forall r, o = Returned (Some r) ->
                 domain_modes l = [Some kDecal_Mode]) /\
  sat (GaussianBlur fuel context srcProxy colorSpace dstBounds srcBounds
         sigmaX sigmaY kRepeat_Mode at_ fit)
    (fun o l =>
       (forall e mode, In e l -> domain_mode_of e = Some mode ->
                       mode = kDecal_Mode) /\
       forall r, o = Returned (Some r) ->
         (In (Enter Stage_decimate) l ->
          decal_first_and_last (domain_modes l)) /\
         (~ In (Enter Stage_decimate) l ->
          Forall (eq None) (domain_modes l))).
Proof.
  split; [apply decimate_repeat_first_decal |].
  split; [apply reexpand_repeat_one_decal |].
  apply sat_and; [apply GaussianBlur_repeat_all_decal |].
  unfold GaussianBlur, get_blur_config.
  wp; try solve [intros ? [=]].
  cbn [app]. apply blur_planned_repeat_decimated.
Qed.

(** ** The planner's radius check, the dispatch and the Decal sampling at
    a concrete blur

    A blur of sigma 16.0 on both axes, on a device whose texture limit is
    16384, in a debug build: the plan is sigma 4.0, scale factor 4 and
    radius 12 on each axis, which makes 625 taps. *)


(** The run does not enter [convolve_gaussian_2d]; no request is refused,
    and it goes down the whole separable path and returns a surface. *)
Lemma GaussianBlur_dispatch_witness :
  F32.valid (F32.of_int 16) = true /\
  let run :=
    example_blur (ext := debug_build) (F32.of_int 16) (F32.of_int 16)
      kClamp_Mode in
  ~ In (Enter Stage_convolve_gaussian_2d) (events_of run) /\
  stages_of (events_of run)
  = [Stage_decimate; Stage_convolve_gaussian kX; Stage_convolve_gaussian kY;
     Stage_reexpand] /\
  forall result, outcome_of run = Returned result -> result <> None.
Proof.
  split; [reflexivity |]. cbv zeta.
  destruct (GaussianBlur_dispatch (ext := debug_build) 30 (MkContext 16384)
              example_source None (IRect.MakeWH 200 200)
              (IRect.MakeXYWH 50 50 100 100) (F32.of_int 16) (F32.of_int 16)
              kClamp_Mode 2%nat kExact eq_refl eq_refl initial_gpu)
    as [H _].
  destruct (H 4%nat MAX_BLUR_SIGMA 4 12 MAX_BLUR_SIGMA 4 12 eq_refl
              ltac:(vm_compute; reflexivity) ltac:(vm_compute; reflexivity))
    as (Hin & _ & Hsep).
  assert (Hnot : ~ (F32.gtb MAX_BLUR_SIGMA F32.zero = true /\
                    F32.gtb MAX_BLUR_SIGMA F32.zero = true /\
                    (2 * 12 + 1) * (2 * 12 + 1)
                    < MAX_KERNEL_SIZE (Externals := debug_build) + 1)).
  { intros (_ & _ & Ht). vm_compute in Ht. discriminate Ht. }
  destruct (Hsep Hnot) as [_ Hdone].
  assert (Hclean : clean
                     (events_of
                        (example_blur (ext := debug_build) (F32.of_int 16)
                           (F32.of_int 16) kClamp_Mode))).
  { vm_compute. repeat constructor. }
  split; [intros Hi; exact (Hnot (Hin Hi)) |]. split.
  - assert (Hres : exists r,
               outcome_of
                 (example_blur (ext := debug_build) (F32.of_int 16)
                    (F32.of_int 16) kClamp_Mode) = Returned r).
    { vm_compute. eexists. reflexivity. }
    destruct Hres as [r Hr]. destruct (Hdone Hclean r Hr) as [Hst _].
    exact Hst.
  - intros result Hr. destruct (Hdone Hclean result Hr) as [_ Hn].
    apply Hn. left. reflexivity.
Defined.

(** The same blur with edge mode Repeat: of its nine draws the first, in
    [decimate], and the last, in [reexpand], sample through a Decal
    domain. *)
Lemma GaussianBlur_repeat_samples_as_decal_witness :
  let run :=
    example_blur (ext := debug_build) (F32.of_int 16) (F32.of_int 16)
      kRepeat_Mode in
  domain_modes (events_of run)
  = [Some kDecal_Mode; None; None; None; None; None; None; None;
     Some kDecal_Mode] /\
  decal_first_and_last (domain_modes (events_of run)).
Proof.
  cbv zeta. split; [vm_compute; reflexivity |].
  destruct (GaussianBlur_repeat_samples_as_decal (ext := debug_build) 30
              (MkContext 16384) example_source None (IRect.MakeWH 200 200)
              (IRect.MakeXYWH 50 50 100 100) (F32.of_int 16) (F32.of_int 16)
              2%nat kExact example_source (MkIPoint 0 0)
              (IRect.MakeXYWH 50 50 100 100) 4 4 true true 12 12
              (MkImageInfo 200 200 4%nat 2%nat None)
              (MkRTC 7 kApprox 50 50 kRGBA_8888_GrPixelConfig None)
              (IRect.MakeWH 50 50))
    as (_ & _ & H).
  destruct (H initial_gpu) as [_ Hr].
  assert (Hres : exists r,
             outcome_of
               (example_blur (ext := debug_build) (F32.of_int 16)
                  (F32.of_int 16) kRepeat_Mode) = Returned (Some r)).
  { vm_compute. eexists. reflexivity. }
  destruct Hres as [r Hres]. destruct (Hr r Hres) as [Hd _].
  apply Hd. vm_compute. left. reflexivity.
Defined.
